(** * The chunked long-form audio pipeline

    A shallow embedding of the audio pipeline of the studio:
    - [utils/audioUtils.ts]: [decodeAudioData], [combineAudioBuffers],
      [mixAudioBuffers], [exportWAV] (samples and bytes), [exportMP3] with the
      worker of [mp3Worker.js], and [formatTime];
    - [services/geminiService.ts]: [parseGeminiError] (the classification part)
      and [callGeminiApiWithRetries];
    - [components/AudioGenerator.tsx]: the body of [handleGenerateAudio]
      (segmentation, batch dispatch, assembly).

    Conventions of the embedding.
    - A JavaScript exception is a value [Throw e] of the type [result].
    - Numbers are rationals ([Q]). The operations of [mixAudioBuffers] and of
      [formatTime] on doubles are followed by [roundDouble], and the store
      into a [Float32Array] by [Math_fround]. The other products and quotients
      are exact for the values they are applied to (a sample of a
      [Float32Array] times 32767 or 32768, a 16-bit integer divided by 32768)
      and are written without rounding. [NaN] and the infinities are not
      modelled: the statements bound their operands so that none arises.
    - A string of the segmenter is the list of its UTF-16 code units ([N]).
    - Delays are integers (milliseconds). *)

From Stdlib Require Import ZArith QArith Qround Lia Lqa List Bool Ascii String.
From Stdlib Require Strings.Byte QArith.Qabs QArith.Qpower Numbers.DecimalString.
From stdpp Require Import base list.

Set Default Proof Using "Type".

(** ** Exceptions *)

Inductive JsError : Type :=
  | NotSupportedError   (* createBuffer: a zero channel count or length   *)
  | IndexSizeError      (* getChannelData: channel index out of range     *)
  | RangeError          (* TypedArray.set: source does not fit            *)
  | Error (message : string).

Inductive result (A : Type) : Type :=
  | Ok (a : A)
  | Throw (e : JsError).
Arguments Ok {A} a.
Arguments Throw {A} e.

Definition bind {A B : Type} (r : result A) (k : A -> result B) : result B :=
  match r with
  | Ok a => k a
  | Throw e => Throw e
  end.

Notation "'let!' x ':=' r 'in' k" := (bind r (fun x => k))
  (at level 10, x name, r at level 100, k at level 200).

Definition isOk {A : Type} (r : result A) : bool :=
  match r with Ok _ => true | Throw _ => false end.

(** ** Audio buffers (the Web Audio [AudioBuffer]) *)

Module AudioBuffer.
Record t : Type := Make {
  sampleRate : Z;
  numberOfChannels : nat;
  length : nat;
  channels : list (list Q)   (* one Float32Array per channel *)
}.
End AudioBuffer.
Abbreviation AudioBuffer := AudioBuffer.t.

Record AudioContext : Type := { contextSampleRate : Z }.

(** The invariant the platform keeps for every [AudioBuffer]: at least one
    channel and one frame, and every channel holds [length] samples. *)
Definition wfBuffer (b : AudioBuffer) : bool :=
  (1 <=? AudioBuffer.numberOfChannels b)%nat
  && (1 <=? AudioBuffer.length b)%nat
  && (List.length (AudioBuffer.channels b) =? AudioBuffer.numberOfChannels b)%nat
  && forallb (fun c => (List.length c =? AudioBuffer.length b)%nat)
             (AudioBuffer.channels b).

(** [context.createBuffer(numberOfChannels, length, sampleRate)]: a buffer of
    silence; a zero channel count or a zero length is refused. A platform
    also refuses a sample rate or a channel count outside the range it
    supports, which differs from one platform to the other; that refusal is
    not modelled, and the statements on a buffer that is created from
    arguments of the caller ([decodeAudioData]) are for the range that every
    platform supports, [supportedFormat]. *)
Definition createBuffer (numberOfChannels len : nat) (sampleRate : Z)
  : result AudioBuffer :=
  if ((numberOfChannels =? 0)%nat || (len =? 0)%nat)%bool then Throw NotSupportedError
  else Ok (AudioBuffer.Make sampleRate numberOfChannels len
             (replicate numberOfChannels (replicate len 0%Q))).

(** [buffer.getChannelData(channel)] *)
Definition getChannelData (b : AudioBuffer) (channel : nat) : result (list Q) :=
  if (channel <? AudioBuffer.numberOfChannels b)%nat
  then Ok (nth channel (AudioBuffer.channels b) [])
  else Throw IndexSizeError.

(** The array returned by [getChannelData] is a view of the buffer: a write
    through it changes the buffer. [setChannelData] is that write. *)
Definition setChannelData (b : AudioBuffer) (channel : nat) (data : list Q)
  : AudioBuffer :=
  AudioBuffer.Make (AudioBuffer.sampleRate b) (AudioBuffer.numberOfChannels b)
    (AudioBuffer.length b) (<[channel := data]> (AudioBuffer.channels b)).

(** [target.set(source, offset)] of a typed array *)
Definition typedArraySet (target source : list Q) (offset : nat) : result (list Q) :=
  if (List.length target <? offset + List.length source)%nat then Throw RangeError
  else Ok (firstn offset target ++ source
           ++ skipn (offset + List.length source) target).

(** *** combineAudioBuffers *)

Definition formatMismatch : JsError :=
  Error "All audio buffers must have the same sample rate and number of channels.".

(** First loop: the format check, and the total length. *)
Fixpoint checkFormats (sampleRate : Z) (numberOfChannels : nat)
    (buffers : list AudioBuffer) (totalLength : nat) : result nat :=
  match buffers with
  | [] => Ok totalLength
  | buffer :: rest =>
      if (negb (AudioBuffer.sampleRate buffer =? sampleRate)%Z
          || negb (AudioBuffer.numberOfChannels buffer =? numberOfChannels)%nat)%bool
      then Throw formatMismatch
      else checkFormats sampleRate numberOfChannels rest
             (totalLength + AudioBuffer.length buffer)
  end.

(** Inner loop of the copy: the buffers of one channel, at a running offset. *)
Fixpoint copyChannel (combinedBuffer : AudioBuffer) (channel : nat)
    (buffers : list AudioBuffer) (offset : nat) : result AudioBuffer :=
  match buffers with
  | [] => Ok combinedBuffer
  | buffer :: rest =>
      let! target := getChannelData combinedBuffer channel in
      let! source := getChannelData buffer channel in
      let! written := typedArraySet target source offset in
      copyChannel (setChannelData combinedBuffer channel written) channel rest
        (offset + AudioBuffer.length buffer)
  end.

(** Outer loop of the copy: [for (channel = 0; channel < numberOfChannels; channel++)] *)
Fixpoint copyChannels (combinedBuffer : AudioBuffer) (channelsToDo : list nat)
    (buffers : list AudioBuffer) : result AudioBuffer :=
  match channelsToDo with
  | [] => Ok combinedBuffer
  | channel :: rest =>
      let! combinedBuffer' := copyChannel combinedBuffer channel buffers 0 in
      copyChannels combinedBuffer' rest buffers
  end.

Definition combineAudioBuffers (context : AudioContext) (buffers : list AudioBuffer)
  : result AudioBuffer :=
  match buffers with
  | [] => createBuffer 1 1 (contextSampleRate context)
  | first :: _ =>
      let sampleRate := AudioBuffer.sampleRate first in
      let numberOfChannels := AudioBuffer.numberOfChannels first in
      let! totalLength := checkFormats sampleRate numberOfChannels buffers 0 in
      let! combinedBuffer := createBuffer numberOfChannels totalLength sampleRate in
      copyChannels combinedBuffer (seq 0 numberOfChannels) buffers
  end.

(** *** mixAudioBuffers *)

Definition Qltb (x y : Q) : bool := negb (Qle_bool y x).

Definition Math_min (x y : Q) : Q := if Qle_bool x y then x else y.
Definition Math_max (x y : Q) : Q := if Qle_bool x y then y else x.

(** [Math.max(-1, Math.min(1, x))] *)
Definition clampSample (x : Q) : Q := Math_max (-1) (Math_min 1 x).

(** *** The arithmetic of the platform *)

(** The exponent of a positive number: [2 ^ e <= x < 2 ^ (e + 1)]. *)
Definition binaryExponent (x : Q) : Z :=
  let e := (Z.log2 (Qnum x) - Z.log2 (Zpos (Qden x)))%Z in
  if Qle_bool (2 ^ e)%Q x then e else (e - 1)%Z.

(** The nearest integer, a tie going to the even one. *)
Definition roundTiesToEven (y : Q) : Z :=
  let f := Qfloor y in
  match (y - inject_Z f ?= 1 # 2)%Q with
  | Lt => f
  | Gt => (f + 1)%Z
  | Eq => if Z.even f then f else (f + 1)%Z
  end.

(** The nearest binary floating-point number of precision [prec] whose least
    exponent is [emin] (IEEE 754, round to nearest, ties to even), in lowest
    terms. A result beyond the largest finite number, which the platform turns
    into an infinity, is not modelled. *)
Definition roundFloat (prec emin : Z) (x : Q) : Q :=
  if Qeq_bool x 0 then 0
  else
    let e := Z.max (binaryExponent (Qabs.Qabs x)) emin in
    let quantum := (2 ^ (e - prec + 1)%Z)%Q in
    Qred (inject_Z (roundTiesToEven (x / quantum)) * quantum).

(** The result of an operation on numbers (binary64), and the value that a
    [Float32Array] stores (binary32). *)
Definition roundDouble (x : Q) : Q := roundFloat 53 (-1022) x.
Definition Math_fround (x : Q) : Q := roundFloat 24 (-126) x.

(** The value that the body of the loop over [i] stores in [outputData[i]]:
    [+=] and [*] are operations on numbers, the store is into a
    [Float32Array]. *)
Definition mixedSampleAt (speechChannelData musicChannelData : list Q)
    (musicBufferLength : nat) (speechVolume musicVolume : Q) (i : nat) : Q :=
  let mixedSample := 0%Q in
  let mixedSample :=
    if (i <? List.length speechChannelData)%nat
    then roundDouble
           (mixedSample + roundDouble (nth i speechChannelData 0 * speechVolume))%Q
    else mixedSample in
  let mixedSample :=
    if (0 <? musicBufferLength)%nat
    then let musicIndex := (i mod List.length musicChannelData)%nat in
         roundDouble
           (mixedSample
            + roundDouble (nth musicIndex musicChannelData 0 * musicVolume))%Q
    else mixedSample in
  Math_fround (clampSample mixedSample).

(** [for (i = 0; i < longerLength; i++) outputData[i] = ...] *)
Fixpoint mixChannel (outputData speechChannelData musicChannelData : list Q)
    (musicBufferLength : nat) (speechVolume musicVolume : Q)
    (indices : list nat) : list Q :=
  match indices with
  | [] => outputData
  | i :: rest =>
      mixChannel
        (<[i := mixedSampleAt speechChannelData musicChannelData
                  musicBufferLength speechVolume musicVolume i]> outputData)
        speechChannelData musicChannelData musicBufferLength
        speechVolume musicVolume rest
  end.

(** [for (i = 0; i < numberOfChannels; i++) { speechData.push(..); musicData.push(..) }] *)
Fixpoint collectChannelData (speechBuffer musicBuffer : AudioBuffer)
    (channelsToDo : list nat) : result (list (list Q) * list (list Q)) :=
  match channelsToDo with
  | [] => Ok ([], [])
  | i :: rest =>
      let! s := getChannelData speechBuffer i in
      let! m := getChannelData musicBuffer i in
      let! more := collectChannelData speechBuffer musicBuffer rest in
      Ok (s :: fst more, m :: snd more)
  end.

(** [for (channel = 0; channel < numberOfChannels; channel++)] *)
Fixpoint mixChannels (mixedBuffer : AudioBuffer) (speechData musicData : list (list Q))
    (musicBufferLength longerLength : nat) (speechVolume musicVolume : Q)
    (channelsToDo : list nat) : result AudioBuffer :=
  match channelsToDo with
  | [] => Ok mixedBuffer
  | channel :: rest =>
      let! outputData := getChannelData mixedBuffer channel in
      let speechChannelData := nth channel speechData [] in
      let musicChannelData := nth channel musicData [] in
      let written := mixChannel outputData speechChannelData musicChannelData
                       musicBufferLength speechVolume musicVolume
                       (seq 0 longerLength) in
      mixChannels (setChannelData mixedBuffer channel written) speechData musicData
        musicBufferLength longerLength speechVolume musicVolume rest
  end.

Definition mixAudioBuffers (context : AudioContext)
    (speechBuffer musicBuffer : AudioBuffer) (speechVolume musicVolume : Q)
  : result AudioBuffer :=
  let sampleRate := AudioBuffer.sampleRate speechBuffer in
  let numberOfChannels := AudioBuffer.numberOfChannels speechBuffer in
  let longerLength :=
    Nat.max (AudioBuffer.length speechBuffer) (AudioBuffer.length musicBuffer) in
  let! mixedBuffer := createBuffer numberOfChannels longerLength sampleRate in
  let! data := collectChannelData speechBuffer musicBuffer (seq 0 numberOfChannels) in
  mixChannels mixedBuffer (fst data) (snd data) (AudioBuffer.length musicBuffer)
    longerLength speechVolume musicVolume (seq 0 numberOfChannels).

(** *** The float to int16 conversions of the exporters *)

(** Truncation toward zero, the integer part taken by [ToInt16]. *)
Definition truncate (x : Q) : Z := if Qltb x 0 then Qceiling x else Qfloor x.

(** [ToInt16]: the conversion done by [DataView.setInt16] and by a store
    into an [Int16Array]. *)
Definition ToInt16 (x : Q) : Z :=
  let int16bit := (truncate x mod 65536)%Z in
  if (32768 <=? int16bit)%Z then (int16bit - 65536)%Z else int16bit.

(** One step of [floatTo16BitPCM] in [exportWAV]: the value stored by
    [output.setInt16(offset, s < 0 ? s * 0x8000 : s * 0x7FFF, true)]. *)
Definition floatTo16BitPCM_sample (x : Q) : Z :=
  let s := Math_max (-1) (Math_min 1 x) in
  ToInt16 (if Qltb s 0 then s * 32768 else s * 32767)%Q.

(** The int16 values written by [floatTo16BitPCM] for one channel. *)
Definition floatTo16BitPCM (input : list Q) : list Z :=
  map floatTo16BitPCM_sample input.

(** The int16 payload of [exportWAV]: the channels one after the other, from
    byte offset 44 (the 44-byte header is not modelled). *)
Definition exportWAV_samples (audioBuffer : AudioBuffer) : result (list Z) :=
  (fix go (channelsToDo : list nat) : result (list Z) :=
     match channelsToDo with
     | [] => Ok []
     | i :: rest =>
         let! data := getChannelData audioBuffer i in
         let! more := go rest in
         Ok (floatTo16BitPCM data ++ more)
     end) (seq 0 (AudioBuffer.numberOfChannels audioBuffer)).

(** One step of the loop of [exportMP3]:
    [samples[i] = Math.max(-1, Math.min(1, channelData[i])) * 0x7FFF]. *)
Definition exportMP3_sample (x : Q) : Z :=
  ToInt16 (Math_max (-1) (Math_min 1 x) * 32767)%Q.

(** The [Int16Array] posted by [exportMP3] to the worker (channel 0 only). *)
Definition exportMP3_samples (audioBuffer : AudioBuffer) : result (list Z) :=
  let! channelData := getChannelData audioBuffer 0 in
  Ok (map exportMP3_sample channelData).

(** ** Retrying remote calls ([services/geminiService.ts]) *)

(** [haystack.includes(needle)] *)
Fixpoint includes (haystack needle : string) : bool :=
  (String.prefix needle haystack
   || match haystack with
      | EmptyString => false
      | String _ rest => includes rest needle
      end)%bool.

(** What [parseGeminiError] extracts from a caught error, before it rewrites
    the message: the message, [error.code], [error.status] and the delay of
    the [RetryInfo] detail in milliseconds. The JSON decoding is not modelled. *)
Record GeminiError : Type := {
  rawMessage : string;
  rawCode : option Z;
  rawStatus : option string;
  rawRetryDelayMs : option Z
}.

Record ParsedError : Type := {
  errorMessage : string;
  errorCode : option Z;
  statusMessage : option string;
  retryDelayMs : option Z
}.

Definition internalErrorText : string :=
  "Ocorreu um erro interno nos servidores do Gemini. Por favor, tente novamente mais tarde.".

Definition parseGeminiError (error : GeminiError) : ParsedError :=
  {| errorMessage :=
       if includes (rawMessage error) "Internal error encountered"
       then internalErrorText else rawMessage error;
     errorCode := rawCode error;
     statusMessage := rawStatus error;
     retryDelayMs := rawRetryDelayMs error |}.

(** [x !== undefined] *)
Definition isDefined {A : Type} (x : option A) : bool :=
  match x with Some _ => true | None => false end.

Definition codeIs (c : option Z) (n : Z) : bool :=
  match c with Some k => (k =? n)%Z | None => false end.

Definition statusIs (s : option string) (t : string) : bool :=
  match s with Some u => String.eqb u t | None => false end.

Definition isQuotaError (p : ParsedError) : bool :=
  codeIs (errorCode p) 429
  || statusIs (statusMessage p) "RESOURCE_EXHAUSTED"
  || includes (errorMessage p) "You exceeded your current quota".

Definition isModelOverloadedError (p : ParsedError) : bool :=
  codeIs (errorCode p) 503
  || statusIs (statusMessage p) "UNAVAILABLE"
  || includes (errorMessage p) "The model is overloaded"
  || includes (errorMessage p) "Ocorreu um erro interno nos servidores do Gemini.".

Definition isEmptyResponseError (p : ParsedError) : bool :=
  includes (errorMessage p) "empty audio response"
  || includes (errorMessage p) "empty response from the Gemini API".

Definition isNotFoundKeyError (p : ParsedError) : bool :=
  includes (errorMessage p) "Requested entity was not found.".

(** The errors thrown by [callGeminiApiWithRetries], by kind; the text of a
    message is kept only where it is built from the caught error. *)
Inductive Failure : Type :=
  | MissingApiKey
  | Rethrown (error : GeminiError)                       (* [throw error]           *)
  | QuotaExhausted (serviceName original : string)       (* quota, retries used up  *)
  | QuotaExhaustedVerbatim (original : string)           (* same, message has the link *)
  | Overloaded (serviceName : string)                    (* 503, retries used up    *)
  | EmptyResult (serviceName original : string)          (* empty, retries used up  *)
  | PersistentFailure (serviceName original : string)
  | Unauthenticated                                      (* "403 Forbidden"         *)
  | NotFoundKey (original : string)
  | ImagenBilling (original : string)
  | OtherFailure (serviceName original : string).

(** A settled promise. *)
Inductive Settled (T : Type) : Type :=
  | Resolved (value : T)
  | Rejected (reason : Failure).
Arguments Resolved {T} value.
Arguments Rejected {T} reason.

(** What one invocation of [apiCall] does. *)
Inductive ApiOutcome (T : Type) : Type :=
  | Returned (value : T)
  | Raised (error : GeminiError).
Arguments Returned {T} value.
Arguments Raised {T} error.

Record RetryOptions : Type := {
  maxRetries : nat;
  initialDelayMs : Z;
  onRetryWait : bool          (* is the optional callback supplied? *)
}.

(** The observable steps of the retry loop, in order. *)
Inductive RetryEvent : Type :=
  | Invoked (attempt : nat)                                   (* [apiCall(ai)]   *)
  | Notified (delayMs : Z) (retriesLeft : nat) (message : string) (* [onRetryWait] *)
  | Slept (delayMs : Z).                                      (* [setTimeout]    *)

(** The part of the world the loop runs in: the cancellation flag of the
    component (which the loop has no access to) and the log of its steps. *)
Record World : Type := {
  stopGenerationRef : bool;
  trace : list RetryEvent
}.

Definition record (w : World) (events : list RetryEvent) : World :=
  {| stopGenerationRef := stopGenerationRef w; trace := trace w ++ events |}.

(** The error thrown once the retries are used up. *)
Definition exhausted (serviceName : string) (p : ParsedError) : Failure :=
  if isQuotaError p then
    if includes (errorMessage p) "https://ai.google.dev/gemini-api/docs/rate-limits"
    then QuotaExhaustedVerbatim (errorMessage p)
    else QuotaExhausted serviceName (errorMessage p)
  else if isModelOverloadedError p then Overloaded serviceName
  else if isEmptyResponseError p then EmptyResult serviceName (errorMessage p)
  else PersistentFailure serviceName (errorMessage p).

(** The error thrown for a failure that is not retried. *)
Definition notRetried (serviceName : string) (p : ParsedError) : Failure :=
  if includes (errorMessage p) "403 Forbidden" then Unauthenticated
  else if isNotFoundKeyError p then NotFoundKey (errorMessage p)
  else if (String.eqb serviceName "image generation"
           && includes (errorMessage p)
                "Imagen API is only accessible to billed users at this time.")%bool
  then ImagenBilling (errorMessage p)
  else OtherFailure serviceName (errorMessage p).

(** The [while (true)] loop; [apiCall n] is what the [n]-th invocation of the
    call does. Every [continue] decrements [retriesLeft]. *)
Fixpoint retryLoop {T : Type} (apiCall : nat -> ApiOutcome T) (serviceName : string)
    (retryOptions : RetryOptions) (retriesLeft : nat) (delay : Z) (attempt : nat)
    (w : World) {struct retriesLeft} : Settled T * World :=
  let w := record w [Invoked attempt] in
  match apiCall attempt with
  | Returned value => (Resolved value, w)
  | Raised error =>
      let p := parseGeminiError error in
      if (isQuotaError p && isDefined (retryDelayMs p))%bool
      then (Rejected (Rethrown error), w)
      else if (isModelOverloadedError p
               || (isQuotaError p && negb (isDefined (retryDelayMs p)))
               || isEmptyResponseError p)%bool
      then
        match retriesLeft with
        | S retriesLeft' =>
            let currentDelay :=
              match retryDelayMs p with Some d => d | None => delay end in
            let w := if onRetryWait retryOptions
                     then record w [Notified currentDelay retriesLeft (errorMessage p)]
                     else w in
            let w := record w [Slept currentDelay] in
            let delay := match retryDelayMs p with
                         | None => (delay * 2)%Z
                         | Some _ => delay
                         end in
            retryLoop apiCall serviceName retryOptions retriesLeft' delay
              (S attempt) w
        | O => (Rejected (exhausted serviceName p), w)
        end
      else (Rejected (notRetried serviceName p), w)
  end.

Definition callGeminiApiWithRetries {T : Type} (apiKey : option string)
    (apiCall : nat -> ApiOutcome T) (serviceName : string)
    (retryOptions : RetryOptions) (w : World) : Settled T * World :=
  match apiKey with
  | None => (Rejected MissingApiKey, w)
  | Some EmptyString => (Rejected MissingApiKey, w)
  | Some _ =>
      retryLoop apiCall serviceName retryOptions (maxRetries retryOptions)
        (initialDelayMs retryOptions) 0 w
  end.

(** ** Text segmentation ([handleGenerateAudio], first part) *)

(** A string is the list of its UTF-16 code units. *)
Abbreviation JsString := (list N).

Definition MAX_TEXT_LENGTH : nat := N.to_nat 70000.
Definition MAX_CHARS_PER_AUDIO_CHUNK : nat := N.to_nat 35000.
Definition CONCURRENCY_LIMIT : nat := 4.

(** Line terminators: LF, CR, LS, PS. *)
Definition isLineTerminator (c : N) : bool :=
  ((c =? 10) || (c =? 13) || (c =? 8232) || (c =? 8233))%N.

(** The class [\s], which is also what [trim] removes: white space and line
    terminators. *)
Definition isSpace (c : N) : bool :=
  ((c =? 9) || (c =? 11) || (c =? 12) || (c =? 32) || (c =? 160) || (c =? 5760)
   || ((8192 <=? c) && (c <=? 8202)) || (c =? 8239) || (c =? 8287)
   || (c =? 12288) || (c =? 65279))%N
  || isLineTerminator c.

(** The class [\w]: [A-Za-z0-9_]. *)
Definition isUpperAZ (c : N) : bool := ((65 <=? c) && (c <=? 90))%N.
Definition isLowerAZ (c : N) : bool := ((97 <=? c) && (c <=? 122))%N.
Definition isDigit (c : N) : bool := ((48 <=? c) && (c <=? 57))%N.
Definition isWord (c : N) : bool :=
  isUpperAZ c || isLowerAZ c || isDigit c || (c =? 95)%N.

(** The pattern [.]: any code unit but a line terminator. *)
Definition isAny (c : N) : bool := negb (isLineTerminator c).

(** The class of the lookahead: [A-Z] and the accented capitals
    A-acute, E-acute, I-acute, O-acute, U-acute, A-grave, E-grave, I-grave,
    O-grave, U-grave, A-tilde, O-tilde, A-circumflex, E-circumflex,
    I-circumflex, O-circumflex, U-circumflex, U-diaeresis, C-cedilla. *)
Definition isSentenceStart (c : N) : bool :=
  isUpperAZ c
  || existsb (N.eqb c)
       [193; 201; 205; 211; 218; 192; 200; 204; 210; 217;
        195; 213; 194; 202; 206; 212; 219; 220; 199]%N.

(** The class [[.!?]] *)
Definition isSentenceEnd (c : N) : bool :=
  ((c =? 46) || (c =? 33) || (c =? 63))%N.

(** A greedy [p*] followed by the rest of the pattern [k]: the number of code
    units taken by the star, the longest first, backtracking to shorter
    ones until [k] accepts what follows. *)
Fixpoint greedyStar (p : N -> bool) (k : JsString -> option nat) (rest : JsString)
  : option (nat * nat) :=
  let stop := match k rest with Some n => Some (0, n) | None => None end in
  match rest with
  | c :: tl =>
      if p c then
        match greedyStar p k tl with
        | Some (taken, n) => Some (S taken, n)
        | None => stop
        end
      else stop
  | [] => stop
  end.

(** A matcher tries the pattern at one position: it is given the code units
    before the position (the nearest first) and those from the position on,
    and returns the length of the match. *)
Definition Matcher : Type := JsString -> JsString -> option nat.

(** [/\n\s*\n/] *)
Definition paragraphBreak : Matcher := fun _ rest =>
  match rest with
  | c :: tl =>
      if (c =? 10)%N then
        match greedyStar isSpace
                (fun r => match r with
                          | d :: _ => if (d =? 10)%N then Some 1 else None
                          | [] => None
                          end) tl with
        | Some (taken, n) => Some (1 + taken + n)
        | None => None
        end
      else None
  | [] => None
  end.

(** The lookbehind [(?<!\w\.\w.)] fails when the four code units before
    the position are a word character, a dot, a word character and any
    character. *)
Definition afterDottedPair (before : JsString) : bool :=
  match before with
  | c4 :: c3 :: c2 :: c1 :: _ =>
      isWord c1 && (c2 =? 46)%N && isWord c3 && isAny c4
  | _ => false
  end.

(** The lookbehind [(?<![A-Z][a-z]\.)] fails when the three code units before
    the position are a capital, a small letter and a dot. *)
Definition afterShortAbbreviation (before : JsString) : bool :=
  match before with
  | c3 :: c2 :: c1 :: _ => isUpperAZ c1 && isLowerAZ c2 && (c3 =? 46)%N
  | _ => false
  end.

(** The lookbehind [(?<=[.!?])] *)
Definition afterSentenceEnd (before : JsString) : bool :=
  match before with
  | c :: _ => isSentenceEnd c
  | [] => false
  end.

(** [sentenceRegex]:
    [/(?<!\w\.\w.)(?<![A-Z][a-z]\.)(?<=[.!?])\s+(?=[A-Z...])/] *)
Definition sentenceRegex : Matcher := fun before rest =>
  if negb (afterDottedPair before) && negb (afterShortAbbreviation before)
     && afterSentenceEnd before
  then
    match rest with
    | c :: tl =>
        if isSpace c then
          match greedyStar isSpace
                  (fun r => match r with
                            | d :: _ => if isSentenceStart d then Some 0 else None
                            | [] => None
                            end) tl with
          | Some (taken, n) => Some (1 + taken + n)
          | None => None
          end
        else None
    | [] => None
    end
  else None.

(** [String.prototype.split] with a regular expression without capture
    groups. [before] is the text already scanned (reversed), [rest] the text
    from the position [q] on, [skip] the number of code units of the last
    match still to be passed, [piece] the piece since the end [p] of the
    last match (reversed). A match of length zero at [p] is not a match. *)
Fixpoint splitLoop (m : Matcher) (before rest : JsString) (skip : nat)
    (piece : JsString) : list JsString :=
  match rest with
  | [] => [rev piece]
  | c :: tl =>
      match skip with
      | S skip' => splitLoop m (c :: before) tl skip' piece
      | O =>
          match m before rest with
          | Some (S len) => rev piece :: splitLoop m (c :: before) tl len []
          | Some O =>
              match piece with
              | [] => splitLoop m (c :: before) tl 0 [c]
              | _ :: _ => rev piece :: splitLoop m (c :: before) tl 0 [c]
              end
          | None => splitLoop m (c :: before) tl 0 (c :: piece)
          end
      end
  end.

Definition split (m : Matcher) (s : JsString) : list JsString :=
  splitLoop m [] s 0 [].

Fixpoint trimStart (s : JsString) : JsString :=
  match s with
  | c :: tl => if isSpace c then trimStart tl else s
  | [] => []
  end.

(** [s.trim()] *)
Definition trim (s : JsString) : JsString := rev (trimStart (rev (trimStart s))).

(** A string in a condition: the empty string is false. *)
Definition truthy (s : JsString) : bool :=
  match s with [] => false | _ :: _ => true end.

(** The body of [for (const sentence of sentences)]; the state is
    [(textChunks, currentChunk)]. *)
Definition packSentence (maxChunkChars : nat)
    (state : list JsString * JsString) (sentence : JsString)
  : list JsString * JsString :=
  let '(textChunks, currentChunk) := state in
  if negb (truthy (trim sentence)) then state
  else if ((if truthy currentChunk
            then List.length currentChunk + List.length sentence + 1
            else List.length sentence) <=? maxChunkChars)%nat
  then (textChunks,
        currentChunk ++ (if truthy currentChunk then [32%N] else []) ++ trim sentence)
  else ((if truthy currentChunk then textChunks ++ [currentChunk] else textChunks),
        trim sentence).

(** The body of [for (const paragraph of paragraphs)] *)
Definition packParagraph (maxChunkChars : nat) (textChunks : list JsString)
    (paragraph : JsString) : list JsString :=
  if negb (truthy (trim paragraph)) then textChunks
  else
    let sentences := split sentenceRegex paragraph in
    let '(textChunks, currentChunk) :=
      fold_left (packSentence maxChunkChars) sentences (textChunks, []) in
    if truthy currentChunk then textChunks ++ [currentChunk] else textChunks.

(** The segmentation of the text into [textChunks]. *)
Definition segment (maxChunkChars : nat) (text : JsString) : list JsString :=
  let paragraphs := split paragraphBreak text in
  let textChunks := fold_left (packParagraph maxChunkChars) paragraphs [] in
  if ((List.length textChunks =? 0)%nat && (0 <? List.length (trim text))%nat)%bool
  then textChunks ++ [trim text]
  else textChunks.

(** A text written in ASCII, as a list of code units. *)
Fixpoint ofString (s : string) : JsString :=
  match s with
  | EmptyString => []
  | String a rest => Ascii.N_of_ascii a :: ofString rest
  end.

(** ** Batch dispatch and assembly ([handleGenerateAudio], second part) *)

(** What the user interface shows in its error state ([setError]). *)
Inductive ErrorState : Type :=
  | NoError
  | EmptyText                            (* no text was entered              *)
  | TextTooLong                          (* more than MAX_TEXT_LENGTH        *)
  | NoValidText                          (* segmentation gave no chunk       *)
  | ChunkFailed (j : nat) (reason : Failure)   (* the error of chunk j + 1   *)
  | StoppedByUser                        (* set by handleStopGeneration      *)
  | Interrupted                          (* generation was interrupted       *)
  | PartialGeneration                    (* some chunks failed: no audio     *)
  | Unexpected (e : JsError).            (* an exception reached the catch   *)

(** The mutable state of one run. A run is taken alone here: no second run is
    started, and so nothing resets the flag, while this one is in flight.
    What a further run does to the flag is added with [ComponentEvent]. *)
Record Session : Type := {
  stopGenerationRef_current : bool;
  orderedBuffers : list (option AudioBuffer);
  processedChars : nat;
  dispatched : list nat;     (* the chunks for which generateSpeech was called *)
  error : ErrorState
}.

(** What happens while the loop waits for a batch: a chunk settles, or the
    user asks to stop. *)
Inductive SessionEvent : Type :=
  | ChunkSettled (j : nat)
  | StopRequested.

(** The [then] handler of the promise of chunk [j]. *)
Definition onFulfilled (textChunks : list JsString) (j : nat)
    (audioBuffer : AudioBuffer) (s : Session) : Session :=
  if stopGenerationRef_current s then s
  else {| stopGenerationRef_current := stopGenerationRef_current s;
          orderedBuffers := <[j := Some audioBuffer]> (orderedBuffers s);
          processedChars := processedChars s + List.length (nth j textChunks []);
          dispatched := dispatched s;
          error := error s |}.

(** The [catch] handler of the promise of chunk [j]. *)
Definition onRejected (j : nat) (chunkError : Failure) (s : Session) : Session :=
  if stopGenerationRef_current s then s
  else {| stopGenerationRef_current := stopGenerationRef_current s;
          orderedBuffers := orderedBuffers s;
          processedChars := processedChars s;
          dispatched := dispatched s;
          error := ChunkFailed j chunkError |}.

Definition handleStopGeneration (s : Session) : Session :=
  {| stopGenerationRef_current := true;
     orderedBuffers := orderedBuffers s;
     processedChars := processedChars s;
     dispatched := dispatched s;
     error := StoppedByUser |}.

(** The calls of [generateSpeech] of one batch, in the order of the inner loop. *)
Definition startBatch (i batchEnd : nat) (s : Session) : Session :=
  {| stopGenerationRef_current := stopGenerationRef_current s;
     orderedBuffers := orderedBuffers s;
     processedChars := processedChars s;
     dispatched := dispatched s ++ seq i (batchEnd - i);
     error := error s |}.

Section Dispatch.

(** The chunks, the concurrency limit, what the promise returned by
    [generateSpeech] for chunk [j] settles with, the value of the [error]
    state captured by the callback when it was created, and for the batch
    that starts at [i] the events during its [await], in order. *)
Variable textChunks : list JsString.
Variable concurrencyLimit : nat.
Variable generateSpeech : nat -> Settled AudioBuffer.
Variable errorAtRender : ErrorState.
Variable schedule : nat -> list SessionEvent.

Definition handleEvent (s : Session) (event : SessionEvent) : Session :=
  match event with
  | ChunkSettled j =>
      match generateSpeech j with
      | Resolved audioBuffer => onFulfilled textChunks j audioBuffer s
      | Rejected chunkError => onRejected j chunkError s
      end
  | StopRequested => handleStopGeneration s
  end.

(** [await Promise.all(batchPromises)] *)
Definition awaitBatch (i : nat) (s : Session) : Session :=
  fold_left handleEvent (schedule i) s.

(** [if (error || stopGenerationRef.current) break;] where [error] is the
    value captured by the callback. *)
Definition breakAfterBatch (s : Session) : bool :=
  match errorAtRender with
  | NoError => stopGenerationRef_current s
  | _ => true
  end.

(** [for (let i = 0; i < textChunks.length; i += CONCURRENCY_LIMIT)];
    [None] when the fuel runs out. *)
Fixpoint dispatchLoop (fuel i : nat) (s : Session) : option Session :=
  if (List.length textChunks <=? i)%nat then Some s
  else if stopGenerationRef_current s then Some s
  else
    match fuel with
    | O => None
    | S fuel' =>
        let batchEnd := Nat.min (i + concurrencyLimit) (List.length textChunks) in
        let s := awaitBatch i (startBatch i batchEnd s) in
        if breakAfterBatch s then Some s
        else dispatchLoop fuel' (i + concurrencyLimit) s
    end.

Definition initialSession : Session :=
  {| stopGenerationRef_current := false;
     orderedBuffers := replicate (List.length textChunks) None;
     processedChars := 0;
     dispatched := [];
     error := NoError |}.

Definition dispatchAll : option Session :=
  dispatchLoop (List.length textChunks) 0 initialSession.

End Dispatch.

(** [orderedBuffers.filter(b => b !== null)] *)
Definition validBuffersOf (orderedBuffers : list (option AudioBuffer))
  : list AudioBuffer := omap id orderedBuffers.

(** How a run ends. *)
Inductive Outcome : Type :=
  | Exported (finalOutputBuffer : AudioBuffer) (wav : list Z)
  | Ended (shown : ErrorState).

(** The end of a run: how it ends, and what [combineAudioBuffers] returned
    when it was called. *)
Record Report : Type := {
  outcome : Outcome;
  combined : option (result AudioBuffer)
}.

(** The background track is [Some] when one is selected and loaded. *)
Record MixSettings : Type := {
  backgroundMusicBuffer : option AudioBuffer;
  speechVolume : Q;
  musicVolume : Q
}.

(** The steps after the combination; an exception ends in the [catch]. *)
Definition finish (context : AudioContext) (mix : MixSettings)
    (combinedSpeechBuffer : AudioBuffer) : Outcome :=
  let final :=
    match backgroundMusicBuffer mix with
    | Some music =>
        mixAudioBuffers context combinedSpeechBuffer music
          (speechVolume mix) (musicVolume mix)
    | None => Ok combinedSpeechBuffer
    end in
  match (let! finalOutputBuffer := final in
         let! wav := exportWAV_samples finalOutputBuffer in
         Ok (finalOutputBuffer, wav)) with
  | Ok (finalOutputBuffer, wav) => Exported finalOutputBuffer wav
  | Throw e => Ended (Unexpected e)
  end.

(** The part of [handleGenerateAudio] after the dispatch loop. *)
Definition assemble (context : AudioContext) (mix : MixSettings)
    (textChunks : list JsString) (s : Session) : Report :=
  let validBuffers := validBuffersOf (orderedBuffers s) in
  if (negb (stopGenerationRef_current s)
      && (0 <? List.length validBuffers)%nat
      && (List.length validBuffers =? List.length textChunks)%nat)%bool
  then
    let r := combineAudioBuffers context validBuffers in
    {| outcome := match r with
                  | Ok combinedSpeechBuffer => finish context mix combinedSpeechBuffer
                  | Throw e => Ended (Unexpected e)
                  end;
       combined := Some r |}
  else if stopGenerationRef_current s
  then {| outcome := Ended Interrupted; combined := None |}
  else if negb (List.length validBuffers =? List.length textChunks)%nat
  then {| outcome := Ended PartialGeneration; combined := None |}
  else {| outcome := Ended (error s); combined := None |}.

(** The speech call of chunk [j]: [remote j n] is what its [n]-th request
    does; the retry policy is the one [handleGenerateAudio] passes. *)
Definition speechRetryOptions : RetryOptions :=
  {| maxRetries := 3; initialDelayMs := 1000; onRetryWait := true |}.

Definition generateSpeechWith (apiKey : option string)
    (remote : nat -> nat -> ApiOutcome AudioBuffer) (j : nat) : Settled AudioBuffer :=
  fst (callGeminiApiWithRetries apiKey (remote j) "speech generation"
         speechRetryOptions {| stopGenerationRef := false; trace := [] |}).

(** [handleGenerateAudio], from the validation of the text on; [None] when
    the dispatch loop does not end (a concurrency limit of zero). *)
Definition handleGenerateAudio (context : AudioContext) (mix : MixSettings)
    (concurrencyLimit : nat) (generateSpeech : nat -> Settled AudioBuffer)
    (errorAtRender : ErrorState) (schedule : nat -> list SessionEvent)
    (text : JsString) : option Report :=
  if negb (truthy (trim text))
  then Some {| outcome := Ended EmptyText; combined := None |}
  else if (MAX_TEXT_LENGTH <? List.length text)%nat
  then Some {| outcome := Ended TextTooLong; combined := None |}
  else
    let textChunks := segment MAX_CHARS_PER_AUDIO_CHUNK text in
    if (List.length textChunks =? 0)%nat
    then Some {| outcome := Ended NoValidText; combined := None |}
    else
      match dispatchAll textChunks concurrencyLimit generateSpeech
              errorAtRender schedule with
      | Some s => Some (assemble context mix textChunks s)
      | None => None
      end.

(** ** The stop flag among the runs of the component *)

(** [stopGenerationRef] belongs to the component, not to a run. While a run
    awaits a batch the flag is set by [handleStopGeneration], which also
    clears [isGeneratingTTS] and so opens the guard of [handleGenerateAudio]
    again; a further run then clears the flag where it starts
    ([stopGenerationRef.current = false], followed by [setError(null)]) and in
    its [finally]. The guard is not modelled: a further run may start at any
    time. The messages that a further run shows are not followed. *)
Inductive ComponentEvent : Type :=
  | OfRun (event : SessionEvent)   (* an event of the run itself             *)
  | GenerationStarted              (* a further run passes the guard         *)
  | GenerationEnded.               (* a further run reaches its [finally]    *)

Definition startGeneration (s : Session) : Session :=
  {| stopGenerationRef_current := false;
     orderedBuffers := orderedBuffers s;
     processedChars := processedChars s;
     dispatched := dispatched s;
     error := NoError |}.

Definition endGeneration (s : Session) : Session :=
  {| stopGenerationRef_current := false;
     orderedBuffers := orderedBuffers s;
     processedChars := processedChars s;
     dispatched := dispatched s;
     error := error s |}.

Section ComponentDispatch.

Variable textChunks : list JsString.
Variable concurrencyLimit : nat.
Variable generateSpeech : nat -> Settled AudioBuffer.
Variable errorAtRender : ErrorState.
Variable componentSchedule : nat -> list ComponentEvent.

Definition handleComponentEvent (s : Session) (event : ComponentEvent) : Session :=
  match event with
  | OfRun event => handleEvent textChunks generateSpeech s event
  | GenerationStarted => startGeneration s
  | GenerationEnded => endGeneration s
  end.

(** [await Promise.all(batchPromises)], with everything that the component
    does meanwhile. *)
Definition awaitBatchOfComponent (i : nat) (s : Session) : Session :=
  fold_left handleComponentEvent (componentSchedule i) s.

(** The loop of [dispatchLoop], run inside the component. *)
Fixpoint dispatchLoopOfComponent (fuel i : nat) (s : Session) : option Session :=
  if (List.length textChunks <=? i)%nat then Some s
  else if stopGenerationRef_current s then Some s
  else
    match fuel with
    | O => None
    | S fuel' =>
        let batchEnd := Nat.min (i + concurrencyLimit) (List.length textChunks) in
        let s := awaitBatchOfComponent i (startBatch i batchEnd s) in
        if breakAfterBatch errorAtRender s then Some s
        else dispatchLoopOfComponent fuel' (i + concurrencyLimit) s
    end.

Definition dispatchAllOfComponent : option Session :=
  dispatchLoopOfComponent (List.length textChunks) 0 (initialSession textChunks).

End ComponentDispatch.

(** ** Vocabulary of the statements *)

(** The samples of channel [c] of a buffer. *)
Definition channelOf (b : AudioBuffer) (c : nat) : list Q :=
  nth c (AudioBuffer.channels b) [].

(** The sum of the lengths of the buffers. *)
Definition totalLengthOf (buffers : list AudioBuffer) : nat :=
  sum_list (map AudioBuffer.length buffers).

(** Two buffers have the same sample rate and channel count. *)
Definition sameFormatAs (first b : AudioBuffer) : bool :=
  (AudioBuffer.sampleRate b =? AudioBuffer.sampleRate first)%Z
  && (AudioBuffer.numberOfChannels b =? AudioBuffer.numberOfChannels first)%nat.

(** All the buffers have the format of the first. *)
Definition sameFormat (buffers : list AudioBuffer) : bool :=
  match buffers with
  | [] => true
  | first :: _ => forallb (sameFormatAs first) buffers
  end.

(** A buffer can take part in the copy of channel [c]. *)
Definition hasChannel (c : nat) (b : AudioBuffer) : Prop :=
  c < AudioBuffer.numberOfChannels b
  /\ List.length (channelOf b c) = AudioBuffer.length b.

(** The sample of the speech at index [i] of channel [c]: silence beyond its
    length. *)
Definition speechSampleAt (speech : AudioBuffer) (c i : nat) : Q :=
  if (i <? AudioBuffer.length speech)%nat then nth i (channelOf speech c) 0%Q else 0%Q.

(** The sample of the looped music at index [i] of channel [c]. *)
Definition musicSampleAt (music : AudioBuffer) (c i : nat) : Q :=
  nth (i mod AudioBuffer.length music) (channelOf music c) 0%Q.

(** [y] is [x] clamped to the interval from -1 to 1. *)
Definition clampedTo (x y : Q) : Prop :=
  (1 <= x -> y == 1)%Q /\ (x <= -1 -> y == -1)%Q /\ (-1 <= x <= 1 -> y == x)%Q.

(** The spacing of the floating-point numbers around [x]. *)
Definition quantumOf (prec emin : Z) (x : Q) : Q :=
  (2 ^ (Z.max (binaryExponent (Qabs.Qabs x)) emin - prec + 1)%Z)%Q.

(** The sum of the two scaled samples as the platform computes it: each
    product and the sum are rounded to a double. *)
Definition scaledSum (speechSample speechGain musicSample musicGain : Q) : Q :=
  roundDouble (roundDouble (speechSample * speechGain)
               + roundDouble (musicSample * musicGain))%Q.

(** Every sample is a finite number of a [Float32Array], and a gain is a
    double of moderate size: with these bounds no product and no sum of
    [mixAudioBuffers] leaves the doubles. *)
Definition finiteSamples (b : AudioBuffer) : bool :=
  forallb (forallb (fun x => Qle_bool (Qabs.Qabs x) (2 ^ 128)%Q))
    (AudioBuffer.channels b).

Definition finiteGain (gain : Q) : bool :=
  Qle_bool (Qabs.Qabs gain) (2 ^ 512)%Q.

(** Buffers used to exercise the statements. *)
Definition demoContext : AudioContext := {| contextSampleRate := 24000 |}.
Definition demoSpeech : AudioBuffer :=
  AudioBuffer.Make 24000 1 3 [[1 # 2; -(3 # 4); 1 # 4]%Q].
Definition demoMusic : AudioBuffer :=
  AudioBuffer.Make 24000 1 2 [[3 # 4; -(1 # 2)]%Q].
Definition demoStereoMusic : AudioBuffer :=
  AudioBuffer.Make 44100 2 2 [[3 # 4; -(1 # 2)]%Q; [0; 0]%Q].

(** *** Vocabulary of the retry policy *)

(** A failure that the loop answers with a retry when retries are left: quota
    without a delay from the server, overload, or empty response. *)
Definition retryable (error : GeminiError) : bool :=
  let p := parseGeminiError error in
  negb (isQuotaError p && isDefined (retryDelayMs p))
  && (isModelOverloadedError p
      || (isQuotaError p && negb (isDefined (retryDelayMs p)))
      || isEmptyResponseError p).

(** The invocation [k] of the call fails with a retryable error. *)
Definition failsRetryably {T : Type} (apiCall : nat -> ApiOutcome T) (k : nat) : bool :=
  match apiCall k with
  | Raised error => retryable error
  | Returned _ => false
  end.

(** The delay that the server supplies with the failure of invocation [k]. *)
Definition serverDelayAt {T : Type} (apiCall : nat -> ApiOutcome T) (k : nat)
  : option Z :=
  match apiCall k with
  | Raised error => rawRetryDelayMs error
  | Returned _ => None
  end.

(** Among the invocations [from], ..., [from + count - 1], the number of
    failures that come without a delay from the server. *)
Definition unhinted {T : Type} (apiCall : nat -> ApiOutcome T) (from count : nat)
  : nat :=
  List.length (List.filter (fun i => negb (isDefined (serverDelayAt apiCall i)))
                 (seq from count)).

(** The delay before the [k]-th retry, in closed form: the delay of the
    server when the failure comes with one, and otherwise the initial delay
    doubled once for every earlier wait that was not dictated by the server. *)
Definition backoffDelay {T : Type} (initialDelay : Z) (apiCall : nat -> ApiOutcome T)
    (k : nat) : Z :=
  match serverDelayAt apiCall (k - 1) with
  | Some d => d
  | None => (initialDelay * 2 ^ Z.of_nat (unhinted apiCall 0 (k - 1)))%Z
  end.

Definition sleepsOf (events : list RetryEvent) : list Z :=
  omap (fun e => match e with Slept d => Some d | _ => None end) events.

Definition invocationsOf (events : list RetryEvent) : list nat :=
  omap (fun e => match e with Invoked n => Some n | _ => None end) events.

(** The terminal error names the kind of the last failure. *)
Definition kindSpecific (p : ParsedError) (reason : Failure) : Prop :=
  match reason with
  | QuotaExhausted _ _ | QuotaExhaustedVerbatim _ => isQuotaError p = true
  | Overloaded _ => isQuotaError p = false /\ isModelOverloadedError p = true
  | EmptyResult _ _ =>
      isQuotaError p = false /\ isModelOverloadedError p = false
      /\ isEmptyResponseError p = true
  | _ => False
  end.

(** A server that is overloaded for the first [n] requests (error 503) and
    then answers [value]. *)
Definition overloadedError : GeminiError :=
  {| rawMessage := "The model is overloaded. Please try again later.";
     rawCode := Some 503%Z; rawStatus := Some "UNAVAILABLE"%string;
     rawRetryDelayMs := None |}.

Definition overloadedFor {T : Type} (n : nat) (value : T) (k : nat) : ApiOutcome T :=
  if (k <? n)%nat then Raised overloadedError else Returned value.

Definition retryPolicy (maxRetries : nat) (initialDelayMs : Z) : RetryOptions :=
  {| maxRetries := maxRetries; initialDelayMs := initialDelayMs; onRetryWait := true |}.

Definition freshWorld : World := {| stopGenerationRef := false; trace := [] |}.

(** The delay of the wait that follows invocation [from + k], when the loop
    is at invocation [from] with the running delay [delay]. *)
Definition delayFrom {T : Type} (apiCall : nat -> ApiOutcome T) (delay : Z)
    (from k : nat) : Z :=
  match serverDelayAt apiCall (from + k) with
  | Some d => d
  | None => (delay * 2 ^ Z.of_nat (unhinted apiCall from k))%Z
  end.

(** *** Vocabulary of the dispatch *)

(** The chunks that settle during an [await], in order. *)
Definition settlesOf (events : list SessionEvent) : list nat :=
  omap (fun e => match e with ChunkSettled j => Some j | StopRequested => None end)
    events.

(** No stop is requested during the [await]. *)
Definition stopFree (events : list SessionEvent) : bool :=
  forallb (fun e => match e with StopRequested => false | ChunkSettled _ => true end)
    events.

(** The chunks of the batch that starts at [i], among [n] chunks. *)
Definition batchOf (n concurrencyLimit i : nat) : list nat :=
  seq i (Nat.min (i + concurrencyLimit) n - i).

(** The indices at which a batch can start. *)
Definition batchStarts (n concurrencyLimit : nat) : list nat :=
  List.filter (fun i => (i mod concurrencyLimit =? 0)%nat) (seq 0 n).

(** During the [await] of every batch, the chunks of the batch settle, each
    once, in any order. *)
Definition fairSchedule (n concurrencyLimit : nat)
    (schedule : nat -> list SessionEvent) : bool :=
  forallb (fun i => bool_decide (settlesOf (schedule i)
                                 ≡ₚ batchOf n concurrencyLimit i))
    (batchStarts n concurrencyLimit).

(** No stop is requested during any batch. *)
Definition uninterrupted (n concurrencyLimit : nat)
    (schedule : nat -> list SessionEvent) : bool :=
  forallb (fun i => stopFree (schedule i)) (batchStarts n concurrencyLimit).

(** The audio a settled speech call delivers, if any. *)
Definition audioOf (r : Settled AudioBuffer) : option AudioBuffer :=
  match r with
  | Resolved audioBuffer => Some audioBuffer
  | Rejected _ => None
  end.

(** What is stored in a slot is the audio of the chunk of that index. *)
Definition slotsSound (generateSpeech : nat -> Settled AudioBuffer) (s : Session)
  : Prop :=
  forall j audioBuffer,
    orderedBuffers s !! j = Some (Some audioBuffer) ->
    generateSpeech j = Resolved audioBuffer.

(** A run used to exercise the statements: five chunks, two at a time; in
    every batch the later chunk settles first. *)
Definition demoChunks : list JsString :=
  map ofString ["One."; "Two."; "Three."; "Four."; "Five."]%string.

Definition demoAudio (j : nat) : AudioBuffer :=
  AudioBuffer.Make 24000 1 (S j) [replicate (S j) (1 # 2)%Q].

Definition demoSchedule (i : nat) : list SessionEvent :=
  match i with
  | 0 => [ChunkSettled 1; ChunkSettled 0]
  | 2 => [ChunkSettled 3; ChunkSettled 2]
  | 4 => [ChunkSettled 4]
  | _ => []
  end.

(** The same run, with a stop requested during the first batch. *)
Definition demoStoppedSchedule (i : nat) : list SessionEvent :=
  match i with
  | 0 => [ChunkSettled 1; StopRequested; ChunkSettled 0]
  | _ => demoSchedule i
  end.

(** The flag at the end of an [await] that began with the flag unset: the
    last write decides. *)
Definition flagAfter (events : list ComponentEvent) : bool :=
  fold_left (fun flag event =>
               match event with
               | OfRun StopRequested => true
               | OfRun (ChunkSettled _) => flag
               | GenerationStarted | GenerationEnded => false
               end) events false.

(** The events of the run itself, and whether there are no others. *)
Definition ownEvents (events : list ComponentEvent) : list SessionEvent :=
  omap (fun event => match event with OfRun e => Some e | _ => None end) events.

Definition alone (events : list ComponentEvent) : bool :=
  forallb (fun event => match event with OfRun _ => true | _ => false end) events.

(** The run stopped during its first batch, taken alone, and the same with a
    further run started right after the stop. *)
Definition demoStoppedAlone (i : nat) : list ComponentEvent :=
  map OfRun (demoStoppedSchedule i).

Definition demoRestartedSchedule (i : nat) : list ComponentEvent :=
  match i with
  | 0 => [OfRun (ChunkSettled 1); OfRun StopRequested; GenerationStarted;
          OfRun (ChunkSettled 0)]
  | _ => map OfRun (demoSchedule i)
  end.

(** The world of the retry loop with the flag as the session has it. *)
Definition worldWithFlag (flag : bool) (events : list RetryEvent) : World :=
  {| stopGenerationRef := flag; trace := events |}.

(** *** Vocabulary of the segmentation *)

(** A matcher whose matches lie inside the text and consist of white space. *)
Definition matchesSpaces (m : Matcher) : Prop :=
  forall before rest len,
    m before rest = Some len ->
    len <= List.length rest /\ forallb isSpace (firstn len rest) = true.

(** A chunk within the limit, or one whole sentence that is longer than it. *)
Definition withinLimitOrOneSentence (maxChunkChars : nat)
    (sentences : list JsString) (chunk : JsString) : Prop :=
  List.length chunk <= maxChunkChars
  \/ (maxChunkChars < List.length chunk
      /\ exists sentence, In sentence sentences /\ chunk = trim sentence).

(** The sentences of the text: those of its paragraphs. *)
Definition sentencesOf (text : JsString) : list JsString :=
  flat_map (split sentenceRegex) (split paragraphBreak text).

(** A text of two paragraphs, and a server that is always overloaded for the
    second chunk. *)
Definition demoText : JsString :=
  ofString "First paragraph. It has two sentences." ++ [10; 10]%N
  ++ ofString "Second paragraph.".

Definition demoRemote (j attempt : nat) : ApiOutcome AudioBuffer :=
  if (j =? 1)%nat then Raised overloadedError else Returned (demoAudio j).

Definition demoMix : MixSettings :=
  {| backgroundMusicBuffer := None; speechVolume := 1; musicVolume := 1 |}.

(** ** Further vocabulary: the retry loop *)

(** The delays announced to [onRetryWait], in order. *)
Definition notifiedDelaysOf (events : list RetryEvent) : list Z :=
  omap (fun e => match e with Notified d _ _ => Some d | _ => None end) events.

(** The retries still left that are announced to [onRetryWait], in order. *)
Definition notifiedRetriesOf (events : list RetryEvent) : list nat :=
  omap (fun e => match e with Notified _ r _ => Some r | _ => None end) events.

(** The time spent waiting, in milliseconds. *)
Definition totalWait (events : list RetryEvent) : Z :=
  fold_right Z.add 0%Z (sleepsOf events).

(** Is the key missing ([!apiKey])? *)
Definition keyMissing (apiKey : option string) : bool :=
  match apiKey with
  | None | Some EmptyString => true
  | Some _ => false
  end.

(** *** The errors raised by the service calls themselves *)

(** An error made with [new Error(message)] inside the call, as
    [parseGeminiError] reads it when the message is not JSON: no code, no
    status, no delay. *)
Definition thrownByCall (message : string) : GeminiError :=
  {| rawMessage := message; rawCode := None; rawStatus := None;
     rawRetryDelayMs := None |}.

(** [generateSpeech], no audio in the response; [details] is the text built
    from the response ([additionalInfo], or its default). *)
Definition emptyAudioMessage (details : string) : string :=
  "Received an empty audio response from the Gemini TTS API. " ++ details.

(** [generateStoryChunk], no text in the response. *)
Definition emptyTextMessage (details : string) : string :=
  "Received an empty response from the Gemini API. " ++ details.

(** [generateImage], no image in the response. *)
Definition noImageMessage : string :=
  "Nenhum dado de imagem foi recebido do modelo.".

(** [generateTitles], a count outside 1..10, and a response without titles. *)
Definition titleCountMessage : string :=
  "Number of titles must be between 1 and 10.".
Definition noTitlesMessage : string :=
  "Received an invalid or empty titles response from the Gemini API.".

(** The failure of invocation [k] is an internal error of the server that
    is not also a quota error with a delay. *)
Definition failsInternally {T : Type} (apiCall : nat -> ApiOutcome T) (k : nat)
  : bool :=
  match apiCall k with
  | Raised error =>
      includes (rawMessage error) "Internal error encountered"
      && negb ((codeIs (rawCode error) 429
                || statusIs (rawStatus error) "RESOURCE_EXHAUSTED")
               && isDefined (rawRetryDelayMs error))
  | Returned _ => false
  end.

(** A server that answers every request with the same error. *)
Definition alwaysRaises {T : Type} (error : GeminiError) (k : nat) : ApiOutcome T :=
  Raised error.

Definition internalError : GeminiError :=
  {| rawMessage := "Internal error encountered."; rawCode := Some 500%Z;
     rawStatus := Some "INTERNAL"%string; rawRetryDelayMs := None |}.

(** A quota error that names the delay to respect. *)
Definition quotaErrorWithDelay : GeminiError :=
  {| rawMessage := "You exceeded your current quota."; rawCode := Some 429%Z;
     rawStatus := Some "RESOURCE_EXHAUSTED"%string;
     rawRetryDelayMs := Some 41000%Z |}.

(** Overloaded once, then out of quota. *)
Definition overloadedThenQuota (k : nat) : ApiOutcome Z :=
  if (k <? 1)%nat then Raised overloadedError else Raised quotaErrorWithDelay.

(** The message of the error raised for an empty response: by
    [generateSpeech] when [audio] is set, by [generateStoryChunk] otherwise. *)
Definition emptyResponseMessage (audio : bool) (details : string) : string :=
  if audio then emptyAudioMessage details else emptyTextMessage details.

Definition defaultDetails : string := "No additional details provided by the API.".

(** ** Decoding the audio of a response ([utils/audioUtils.ts]) *)

(** The value of a byte of a [Uint8Array]. *)
Definition byteValue (b : Byte.byte) : Z := Z.of_N (Byte.to_N b).

(** The element of an [Int16Array] stored in two bytes, the low byte first
    (the byte order of the platforms the studio runs on). *)
Definition int16Of (lo hi : Byte.byte) : Z :=
  let unsigned := (byteValue lo + 256 * byteValue hi)%Z in
  if (32768 <=? unsigned)%Z then (unsigned - 65536)%Z else unsigned.

Fixpoint int16Elements (data : list Byte.byte) : list Z :=
  match data with
  | lo :: hi :: rest => int16Of lo hi :: int16Elements rest
  | _ => []
  end.

(** [new Int16Array(data.buffer)]: refused for an odd number of bytes. *)
Definition newInt16Array (data : list Byte.byte) : result (list Z) :=
  if Nat.odd (List.length data) then Throw RangeError
  else Ok (int16Elements data).

(** [for (i = 0; i < frameCount; i++)
       channelData[i] = dataInt16[i * numChannels + channel] / 32768.0].
    A store beyond the end of [channelData] is dropped, and this is the only
    place where an element beyond the end of [dataInt16] is read. *)
Fixpoint decodeChannel (channelData : list Q) (dataInt16 : list Z)
    (numChannels channel : nat) (indices : list nat) : list Q :=
  match indices with
  | [] => channelData
  | i :: rest =>
      decodeChannel
        (<[i := (inject_Z (nth (i * numChannels + channel) dataInt16 0%Z) / 32768)%Q]>
           channelData)
        dataInt16 numChannels channel rest
  end.

(** [for (channel = 0; channel < numChannels; channel++)] *)
Fixpoint decodeChannels (buffer : AudioBuffer) (dataInt16 : list Z)
    (numChannels : nat) (indices channelsToDo : list nat) : result AudioBuffer :=
  match channelsToDo with
  | [] => Ok buffer
  | channel :: rest =>
      let! channelData := getChannelData buffer channel in
      decodeChannels
        (setChannelData buffer channel
           (decodeChannel channelData dataInt16 numChannels channel indices))
        dataInt16 numChannels indices rest
  end.

(** [decodeAudioData(data, ctx, sampleRate, numChannels)]. [frameCount] is the
    quotient of the number of elements by [numChannels]: [createBuffer] takes
    its integer part, the loop over [i] runs while [i] is below it, so once
    more when it is not an integer. *)
Definition decodeAudioData (data : list Byte.byte) (ctx : AudioContext)
    (sampleRate : Z) (numChannels : nat) : result AudioBuffer :=
  let! dataInt16 := newInt16Array data in
  let frameCount := List.length dataInt16 / numChannels in
  let iterations := (List.length dataInt16 + numChannels - 1) / numChannels in
  let! buffer := createBuffer numChannels frameCount sampleRate in
  decodeChannels buffer dataInt16 numChannels (seq 0 iterations) (seq 0 numChannels).

(** The sample that an element of the [Int16Array] decodes to. *)
Definition sampleOfInt16 (v : Z) : Q := (inject_Z v / 32768)%Q.

(** What the WAV export and the MP3 export make of a sample decoded from the
    element [v]. *)
Definition wavOfDecoded (v : Z) : Z := if (0 <? v)%Z then (v - 1)%Z else v.
Definition mp3OfDecoded (v : Z) : Z :=
  if (0 <? v)%Z then (v - 1)%Z else if (v <? 0)%Z then (v + 1)%Z else 0%Z.

(** Four bytes: the elements 16384 and -32768. *)
Definition demoBytes : list Byte.byte :=
  [Byte.x00; Byte.x40; Byte.x00; Byte.x80].

(** *** Further vocabulary: audio *)

(** The sample rates and channel counts that every platform supports
    (Web Audio: at least 8000 to 96000 Hz and at least 32 channels). *)
Definition supportedFormat (sampleRate : Z) (numberOfChannels : nat) : bool :=
  (8000 <=? sampleRate)%Z && (sampleRate <=? 96000)%Z
  && (numberOfChannels <=? 32)%nat.

(** Every sample of the buffer lies between -1 and 1. *)
Definition withinUnit (b : AudioBuffer) : bool :=
  forallb (forallb (fun x => Qle_bool (-1) x && Qle_bool x 1))
    (AudioBuffer.channels b).

(** ** The WAV file ([exportWAV]) *)

(** The byte that a [DataView] stores for an integer: its low eight bits. *)
Definition byteOf (z : Z) : Byte.byte :=
  match Byte.of_N (Z.to_N (z mod 256)) with
  | Some b => b
  | None => Byte.x00
  end.

(** A [DataView] over the whole of its buffer. A write that does not lie
    within the buffer raises a range error. *)
Abbreviation DataView := (list Byte.byte).

Definition setUint8 (view : DataView) (byteOffset : nat) (value : Z)
  : result DataView :=
  if (byteOffset + 1 <=? List.length view)%nat
  then Ok (<[byteOffset := byteOf value]> view)
  else Throw RangeError.

(** [view.setUint16(byteOffset, value, true)] *)
Definition setUint16 (view : DataView) (byteOffset : nat) (value : Z)
  : result DataView :=
  if (byteOffset + 2 <=? List.length view)%nat
  then Ok (<[byteOffset + 1 := byteOf (value / 256)]>
             (<[byteOffset := byteOf value]> view))
  else Throw RangeError.

(** [view.setUint32(byteOffset, value, true)] *)
Definition setUint32 (view : DataView) (byteOffset : nat) (value : Z)
  : result DataView :=
  if (byteOffset + 4 <=? List.length view)%nat
  then Ok (<[byteOffset + 3 := byteOf (value / 16777216)]>
             (<[byteOffset + 2 := byteOf (value / 65536)]>
                (<[byteOffset + 1 := byteOf (value / 256)]>
                   (<[byteOffset := byteOf value]> view))))
  else Throw RangeError.

(** [view.setInt16(byteOffset, value, true)] for a number [value]. *)
Definition setInt16 (view : DataView) (byteOffset : nat) (value : Q)
  : result DataView :=
  setUint16 view byteOffset (ToInt16 value).

(** The local function [writeString] of [exportWAV]. *)
Fixpoint writeString (view : DataView) (offset : nat) (s : string)
  : result DataView :=
  match s with
  | EmptyString => Ok view
  | String c rest =>
      let! view := setUint8 view offset (Z.of_N (Ascii.N_of_ascii c)) in
      writeString view (S offset) rest
  end.

(** The local function [floatTo16BitPCM] of [exportWAV], with the view it
    writes to. *)
Fixpoint floatTo16BitPCM_view (output : DataView) (offset : nat) (input : list Q)
  : result DataView :=
  match input with
  | [] => Ok output
  | x :: rest =>
      let s := Math_max (-1) (Math_min 1 x) in
      let! output :=
        setInt16 output offset (if Qltb s 0 then s * 32768 else s * 32767)%Q in
      floatTo16BitPCM_view output (offset + 2) rest
  end.

(** [for (i = 0; i < numOfChannels; i++)] at the end of [exportWAV]. *)
Fixpoint writeChannels (view : DataView) (offset : nat) (audioBuffer : AudioBuffer)
    (channelsToDo : list nat) : result DataView :=
  match channelsToDo with
  | [] => Ok view
  | i :: rest =>
      let! input := getChannelData audioBuffer i in
      let! view := floatTo16BitPCM_view view offset input in
      let! written := getChannelData audioBuffer i in
      writeChannels view (offset + List.length written * 2) audioBuffer rest
  end.

(** [exportWAV]: the bytes of the blob. *)
Definition exportWAV (audioBuffer : AudioBuffer) : result (list Byte.byte) :=
  let numOfChannels := AudioBuffer.numberOfChannels audioBuffer in
  let sampleRate := AudioBuffer.sampleRate audioBuffer in
  let format := 1%Z in
  let bitDepth := 16 in
  let totalLength := AudioBuffer.length audioBuffer * numOfChannels in
  let dataLength := totalLength * (bitDepth / 8) in
  let fileLength := dataLength + 44 in
  let view := replicate fileLength Byte.x00 in
  let! view := writeString view 0 "RIFF" in
  let! view := setUint32 view 4 (Z.of_nat fileLength - 8) in
  let! view := writeString view 8 "WAVE" in
  let! view := writeString view 12 "fmt " in
  let! view := setUint32 view 16 16 in
  let! view := setUint16 view 20 format in
  let! view := setUint16 view 22 (Z.of_nat numOfChannels) in
  let! view := setUint32 view 24 sampleRate in
  let! view := setUint32 view 28
                 (sampleRate * Z.of_nat numOfChannels * Z.of_nat (bitDepth / 8)) in
  let! view := setUint16 view 32 (Z.of_nat (numOfChannels * (bitDepth / 8))) in
  let! view := setUint16 view 34 (Z.of_nat bitDepth) in
  let! view := writeString view 36 "data" in
  let! view := setUint32 view 40 (Z.of_nat dataLength) in
  writeChannels view 44 audioBuffer (seq 0 numOfChannels).

(** *** Reading a file back *)

(** The two bytes stored for a 16-bit integer, the low byte first. *)
Definition int16Bytes (v : Z) : list Byte.byte := [byteOf v; byteOf (v / 256)].

Definition byteAt (bytes : list Byte.byte) (offset : nat) : Z :=
  byteValue (nth offset bytes Byte.x00).

(** The unsigned integers of 16 and of 32 bits at an offset, low byte first. *)
Definition uint16At (bytes : list Byte.byte) (offset : nat) : Z :=
  (byteAt bytes offset + 256 * byteAt bytes (offset + 1))%Z.

Definition uint32At (bytes : list Byte.byte) (offset : nat) : Z :=
  (byteAt bytes offset + 256 * byteAt bytes (offset + 1)
   + 65536 * byteAt bytes (offset + 2) + 16777216 * byteAt bytes (offset + 3))%Z.

(** The signed integer of 16 bits at an offset, low byte first. *)
Definition int16At (bytes : list Byte.byte) (offset : nat) : Z :=
  int16Of (nth offset bytes Byte.x00) (nth (offset + 1) bytes Byte.x00).

(** The text of [count] bytes at an offset. *)
Definition textAt (bytes : list Byte.byte) (offset count : nat) : string :=
  string_of_list_ascii
    (map (fun i => Ascii.ascii_of_N (Byte.to_N (nth (offset + i) bytes Byte.x00)))
       (seq 0 count)).

(** The 44 bytes that the writes of the header leave, for the values
    written. *)
Definition wavHeader (riffSize numOfChannels sampleRate byteRate blockAlign
    bitDepth dataLength : Z) : list Byte.byte :=
  [byteOf 82; byteOf 73; byteOf 70; byteOf 70;
   byteOf riffSize; byteOf (riffSize / 256); byteOf (riffSize / 65536);
   byteOf (riffSize / 16777216);
   byteOf 87; byteOf 65; byteOf 86; byteOf 69;
   byteOf 102; byteOf 109; byteOf 116; byteOf 32;
   byteOf 16; byteOf (16 / 256); byteOf (16 / 65536); byteOf (16 / 16777216);
   byteOf 1; byteOf (1 / 256);
   byteOf numOfChannels; byteOf (numOfChannels / 256);
   byteOf sampleRate; byteOf (sampleRate / 256); byteOf (sampleRate / 65536);
   byteOf (sampleRate / 16777216);
   byteOf byteRate; byteOf (byteRate / 256); byteOf (byteRate / 65536);
   byteOf (byteRate / 16777216);
   byteOf blockAlign; byteOf (blockAlign / 256);
   byteOf bitDepth; byteOf (bitDepth / 256);
   byteOf 100; byteOf 97; byteOf 116; byteOf 97;
   byteOf dataLength; byteOf (dataLength / 256); byteOf (dataLength / 65536);
   byteOf (dataLength / 16777216)]%Z.

(** Two channels of two samples. *)
Definition demoStereo : AudioBuffer :=
  AudioBuffer.Make 44100 2 2 [[1; -1]%Q; [1 # 2; 0]%Q].

(** ** The MP3 export and its worker ([exportMP3], [mp3Worker.js]) *)

(** The message posted to the worker. *)
Module EncodeRequest.
Record t : Type := Make {
  id : nat;
  channelData : list Z;        (* the Int16Array *)
  sampleRate : Z;
  numChannels : nat;
  quality : nat
}.
End EncodeRequest.

(** The message posted by a worker: [{ id, mp3Data, error }], a field that is
    absent being [None]. *)
Module WorkerMessage.
Record t : Type := Make {
  id : nat;
  mp3Data : option (list Byte.byte);   (* the bytes of the Blob *)
  error : option string
}.
End WorkerMessage.

(** How the promise returned by [exportMP3] ends. *)
Inductive Mp3Outcome : Type :=
  | Mp3Resolved (blob : list Byte.byte)
  | Mp3Rejected (message : string)       (* [reject(new Error(message))] *)
  | Mp3Threw (e : JsError).              (* an exception in the executor  *)

(** The variables of the module ([mp3Worker], by the order of its creation,
    [workerMessageId], the keys of [workerPromises] in the order of
    [for ... in]), and what has been done so far: the workers created, the
    messages posted with the worker they went to, the promises settled, the
    workers terminated. *)
Record Mp3Module : Type := {
  mp3Worker : option nat;
  workerMessageId : nat;
  workerPromises : list nat;
  workersCreated : nat;
  posted : list (nat * EncodeRequest.t);
  settlements : list (nat * Mp3Outcome);
  terminated : list nat
}.

Definition initialMp3Module : Mp3Module :=
  {| mp3Worker := None; workerMessageId := 0; workerPromises := [];
     workersCreated := 0; posted := []; settlements := []; terminated := [] |}.

(** [id in keys] *)
Definition hasKey (keys : list nat) (id : nat) : bool := existsb (Nat.eqb id) keys.

(** [delete workerPromises[id]] *)
Definition deleteKey (keys : list nat) (id : nat) : list nat :=
  List.filter (fun k => negb (k =? id)%nat) keys.

(** [resolve] or [reject] of the promise with the key [id]: without effect
    on a promise that is settled. *)
Definition settle (id : nat) (outcome : Mp3Outcome) (m : Mp3Module) : Mp3Module :=
  if hasKey (map fst (settlements m)) id then m
  else {| mp3Worker := mp3Worker m; workerMessageId := workerMessageId m;
          workerPromises := workerPromises m; workersCreated := workersCreated m;
          posted := posted m;
          settlements := settlements m ++ [(id, outcome)];
          terminated := terminated m |}.

(** A text in a condition: the empty text and an absent one are false. *)
Definition truthyText (s : option string) : bool :=
  match s with
  | Some (String _ _) => true
  | _ => false
  end.

(** [mp3Worker.onmessage] *)
Definition onmessage (data : WorkerMessage.t) (m : Mp3Module) : Mp3Module :=
  let id := WorkerMessage.id data in
  if hasKey (workerPromises m) id then
    let m :=
      match WorkerMessage.mp3Data data with
      | Some blob => settle id (Mp3Resolved blob) m
      | None =>
          if truthyText (WorkerMessage.error data)
          then settle id (Mp3Rejected (default EmptyString (WorkerMessage.error data))) m
          else m
      end in
    {| mp3Worker := mp3Worker m; workerMessageId := workerMessageId m;
       workerPromises := deleteKey (workerPromises m) id;
       workersCreated := workersCreated m; posted := posted m;
       settlements := settlements m; terminated := terminated m |}
  else m.

Definition workerErrorMessage : string := "MP3 Worker encountered an error.".

(** [mp3Worker.onerror] *)
Definition onerror (m : Mp3Module) : Mp3Module :=
  let m := fold_left (fun m id => settle id (Mp3Rejected workerErrorMessage) m)
             (workerPromises m) m in
  {| mp3Worker := None; workerMessageId := workerMessageId m;
     workerPromises := [];
     workersCreated := workersCreated m; posted := posted m;
     settlements := settlements m;
     terminated := terminated m ++ match mp3Worker m with
                                   | Some w => [w]
                                   | None => []
                                   end |}.

(** [exportMP3(audioBuffer)]: the key of the promise it returns, and the
    module after the executor has run. *)
Definition exportMP3 (audioBuffer : AudioBuffer) (m : Mp3Module) : nat * Mp3Module :=
  let worker := match mp3Worker m with
                | Some w => w
                | None => workersCreated m
                end in
  let created := match mp3Worker m with
                 | Some _ => workersCreated m
                 | None => S (workersCreated m)
                 end in
  let currentId := workerMessageId m in
  let m := {| mp3Worker := Some worker; workerMessageId := S (workerMessageId m);
              workerPromises := workerPromises m ++ [currentId];
              workersCreated := created; posted := posted m;
              settlements := settlements m; terminated := terminated m |} in
  match exportMP3_samples audioBuffer with
  | Ok samples =>
      (currentId,
       {| mp3Worker := mp3Worker m; workerMessageId := workerMessageId m;
          workerPromises := workerPromises m; workersCreated := workersCreated m;
          posted := posted m
                    ++ [(worker,
                         EncodeRequest.Make currentId samples
                           (AudioBuffer.sampleRate audioBuffer)
                           (AudioBuffer.numberOfChannels audioBuffer) 5)];
          settlements := settlements m; terminated := terminated m |})
  | Throw e => (currentId, settle currentId (Mp3Threw e) m)
  end.

(** What happens to the module, in any order: a call of [exportMP3], a
    message from a worker, an error of the worker. *)
Inductive Mp3Event : Type :=
  | Exports (audioBuffer : AudioBuffer)
  | Receives (data : WorkerMessage.t)
  | WorkerFails.

Definition mp3Step (m : Mp3Module) (event : Mp3Event) : Mp3Module :=
  match event with
  | Exports audioBuffer => snd (exportMP3 audioBuffer m)
  | Receives data => onmessage data m
  | WorkerFails => onerror m
  end.

Definition mp3Run (events : list Mp3Event) (m : Mp3Module) : Mp3Module :=
  fold_left mp3Step events m.

(** The number of calls of [exportMP3] among the events. *)
Definition exportsAmong (events : list Mp3Event) : nat :=
  List.length (List.filter (fun e => match e with Exports _ => true | _ => false end)
                 events).

(** *** The worker *)

Definition lamejsMissingMessage : string :=
  "lamejs not available in Web Worker. Ensure it's imported or globally accessible.".

Definition sampleBlockSize : nat := 1152.

(** [samples.subarray(begin, end)] for indices that are not negative. *)
Definition subarray {A : Type} (samples : list A) (begin end_ : nat) : list A :=
  firstn (Nat.min end_ (List.length samples) - begin) (skipn begin samples).

Section Mp3Worker.

(** The encoder of lamejs, when it is there: its constructor, [encodeBuffer]
    and [flush]; each of them returns, or throws an error with a message. *)
Variable Mp3Encoder : Type.
Variable newMp3Encoder : nat -> Z -> nat -> string + Mp3Encoder.
Variable encodeBuffer : Mp3Encoder -> list Z -> string + (Mp3Encoder * list Byte.byte).
Variable flush : Mp3Encoder -> string + list Byte.byte.

(** [for (let i = 0; i < samples.length; i += sampleBlockSize)]; the fuel is
    the number of iterations left, [samples.length] being enough. *)
Fixpoint encodeLoop (fuel i : nat) (samples : list Z) (mp3encoder : Mp3Encoder)
    (mp3Data : list (list Byte.byte))
  : option (string + (Mp3Encoder * list (list Byte.byte))) :=
  if (i <? List.length samples)%nat then
    match fuel with
    | O => None
    | S fuel' =>
        let sampleChunk := subarray samples i (i + sampleBlockSize) in
        match encodeBuffer mp3encoder sampleChunk with
        | inl message => Some (inl message)
        | inr (mp3encoder, mp3buf) =>
            encodeLoop fuel' (i + sampleBlockSize) samples mp3encoder
              (if (0 <? List.length mp3buf)%nat then mp3Data ++ [mp3buf] else mp3Data)
        end
    end
  else Some (inr (mp3encoder, mp3Data)).

(** The body of the [try]: the bytes of the blob, or the message of the error
    thrown. [lamejs] tells whether lamejs is defined in the worker. *)
Definition encode (lamejs : bool) (request : EncodeRequest.t)
  : option (string + list Byte.byte) :=
  if negb lamejs then Some (inl lamejsMissingMessage)
  else
    let samples := EncodeRequest.channelData request in
    match newMp3Encoder (EncodeRequest.numChannels request)
            (EncodeRequest.sampleRate request) (EncodeRequest.quality request) with
    | inl message => Some (inl message)
    | inr mp3encoder =>
        match encodeLoop (List.length samples) 0 samples mp3encoder [] with
        | None => None
        | Some (inl message) => Some (inl message)
        | Some (inr (mp3encoder, mp3Data)) =>
            match flush mp3encoder with
            | inl message => Some (inl message)
            | inr mp3buf =>
                Some (inr (concat (if (0 <? List.length mp3buf)%nat
                                   then mp3Data ++ [mp3buf] else mp3Data)))
            end
        end
    end.

(** [self.onmessage] of the worker: the message it posts. *)
Definition workerOnmessage (lamejs : bool) (request : EncodeRequest.t)
  : option WorkerMessage.t :=
  match encode lamejs request with
  | None => None
  | Some (inr blob) =>
      Some (WorkerMessage.Make (EncodeRequest.id request) (Some blob) None)
  | Some (inl message) =>
      Some (WorkerMessage.Make (EncodeRequest.id request) None
              (Some ("MP3 encoding failed: " ++ message)%string))
  end.

(** The blocks of samples given to [encodeBuffer], in order, when none of
    the calls throws. *)
Fixpoint sampleBlocks (fuel i : nat) (samples : list Z) : list (list Z) :=
  if (i <? List.length samples)%nat then
    match fuel with
    | O => []
    | S fuel' =>
        subarray samples i (i + sampleBlockSize)
        :: sampleBlocks fuel' (i + sampleBlockSize) samples
    end
  else [].

(** The encoder run over blocks: the parts of the output that are not empty. *)
Fixpoint encodeBlocks (blocks : list (list Z)) (mp3encoder : Mp3Encoder)
    (mp3Data : list (list Byte.byte))
  : string + (Mp3Encoder * list (list Byte.byte)) :=
  match blocks with
  | [] => inr (mp3encoder, mp3Data)
  | block :: rest =>
      match encodeBuffer mp3encoder block with
      | inl message => inl message
      | inr (mp3encoder, mp3buf) =>
          encodeBlocks rest mp3encoder
            (if (0 <? List.length mp3buf)%nat then mp3Data ++ [mp3buf] else mp3Data)
      end
  end.

End Mp3Worker.

(** An encoder used to exercise the statements: it keeps nothing and gives
    one byte for every block of samples. *)
Definition demoEncodeBuffer (e : unit) (block : list Z)
  : string + (unit * list Byte.byte) := inr (tt, [Byte.xff]).

(** *** Vocabulary of the MP3 export *)

Definition settledKeys (m : Mp3Module) : list nat := map fst (settlements m).

Definition postedKeys (m : Mp3Module) : list nat :=
  map (fun p => EncodeRequest.id (snd p)) (posted m).

(** What every sequence of events keeps true of the module: the keys in use
    are below [workerMessageId], no promise is settled twice, no key is
    entered twice, a promise whose message was posted and whose key is still
    entered is not settled, and the workers in use have been created. *)
Definition mp3Invariant (m : Mp3Module) : Prop :=
  (forall k, k ∈ workerPromises m -> k < workerMessageId m)
  /\ (forall k, k ∈ settledKeys m -> k < workerMessageId m)
  /\ (forall k, k ∈ postedKeys m -> k < workerMessageId m)
  /\ NoDup (settledKeys m)
  /\ NoDup (workerPromises m)
  /\ (forall k, k ∈ workerPromises m -> k ∈ postedKeys m -> k ∉ settledKeys m).

(** What a reply settles its promise with, if with anything. *)
Definition outcomeOfReply (data : WorkerMessage.t) : option Mp3Outcome :=
  match WorkerMessage.mp3Data data with
  | Some blob => Some (Mp3Resolved blob)
  | None =>
      if truthyText (WorkerMessage.error data)
      then Some (Mp3Rejected (default EmptyString (WorkerMessage.error data)))
      else None
  end.

(** A worker's answers used to exercise the statements. *)
Definition demoBlobReply (id : nat) : WorkerMessage.t :=
  WorkerMessage.Make id (Some [Byte.xff]) None.
Definition demoEmptyReply (id : nat) : WorkerMessage.t :=
  WorkerMessage.Make id None (Some EmptyString).

(** *** Further vocabulary: the run of the component *)


(** The speech calls all succeed: the call for chunk [j] gives [audio j]. *)
Definition allResolve (audio : nat -> AudioBuffer) (j : nat) : Settled AudioBuffer :=
  Resolved (audio j).

(** A text of six sentences of three characters, chunks of at most three
    characters. *)
Definition demoLongText : JsString := ofString "A. B. C. D. E. F.".

(** *** Further vocabulary: the segmentation *)

(** The code units of a text that are not white space, in order. *)
Definition nonSpace (s : JsString) : JsString :=
  List.filter (fun c => negb (isSpace c)) s.

(** The number of code units of the chunks together. *)
Definition totalChars (textChunks : list JsString) : nat :=
  sum_list (map (@List.length N) textChunks).

(** A matcher whose matches are never empty. *)
Definition matchesSomething (m : Matcher) : Prop :=
  forall before rest len, m before rest = Some len -> 1 <= len.

(** The characters of the chunks whose slot holds audio. *)
Definition countedChars (textChunks : list JsString)
    (slots : list (option AudioBuffer)) : nat :=
  sum_list (zip_with (fun (chunk : JsString) (slot : option AudioBuffer) =>
                        match slot with
                        | Some _ => List.length chunk
                        | None => 0
                        end) textChunks slots).

(** The characters packed so far, counting one more for the chunk in the
    making when there is one (the room for the space that joins it to the
    next sentence). *)
Definition packWeight (state : list JsString * JsString) : nat :=
  totalChars (fst state) + List.length (snd state)
  + (if truthy (snd state) then 1 else 0).

(** ** Showing a duration ([formatTime]) *)

(** The [%] of JavaScript on numbers: the result has the sign of the dividend.
    The remainder of two doubles is a double: nothing is rounded. (A zero
    divisor, which gives [NaN], does not occur in [formatTime].) *)
Definition remainder (a b : Q) : Q := a - b * inject_Z (truncate (a / b)).

(** [Number.prototype.toString] on an integral value, in decimal (below 1e21,
    where JavaScript switches to the exponent notation). *)
Definition toString (v : Z) : string :=
  DecimalString.NilZero.string_of_int (Z.to_int v).

Fixpoint repeatChar (count : nat) (c : ascii) : string :=
  match count with
  | O => EmptyString
  | S count' => String c (repeatChar count' c)
  end.

(** [padStart] with a pad string of one character. *)
Definition padStart (s : string) (targetLength : nat) (padChar : ascii) : string :=
  (repeatChar (targetLength - String.length s) padChar ++ s)%string.

(** [formatTime(seconds)]: the two quotients are operations on doubles. *)
Definition formatTime (seconds : Q) : string :=
  let absSeconds := Qabs.Qabs seconds in
  let h := Qfloor (roundDouble (absSeconds / 3600)) in
  let m := Qfloor (roundDouble (remainder absSeconds 3600 / 60)) in
  let s := Qfloor (remainder absSeconds 60) in
  let sign := if Qltb seconds 0 then "-"%string else EmptyString in
  let parts := map (fun v => padStart (toString v) 2 "0"%char) [m; s] in
  let parts := if (0 <? h)%Z then toString h :: parts else parts in
  (sign ++ String.concat ":" parts)%string.

(** [x] is a multiple of [2 ^ g], a power of two that is at most 1 and at
    least the spacing of the doubles around [x]. *)
Definition granular (x : Q) (g : Z) : Prop :=
  (g <= 0)%Z
  /\ (exists n : Z, (x == inject_Z n * 2 ^ g)%Q)
  /\ ((0 < x)%Q -> (binaryExponent x - 52 <= g)%Z).

(** The character of a decimal digit. *)
Definition digitChar (d : Z) : ascii := ascii_of_nat (48 + Z.to_nat d).

(** A run with the default volumes of the component, the doubles 0.8 and
    0.3, and a background track of two frames. *)
Definition demoMusicMix : MixSettings :=
  {| backgroundMusicBuffer := Some demoMusic;
     speechVolume := roundDouble (4 # 5); musicVolume := roundDouble (3 # 10) |}.

(** * Properties *)

(** ** Sample buffers: concatenation *)

Lemma wfBuffer_inv (b : AudioBuffer) :
  wfBuffer b = true ->
  1 <= AudioBuffer.numberOfChannels b /\ 1 <= AudioBuffer.length b
  /\ List.length (AudioBuffer.channels b) = AudioBuffer.numberOfChannels b
  /\ (forall c, c < AudioBuffer.numberOfChannels b ->
        List.length (channelOf b c) = AudioBuffer.length b).
Proof.
  unfold wfBuffer. rewrite !andb_true_iff, !Nat.leb_le, Nat.eqb_eq, forallb_forall.
  intros [[[Hn Hl] Hc] Hall]. repeat split; try assumption.
  intros c Hlt. apply Nat.eqb_eq, Hall. unfold channelOf.
  apply nth_In. lia.
Qed.

Lemma getChannelData_in_range (b : AudioBuffer) (c : nat) :
  c < AudioBuffer.numberOfChannels b -> getChannelData b c = Ok (channelOf b c).
Proof.
  intros H. unfold getChannelData.
  destruct (Nat.ltb_spec c (AudioBuffer.numberOfChannels b)); [reflexivity | lia].
Qed.

Lemma getChannelData_out_of_range (b : AudioBuffer) (c : nat) :
  AudioBuffer.numberOfChannels b <= c -> getChannelData b c = Throw IndexSizeError.
Proof.
  intros H. unfold getChannelData.
  destruct (Nat.ltb_spec c (AudioBuffer.numberOfChannels b)); [lia | reflexivity].
Qed.

Lemma createBuffer_ok (n len : nat) (rate : Z) :
  1 <= n -> 1 <= len ->
  createBuffer n len rate
  = Ok (AudioBuffer.Make rate n len (replicate n (replicate len 0%Q))).
Proof.
  intros Hn Hl. unfold createBuffer.
  destruct n; [lia |]. destruct len; [lia |]. reflexivity.
Qed.

Lemma checkFormats_ok (first : AudioBuffer) (buffers : list AudioBuffer) (t : nat) :
  forallb (sameFormatAs first) buffers = true ->
  checkFormats (AudioBuffer.sampleRate first) (AudioBuffer.numberOfChannels first)
    buffers t = Ok (t + totalLengthOf buffers).
Proof.
  revert t. induction buffers as [| b rest IH]; intros t H; simpl in *.
  - f_equal. unfold totalLengthOf. simpl. lia.
  - apply andb_true_iff in H as [Hb Hrest].
    unfold sameFormatAs in Hb. apply andb_true_iff in Hb as [Hr Hc].
    rewrite Hr, Hc. simpl. rewrite IH by assumption.
    f_equal. unfold totalLengthOf. simpl. lia.
Qed.

Lemma checkFormats_mismatch (first : AudioBuffer) (buffers : list AudioBuffer) (t : nat) :
  forallb (sameFormatAs first) buffers = false ->
  checkFormats (AudioBuffer.sampleRate first) (AudioBuffer.numberOfChannels first)
    buffers t = Throw formatMismatch.
Proof.
  revert t. induction buffers as [| b rest IH]; intros t H; simpl in *.
  - discriminate.
  - unfold sameFormatAs in H at 1.
    destruct (AudioBuffer.sampleRate b =? AudioBuffer.sampleRate first)%Z; simpl in *;
      [| reflexivity].
    destruct (AudioBuffer.numberOfChannels b =? AudioBuffer.numberOfChannels first)%nat;
      simpl in *; [| reflexivity].
    apply IH, H.
Qed.

Lemma setChannelData_same (b : AudioBuffer) (c : nat) (data : list Q) :
  AudioBuffer.channels b !! c = Some data -> setChannelData b c data = b.
Proof.
  intros H. destruct b as [r n l cs]. unfold setChannelData. simpl in *.
  f_equal. apply list_insert_id, H.
Qed.

Lemma splice_twice (target source more : list Q) (offset k : nat) :
  offset + List.length source + k <= List.length target ->
  let written := take offset target ++ source
                 ++ drop (offset + List.length source) target in
  take (offset + List.length source) written ++ more
    ++ drop (offset + List.length source + k) written
  = take offset target ++ (source ++ more)
    ++ drop (offset + (List.length source + k)) target.
Proof.
  intros Hfit written.
  assert (Hpre : List.length (take offset target ++ source)
                 = offset + List.length source).
  { rewrite length_app, length_take. lia. }
  assert (Hw : written = (take offset target ++ source)
                         ++ drop (offset + List.length source) target).
  { unfold written. rewrite <- app_assoc. reflexivity. }
  rewrite Hw. rewrite <- Hpre at 1. rewrite take_app_length.
  rewrite <- Hpre at 1. rewrite drop_app_add, drop_drop.
  rewrite <- !app_assoc, Nat.add_assoc. reflexivity.
Qed.

Lemma copyChannel_spec (c : nat) (buffers : list AudioBuffer) :
  forall (combined : AudioBuffer) (offset : nat) (target : list Q),
    c < AudioBuffer.numberOfChannels combined ->
    AudioBuffer.channels combined !! c = Some target ->
    Forall (hasChannel c) buffers ->
    offset + totalLengthOf buffers <= List.length target ->
    copyChannel combined c buffers offset
    = Ok (setChannelData combined c
            (take offset target ++ concat (map (fun b => channelOf b c) buffers)
             ++ drop (offset + totalLengthOf buffers) target)).
Proof.
  induction buffers as [| b rest IH]; intros combined offset target Hc Ht Hall Hfit.
  - simpl. unfold totalLengthOf. simpl. rewrite Nat.add_0_r, take_drop.
    f_equal. symmetry. apply setChannelData_same, Ht.
  - inversion Hall as [| ? ? [Hcb Hlen] Hall']; subst.
    unfold totalLengthOf in Hfit. simpl in Hfit. fold (totalLengthOf rest) in Hfit.
    simpl. rewrite (getChannelData_in_range combined c Hc).
    rewrite (getChannelData_in_range b c Hcb). simpl.
    unfold channelOf at 1. rewrite (nth_lookup_Some _ _ _ _ Ht).
    unfold typedArraySet.
    destruct (Nat.ltb_spec (List.length target)
                (offset + List.length (channelOf b c))) as [Hbad | _]; [lia |].
    simpl.
    set (written := take offset target ++ channelOf b c
                    ++ drop (offset + List.length (channelOf b c)) target).
    assert (Hlook : AudioBuffer.channels (setChannelData combined c written) !! c
                    = Some written).
    { simpl. apply list_lookup_insert_eq. eapply lookup_lt_Some, Ht. }
    assert (Hwl : List.length written = List.length target).
    { unfold written. rewrite !length_app, length_take, length_drop. lia. }
    rewrite (IH (setChannelData combined c written)
               (offset + AudioBuffer.length b) written); try assumption.
    + f_equal. unfold setChannelData. simpl. rewrite list_insert_insert_eq.
      do 2 f_equal. unfold totalLengthOf in *. simpl. rewrite <- Hlen in *.
      apply splice_twice. lia.
    + rewrite Hwl. lia.
Qed.

(** The copy keeps the format and the number of channels, fills the channels
    it is asked to fill and leaves the others as they are. *)
Lemma copyChannels_spec (buffers : list AudioBuffer) (todo : list nat) :
  forall combined : AudioBuffer,
    NoDup todo ->
    (forall c, c ∈ todo ->
       c < AudioBuffer.numberOfChannels combined
       /\ Forall (hasChannel c) buffers
       /\ exists target, AudioBuffer.channels combined !! c = Some target
                         /\ List.length target = totalLengthOf buffers) ->
    exists out,
      copyChannels combined todo buffers = Ok out
      /\ AudioBuffer.sampleRate out = AudioBuffer.sampleRate combined
      /\ AudioBuffer.numberOfChannels out = AudioBuffer.numberOfChannels combined
      /\ AudioBuffer.length out = AudioBuffer.length combined
      /\ List.length (AudioBuffer.channels out)
         = List.length (AudioBuffer.channels combined)
      /\ (forall c, c ∈ todo ->
            AudioBuffer.channels out !! c
            = Some (concat (map (fun b => channelOf b c) buffers)))
      /\ (forall c, c ∉ todo ->
            AudioBuffer.channels out !! c = AudioBuffer.channels combined !! c).
Proof.
  induction todo as [| c rest IH]; intros combined Hnd Hall.
  - exists combined. simpl. repeat split; try reflexivity.
    intros c Hc. inversion Hc.
  - apply NoDup_cons in Hnd as [Hnotin Hnd'].
    destruct (Hall c) as (Hc & Hbufs & target & Ht & Hlen); [left |].
    simpl.
    rewrite (copyChannel_spec c buffers combined 0 target Hc Ht Hbufs) by lia.
    simpl. rewrite drop_ge by lia. rewrite app_nil_r.
    set (filled := concat (map (fun b => channelOf b c) buffers)).
    destruct (IH (setChannelData combined c filled) Hnd') as
      (out & Hrun & Hr & Hn & Hl & Hcs & Hin & Hout).
    { intros c' Hc'. destruct (Hall c') as (Hlt & Hb & t & Htc & Htl); [by right |].
      split; [exact Hlt |]. split; [exact Hb |]. exists t. split; [| exact Htl].
      simpl. rewrite list_lookup_insert_ne; [exact Htc |].
      intros Heq. apply Hnotin. rewrite Heq. exact Hc'. }
    exists out. split; [exact Hrun |]. simpl in *.
    rewrite length_insert in Hcs.
    repeat split; try assumption.
    + intros c' Hc'. apply elem_of_cons in Hc' as [-> | Hc']; [| apply Hin, Hc'].
      rewrite (Hout c Hnotin). apply list_lookup_insert_eq.
      eapply lookup_lt_Some, Ht.
    + intros c' Hc'. apply not_elem_of_cons in Hc' as [Hne Hc'].
      rewrite Hout by assumption.
      apply list_lookup_insert_ne. congruence.
Qed.

Lemma channelOf_lookup (b : AudioBuffer) (c : nat) (data : list Q) :
  AudioBuffer.channels b !! c = Some data -> channelOf b c = data.
Proof. intros H. unfold channelOf. apply nth_lookup_Some, H. Qed.

Lemma length_concat_channels (c : nat) (buffers : list AudioBuffer) :
  Forall (hasChannel c) buffers ->
  List.length (concat (map (fun b => channelOf b c) buffers)) = totalLengthOf buffers.
Proof.
  induction 1 as [| b rest [_ Hb] _ IH]; [reflexivity |].
  simpl. rewrite length_app, IH, Hb. reflexivity.
Qed.

(** What [combineAudioBuffers] returns for well-formed buffers of one
    format. *)
Lemma combineAudioBuffers_spec (context : AudioContext)
    (first : AudioBuffer) (rest : list AudioBuffer) :
  forallb wfBuffer (first :: rest) = true ->
  sameFormat (first :: rest) = true ->
  exists out,
    combineAudioBuffers context (first :: rest) = Ok out
    /\ AudioBuffer.sampleRate out = AudioBuffer.sampleRate first
    /\ AudioBuffer.numberOfChannels out = AudioBuffer.numberOfChannels first
    /\ AudioBuffer.length out = totalLengthOf (first :: rest)
    /\ wfBuffer out = true
    /\ forall c, c < AudioBuffer.numberOfChannels out ->
         channelOf out c
         = concat (map (fun b => channelOf b c) (first :: rest)).
Proof.
  intros Hwf Hfmt. unfold combineAudioBuffers. cbv zeta.
  set (buffers := first :: rest) in *.
  assert (Hwf' : forall b, In b buffers -> wfBuffer b = true).
  { apply forallb_forall, Hwf. }
  assert (Hfmt' : forall b, In b buffers -> sameFormatAs first b = true).
  { apply forallb_forall, Hfmt. }
  destruct (wfBuffer_inv first (Hwf' first (or_introl eq_refl))) as (Hn1 & Hl1 & _ & _).
  assert (Hchan : forall c, c < AudioBuffer.numberOfChannels first ->
                            Forall (hasChannel c) buffers).
  { intros c Hc. apply List.Forall_forall. intros b Hb.
    destruct (wfBuffer_inv b (Hwf' b Hb)) as (_ & _ & _ & Hlen).
    specialize (Hfmt' b Hb). unfold sameFormatAs in Hfmt'.
    apply andb_true_iff in Hfmt' as [_ Hnc]. apply Nat.eqb_eq in Hnc.
    split; [lia | apply Hlen; lia]. }
  assert (Htotal : 1 <= totalLengthOf buffers).
  { unfold totalLengthOf, buffers. simpl. lia. }
  rewrite (checkFormats_ok first buffers 0 Hfmt). simpl.
  rewrite (createBuffer_ok _ _ _ Hn1 Htotal). simpl.
  set (n := AudioBuffer.numberOfChannels first) in *.
  set (silence := replicate n (replicate (totalLengthOf buffers) 0%Q)).
  destruct (copyChannels_spec buffers (seq 0 n)
              (AudioBuffer.Make (AudioBuffer.sampleRate first) n
                 (totalLengthOf buffers) silence))
    as (out & Hrun & Hr & Hn & Hl & Hcs & Hin & _).
  { apply NoDup_seq. }
  { intros c Hc. apply elem_of_seq in Hc. simpl.
    split; [lia |]. split; [apply Hchan; lia |].
    exists (replicate (totalLengthOf buffers) 0%Q).
    split; [apply lookup_replicate_2; lia | apply length_replicate]. }
  exists out. split; [exact Hrun |]. simpl in *.
  assert (Hdata : forall c, c < n ->
            channelOf out c = concat (map (fun b => channelOf b c) buffers)).
  { intros c Hc. apply channelOf_lookup, Hin, elem_of_seq. lia. }
  repeat split; try assumption.
  - unfold wfBuffer. rewrite Hn, Hl, Hcs. unfold silence.
    rewrite length_replicate.
    rewrite !andb_true_iff, !Nat.leb_le, Nat.eqb_eq. repeat split; try lia.
    apply forallb_forall. intros data Hd. apply Nat.eqb_eq.
    apply list_elem_of_In, list_elem_of_lookup in Hd as [c Hc].
    assert (Hlt : c < n).
    { apply lookup_lt_Some in Hc. rewrite Hcs in Hc. unfold silence in Hc.
      rewrite length_replicate in Hc. exact Hc. }
    rewrite <- (channelOf_lookup _ _ _ Hc), (Hdata c Hlt).
    apply length_concat_channels, Hchan, Hlt.
  - intros c Hc. apply Hdata. lia.
Qed.

(** ** The arithmetic of the platform *)

(** *** Powers of two *)

Lemma pow2_pos (e : Z) : (0 < 2 ^ e)%Q.
Proof. apply Qpower.Qpower_0_lt. reflexivity. Qed.

Lemma pow2_add (a b : Z) : (2 ^ (a + b) == 2 ^ a * 2 ^ b)%Q.
Proof. apply Qpower.Qpower_plus. discriminate. Qed.

Lemma pow2_sub (a b : Z) : (2 ^ (a - b) == 2 ^ a / 2 ^ b)%Q.
Proof. apply Qpower.Qpower_minus. discriminate. Qed.

Lemma pow2_le (a b : Z) : (a <= b)%Z -> (2 ^ a <= 2 ^ b)%Q.
Proof. intros H. apply Qpower.Qpower_le_compat_l; [exact H | discriminate]. Qed.

Lemma pow2_lt (a b : Z) : (a < b)%Z -> (2 ^ a < 2 ^ b)%Q.
Proof. intros H. apply Qpower.Qpower_lt_compat_l; [exact H | reflexivity]. Qed.

Lemma pow2_lt_inv (a b : Z) : (2 ^ a < 2 ^ b)%Q -> (a < b)%Z.
Proof. intros H. apply (Qpower.Qpower_lt_compat_l_inv 2); [exact H | reflexivity]. Qed.

Lemma pow2_le_inv (a b : Z) : (2 ^ a <= 2 ^ b)%Q -> (a <= b)%Z.
Proof. intros H. apply (Qpower.Qpower_le_compat_l_inv 2); [exact H | reflexivity]. Qed.

Lemma pow2_integer (e : Z) : (0 <= e)%Z -> (2 ^ e == inject_Z (2 ^ e))%Q.
Proof. intros H. symmetry. apply (Qpower.Zpower_Qpower 2 e H). Qed.

Lemma pow2_succ (e : Z) : (2 ^ (e + 1) == 2 * 2 ^ e)%Q.
Proof. rewrite pow2_add. change (2 ^ 1)%Q with 2%Q. ring. Qed.

(** *** The exponent *)

Lemma binaryExponent_spec (x : Q) :
  (0 < x)%Q ->
  (2 ^ binaryExponent x <= x)%Q /\ (x < 2 ^ (binaryExponent x + 1))%Q.
Proof.
  intros Hpos. unfold binaryExponent.
  destruct x as [n d]. cbn [Qnum Qden].
  assert (Hn : (0 < n)%Z).
  { unfold Qlt in Hpos. cbn in Hpos. lia. }
  pose proof (Z.log2_spec n Hn) as [Hn1 Hn2].
  pose proof (Z.log2_spec (Zpos d) ltac:(lia)) as [Hd1 Hd2].
  pose proof (Z.log2_nonneg n) as Hln. pose proof (Z.log2_nonneg (Zpos d)) as Hld.
  set (ln := Z.log2 n) in *. set (ld := Z.log2 (Zpos d)) in *.
  assert (HN1 : (2 ^ ln <= inject_Z n)%Q).
  { rewrite pow2_integer by lia. rewrite <- Zle_Qle. exact Hn1. }
  assert (HN2 : (inject_Z n < 2 ^ (ln + 1))%Q).
  { rewrite pow2_integer by lia. rewrite <- Zlt_Qlt.
    replace (ln + 1)%Z with (Z.succ ln) by lia. exact Hn2. }
  assert (HD1 : (2 ^ ld <= inject_Z (Zpos d))%Q).
  { rewrite pow2_integer by lia. rewrite <- Zle_Qle. exact Hd1. }
  assert (HD2 : (inject_Z (Zpos d) < 2 ^ (ld + 1))%Q).
  { rewrite pow2_integer by lia. rewrite <- Zlt_Qlt.
    replace (ld + 1)%Z with (Z.succ ld) by lia. exact Hd2. }
  assert (Hx : ((n # d) * inject_Z (Zpos d) == inject_Z n)%Q).
  { unfold Qeq, Qmult, inject_Z. cbn. lia. }
  pose proof (pow2_pos ld) as Hpd. pose proof (pow2_pos (ld + 1)) as Hpd1.
  pose proof (pow2_pos ln) as Hpn.
  set (x := n # d) in *. set (N := inject_Z n) in *. set (D := inject_Z (Zpos d)) in *.
  assert (Hupper : forall a, (inject_Z n < 2 ^ (a + ld))%Q -> (x < 2 ^ a)%Q).
  { intros a Ha. fold N in Ha. rewrite pow2_add in Ha.
    pose proof (pow2_pos a) as Hpa.
    apply Qnot_le_lt. intros Hle.
    assert (2 ^ a * 2 ^ ld <= x * D)%Q by nra. lra. }
  assert (Hlower : forall a, (2 ^ (a + (ld + 1)) <= inject_Z n)%Q -> (2 ^ a <= x)%Q).
  { intros a Ha. fold N in Ha. rewrite pow2_add in Ha.
    pose proof (pow2_pos a) as Hpa.
    apply Qnot_lt_le. intros Hlt.
    assert (x * D < 2 ^ a * 2 ^ (ld + 1))%Q by nra. lra. }
  destruct (Qle_bool (2 ^ (ln - ld)) x) eqn:Htest.
  - apply Qle_bool_iff in Htest. split; [exact Htest |].
    apply Hupper. replace (ln - ld + 1 + ld)%Z with (ln + 1)%Z by lia. exact HN2.
  - assert (Hlt : (x < 2 ^ (ln - ld))%Q).
    { apply Qnot_le_lt. intros Hle. apply Qle_bool_iff in Hle. congruence. }
    split.
    + apply Hlower. replace (ln - ld - 1 + (ld + 1))%Z with ln by lia. exact HN1.
    + replace (ln - ld - 1 + 1)%Z with (ln - ld)%Z by lia. exact Hlt.
Qed.

Lemma binaryExponent_unique (x : Q) (e : Z) :
  (2 ^ e <= x)%Q -> (x < 2 ^ (e + 1))%Q -> binaryExponent x = e.
Proof.
  intros Hlo Hhi.
  assert (Hpos : (0 < x)%Q) by (pose proof (pow2_pos e); lra).
  destruct (binaryExponent_spec x Hpos) as [Hlo' Hhi'].
  assert (H1 : (binaryExponent x < e + 1)%Z) by (apply pow2_lt_inv; lra).
  assert (H2 : (e < binaryExponent x + 1)%Z) by (apply pow2_lt_inv; lra).
  lia.
Qed.

Lemma binaryExponent_comp (x y : Q) :
  (0 < x)%Q -> (x == y)%Q -> binaryExponent x = binaryExponent y.
Proof.
  intros Hpos Heq. destruct (binaryExponent_spec x Hpos) as [Hlo Hhi].
  symmetry. apply binaryExponent_unique; rewrite <- Heq; assumption.
Qed.

(** A bound on the number bounds its exponent. *)
Lemma binaryExponent_le (x : Q) (k : Z) :
  (0 < x)%Q -> (x < 2 ^ (k + 1))%Q -> (binaryExponent x <= k)%Z.
Proof.
  intros Hpos Hk. destruct (binaryExponent_spec x Hpos) as [Hlo _].
  assert (binaryExponent x < k + 1)%Z by (apply pow2_lt_inv; lra). lia.
Qed.

Lemma binaryExponent_ge (x : Q) (k : Z) :
  (2 ^ k <= x)%Q -> (k <= binaryExponent x)%Z.
Proof.
  intros Hk. assert (Hpos : (0 < x)%Q) by (pose proof (pow2_pos k); lra).
  destruct (binaryExponent_spec x Hpos) as [_ Hhi].
  assert (k < binaryExponent x + 1)%Z by (apply pow2_lt_inv; lra). lia.
Qed.

(** *** Rounding to an integer *)

Lemma roundTiesToEven_near (y : Q) :
  (inject_Z (roundTiesToEven y) - (1 # 2) <= y)%Q
  /\ (y <= inject_Z (roundTiesToEven y) + (1 # 2))%Q.
Proof.
  unfold roundTiesToEven.
  pose proof (Qfloor_le y) as Hlo. pose proof (Qlt_floor y) as Hhi.
  set (f := Qfloor y) in *. rewrite inject_Z_plus in Hhi.
  change (inject_Z 1) with 1%Q in Hhi.
  destruct (Qcompare_spec (y - inject_Z f) (1 # 2)) as [Heq | Hlt | Hgt].
  - destruct (Z.even f); rewrite ?inject_Z_plus; change (inject_Z 1) with 1%Q; lra.
  - lra.
  - rewrite inject_Z_plus. change (inject_Z 1) with 1%Q. lra.
Qed.

Lemma roundTiesToEven_comp (x y : Q) :
  (x == y)%Q -> roundTiesToEven x = roundTiesToEven y.
Proof.
  intros Heq. unfold roundTiesToEven.
  rewrite (Qfloor_comp x y Heq).
  assert (Hc : (x - inject_Z (Qfloor y) ?= 1 # 2)%Q
               = (y - inject_Z (Qfloor y) ?= 1 # 2)%Q).
  { apply Qcompare_comp; [rewrite Heq |]; reflexivity. }
  rewrite Hc. reflexivity.
Qed.

Lemma roundTiesToEven_le (y : Q) (z : Z) :
  (y <= inject_Z z)%Q -> (roundTiesToEven y <= z)%Z.
Proof.
  intros H. destruct (roundTiesToEven_near y) as [Hlo _].
  assert (Hlt : (roundTiesToEven y < z + 1)%Z).
  { rewrite Zlt_Qlt, inject_Z_plus. change (inject_Z 1) with 1%Q. lra. }
  lia.
Qed.

Lemma roundTiesToEven_ge (y : Q) (z : Z) :
  (inject_Z z <= y)%Q -> (z <= roundTiesToEven y)%Z.
Proof.
  intros H. destruct (roundTiesToEven_near y) as [_ Hhi].
  assert (Hlt : (z < roundTiesToEven y + 1)%Z).
  { rewrite Zlt_Qlt, inject_Z_plus. change (inject_Z 1) with 1%Q. lra. }
  lia.
Qed.

Lemma roundTiesToEven_lt (y : Q) (z : Z) :
  (y < inject_Z z - (1 # 2))%Q -> (roundTiesToEven y < z)%Z.
Proof.
  intros H. destruct (roundTiesToEven_near y) as [Hlo _].
  rewrite Zlt_Qlt. lra.
Qed.

Lemma roundTiesToEven_integer (z : Z) : roundTiesToEven (inject_Z z) = z.
Proof.
  pose proof (roundTiesToEven_le (inject_Z z) z ltac:(apply Qle_refl)).
  pose proof (roundTiesToEven_ge (inject_Z z) z ltac:(apply Qle_refl)).
  lia.
Qed.

(** *** Rounding to a floating-point number *)

Lemma roundFloat_zero (prec emin : Z) (x : Q) :
  (x == 0)%Q -> roundFloat prec emin x = 0%Q.
Proof.
  intros H. unfold roundFloat. apply Qeq_bool_iff in H. rewrite H. reflexivity.
Qed.

Lemma roundFloat_nonzero (prec emin : Z) (x : Q) :
  ~ (x == 0)%Q ->
  (roundFloat prec emin x
   == inject_Z (roundTiesToEven (x / quantumOf prec emin x))
      * quantumOf prec emin x)%Q.
Proof.
  intros H. unfold roundFloat.
  destruct (Qeq_bool x 0) eqn:Hz; [apply Qeq_bool_iff in Hz; contradiction |].
  cbv zeta. rewrite Qred_correct. reflexivity.
Qed.

Lemma Qabs_pos_nonzero (x : Q) : ~ (x == 0)%Q -> (0 < Qabs.Qabs x)%Q.
Proof.
  intros H. destruct (Qlt_le_dec x 0) as [Hneg | Hpos].
  - rewrite (Qabs.Qabs_neg x) by lra. lra.
  - rewrite (Qabs.Qabs_pos x Hpos).
    destruct (Qlt_le_dec 0 x) as [Hlt | Hle]; [exact Hlt |].
    exfalso. apply H. lra.
Qed.

Lemma quantumOf_comp (prec emin : Z) (x y : Q) :
  ~ (x == 0)%Q -> (x == y)%Q -> quantumOf prec emin x = quantumOf prec emin y.
Proof.
  intros Hnz Heq. unfold quantumOf.
  rewrite (binaryExponent_comp (Qabs.Qabs x) (Qabs.Qabs y)).
  - reflexivity.
  - apply Qabs_pos_nonzero, Hnz.
  - rewrite Heq. reflexivity.
Qed.

Lemma roundFloat_comp (prec emin : Z) (x y : Q) :
  (x == y)%Q -> roundFloat prec emin x = roundFloat prec emin y.
Proof.
  intros Heq. unfold roundFloat.
  destruct (Qeq_bool x 0) eqn:Hx.
  - apply Qeq_bool_iff in Hx. rewrite Heq in Hx. apply Qeq_bool_iff in Hx.
    rewrite Hx. reflexivity.
  - assert (Hnz : ~ (x == 0)%Q).
    { intros H. apply Qeq_bool_iff in H. congruence. }
    destruct (Qeq_bool y 0) eqn:Hy.
    { apply Qeq_bool_iff in Hy. rewrite <- Heq in Hy. contradiction. }
    cbv zeta. fold (quantumOf prec emin x). fold (quantumOf prec emin y).
    rewrite (quantumOf_comp prec emin x y Hnz Heq).
    apply Qred_complete.
    rewrite (roundTiesToEven_comp (x / quantumOf prec emin y)
               (y / quantumOf prec emin y)) by (rewrite Heq; reflexivity).
    reflexivity.
Qed.

Lemma quantumOf_pos (prec emin : Z) (x : Q) : (0 < quantumOf prec emin x)%Q.
Proof. apply pow2_pos. Qed.

Lemma quantumOf_le (prec emin k : Z) (x : Q) :
  ~ (x == 0)%Q -> (Qabs.Qabs x <= 2 ^ k)%Q -> (emin <= k)%Z ->
  (quantumOf prec emin x <= 2 ^ (k - prec + 1))%Q.
Proof.
  intros Hnz Hk Hm. unfold quantumOf. apply pow2_le.
  destruct (binaryExponent_spec _ (Qabs_pos_nonzero x Hnz)) as [Hlo _].
  assert (binaryExponent (Qabs.Qabs x) <= k)%Z by (apply pow2_le_inv; lra).
  lia.
Qed.

(** What is rounded is a multiple of the spacing, at most half a spacing
    away. *)
Lemma roundFloat_near (prec emin : Z) (x : Q) :
  ~ (x == 0)%Q ->
  exists n : Z,
    (roundFloat prec emin x == inject_Z n * quantumOf prec emin x)%Q
    /\ (Qabs.Qabs (roundFloat prec emin x - x) <= quantumOf prec emin x / 2)%Q
    /\ n = roundTiesToEven (x / quantumOf prec emin x).
Proof.
  intros Hnz. exists (roundTiesToEven (x / quantumOf prec emin x)).
  pose proof (roundFloat_nonzero prec emin x Hnz) as Hr.
  pose proof (quantumOf_pos prec emin x) as Hq.
  destruct (roundTiesToEven_near (x / quantumOf prec emin x)) as [Hlo Hhi].
  set (q := quantumOf prec emin x) in *.
  set (n := inject_Z (roundTiesToEven (x / q))) in *.
  split; [exact Hr |]. split; [| reflexivity].
  assert (Hx : (x == x / q * q)%Q) by (field; lra).
  set (y := (x / q)%Q) in *.
  apply Qabs.Qabs_Qle_condition. rewrite Hr.
  split.
  - assert ((n - y) * q >= - (1 # 2) * q)%Q by nra.
    unfold Qdiv. change (/ 2)%Q with (1 # 2)%Q. lra.
  - assert ((n - y) * q <= (1 # 2) * q)%Q by nra.
    unfold Qdiv. change (/ 2)%Q with (1 # 2)%Q. lra.
Qed.

(** The error of rounding a number of magnitude at most [2 ^ k]. *)
Lemma roundFloat_error (prec emin k : Z) (x : Q) :
  (Qabs.Qabs x <= 2 ^ k)%Q -> (emin <= k)%Z ->
  (Qabs.Qabs (roundFloat prec emin x - x) <= 2 ^ (k - prec))%Q.
Proof.
  intros Hk Hm. destruct (Qeq_dec x 0) as [Hz | Hnz].
  - rewrite (roundFloat_zero prec emin x Hz).
    assert (Hd : (0 - x == 0)%Q) by lra. rewrite Hd.
    apply Qlt_le_weak, pow2_pos.
  - destruct (roundFloat_near prec emin x Hnz) as (n & _ & Herr & _).
    pose proof (quantumOf_le prec emin k x Hnz Hk Hm) as Hq.
    rewrite pow2_succ in Hq.
    eapply Qle_trans; [exact Herr |].
    apply Qle_shift_div_r; [reflexivity | lra].
Qed.

(** Rounding does not leave an interval that ends at powers of two. *)
Lemma roundFloat_bound (prec emin k : Z) (x : Q) :
  (1 <= prec)%Z -> (Qabs.Qabs x <= 2 ^ k)%Q -> (emin <= k)%Z ->
  (Qabs.Qabs (roundFloat prec emin x) <= 2 ^ k)%Q.
Proof.
  intros Hp Hk Hm. destruct (Qeq_dec x 0) as [Hz | Hnz].
  - rewrite (roundFloat_zero prec emin x Hz). apply Qlt_le_weak, pow2_pos.
  - destruct (roundFloat_near prec emin x Hnz) as (n & Hr & _ & Hn).
    pose proof (quantumOf_pos prec emin x) as Hq.
    destruct (binaryExponent_spec _ (Qabs_pos_nonzero x Hnz)) as [Hlo _].
    assert (Hbe : (binaryExponent (Qabs.Qabs x) <= k)%Z) by (apply pow2_le_inv; lra).
    unfold quantumOf in *.
    set (e := Z.max (binaryExponent (Qabs.Qabs x)) emin) in *.
    assert (He : (e <= k)%Z) by lia.
    set (q := (2 ^ (e - prec + 1)%Z)%Q) in *.
    set (d := (k - e + prec - 1)%Z).
    assert (HN : (inject_Z (2 ^ d) * q == 2 ^ k)%Q).
    { rewrite <- pow2_integer by lia. unfold q. rewrite <- pow2_add.
      replace (d + (e - prec + 1))%Z with k by lia. reflexivity. }
    apply Qabs.Qabs_Qle_condition in Hk as [Hk1 Hk2].
    assert (Hup : (n <= 2 ^ d)%Z).
    { rewrite Hn. apply roundTiesToEven_le.
      apply Qle_shift_div_r; [exact Hq | lra]. }
    assert (Hdown : (- 2 ^ d <= n)%Z).
    { rewrite Hn. apply roundTiesToEven_ge.
      apply Qle_shift_div_l; [exact Hq |]. rewrite inject_Z_opp. lra. }
    apply Qabs.Qabs_Qle_condition. rewrite Hr.
    rewrite Zle_Qle in Hup, Hdown. rewrite inject_Z_opp in Hdown.
    split; nra.
Qed.

(** A multiple of a power of two that is at least the spacing is kept. *)
Lemma roundFloat_representable (prec emin : Z) (x : Q) (n g : Z) :
  ~ (x == 0)%Q -> (x == inject_Z n * 2 ^ g)%Q ->
  (Z.max (binaryExponent (Qabs.Qabs x)) emin - prec + 1 <= g)%Z ->
  (roundFloat prec emin x == x)%Q.
Proof.
  intros Hnz Hx Hg. rewrite (roundFloat_nonzero prec emin x Hnz).
  unfold quantumOf.
  set (e := Z.max (binaryExponent (Qabs.Qabs x)) emin) in *.
  pose proof (pow2_pos (e - prec + 1)) as Hq.
  set (d := (g - (e - prec + 1))%Z).
  assert (Hd : (2 ^ g == inject_Z (2 ^ d) * 2 ^ (e - prec + 1))%Q).
  { rewrite <- pow2_integer by lia. rewrite <- pow2_add.
    replace (d + (e - prec + 1))%Z with g by lia. reflexivity. }
  assert (Hdiv : (x / 2 ^ (e - prec + 1) == inject_Z (n * 2 ^ d))%Q).
  { rewrite inject_Z_mult, Hx, Hd. field. lra. }
  rewrite (roundTiesToEven_comp _ _ Hdiv), roundTiesToEven_integer.
  rewrite inject_Z_mult, Hx, Hd. ring.
Qed.

Lemma Qabs_inject_Z (z : Z) : Qabs.Qabs (inject_Z z) = inject_Z (Z.abs z).
Proof. reflexivity. Qed.

(** Rounding twice is rounding once. *)
Lemma roundFloat_idempotent (prec emin : Z) (x : Q) :
  (1 <= prec)%Z ->
  (roundFloat prec emin (roundFloat prec emin x) == roundFloat prec emin x)%Q.
Proof.
  intros Hp. destruct (Qeq_dec x 0) as [Hz | Hnz].
  { rewrite (roundFloat_zero prec emin x Hz). reflexivity. }
  destruct (Qeq_dec (roundFloat prec emin x) 0) as [Hrz | Hrnz].
  { rewrite (roundFloat_zero prec emin _ Hrz). symmetry. exact Hrz. }
  destruct (roundFloat_near prec emin x Hnz) as (n & Hr & _ & Hn).
  pose proof (quantumOf_pos prec emin x) as Hq.
  destruct (binaryExponent_spec _ (Qabs_pos_nonzero x Hnz)) as [_ Hhi].
  unfold quantumOf in *.
  set (e := Z.max (binaryExponent (Qabs.Qabs x)) emin) in *.
  set (q := (2 ^ (e - prec + 1)%Z)%Q) in *.
  set (r := roundFloat prec emin x) in *.
  assert (Hpq : (inject_Z (2 ^ prec) * q == 2 ^ (e + 1))%Q).
  { rewrite <- pow2_integer by lia. unfold q. rewrite <- pow2_add.
    replace (prec + (e - prec + 1))%Z with (e + 1)%Z by lia. reflexivity. }
  assert (Hx : (Qabs.Qabs x < 2 ^ (e + 1))%Q).
  { eapply Qlt_le_trans; [exact Hhi |]. apply pow2_le. lia. }
  assert (Hx' : (- 2 ^ (e + 1) <= x <= 2 ^ (e + 1))%Q).
  { apply Qabs.Qabs_Qle_condition. lra. }
  assert (Hup : (n <= 2 ^ prec)%Z).
  { rewrite Hn. apply roundTiesToEven_le.
    apply Qle_shift_div_r; [exact Hq | lra]. }
  assert (Hdown : (- 2 ^ prec <= n)%Z).
  { rewrite Hn. apply roundTiesToEven_ge.
    apply Qle_shift_div_l; [exact Hq |]. rewrite inject_Z_opp. lra. }
  assert (Habs : (Qabs.Qabs r == inject_Z (Z.abs n) * q)%Q).
  { rewrite Hr, Qabs.Qabs_Qmult, Qabs_inject_Z.
    rewrite (Qabs.Qabs_pos q) by lra. reflexivity. }
  pose proof (Qabs_pos_nonzero r Hrnz) as Hrpos.
  destruct (Z.eq_dec (Z.abs n) (2 ^ prec)%Z) as [Hfull | Hless].
  - assert (Hmag : (Qabs.Qabs r == 2 ^ (e + 1))%Q).
    { rewrite Habs, Hfull. exact Hpq. }
    assert (Hbe : binaryExponent (Qabs.Qabs r) = (e + 1)%Z).
    { apply binaryExponent_unique; rewrite Hmag; [apply Qle_refl |].
      apply pow2_lt. lia. }
    apply (roundFloat_representable prec emin r (Z.sgn n) (e + 1) Hrnz).
    + rewrite Hr, <- Hpq, Qmult_assoc, <- inject_Z_mult.
      replace (Z.sgn n * 2 ^ prec)%Z with n by lia. reflexivity.
    + rewrite Hbe. lia.
  - assert (Hlt : (Z.abs n < 2 ^ prec)%Z) by lia.
    assert (Hmag : (Qabs.Qabs r < 2 ^ (e + 1))%Q).
    { rewrite Habs, <- Hpq. rewrite Zlt_Qlt in Hlt. nra. }
    pose proof (binaryExponent_le _ e Hrpos Hmag) as Hbe.
    apply (roundFloat_representable prec emin r n (e - prec + 1) Hrnz).
    + exact Hr.
    + lia.
Qed.

(** The error of rounding, relative to the number, with the half spacing of
    the least numbers added. *)
Lemma roundFloat_relative (prec emin : Z) (x : Q) :
  (Qabs.Qabs (roundFloat prec emin x - x)
   <= Qabs.Qabs x * 2 ^ (- prec) + 2 ^ (emin - prec))%Q.
Proof.
  pose proof (pow2_pos (- prec)) as Hu. pose proof (pow2_pos (emin - prec)) as Heta.
  pose proof (Qabs.Qabs_nonneg x) as Hx.
  destruct (Qeq_dec x 0) as [Hz | Hnz].
  - rewrite (roundFloat_zero prec emin x Hz).
    assert (Hd : (0 - x == 0)%Q) by lra. rewrite Hd. change (Qabs.Qabs 0) with 0%Q.
    nra.
  - destruct (roundFloat_near prec emin x Hnz) as (n & _ & Herr & _).
    eapply Qle_trans; [exact Herr |]. unfold quantumOf.
    destruct (binaryExponent_spec _ (Qabs_pos_nonzero x Hnz)) as [Hlo _].
    set (b := binaryExponent (Qabs.Qabs x)) in *.
    assert (Hhalf : forall e, (2 ^ (e - prec + 1) / 2 == 2 ^ (e - prec))%Q).
    { intros e. rewrite pow2_succ. field. }
    rewrite Hhalf.
    destruct (Z.le_ge_cases emin b) as [Hnormal | Hsub].
    + rewrite Z.max_l by lia.
      replace (b - prec)%Z with (b + - prec)%Z by lia. rewrite pow2_add.
      assert (2 ^ b * 2 ^ (- prec) <= Qabs.Qabs x * 2 ^ (- prec))%Q by nra.
      lra.
    + rewrite Z.max_r by lia. nra.
Qed.

(** ** Sample buffers: mixing *)

Lemma collectChannelData_spec (speech music : AudioBuffer) (todo : list nat) :
  (forall c, c ∈ todo ->
     c < AudioBuffer.numberOfChannels speech
     /\ c < AudioBuffer.numberOfChannels music) ->
  collectChannelData speech music todo
  = Ok (map (channelOf speech) todo, map (channelOf music) todo).
Proof.
  induction todo as [| c rest IH]; intros Hall; [reflexivity |].
  destruct (Hall c) as [Hs Hm]; [left |].
  simpl. rewrite (getChannelData_in_range _ _ Hs), (getChannelData_in_range _ _ Hm).
  simpl. rewrite IH; [reflexivity |].
  intros c' Hc'. apply Hall. by right.
Qed.

Lemma collectChannelData_missing (speech music : AudioBuffer) (todo : list nat) :
  (forall c, c ∈ todo -> c < AudioBuffer.numberOfChannels speech) ->
  (exists c, c ∈ todo /\ AudioBuffer.numberOfChannels music <= c) ->
  collectChannelData speech music todo = Throw IndexSizeError.
Proof.
  induction todo as [| c rest IH]; intros Hall [bad [Hin Hbad]].
  - inversion Hin.
  - simpl. rewrite (getChannelData_in_range speech c) by (apply Hall; left).
    simpl. destruct (Nat.lt_ge_cases c (AudioBuffer.numberOfChannels music)) as [Hm | Hm].
    + rewrite (getChannelData_in_range _ _ Hm). simpl.
      rewrite IH; [reflexivity | |].
      * intros c' Hc'. apply Hall. by right.
      * apply elem_of_cons in Hin as [-> | Hin]; [lia |]. exists bad. by split.
    + rewrite (getChannelData_out_of_range _ _ Hm). reflexivity.
Qed.

Section MixChannel.

Variables speechChannelData musicChannelData : list Q.
Variable musicBufferLength : nat.
Variables speechVolume musicVolume : Q.

Let sampleAt : nat -> Q :=
  mixedSampleAt speechChannelData musicChannelData musicBufferLength
    speechVolume musicVolume.

Let run (outputData : list Q) (indices : list nat) : list Q :=
  mixChannel outputData speechChannelData musicChannelData musicBufferLength
    speechVolume musicVolume indices.

Lemma mixChannel_length (indices : list nat) :
  forall outputData, List.length (run outputData indices) = List.length outputData.
Proof.
  induction indices as [| i rest IH]; intros outputData; [reflexivity |].
  unfold run in *. simpl. rewrite IH. apply length_insert.
Qed.

Lemma mixChannel_lookup (indices : list nat) :
  forall outputData i,
    i < List.length outputData ->
    run outputData indices !! i
    = if bool_decide (i ∈ indices) then Some (sampleAt i) else outputData !! i.
Proof.
  induction indices as [| k rest IH]; intros outputData i Hi.
  - case_bool_decide as Hin; [inversion Hin | reflexivity].
  - unfold run in *. simpl. rewrite IH by (rewrite length_insert; exact Hi).
    repeat case_bool_decide; try reflexivity.
    + exfalso. rewrite elem_of_cons in *. tauto.
    + destruct (decide (i = k)) as [-> | Hne].
      * apply list_lookup_insert_eq, Hi.
      * exfalso. rewrite elem_of_cons in *. tauto.
    + apply list_lookup_insert_ne. rewrite elem_of_cons in *. intros ->. tauto.
Qed.

End MixChannel.

(** The channels that [mixChannels] is asked to mix hold the mixed samples. *)
Lemma mixChannels_spec (speechData musicData : list (list Q))
    (musicBufferLength longerLength : nat) (speechVolume musicVolume : Q)
    (todo : list nat) :
  forall mixed : AudioBuffer,
    NoDup todo ->
    (forall c, c ∈ todo ->
       c < AudioBuffer.numberOfChannels mixed
       /\ exists target, AudioBuffer.channels mixed !! c = Some target
                         /\ List.length target = longerLength) ->
    exists out,
      mixChannels mixed speechData musicData musicBufferLength longerLength
        speechVolume musicVolume todo = Ok out
      /\ AudioBuffer.sampleRate out = AudioBuffer.sampleRate mixed
      /\ AudioBuffer.numberOfChannels out = AudioBuffer.numberOfChannels mixed
      /\ AudioBuffer.length out = AudioBuffer.length mixed
      /\ List.length (AudioBuffer.channels out)
         = List.length (AudioBuffer.channels mixed)
      /\ (forall c, c ∈ todo ->
            List.length (channelOf out c) = longerLength
            /\ forall i, i < longerLength ->
                 channelOf out c !! i
                 = Some (mixedSampleAt (nth c speechData []) (nth c musicData [])
                           musicBufferLength speechVolume musicVolume i))
      /\ (forall c, c ∉ todo ->
            AudioBuffer.channels out !! c = AudioBuffer.channels mixed !! c).
Proof.
  induction todo as [| c rest IH]; intros mixed Hnd Hall.
  - exists mixed. simpl. do 5 (split; [reflexivity |]).
    split; [intros c Hc; inversion Hc | reflexivity].
  - apply NoDup_cons in Hnd as [Hnotin Hnd'].
    destruct (Hall c) as (Hc & target & Ht & Hlen); [left |].
    simpl. rewrite (getChannelData_in_range _ _ Hc). simpl.
    rewrite (channelOf_lookup _ _ _ Ht).
    set (written := mixChannel target _ _ _ _ _ _).
    assert (Hwl : List.length written = longerLength).
    { unfold written. rewrite mixChannel_length. exact Hlen. }
    destruct (IH (setChannelData mixed c written) Hnd') as
      (out & Hrun & Hr & Hn & Hl & Hcs & Hin & Hout).
    { intros c' Hc'. destruct (Hall c') as (Hlt & t & Htc & Htl); [by right |].
      split; [exact Hlt |]. exists t. split; [| exact Htl].
      simpl. rewrite list_lookup_insert_ne; [exact Htc |].
      intros Heq. apply Hnotin. rewrite Heq. exact Hc'. }
    exists out. split; [exact Hrun |]. simpl in *.
    rewrite length_insert in Hcs.
    assert (Hfilled : AudioBuffer.channels out !! c = Some written).
    { rewrite (Hout c Hnotin). apply list_lookup_insert_eq.
      eapply lookup_lt_Some, Ht. }
    do 4 (split; [assumption |]). split.
    + intros c' Hc'. apply elem_of_cons in Hc' as [-> | Hc']; [| apply Hin, Hc'].
      rewrite (channelOf_lookup out c written Hfilled).
      split; [exact Hwl |]. intros i Hi.
      unfold written. rewrite mixChannel_lookup by lia.
      case_bool_decide as Hseq; [reflexivity |].
      exfalso. apply Hseq, elem_of_seq. lia.
    + intros c' Hc'. apply not_elem_of_cons in Hc' as [Hne Hc'].
      rewrite Hout by assumption.
      apply list_lookup_insert_ne. congruence.
Qed.

Lemma nth_map_seq {A : Type} (f : nat -> A) (n c : nat) (d : A) :
  c < n -> nth c (map f (seq 0 n)) d = f c.
Proof.
  intros Hc. apply nth_lookup_Some.
  rewrite list_lookup_fmap, (lookup_seq_lt 0 n c Hc). reflexivity.
Qed.

(** What [mixAudioBuffers] returns as soon as the music has a channel for
    every channel of the speech: the formats are not compared. *)
Lemma mixAudioBuffers_spec (context : AudioContext) (speech music : AudioBuffer)
    (speechVolume musicVolume : Q) :
  wfBuffer speech = true -> wfBuffer music = true ->
  AudioBuffer.numberOfChannels speech <= AudioBuffer.numberOfChannels music ->
  exists out,
    mixAudioBuffers context speech music speechVolume musicVolume = Ok out
    /\ AudioBuffer.sampleRate out = AudioBuffer.sampleRate speech
    /\ AudioBuffer.numberOfChannels out = AudioBuffer.numberOfChannels speech
    /\ AudioBuffer.length out
       = Nat.max (AudioBuffer.length speech) (AudioBuffer.length music)
    /\ forall c, c < AudioBuffer.numberOfChannels speech ->
         List.length (channelOf out c) = AudioBuffer.length out
         /\ forall i, i < AudioBuffer.length out ->
              channelOf out c !! i
              = Some (mixedSampleAt (channelOf speech c) (channelOf music c)
                        (AudioBuffer.length music) speechVolume musicVolume i).
Proof.
  intros Hws Hwm Hle.
  destruct (wfBuffer_inv speech Hws) as (Hn & Hl & _ & _).
  unfold mixAudioBuffers. cbv zeta.
  set (n := AudioBuffer.numberOfChannels speech) in *.
  set (longer := Nat.max (AudioBuffer.length speech) (AudioBuffer.length music)).
  rewrite createBuffer_ok by lia. simpl.
  rewrite collectChannelData_spec; cycle 1.
  { intros c Hc. apply elem_of_seq in Hc. fold n. lia. }
  simpl.
  destruct (mixChannels_spec (map (channelOf speech) (seq 0 n))
              (map (channelOf music) (seq 0 n)) (AudioBuffer.length music) longer
              speechVolume musicVolume (seq 0 n)
              (AudioBuffer.Make (AudioBuffer.sampleRate speech) n longer
                 (replicate n (replicate longer 0%Q))))
    as (out & Hrun & Hr & Hnc & Hlen & _ & Hin & _).
  { apply NoDup_seq. }
  { intros c Hc. apply elem_of_seq in Hc. simpl. split; [lia |].
    exists (replicate longer 0%Q).
    split; [apply lookup_replicate_2; lia | apply length_replicate]. }
  exists out. split; [exact Hrun |]. simpl in *.
  repeat split; try assumption.
  - rewrite Hlen. apply Hin, elem_of_seq. lia.
  - intros i Hi. rewrite Hlen in Hi.
    destruct (Hin c) as [_ Hsamples]; [apply elem_of_seq; lia |].
    rewrite (Hsamples i Hi), !nth_map_seq by lia. reflexivity.
Qed.

Lemma mixAudioBuffers_missing_channel (context : AudioContext)
    (speech music : AudioBuffer) (speechVolume musicVolume : Q) :
  wfBuffer speech = true ->
  AudioBuffer.numberOfChannels music < AudioBuffer.numberOfChannels speech ->
  mixAudioBuffers context speech music speechVolume musicVolume
  = Throw IndexSizeError.
Proof.
  intros Hws Hlt.
  destruct (wfBuffer_inv speech Hws) as (Hn & Hl & _ & _).
  unfold mixAudioBuffers. cbv zeta.
  rewrite createBuffer_ok by lia. simpl.
  rewrite collectChannelData_missing; [reflexivity | |].
  - intros c Hc. apply elem_of_seq in Hc. lia.
  - exists (AudioBuffer.numberOfChannels music). split; [| lia].
    apply elem_of_seq. lia.
Qed.

Lemma clampSample_high (x : Q) : (1 <= x)%Q -> clampSample x = 1%Q.
Proof.
  intros H. unfold clampSample, Math_min.
  apply Qle_bool_iff in H. rewrite H. reflexivity.
Qed.

Lemma Qle_bool_false (x y : Q) : Qle_bool x y = false <-> (y < x)%Q.
Proof.
  split; intros H.
  - apply Qnot_le_lt. intros Hle. apply Qle_bool_iff in Hle. congruence.
  - destruct (Qle_bool x y) eqn:E; [| reflexivity].
    apply Qle_bool_iff in E. exfalso. exact (Qlt_not_le _ _ H E).
Qed.

Lemma clampSample_low (x : Q) : (x <= -1)%Q -> (clampSample x == -1)%Q.
Proof.
  intros H. unfold clampSample, Math_min, Math_max.
  assert (Hlt : (x < 1)%Q) by (eapply Qle_lt_trans; [exact H | reflexivity]).
  rewrite (proj2 (Qle_bool_false 1 x) Hlt).
  destruct (Qle_bool (-1) x) eqn:E; [| reflexivity].
  apply Qle_bool_iff in E. apply Qle_antisym; assumption.
Qed.

Lemma clampSample_mid (x : Q) : (-1 <= x <= 1)%Q -> (clampSample x == x)%Q.
Proof.
  intros [Hlo Hhi]. unfold clampSample, Math_min, Math_max.
  destruct (Qle_bool 1 x) eqn:E.
  - apply Qle_bool_iff in E. simpl. apply Qle_antisym; assumption.
  - apply Qle_bool_iff in Hlo. rewrite Hlo. reflexivity.
Qed.

Lemma clampSample_clampedTo (x y : Q) : (x == y)%Q -> clampedTo x (clampSample y).
Proof.
  intros Heq. unfold clampedTo. rewrite Heq. repeat split.
  - intros H. rewrite (clampSample_high y H). reflexivity.
  - apply clampSample_low.
  - apply clampSample_mid.
Qed.

Lemma clampSample_range (x : Q) : (-1 <= clampSample x <= 1)%Q.
Proof.
  destruct (Qlt_le_dec x (-1)) as [Hlo | Hlo].
  - rewrite (clampSample_low x (Qlt_le_weak _ _ Hlo)). split; discriminate.
  - destruct (Qlt_le_dec 1 x) as [Hhi | Hhi].
    + rewrite (clampSample_high x (Qlt_le_weak _ _ Hhi)). split; discriminate.
    + rewrite (clampSample_mid x (conj Hlo Hhi)). split; assumption.
Qed.

Lemma clampSample_comp (x y : Q) : (x == y)%Q -> (clampSample x == clampSample y)%Q.
Proof.
  intros Heq.
  destruct (Qlt_le_dec x (-1)) as [Hlo | Hlo].
  - rewrite (clampSample_low x), (clampSample_low y); try reflexivity.
    + rewrite <- Heq. apply Qlt_le_weak, Hlo.
    + apply Qlt_le_weak, Hlo.
  - destruct (Qlt_le_dec 1 x) as [Hhi | Hhi].
    + rewrite (clampSample_high x), (clampSample_high y); try reflexivity.
      * rewrite <- Heq. apply Qlt_le_weak, Hhi.
      * apply Qlt_le_weak, Hhi.
    + rewrite (clampSample_mid x), (clampSample_mid y); try assumption.
      * split; rewrite <- Heq; assumption.
      * split; assumption.
Qed.

Lemma roundDouble_comp (x y : Q) : (x == y)%Q -> roundDouble x = roundDouble y.
Proof. apply roundFloat_comp. Qed.

Lemma Math_fround_comp (x y : Q) : (x == y)%Q -> Math_fround x = Math_fround y.
Proof. apply roundFloat_comp. Qed.

(** Adding a double to zero gives that double. *)
Lemma roundDouble_accumulate (x : Q) :
  (roundDouble (0 + roundDouble x) == roundDouble x)%Q.
Proof.
  rewrite (roundDouble_comp (0 + roundDouble x) (roundDouble x)) by ring.
  apply roundFloat_idempotent. lia.
Qed.

(** The value stored by the loop body is the clamped sum of the scaled
    speech sample and the scaled, looped music sample, in the arithmetic of
    the platform. *)
Lemma mixedSampleAt_platform (speech music : AudioBuffer) (c i : nat)
    (speechVolume musicVolume : Q) :
  wfBuffer speech = true -> wfBuffer music = true ->
  c < AudioBuffer.numberOfChannels speech ->
  c < AudioBuffer.numberOfChannels music ->
  mixedSampleAt (channelOf speech c) (channelOf music c)
    (AudioBuffer.length music) speechVolume musicVolume i
  = Math_fround
      (clampSample (scaledSum (speechSampleAt speech c i) speechVolume
                      (musicSampleAt music c i) musicVolume)).
Proof.
  intros Hws Hwm Hcs Hcm.
  destruct (wfBuffer_inv speech Hws) as (_ & _ & _ & Hsl).
  destruct (wfBuffer_inv music Hwm) as (_ & Hml & _ & Hmlen).
  unfold mixedSampleAt, speechSampleAt, musicSampleAt, scaledSum.
  rewrite (Hsl c Hcs), (Hmlen c Hcm).
  destruct (Nat.ltb_spec 0 (AudioBuffer.length music)) as [_ | Hbad]; [| lia].
  apply Math_fround_comp, clampSample_comp.
  destruct (i <? AudioBuffer.length speech)%nat.
  - erewrite roundDouble_comp; [reflexivity |].
    rewrite roundDouble_accumulate. reflexivity.
  - assert (Hzero : roundDouble (0 * speechVolume) = 0%Q)
      by (apply roundFloat_zero; ring).
    rewrite Hzero. reflexivity.
Qed.

(** The store into a [Float32Array] keeps a sample between -1 and 1. *)
Lemma Math_fround_unit (x : Q) :
  (-1 <= x <= 1)%Q -> (-1 <= Math_fround x <= 1)%Q.
Proof.
  intros Hx.
  assert (Hb : (Qabs.Qabs (Math_fround x) <= 2 ^ 0)%Q).
  { apply roundFloat_bound; [lia | | lia].
    apply Qabs.Qabs_Qle_condition. change (2 ^ 0)%Q with 1%Q. lra. }
  apply Qabs.Qabs_Qle_condition in Hb. change (2 ^ 0)%Q with 1%Q in Hb. lra.
Qed.

Lemma finiteSamples_nth (b : AudioBuffer) (c i : nat) :
  finiteSamples b = true -> (Qabs.Qabs (nth i (channelOf b c) 0) <= 2 ^ 128)%Q.
Proof.
  intros Hfin. unfold finiteSamples in Hfin. rewrite forallb_forall in Hfin.
  assert (Hzero : (Qabs.Qabs 0 <= 2 ^ 128)%Q).
  { apply Qlt_le_weak. exact (pow2_pos 128). }
  unfold channelOf.
  destruct (nth_in_or_default c (AudioBuffer.channels b) []) as [Hin | ->].
  - specialize (Hfin _ Hin). rewrite forallb_forall in Hfin.
    destruct (nth_in_or_default i (nth c (AudioBuffer.channels b) []) 0%Q)
      as [Hin' | ->]; [| exact Hzero].
    apply Qle_bool_iff, Hfin, Hin'.
  - destruct i; exact Hzero.
Qed.

(** With finite samples and gains of moderate size the products and the sum
    stay far below the largest double. *)
Lemma scaledSum_finite (s sg m mg : Q) :
  (Qabs.Qabs s <= 2 ^ 128)%Q -> (Qabs.Qabs sg <= 2 ^ 512)%Q ->
  (Qabs.Qabs m <= 2 ^ 128)%Q -> (Qabs.Qabs mg <= 2 ^ 512)%Q ->
  (Qabs.Qabs (scaledSum s sg m mg) <= 2 ^ 641)%Q.
Proof.
  intros Hs Hsg Hm Hmg.
  assert (Hprod : forall x g, (Qabs.Qabs x <= 2 ^ 128)%Q -> (Qabs.Qabs g <= 2 ^ 512)%Q ->
                    (Qabs.Qabs (roundDouble (x * g)) <= 2 ^ 640)%Q).
  { intros x g Hx Hg. apply roundFloat_bound; [lia | | lia].
    rewrite Qabs.Qabs_Qmult. change 640%Z with (128 + 512)%Z. rewrite pow2_add.
    pose proof (Qabs.Qabs_nonneg x). pose proof (Qabs.Qabs_nonneg g).
    apply Qmult_le_compat_nonneg; split; assumption. }
  unfold scaledSum. apply roundFloat_bound; [lia | | lia].
  eapply Qle_trans; [apply Qabs.Qabs_triangle |].
  change 641%Z with (640 + 1)%Z. rewrite pow2_succ.
  pose proof (Hprod s sg Hs Hsg). pose proof (Hprod m mg Hm Hmg). lra.
Qed.

(** ** The claims on the sample buffers *)

(** C7. For a non-empty sequence of well-formed buffers of one sample rate
    and channel count, [combineAudioBuffers] returns a buffer whose length is
    the sum of the lengths of the inputs and whose channels are the channels
    of the inputs, copied in input order and unchanged. In particular, for two
    inputs of lengths 1000 and 500 the output has length 1500, its sample 999
    is the last sample of the first input and its sample 1000 the first sample
    of the second. *)
Theorem combineAudioBuffers_concatenates (context : AudioContext)
    (buffers : list AudioBuffer) :
  buffers <> [] ->
  forallb wfBuffer buffers = true ->
  sameFormat buffers = true ->
  exists out,
    combineAudioBuffers context buffers = Ok out
    /\ AudioBuffer.length out = totalLengthOf buffers
    /\ (forall b, In b buffers -> sameFormatAs b out = true)
    /\ (forall c, c < AudioBuffer.numberOfChannels out ->
          channelOf out c = concat (map (fun b => channelOf b c) buffers))
    /\ (forall A B, buffers = [A; B] ->
          AudioBuffer.length A = 1000 -> AudioBuffer.length B = 500 ->
          AudioBuffer.length out = 1500
          /\ forall c, c < AudioBuffer.numberOfChannels out ->
               is_Some (channelOf out c !! 999)
               /\ channelOf out c !! 999 = last (channelOf A c)
               /\ is_Some (channelOf out c !! 1000)
               /\ channelOf out c !! 1000 = head (channelOf B c)).
Proof.
  intros Hne Hwf Hfmt. destruct buffers as [| first rest]; [congruence |].
  destruct (combineAudioBuffers_spec context first rest Hwf Hfmt)
    as (out & Hrun & Hr & Hn & Hl & Hwo & Hdata).
  exists out. split; [exact Hrun |]. split; [exact Hl |]. split; [| split].
  - intros b Hb. unfold sameFormat in Hfmt.
    rewrite forallb_forall in Hfmt. specialize (Hfmt b Hb).
    unfold sameFormatAs in *. rewrite Hr, Hn.
    apply andb_true_iff in Hfmt as [H1 H2].
    apply Z.eqb_eq in H1. apply Nat.eqb_eq in H2.
    rewrite H1, H2, Z.eqb_refl, Nat.eqb_refl. reflexivity.
  - exact Hdata.
  - intros A B HAB HA HB. injection HAB as -> ->.
    split; [rewrite Hl; unfold totalLengthOf; simpl; lia |].
    intros c Hc. rewrite (Hdata c Hc). simpl. rewrite app_nil_r.
    simpl in Hwf. rewrite !andb_true_iff in Hwf. destruct Hwf as (HwA & HwB & _).
    destruct (wfBuffer_inv _ HwA) as (_ & _ & _ & HlenA).
    destruct (wfBuffer_inv _ HwB) as (_ & _ & _ & HlenB).
    simpl in Hfmt. rewrite !andb_true_iff in Hfmt. destruct Hfmt as (_ & HfB & _).
    unfold sameFormatAs in HfB. apply andb_true_iff in HfB as [_ HnB].
    apply Nat.eqb_eq in HnB.
    assert (HcA : List.length (channelOf A c) = 1000) by (rewrite HlenA; lia).
    assert (HcB : List.length (channelOf B c) = 500) by (rewrite HlenB; lia).
    assert (H999 : (channelOf A c ++ channelOf B c) !! 999 = last (channelOf A c)).
    { rewrite lookup_app_l by lia. rewrite last_lookup, HcA. reflexivity. }
    assert (H1000 : (channelOf A c ++ channelOf B c) !! 1000 = head (channelOf B c)).
    { rewrite lookup_app_r by lia. rewrite HcA, Nat.sub_diag.
      symmetry. apply head_lookup. }
    repeat split; try assumption.
    + apply lookup_lt_is_Some. rewrite length_app. lia.
    + apply lookup_lt_is_Some. rewrite length_app. lia.
Qed.

Lemma combineAudioBuffers_concatenates_witness :
  exists out,
    combineAudioBuffers demoContext [demoSpeech; demoMusic] = Ok out
    /\ AudioBuffer.length out = 5
    /\ channelOf out 0 = [1 # 2; -(3 # 4); 1 # 4; 3 # 4; -(1 # 2)]%Q.
Proof.
  destruct (combineAudioBuffers_concatenates demoContext [demoSpeech; demoMusic])
    as (out & Hrun & Hl & _ & Hdata & _);
    [discriminate | reflexivity | reflexivity |].
  exists out. split; [exact Hrun |]. split; [exact Hl |].
  rewrite (Hdata 0).
  - reflexivity.
  - vm_compute in Hrun. injection Hrun as <-. simpl. lia.
Defined.

(** C10. Called with no buffer, [combineAudioBuffers] does not raise: it
    returns a new buffer of one channel and one frame of silence at the sample
    rate of the context, which is also what it returns for that one frame of
    silence as its only input. *)
Theorem combineAudioBuffers_empty_is_silence (context : AudioContext) :
  let silence := AudioBuffer.Make (contextSampleRate context) 1 1 [[0%Q]] in
  combineAudioBuffers context [] = Ok silence
  /\ isOk (combineAudioBuffers context []) = true
  /\ combineAudioBuffers context [silence] = combineAudioBuffers context [].
Proof.
  intros silence. repeat split.
  unfold combineAudioBuffers, silence. simpl. rewrite Z.eqb_refl. reflexivity.
Qed.

(** Clamping does not move two numbers apart. *)
Lemma clampSample_lipschitz (x y : Q) :
  (Qabs.Qabs (clampSample x - clampSample y) <= Qabs.Qabs (x - y))%Q.
Proof.
  pose proof (Qabs.Qle_Qabs (x - y)) as Hup.
  pose proof (Qabs.Qle_Qabs (- (x - y))) as Hdown.
  rewrite Qabs.Qabs_opp in Hdown.
  apply Qabs.Qabs_Qle_condition.
  destruct (Qlt_le_dec x (-1)) as [Hxlo | Hxlo];
    [rewrite (clampSample_low x) by lra
    | destruct (Qlt_le_dec 1 x) as [Hxhi | Hxhi];
      [rewrite (clampSample_high x) by lra | rewrite (clampSample_mid x) by lra]];
    (destruct (Qlt_le_dec y (-1)) as [Hylo | Hylo];
     [rewrite (clampSample_low y) by lra
     | destruct (Qlt_le_dec 1 y) as [Hyhi | Hyhi];
       [rewrite (clampSample_high y) by lra | rewrite (clampSample_mid y) by lra]]);
    lra.
Qed.

(** The sum of the platform is the exact sum up to a relative error of
    [2 ^ -51] (and a few of the least doubles). *)
Lemma scaledSum_relative (s sg m mg : Q) :
  (Qabs.Qabs (scaledSum s sg m mg - (s * sg + m * mg))
   <= (Qabs.Qabs (s * sg) + Qabs.Qabs (m * mg)) * (1 # 2251799813685248)
      + 4 * 2 ^ (-1075))%Q.
Proof.
  unfold scaledSum.
  set (a := (s * sg)%Q). set (b := (m * mg)%Q).
  pose proof (roundFloat_relative 53 (-1022) a) as Ha.
  pose proof (roundFloat_relative 53 (-1022) b) as Hb.
  fold (roundDouble a) in Ha. fold (roundDouble b) in Hb.
  set (a' := roundDouble a) in *. set (b' := roundDouble b) in *.
  pose proof (roundFloat_relative 53 (-1022) (a' + b')) as Hs.
  fold (roundDouble (a' + b')) in Hs.
  set (s' := roundDouble (a' + b')) in *.
  change (-1022 - 53)%Z with (-1075)%Z in *.
  assert (Eu : (2 ^ (- 53) == 1 # 9007199254740992)%Q) by (vm_compute; reflexivity).
  rewrite Eu in Ha, Hb, Hs.
  pose proof (pow2_pos (-1075)) as Heta. set (eta := (2 ^ (-1075))%Q) in *.
  pose proof (Qabs.Qabs_nonneg a) as HA. pose proof (Qabs.Qabs_nonneg b) as HB.
  pose proof (Qabs.Qle_Qabs a) as Ha1. pose proof (Qabs.Qle_Qabs (- a)) as Ha2.
  rewrite Qabs.Qabs_opp in Ha2.
  pose proof (Qabs.Qle_Qabs b) as Hb1. pose proof (Qabs.Qle_Qabs (- b)) as Hb2.
  rewrite Qabs.Qabs_opp in Hb2.
  set (A := Qabs.Qabs a) in *. set (B := Qabs.Qabs b) in *.
  apply Qabs.Qabs_Qle_condition in Ha, Hb.
  assert (Hc : (Qabs.Qabs (a' + b')
                <= A + B + (A + B) * (1 # 9007199254740992) + 2 * eta)%Q).
  { apply Qabs.Qabs_Qle_condition. lra. }
  set (C := Qabs.Qabs (a' + b')) in *.
  apply Qabs.Qabs_Qle_condition in Hs.
  apply Qabs.Qabs_Qle_condition. lra.
Qed.

(** C5. For well-formed speech and music of one sample rate and channel
    count, [mixAudioBuffers] returns a buffer whose length is the larger of the
    two lengths, and whose sample at index [i] of every channel is the sum of
    the speech sample (silence beyond the length of the speech) times the
    speech gain and of the music sample at index [i mod music.length] times the
    music gain, clamped to the interval from -1 to 1: a sum of 1 or more gives
    exactly 1, a sum of -1 or less exactly -1. The arithmetic is that of the
    platform: each product and the sum are rounded to a double, and the clamped
    sum is stored as a number of a [Float32Array]. For finite samples and
    gains up to [2 ^ 512] the sum stays far below the largest double, and
    the sample stored differs from the clamped exact sum by the rounding only:
    at most [2 ^ -24] for the store and a relative [2 ^ -51] of the two
    products. *)
Theorem mixAudioBuffers_loops_and_clamps (context : AudioContext)
    (speech music : AudioBuffer) (speechGain musicGain : Q) :
  wfBuffer speech = true -> wfBuffer music = true ->
  sameFormatAs speech music = true ->
  finiteSamples speech = true -> finiteSamples music = true ->
  finiteGain speechGain = true -> finiteGain musicGain = true ->
  exists out,
    mixAudioBuffers context speech music speechGain musicGain = Ok out
    /\ AudioBuffer.length out
       = Nat.max (AudioBuffer.length speech) (AudioBuffer.length music)
    /\ sameFormatAs speech out = true
    /\ forall c i,
         c < AudioBuffer.numberOfChannels out -> i < AudioBuffer.length out ->
         let sum := scaledSum (speechSampleAt speech c i) speechGain
                      (musicSampleAt music c i) musicGain in
         exists clamped sample,
           channelOf out c !! i = Some sample
           /\ clampedTo sum clamped
           /\ (sample == Math_fround clamped)%Q
           /\ (-1 <= sample <= 1)%Q
           /\ ((1 <= sum)%Q -> (sample == 1)%Q)
           /\ ((sum <= -1)%Q -> (sample == -1)%Q)
           /\ (Qabs.Qabs sum <= 2 ^ 641)%Q
           /\ (let speechPart := (speechSampleAt speech c i * speechGain)%Q in
               let musicPart := (musicSampleAt music c i * musicGain)%Q in
               Qabs.Qabs (sample - clampSample (speechPart + musicPart))
               <= (1 # 16777216)
                  + (Qabs.Qabs speechPart + Qabs.Qabs musicPart)
                    * (1 # 2251799813685248)
                  + 4 * 2 ^ (-1075))%Q.
Proof.
  intros Hws Hwm Hfmt Hfs Hfm Hgs Hgm. unfold sameFormatAs in Hfmt.
  apply andb_true_iff in Hfmt as [_ Hnc]. apply Nat.eqb_eq in Hnc.
  destruct (mixAudioBuffers_spec context speech music speechGain musicGain Hws Hwm)
    as (out & Hrun & Hr & Hn & Hl & Hdata); [lia |].
  exists out. split; [exact Hrun |]. split; [exact Hl |]. split.
  { unfold sameFormatAs. rewrite Hr, Hn, Z.eqb_refl, Nat.eqb_refl. reflexivity. }
  intros c i Hc Hi sum. rewrite Hn in Hc.
  destruct (Hdata c Hc) as [_ Hsamples].
  exists (clampSample sum), (Math_fround (clampSample sum)).
  split.
  { rewrite (Hsamples i Hi). f_equal.
    apply mixedSampleAt_platform; try assumption. lia. }
  split; [apply clampSample_clampedTo; reflexivity |].
  split; [reflexivity |].
  split.
  { apply Math_fround_unit, clampSample_range. }
  split.
  { intros Hhi. rewrite (clampSample_high sum Hhi). reflexivity. }
  split.
  { intros Hlo.
    rewrite (Math_fround_comp (clampSample sum) (-1)) by (apply clampSample_low, Hlo).
    reflexivity. }
  split.
  { apply scaledSum_finite.
    - unfold speechSampleAt. destruct (i <? AudioBuffer.length speech)%nat.
      + apply finiteSamples_nth, Hfs.
      + apply Qlt_le_weak. exact (pow2_pos 128).
    - apply Qle_bool_iff, Hgs.
    - unfold musicSampleAt. apply finiteSamples_nth, Hfm.
    - apply Qle_bool_iff, Hgm. }
  cbv zeta.
  pose proof (scaledSum_relative (speechSampleAt speech c i) speechGain
                (musicSampleAt music c i) musicGain) as Hrel.
  fold sum in Hrel.
  set (exact := (speechSampleAt speech c i * speechGain
                 + musicSampleAt music c i * musicGain)%Q) in *.
  pose proof (clampSample_lipschitz sum exact) as Hclamp.
  pose proof (clampSample_range sum) as Hrange.
  assert (Hunit : (Qabs.Qabs (clampSample sum) <= 2 ^ 0)%Q).
  { apply Qabs.Qabs_Qle_condition. change (2 ^ 0)%Q with 1%Q. lra. }
  pose proof (roundFloat_error 24 (-126) 0 (clampSample sum) Hunit ltac:(lia))
    as Hstore.
  fold (Math_fround (clampSample sum)) in Hstore.
  assert (E24 : (2 ^ (0 - 24) == 1 # 16777216)%Q) by (vm_compute; reflexivity).
  rewrite E24 in Hstore.
  set (P := Qabs.Qabs (speechSampleAt speech c i * speechGain)) in *.
  set (M := Qabs.Qabs (musicSampleAt music c i * musicGain)) in *.
  set (eta := (2 ^ (-1075))%Q) in *.
  apply Qabs.Qabs_Qle_condition in Hstore, Hclamp.
  apply Qabs.Qabs_Qle_condition. lra.
Qed.

(** The gains are the defaults of the component, 0.8 and 0.3 as doubles: the
    sample stored for the speech sample 0.25 and the music sample 0.75 is
    7130317 / 16777216, the number of a [Float32Array] that is nearest to
    0.425; with gains of 1 a sum beyond 1 is stored as 1. *)
Lemma mixAudioBuffers_loops_and_clamps_witness :
  (exists out,
     mixAudioBuffers demoContext demoSpeech demoMusic
       (roundDouble (4 # 5)) (roundDouble (3 # 10)) = Ok out
     /\ AudioBuffer.length out = 3
     /\ channelOf out 0 !! 2 = Some (7130317 # 16777216)%Q)
  /\ exists out,
       mixAudioBuffers demoContext demoSpeech demoMusic 1 1 = Ok out
       /\ channelOf out 0 = [1; -1; 1]%Q.
Proof.
  split.
  - destruct (mixAudioBuffers_loops_and_clamps demoContext demoSpeech demoMusic
                (roundDouble (4 # 5)) (roundDouble (3 # 10)))
      as (out & Hrun & Hl & _);
      [reflexivity | reflexivity | reflexivity | vm_compute; reflexivity
      | vm_compute; reflexivity | vm_compute; reflexivity | vm_compute; reflexivity |].
    exists out. split; [exact Hrun |]. split; [exact Hl |].
    vm_compute in Hrun. injection Hrun as <-. vm_compute. reflexivity.
  - destruct (mixAudioBuffers_loops_and_clamps demoContext demoSpeech demoMusic 1 1)
      as (out & Hrun & _);
      [reflexivity | reflexivity | reflexivity | vm_compute; reflexivity
      | vm_compute; reflexivity | vm_compute; reflexivity | vm_compute; reflexivity |].
    exists out. split; [exact Hrun |].
    vm_compute in Hrun. injection Hrun as <-. reflexivity.
Defined.

(** C4, as the specification states it, fails: the speech is at 24000 Hz with
    one channel, the music at 44100 Hz with two channels, and
    [mixAudioBuffers] returns a mixed buffer. *)
Lemma mixAudioBuffers_accepts_mismatch :
  sameFormatAs demoSpeech demoStereoMusic = false
  /\ mixAudioBuffers demoContext demoSpeech demoStereoMusic 1 1
     = Ok (AudioBuffer.Make 24000 1 3 [[1; -1; 1]%Q]).
Proof. split; reflexivity. Qed.

(** C4, amended. [combineAudioBuffers] fails with its format error as soon
    as one buffer differs from the first in sample rate or channel count.
    [mixAudioBuffers] does not compare the formats: for well-formed inputs it
    returns a buffer in the format of the speech whenever the music has at
    least as many channels as the speech, and raises (an index error) only when
    the music has fewer channels. *)
Theorem format_check_only_in_combine (context : AudioContext)
    (buffers : list AudioBuffer) (speech music : AudioBuffer)
    (speechVolume musicVolume : Q) :
  sameFormat buffers = false ->
  wfBuffer speech = true -> wfBuffer music = true ->
  combineAudioBuffers context buffers = Throw formatMismatch
  /\ (AudioBuffer.numberOfChannels speech <= AudioBuffer.numberOfChannels music ->
      exists out,
        mixAudioBuffers context speech music speechVolume musicVolume = Ok out
        /\ sameFormatAs speech out = true)
  /\ (AudioBuffer.numberOfChannels music < AudioBuffer.numberOfChannels speech ->
      mixAudioBuffers context speech music speechVolume musicVolume
      = Throw IndexSizeError).
Proof.
  intros Hbad Hws Hwm. split; [| split].
  - destruct buffers as [| first rest]; [discriminate |].
    unfold combineAudioBuffers. cbv zeta.
    rewrite (checkFormats_mismatch first (first :: rest) 0 Hbad). reflexivity.
  - intros Hle.
    destruct (mixAudioBuffers_spec context speech music speechVolume musicVolume
                Hws Hwm Hle) as (out & Hrun & Hr & Hn & _).
    exists out. split; [exact Hrun |].
    unfold sameFormatAs. rewrite Hr, Hn, Z.eqb_refl, Nat.eqb_refl. reflexivity.
  - intros Hlt. apply mixAudioBuffers_missing_channel; assumption.
Qed.

Lemma format_check_only_in_combine_witness :
  combineAudioBuffers demoContext [demoSpeech; demoStereoMusic]
  = Throw formatMismatch
  /\ exists out,
       mixAudioBuffers demoContext demoSpeech demoStereoMusic 1 1 = Ok out
       /\ sameFormatAs demoSpeech out = true.
Proof.
  destruct (format_check_only_in_combine demoContext [demoSpeech; demoStereoMusic]
              demoSpeech demoStereoMusic 1 1) as (Hc & Hm & _);
    [reflexivity | reflexivity | reflexivity |].
  split; [exact Hc |]. apply Hm. simpl. lia.
Defined.

(** ** The float to int16 conversions *)

Lemma Qltb_true (x y : Q) : Qltb x y = true <-> (x < y)%Q.
Proof.
  unfold Qltb. rewrite negb_true_iff. apply Qle_bool_false.
Qed.

Lemma Qltb_false (x y : Q) : Qltb x y = false <-> (y <= x)%Q.
Proof.
  unfold Qltb. rewrite negb_false_iff. apply Qle_bool_iff.
Qed.

Lemma Qltb_comp (x x' y : Q) : (x == x')%Q -> Qltb x y = Qltb x' y.
Proof.
  intros Heq. destruct (Qltb x' y) eqn:E.
  - apply Qltb_true. apply Qltb_true in E. rewrite Heq. exact E.
  - apply Qltb_false. apply Qltb_false in E. rewrite Heq. exact E.
Qed.

Lemma truncate_comp (x y : Q) : (x == y)%Q -> truncate x = truncate y.
Proof.
  intros Heq. unfold truncate. rewrite (Qltb_comp x y 0 Heq).
  destruct (Qltb y 0); rewrite Heq; reflexivity.
Qed.

Lemma ToInt16_comp (x y : Q) : (x == y)%Q -> ToInt16 x = ToInt16 y.
Proof. intros Heq. unfold ToInt16. rewrite (truncate_comp x y Heq). reflexivity. Qed.

(** Inside the range of int16, [ToInt16] only truncates. *)
Lemma ToInt16_in_range (x : Q) :
  (-32768 <= truncate x <= 32767)%Z -> ToInt16 x = truncate x.
Proof.
  intros H. unfold ToInt16. cbv zeta.
  destruct (Z.leb_spec 32768 (truncate x mod 65536)) as [Hhi | Hlo];
    Z.div_mod_to_equations; lia.
Qed.

Lemma truncate_negative (x : Q) (lo : Z) :
  (inject_Z lo <= x)%Q -> (x < 0)%Q ->
  truncate x = Qceiling x /\ (lo <= truncate x <= 0)%Z.
Proof.
  intros Hlo Hneg. unfold truncate. rewrite (proj2 (Qltb_true x 0) Hneg).
  split; [reflexivity |]. split.
  - rewrite <- (Qceiling_Z lo). apply Qceiling_resp_le, Hlo.
  - change 0%Z with (Qceiling (inject_Z 0)).
    apply Qceiling_resp_le, Qlt_le_weak, Hneg.
Qed.

Lemma truncate_nonnegative (x : Q) (hi : Z) :
  (0 <= x)%Q -> (x <= inject_Z hi)%Q ->
  truncate x = Qfloor x /\ (0 <= truncate x <= hi)%Z.
Proof.
  intros Hpos Hhi. unfold truncate. rewrite (proj2 (Qltb_false x 0) Hpos).
  split; [reflexivity |]. split.
  - change 0%Z with (Qfloor (inject_Z 0)). apply Qfloor_resp_le, Hpos.
  - rewrite <- (Qfloor_Z hi). apply Qfloor_resp_le, Hhi.
Qed.

(** What [exportWAV] stores for a sample of the interval from -1 to 1. *)
Lemma floatTo16BitPCM_sample_in_range (x : Q) :
  (-1 <= x <= 1)%Q ->
  floatTo16BitPCM_sample x
  = (if Qltb x 0 then Qceiling (x * 32768) else Qfloor (x * 32767))
  /\ (-32768 <= floatTo16BitPCM_sample x <= 32767)%Z.
Proof.
  intros Hx. unfold floatTo16BitPCM_sample. cbv zeta.
  fold (clampSample x).
  assert (Hs := clampSample_mid x Hx).
  rewrite (Qltb_comp _ _ 0 Hs).
  destruct (Qltb x 0) eqn:E.
  - apply Qltb_true in E.
    rewrite (ToInt16_comp _ (x * 32768)%Q) by (rewrite Hs; reflexivity).
    destruct (truncate_negative (x * 32768)%Q (-32768)) as [Ht Hr].
    + change (inject_Z (-32768)) with (-32768)%Q. lra.
    + lra.
    + rewrite ToInt16_in_range by lia. rewrite Ht in *. split; [reflexivity | lia].
  - apply Qltb_false in E.
    rewrite (ToInt16_comp _ (x * 32767)%Q) by (rewrite Hs; reflexivity).
    destruct (truncate_nonnegative (x * 32767)%Q 32767) as [Ht Hr].
    + lra.
    + change (inject_Z 32767) with 32767%Q. lra.
    + rewrite ToInt16_in_range by lia. rewrite Ht in *. split; [reflexivity | lia].
Qed.

(** What [exportMP3] stores for a sample of the interval from -1 to 1. *)
Lemma exportMP3_sample_in_range (x : Q) :
  (-1 <= x <= 1)%Q ->
  exportMP3_sample x
  = (if Qltb x 0 then Qceiling (x * 32767) else Qfloor (x * 32767))
  /\ (-32767 <= exportMP3_sample x <= 32767)%Z.
Proof.
  intros Hx. unfold exportMP3_sample. fold (clampSample x).
  assert (Hs := clampSample_mid x Hx).
  rewrite (ToInt16_comp _ (x * 32767)%Q) by (rewrite Hs; reflexivity).
  destruct (Qltb x 0) eqn:E.
  - apply Qltb_true in E.
    destruct (truncate_negative (x * 32767)%Q (-32767)) as [Ht Hr].
    + change (inject_Z (-32767)) with (-32767)%Q. lra.
    + lra.
    + rewrite ToInt16_in_range by lia. rewrite Ht in *. split; [reflexivity | lia].
  - apply Qltb_false in E.
    destruct (truncate_nonnegative (x * 32767)%Q 32767) as [Ht Hr].
    + lra.
    + change (inject_Z 32767) with 32767%Q. lra.
    + rewrite ToInt16_in_range by lia. rewrite Ht in *. split; [reflexivity | lia].
Qed.

Lemma floatTo16BitPCM_sample_comp (x y : Q) :
  (x == y)%Q -> floatTo16BitPCM_sample x = floatTo16BitPCM_sample y.
Proof.
  intros Heq. unfold floatTo16BitPCM_sample. cbv zeta. fold (clampSample x).
  fold (clampSample y). assert (Hs := clampSample_comp x y Heq).
  rewrite (Qltb_comp _ _ 0 Hs).
  destruct (Qltb (clampSample y) 0); apply ToInt16_comp; rewrite Hs; reflexivity.
Qed.

Lemma exportMP3_sample_comp (x y : Q) :
  (x == y)%Q -> exportMP3_sample x = exportMP3_sample y.
Proof.
  intros Heq. unfold exportMP3_sample. fold (clampSample x). fold (clampSample y).
  apply ToInt16_comp. rewrite (clampSample_comp x y Heq). reflexivity.
Qed.

(** Both conversions see only the clamped sample. *)
Lemma floatTo16BitPCM_sample_clamps (x : Q) :
  floatTo16BitPCM_sample x = floatTo16BitPCM_sample (clampSample x).
Proof.
  unfold floatTo16BitPCM_sample. cbv zeta. fold (clampSample x).
  fold (clampSample (clampSample x)).
  assert (Hs : (clampSample (clampSample x) == clampSample x)%Q).
  { apply clampSample_mid, clampSample_range. }
  rewrite (Qltb_comp _ _ 0 Hs).
  destruct (Qltb (clampSample x) 0); apply ToInt16_comp; rewrite Hs; reflexivity.
Qed.

Lemma exportMP3_sample_clamps (x : Q) :
  exportMP3_sample x = exportMP3_sample (clampSample x).
Proof.
  unfold exportMP3_sample. fold (clampSample x). fold (clampSample (clampSample x)).
  apply ToInt16_comp.
  rewrite (clampSample_mid (clampSample x) (clampSample_range x)). reflexivity.
Qed.

Lemma exportWAV_samples_mono (b : AudioBuffer) :
  AudioBuffer.numberOfChannels b = 1 ->
  exportWAV_samples b = Ok (map floatTo16BitPCM_sample (channelOf b 0)).
Proof.
  intros Hn. unfold exportWAV_samples. rewrite Hn. simpl.
  rewrite getChannelData_in_range by lia. simpl.
  rewrite app_nil_r. reflexivity.
Qed.

Lemma exportMP3_samples_spec (b : AudioBuffer) :
  1 <= AudioBuffer.numberOfChannels b ->
  exportMP3_samples b = Ok (map exportMP3_sample (channelOf b 0)).
Proof.
  intros Hn. unfold exportMP3_samples.
  rewrite getChannelData_in_range by lia. reflexivity.
Qed.

(** C6, as the specification states it, fails: for the sample -1.0 the
    conversion of [exportWAV] stores -32768 and that of [exportMP3] stores
    -32767. *)
Lemma exportMP3_sample_is_symmetric :
  floatTo16BitPCM_sample (-1) = (-32768)%Z
  /\ exportMP3_sample (-1) = (-32767)%Z
  /\ exportMP3_sample (-1) <> floatTo16BitPCM_sample (-1).
Proof. repeat split. vm_compute. discriminate. Qed.

(** C6, amended. With [s] the sample clamped to the interval from -1 to 1,
    [exportWAV] stores [s * 32768] for a negative [s] and [s * 32767]
    otherwise, truncated toward zero: 1.0 gives 32767, -1.0 gives -32768 and
    0.0 gives 0. [exportMP3] stores [s * 32767] truncated toward zero for every
    [s]: 1.0 gives 32767, -1.0 gives -32767 and 0.0 gives 0. The two agree on
    the samples that are not negative. For a buffer of one channel the
    payloads are these values, sample by sample. *)
Theorem export_sample_encodings (x : Q) (b : AudioBuffer) :
  let s := clampSample x in
  let wav := floatTo16BitPCM_sample x in
  let mp3 := exportMP3_sample x in
  wav = (if Qltb s 0 then Qceiling (s * 32768) else Qfloor (s * 32767))
  /\ mp3 = (if Qltb s 0 then Qceiling (s * 32767) else Qfloor (s * 32767))
  /\ (-32768 <= wav <= 32767)%Z
  /\ (-32767 <= mp3 <= 32767)%Z
  /\ ((1 <= x)%Q -> wav = 32767%Z /\ mp3 = 32767%Z)
  /\ ((x <= -1)%Q -> wav = (-32768)%Z /\ mp3 = (-32767)%Z)
  /\ ((x == 0)%Q -> wav = 0%Z /\ mp3 = 0%Z)
  /\ ((0 <= x)%Q -> mp3 = wav)
  /\ (AudioBuffer.numberOfChannels b = 1 ->
      exportWAV_samples b = Ok (map floatTo16BitPCM_sample (channelOf b 0))
      /\ exportMP3_samples b = Ok (map exportMP3_sample (channelOf b 0))).
Proof.
  intros s wav mp3.
  assert (Hrange := clampSample_range x). fold s in Hrange.
  destruct (floatTo16BitPCM_sample_in_range s Hrange) as [Hwav Hwr].
  destruct (exportMP3_sample_in_range s Hrange) as [Hmp3 Hmr].
  assert (Hw : wav = floatTo16BitPCM_sample s)
    by apply floatTo16BitPCM_sample_clamps.
  assert (Hm : mp3 = exportMP3_sample s) by apply exportMP3_sample_clamps.
  split; [congruence |]. split; [congruence |].
  split; [rewrite Hw; exact Hwr |]. split; [rewrite Hm; exact Hmr |].
  split; [| split; [| split; [| split]]].
  - intros Hx. unfold wav, mp3, floatTo16BitPCM_sample, exportMP3_sample.
    cbv zeta. fold (clampSample x). rewrite (clampSample_high x Hx).
    split; reflexivity.
  - intros Hx. assert (Hs : (s == -1)%Q) by (apply clampSample_low, Hx).
    rewrite Hw, Hm.
    rewrite (floatTo16BitPCM_sample_comp s (-1) Hs).
    rewrite (exportMP3_sample_comp s (-1) Hs). split; reflexivity.
  - intros Hx. unfold wav, mp3.
    rewrite (floatTo16BitPCM_sample_comp x 0 Hx).
    rewrite (exportMP3_sample_comp x 0 Hx). split; reflexivity.
  - intros Hx. rewrite Hw, Hm, Hwav, Hmp3.
    assert (Hs : (0 <= s)%Q).
    { destruct (Qlt_le_dec 1 x) as [Hhi | Hhi].
      - unfold s. rewrite (clampSample_high x (Qlt_le_weak _ _ Hhi)). discriminate.
      - unfold s. rewrite (clampSample_mid x); [exact Hx |].
        split; [lra | exact Hhi]. }
    rewrite (proj2 (Qltb_false s 0) Hs). reflexivity.
  - intros Hn. split.
    + apply exportWAV_samples_mono, Hn.
    + apply exportMP3_samples_spec. lia.
Qed.

Lemma export_sample_encodings_witness :
  floatTo16BitPCM (channelOf demoSpeech 0) = [16383; -24576; 8191]%Z
  /\ exportWAV_samples demoSpeech = Ok [16383; -24576; 8191]%Z
  /\ exportMP3_samples demoSpeech = Ok [16383; -24575; 8191]%Z.
Proof.
  destruct (export_sample_encodings 0 demoSpeech)
    as (_ & _ & _ & _ & _ & _ & _ & _ & Hb).
  destruct (Hb eq_refl) as [Hw Hm].
  split; [reflexivity |]. split; [rewrite Hw | rewrite Hm]; reflexivity.
Defined.

(** ** The retry loop *)

Example three_overloads_then_success :
  let run := callGeminiApiWithRetries (Some "key"%string) (overloadedFor 3 7%Z)
               "speech generation" (retryPolicy 3 1000) freshWorld in
  fst run = Resolved 7%Z
  /\ sleepsOf (trace (snd run)) = [1000; 2000; 4000]%Z
  /\ invocationsOf (trace (snd run)) = [0; 1; 2; 3].
Proof. repeat split. Qed.

Example four_overloads_are_terminal :
  let run := callGeminiApiWithRetries (Some "key"%string) (overloadedFor 4 7%Z)
               "speech generation" (retryPolicy 3 1000) freshWorld in
  fst run = Rejected (Overloaded "speech generation")
  /\ sleepsOf (trace (snd run)) = [1000; 2000; 4000]%Z
  /\ invocationsOf (trace (snd run)) = [0; 1; 2; 3].
Proof. repeat split. Qed.

Lemma retryLoop_unfold {T : Type} (apiCall : nat -> ApiOutcome T)
    (serviceName : string) (retryOptions : RetryOptions)
    (retriesLeft : nat) (delay : Z) (attempt : nat) (w : World) :
  retryLoop apiCall serviceName retryOptions retriesLeft delay attempt w
  = match apiCall attempt with
    | Returned value => (Resolved value, record w [Invoked attempt])
    | Raised error =>
        let p := parseGeminiError error in
        if (isQuotaError p && isDefined (retryDelayMs p))%bool
        then (Rejected (Rethrown error), record w [Invoked attempt])
        else if (isModelOverloadedError p
                 || (isQuotaError p && negb (isDefined (retryDelayMs p)))
                 || isEmptyResponseError p)%bool
        then
          match retriesLeft with
          | S retriesLeft' =>
              let currentDelay :=
                match retryDelayMs p with Some d => d | None => delay end in
              retryLoop apiCall serviceName retryOptions retriesLeft'
                (match retryDelayMs p with
                 | None => (delay * 2)%Z
                 | Some _ => delay
                 end)
                (S attempt)
                (record
                   (if onRetryWait retryOptions
                    then record (record w [Invoked attempt])
                           [Notified currentDelay retriesLeft (errorMessage p)]
                    else record w [Invoked attempt])
                   [Slept currentDelay])
          | O => (Rejected (exhausted serviceName p), record w [Invoked attempt])
          end
        else (Rejected (notRetried serviceName p), record w [Invoked attempt])
    end.
Proof. destruct retriesLeft; reflexivity. Qed.

Lemma retryLoop_returned {T : Type} (apiCall : nat -> ApiOutcome T)
    (serviceName : string) (retryOptions : RetryOptions)
    (retriesLeft : nat) (delay : Z) (attempt : nat) (w : World) (value : T) :
  apiCall attempt = Returned value ->
  retryLoop apiCall serviceName retryOptions retriesLeft delay attempt w
  = (Resolved value, record w [Invoked attempt]).
Proof. intros H. rewrite retryLoop_unfold, H. reflexivity. Qed.

Lemma retryable_inv (error : GeminiError) :
  retryable error = true ->
  (isQuotaError (parseGeminiError error)
   && isDefined (retryDelayMs (parseGeminiError error)) = false)
  /\ (isModelOverloadedError (parseGeminiError error)
      || (isQuotaError (parseGeminiError error)
          && negb (isDefined (retryDelayMs (parseGeminiError error))))
      || isEmptyResponseError (parseGeminiError error) = true).
Proof.
  unfold retryable. cbv zeta. rewrite andb_true_iff, negb_true_iff. tauto.
Qed.

Lemma retryLoop_exhausted {T : Type} (apiCall : nat -> ApiOutcome T)
    (serviceName : string) (retryOptions : RetryOptions)
    (delay : Z) (attempt : nat) (w : World) (error : GeminiError) :
  apiCall attempt = Raised error -> retryable error = true ->
  retryLoop apiCall serviceName retryOptions 0 delay attempt w
  = (Rejected (exhausted serviceName (parseGeminiError error)),
     record w [Invoked attempt]).
Proof.
  intros H Hr. apply retryable_inv in Hr as [H1 H2].
  rewrite retryLoop_unfold, H. cbv zeta. rewrite H1, H2. reflexivity.
Qed.

(** One round: a retryable failure with a retry left. *)
Lemma retryLoop_round {T : Type} (apiCall : nat -> ApiOutcome T)
    (serviceName : string) (retryOptions : RetryOptions)
    (retriesLeft : nat) (delay : Z) (attempt : nat) (w : World) :
  failsRetryably apiCall attempt = true ->
  exists events,
    retryLoop apiCall serviceName retryOptions (S retriesLeft) delay attempt w
    = retryLoop apiCall serviceName retryOptions retriesLeft
        (match serverDelayAt apiCall attempt with
         | Some _ => delay
         | None => delay * 2
         end)%Z
        (S attempt) (record w events)
    /\ invocationsOf events = [attempt]
    /\ sleepsOf events
       = [match serverDelayAt apiCall attempt with Some d => d | None => delay end].
Proof.
  unfold failsRetryably, serverDelayAt. intros Hf.
  destruct (apiCall attempt) as [| error] eqn:Hcall; [discriminate |].
  apply retryable_inv in Hf as [H1 H2].
  set (d := match rawRetryDelayMs error with Some d => d | None => delay end).
  exists ([Invoked attempt]
          ++ (if onRetryWait retryOptions
              then [Notified d (S retriesLeft)
                      (errorMessage (parseGeminiError error))] else [])
          ++ [Slept d]).
  split.
  - rewrite retryLoop_unfold, Hcall. cbv zeta. rewrite H1, H2.
    change (retryDelayMs (parseGeminiError error)) with (rawRetryDelayMs error).
    fold d. f_equal. unfold record. simpl.
    destruct (onRetryWait retryOptions); simpl; rewrite <- !app_assoc; reflexivity.
  - destruct (onRetryWait retryOptions); split; reflexivity.
Qed.

Lemma record_record (w : World) (e1 e2 : list RetryEvent) :
  record (record w e1) e2 = record w (e1 ++ e2).
Proof. unfold record. simpl. rewrite app_assoc. reflexivity. Qed.

Lemma sleepsOf_app (e1 e2 : list RetryEvent) :
  sleepsOf (e1 ++ e2) = sleepsOf e1 ++ sleepsOf e2.
Proof. apply omap_app. Qed.

Lemma invocationsOf_app (e1 e2 : list RetryEvent) :
  invocationsOf (e1 ++ e2) = invocationsOf e1 ++ invocationsOf e2.
Proof. apply omap_app. Qed.

Lemma unhinted_S {T : Type} (apiCall : nat -> ApiOutcome T) (from count : nat) :
  unhinted apiCall from (S count)
  = (if isDefined (serverDelayAt apiCall from) then 0 else 1)
    + unhinted apiCall (S from) count.
Proof.
  unfold unhinted. simpl.
  destruct (isDefined (serverDelayAt apiCall from)); reflexivity.
Qed.


Lemma record_nil (w : World) : record w [] = w.
Proof. destruct w. unfold record. simpl. rewrite app_nil_r. reflexivity. Qed.

Lemma doubled_delay {T : Type} (apiCall : nat -> ApiOutcome T) (delay : Z)
    (from k : nat) :
  ((match serverDelayAt apiCall from with Some _ => delay | None => delay * 2 end)
   * 2 ^ Z.of_nat (unhinted apiCall (S from) k)
   = delay * 2 ^ Z.of_nat (unhinted apiCall from (S k)))%Z.
Proof.
  rewrite unhinted_S. destruct (serverDelayAt apiCall from); simpl isDefined; cbv iota.
  - reflexivity.
  - rewrite Nat2Z.inj_add, Z.pow_add_r by lia. simpl Z.of_nat. lia.
Qed.

Lemma delayFrom_shift {T : Type} (apiCall : nat -> ApiOutcome T) (delay : Z)
    (from k : nat) :
  delayFrom apiCall
    (match serverDelayAt apiCall from with Some _ => delay | None => delay * 2 end)%Z
    (S from) k
  = delayFrom apiCall delay from (S k).
Proof.
  unfold delayFrom. replace (S from + k) with (from + S k) by lia.
  destruct (serverDelayAt apiCall (from + S k)); [reflexivity |].
  apply doubled_delay.
Qed.

(** [n] rounds: [n] retryable failures in a row, with enough retries left. *)
Lemma retryLoop_rounds {T : Type} (apiCall : nat -> ApiOutcome T)
    (serviceName : string) (retryOptions : RetryOptions) (n : nat) :
  forall (retriesLeft : nat) (delay : Z) (from : nat) (w : World),
    forallb (failsRetryably apiCall) (seq from n) = true ->
    exists events,
      retryLoop apiCall serviceName retryOptions (n + retriesLeft) delay from w
      = retryLoop apiCall serviceName retryOptions retriesLeft
          (delay * 2 ^ Z.of_nat (unhinted apiCall from n))%Z (from + n)
          (record w events)
      /\ invocationsOf events = seq from n
      /\ sleepsOf events = map (delayFrom apiCall delay from) (seq 0 n).
Proof.
  induction n as [| n IH]; intros retriesLeft delay from w Hfail.
  - exists []. rewrite record_nil, Nat.add_0_r. unfold unhinted. simpl.
    rewrite Z.mul_1_r. repeat split.
  - simpl in Hfail. apply andb_true_iff in Hfail as [Hfirst Hrest].
    destruct (retryLoop_round apiCall serviceName retryOptions (n + retriesLeft)
                delay from w Hfirst) as (ev1 & Hstep & Hinv1 & Hsl1).
    destruct (IH retriesLeft
                (match serverDelayAt apiCall from with
                 | Some _ => delay | None => delay * 2 end)%Z
                (S from) (record w ev1) Hrest) as (ev2 & Hsteps & Hinv2 & Hsl2).
    exists (ev1 ++ ev2). split; [| split].
    + simpl Nat.add. rewrite Hstep, Hsteps, record_record, doubled_delay.
      f_equal. lia.
    + rewrite invocationsOf_app, Hinv1, Hinv2. reflexivity.
    + rewrite sleepsOf_app, Hsl1, Hsl2. simpl. f_equal.
      * unfold delayFrom, unhinted. rewrite Nat.add_0_r. simpl.
        destruct (serverDelayAt apiCall from); [reflexivity | lia].
      * rewrite <- seq_shift, map_map. apply map_ext. intros k.
        apply delayFrom_shift.
Qed.

Lemma backoffDelay_seq {T : Type} (apiCall : nat -> ApiOutcome T) (delay : Z)
    (n : nat) :
  map (backoffDelay delay apiCall) (seq 1 n)
  = map (delayFrom apiCall delay 0) (seq 0 n).
Proof.
  rewrite <- seq_shift, map_map. apply map_ext. intros k.
  unfold backoffDelay, delayFrom. simpl. rewrite Nat.sub_0_r. reflexivity.
Qed.

Lemma unhinted_all {T : Type} (apiCall : nat -> ApiOutcome T) (count : nat) :
  forall from,
    (forall i, from <= i < from + count -> serverDelayAt apiCall i = None) ->
    unhinted apiCall from count = count.
Proof.
  induction count as [| count IH]; intros from Hnone; [reflexivity |].
  rewrite unhinted_S, (Hnone from) by lia. simpl.
  rewrite IH; [reflexivity |]. intros i Hi. apply Hnone. lia.
Qed.

Lemma exhausted_kindSpecific (serviceName : string) (error : GeminiError) :
  retryable error = true ->
  kindSpecific (parseGeminiError error)
    (exhausted serviceName (parseGeminiError error)).
Proof.
  intros Hr. apply retryable_inv in Hr as [_ H2].
  unfold exhausted.
  destruct (isQuotaError (parseGeminiError error)) eqn:Hq.
  - destruct (includes _ _); simpl; exact Hq.
  - destruct (isModelOverloadedError (parseGeminiError error)) eqn:Ho.
    + simpl. split; [exact Hq | exact Ho].
    + simpl in H2. rewrite H2. simpl. repeat split; assumption.
Qed.

Lemma callGeminiApiWithRetries_keyed {T : Type} (apiKey : string)
    (apiCall : nat -> ApiOutcome T) (serviceName : string)
    (retryOptions : RetryOptions) (w : World) :
  apiKey <> EmptyString ->
  callGeminiApiWithRetries (Some apiKey) apiCall serviceName retryOptions w
  = retryLoop apiCall serviceName retryOptions (maxRetries retryOptions)
      (initialDelayMs retryOptions) 0 w.
Proof. intros Hkey. destruct apiKey; [congruence | reflexivity]. Qed.

Lemma forallb_seq_prefix (p : nat -> bool) (from n m : nat) :
  n <= m -> forallb p (seq from m) = true -> forallb p (seq from n) = true.
Proof.
  intros Hle H. rewrite forallb_forall in *. intros k Hk. apply H.
  apply in_seq. apply in_seq in Hk. lia.
Qed.

(** C3. With an API key, let the first [failures] invocations fail with
    retryable errors (overload, quota without a delay from the server, empty
    response). If [failures] is at most [maxRetries] and the next invocation
    returns, the call resolves with its value after [failures + 1]
    invocations, having waited before the [k]-th retry the delay
    [backoffDelay]: the delay of the server when it supplies one, else the
    initial delay doubled for every earlier wait of its own, which is
    [initialDelayMs * 2^(k-1)] when the server supplies no delay. If the first
    [maxRetries + 1] invocations fail, the call is rejected with the error of
    the kind of the last failure, after exactly [maxRetries + 1] invocations
    and [maxRetries] waits. *)
Theorem retry_backoff_policy {T : Type} (apiKey serviceName : string)
    (apiCall : nat -> ApiOutcome T) (retryOptions : RetryOptions) (w : World)
    (failures : nat) :
  apiKey <> EmptyString ->
  forallb (failsRetryably apiCall) (seq 0 failures) = true ->
  let run := callGeminiApiWithRetries (Some apiKey) apiCall serviceName
               retryOptions w in
  let delayBefore := backoffDelay (initialDelayMs retryOptions) apiCall in
  (failures <= maxRetries retryOptions ->
   forall value, apiCall failures = Returned value ->
   exists events,
     trace (snd run) = trace w ++ events
     /\ fst run = Resolved value
     /\ invocationsOf events = seq 0 (S failures)
     /\ sleepsOf events = map delayBefore (seq 1 failures))
  /\ (failures = S (maxRetries retryOptions) ->
      exists events last,
        trace (snd run) = trace w ++ events
        /\ apiCall (maxRetries retryOptions) = Raised last
        /\ fst run = Rejected (exhausted serviceName (parseGeminiError last))
        /\ kindSpecific (parseGeminiError last)
             (exhausted serviceName (parseGeminiError last))
        /\ invocationsOf events = seq 0 (S (maxRetries retryOptions))
        /\ sleepsOf events = map delayBefore (seq 1 (maxRetries retryOptions)))
  /\ (forall k, 1 <= k ->
      (forall i, i < k -> serverDelayAt apiCall i = None) ->
      delayBefore k = (initialDelayMs retryOptions * 2 ^ (Z.of_nat k - 1))%Z).
Proof.
  intros Hkey Hfail run delayBefore. unfold run.
  rewrite (callGeminiApiWithRetries_keyed _ _ _ _ _ Hkey).
  split; [| split].
  - intros Hle value Hval.
    destruct (retryLoop_rounds apiCall serviceName retryOptions failures
                (maxRetries retryOptions - failures)
                (initialDelayMs retryOptions) 0 w Hfail)
      as (events & Hsteps & Hinv & Hsl).
    replace (failures + (maxRetries retryOptions - failures))
      with (maxRetries retryOptions) in Hsteps by lia.
    rewrite Hsteps, (retryLoop_returned _ _ _ _ _ _ _ value Hval), record_record.
    exists (events ++ [Invoked (0 + failures)]). simpl fst. simpl snd.
    split; [reflexivity |]. split; [reflexivity |]. split.
    + rewrite invocationsOf_app, Hinv, seq_S. reflexivity.
    + rewrite sleepsOf_app, Hsl. unfold delayBefore.
      rewrite backoffDelay_seq. apply app_nil_r.
  - intros Hall. set (m := maxRetries retryOptions) in *. subst failures.
    assert (Hprefix := forallb_seq_prefix _ 0 m (S m) (Nat.le_succ_diag_r m) Hfail).
    assert (Hlast : failsRetryably apiCall m = true).
    { rewrite forallb_forall in Hfail. apply Hfail, in_seq. lia. }
    unfold failsRetryably in Hlast.
    destruct (apiCall m) as [| last] eqn:Hcall; [discriminate |].
    destruct (retryLoop_rounds apiCall serviceName retryOptions m 0
                (initialDelayMs retryOptions) 0 w Hprefix)
      as (events & Hsteps & Hinv & Hsl).
    rewrite Nat.add_0_r in Hsteps.
    rewrite Hsteps, (retryLoop_exhausted _ _ _ _ _ _ last Hcall Hlast), record_record.
    exists (events ++ [Invoked (0 + m)]), last. simpl fst. simpl snd.
    split; [reflexivity |]. split; [reflexivity |]. split; [reflexivity |].
    split; [apply exhausted_kindSpecific, Hlast |]. split.
    + rewrite invocationsOf_app, Hinv, seq_S. reflexivity.
    + rewrite sleepsOf_app, Hsl. unfold delayBefore.
      rewrite backoffDelay_seq. apply app_nil_r.
  - intros k Hk Hnone. unfold delayBefore, backoffDelay.
    rewrite (Hnone (k - 1)) by lia.
    rewrite unhinted_all by (intros i Hi; apply Hnone; lia).
    do 2 f_equal. lia.
Qed.

Lemma retry_backoff_policy_witness :
  exists events,
    trace (snd (callGeminiApiWithRetries (Some "key"%string) (overloadedFor 3 7%Z)
                  "speech generation" (retryPolicy 3 1000) freshWorld))
    = events
    /\ fst (callGeminiApiWithRetries (Some "key"%string) (overloadedFor 3 7%Z)
              "speech generation" (retryPolicy 3 1000) freshWorld)
       = Resolved 7%Z
    /\ sleepsOf events = [1000; 2000; 4000]%Z.
Proof.
  destruct (retry_backoff_policy "key" "speech generation" (overloadedFor 3 7%Z)
              (retryPolicy 3 1000) freshWorld 3) as (Hok & _ & _);
    [discriminate | reflexivity |].
  destruct (Hok (Nat.le_refl 3) 7%Z eq_refl) as (events & Htrace & Hres & _ & Hsl).
  exists events. split; [exact Htrace |]. split; [exact Hres |].
  rewrite Hsl. reflexivity.
Defined.

(** ** The dispatch loop *)

Section DispatchFacts.

Variable textChunks : list JsString.
Variable concurrencyLimit : nat.
Variable generateSpeech : nat -> Settled AudioBuffer.
Variable errorAtRender : ErrorState.
Variable schedule : nat -> list SessionEvent.

Local Abbreviation n := (List.length textChunks).
Local Abbreviation step := (handleEvent textChunks generateSpeech).
Local Abbreviation loop :=
  (dispatchLoop textChunks concurrencyLimit generateSpeech errorAtRender schedule).

Lemma dispatchLoop_unfold (fuel i : nat) (s : Session) :
  loop fuel i s
  = if (n <=? i)%nat then Some s
    else if stopGenerationRef_current s then Some s
    else match fuel with
         | O => None
         | S fuel' =>
             let s' := awaitBatch textChunks generateSpeech schedule i
                         (startBatch i (Nat.min (i + concurrencyLimit) n) s) in
             if breakAfterBatch errorAtRender s' then Some s'
             else loop fuel' (i + concurrencyLimit) s'
         end.
Proof. destruct fuel; reflexivity. Qed.

Lemma handleEvent_length (s : Session) (event : SessionEvent) :
  List.length (orderedBuffers (step s event)) = List.length (orderedBuffers s).
Proof.
  unfold handleEvent, onFulfilled, onRejected.
  destruct event as [j |]; [| reflexivity].
  destruct (generateSpeech j), (stopGenerationRef_current s); simpl;
    rewrite ?length_insert; reflexivity.
Qed.

Lemma handleEvent_dispatched (s : Session) (event : SessionEvent) :
  dispatched (step s event) = dispatched s.
Proof.
  unfold handleEvent, onFulfilled, onRejected.
  destruct event as [j |]; [| reflexivity].
  destruct (generateSpeech j), (stopGenerationRef_current s); reflexivity.
Qed.

Lemma handleEvent_stays_stopped (s : Session) (event : SessionEvent) :
  stopGenerationRef_current s = true ->
  stopGenerationRef_current (step s event) = true
  /\ orderedBuffers (step s event) = orderedBuffers s.
Proof.
  intros Hstop. unfold handleEvent, onFulfilled, onRejected.
  destruct event as [j |]; [| split; [reflexivity | reflexivity]].
  destruct (generateSpeech j); rewrite Hstop; split; [assumption | reflexivity
                                                     | assumption | reflexivity].
Qed.

Lemma handleEvent_sound (s : Session) (event : SessionEvent) :
  slotsSound generateSpeech s -> slotsSound generateSpeech (step s event).
Proof.
  intros Hs. unfold handleEvent, onFulfilled, onRejected.
  destruct event as [j |]; [| exact Hs].
  destruct (generateSpeech j) as [audioBuffer | reason] eqn:Hj;
    destruct (stopGenerationRef_current s); try exact Hs.
  intros j' b. simpl. intros Hlook.
  destruct (decide (j = j')) as [<- | Hne].
  - destruct (Nat.lt_ge_cases j (List.length (orderedBuffers s))) as [Hlt | Hge].
    + rewrite list_lookup_insert_eq in Hlook by exact Hlt. congruence.
    + rewrite list_insert_ge in Hlook by exact Hge. apply Hs in Hlook. congruence.
  - rewrite list_lookup_insert_ne in Hlook by exact Hne. apply Hs, Hlook.
Qed.

Lemma fold_events_length (events : list SessionEvent) :
  forall s, List.length (orderedBuffers (fold_left step events s))
            = List.length (orderedBuffers s).
Proof.
  induction events as [| e rest IH]; intros s; [reflexivity |].
  simpl. rewrite IH. apply handleEvent_length.
Qed.

Lemma fold_events_dispatched (events : list SessionEvent) :
  forall s, dispatched (fold_left step events s) = dispatched s.
Proof.
  induction events as [| e rest IH]; intros s; [reflexivity |].
  simpl. rewrite IH. apply handleEvent_dispatched.
Qed.

Lemma fold_events_sound (events : list SessionEvent) :
  forall s, slotsSound generateSpeech s ->
            slotsSound generateSpeech (fold_left step events s).
Proof.
  induction events as [| e rest IH]; intros s Hs; [exact Hs |].
  simpl. apply IH, handleEvent_sound, Hs.
Qed.

Lemma fold_events_stays_stopped (events : list SessionEvent) :
  forall s, stopGenerationRef_current s = true ->
            stopGenerationRef_current (fold_left step events s) = true.
Proof.
  induction events as [| e rest IH]; intros s Hs; [exact Hs |].
  simpl. apply IH, handleEvent_stays_stopped, Hs.
Qed.

(** The flag after an [await] tells whether a stop was requested during it. *)
Lemma fold_events_stop (events : list SessionEvent) :
  forall s, stopGenerationRef_current s = false ->
            stopGenerationRef_current (fold_left step events s)
            = negb (stopFree events).
Proof.
  induction events as [| e rest IH]; intros s Hs; [exact Hs |].
  simpl. destruct e as [j |].
  - rewrite IH; [reflexivity |].
    unfold handleEvent, onFulfilled, onRejected.
    destruct (generateSpeech j); rewrite Hs; reflexivity.
  - apply fold_events_stays_stopped. reflexivity.
Qed.

(** The slots after an [await] without a stop: the chunks that settled with
    audio hold it, the other slots are as before. *)
Lemma fold_events_slots (events : list SessionEvent) :
  forall s j,
    stopGenerationRef_current s = false -> stopFree events = true ->
    j < List.length (orderedBuffers s) ->
    orderedBuffers (fold_left step events s) !! j
    = match generateSpeech j with
      | Resolved audioBuffer =>
          if bool_decide (j ∈ settlesOf events) then Some (Some audioBuffer)
          else orderedBuffers s !! j
      | Rejected _ => orderedBuffers s !! j
      end.
Proof.
  induction events as [| e rest IH]; intros s j Hs Hfree Hj.
  - simpl. destruct (generateSpeech j); reflexivity.
  - simpl in Hfree. destruct e as [k |]; [| discriminate].
    change (fold_left step (ChunkSettled k :: rest) s)
      with (fold_left step rest (step s (ChunkSettled k))).
    assert (Hs' : stopGenerationRef_current (step s (ChunkSettled k)) = false).
    { unfold handleEvent, onFulfilled, onRejected.
      destruct (generateSpeech k); rewrite Hs; reflexivity. }
    rewrite IH; [| exact Hs' | exact Hfree | rewrite handleEvent_length; exact Hj].
    assert (Hk : orderedBuffers (step s (ChunkSettled k)) !! j
                 = if decide (k = j)
                   then match generateSpeech j with
                        | Resolved audioBuffer => Some (Some audioBuffer)
                        | Rejected _ => orderedBuffers s !! j
                        end
                   else orderedBuffers s !! j).
    { unfold handleEvent, onFulfilled, onRejected.
      destruct (decide (k = j)) as [-> | Hne].
      - destruct (generateSpeech j); rewrite Hs; [| reflexivity].
        simpl. apply list_lookup_insert_eq, Hj.
      - destruct (generateSpeech k); rewrite Hs; [| reflexivity].
        simpl. apply list_lookup_insert_ne, Hne. }
    rewrite Hk. simpl settlesOf.
    destruct (generateSpeech j) as [audioBuffer | reason]; [| destruct (decide (k = j)); reflexivity].
    destruct (decide (k = j)) as [-> | Hne].
    + rewrite (bool_decide_true (j ∈ j :: settlesOf rest)) by left.
      case_bool_decide; reflexivity.
    + rewrite (bool_decide_ext (j ∈ k :: settlesOf rest) (j ∈ settlesOf rest));
        [reflexivity |].
      rewrite elem_of_cons. split; [intros [? | ?]; [congruence | assumption] |].
      intros Hin. right. exact Hin.
Qed.

End DispatchFacts.

Section DispatchLoopFacts.

Variable textChunks : list JsString.
Variable concurrencyLimit : nat.
Variable generateSpeech : nat -> Settled AudioBuffer.
Variable errorAtRender : ErrorState.
Variable schedule : nat -> list SessionEvent.
Hypothesis positiveLimit : 1 <= concurrencyLimit.

Local Abbreviation n := (List.length textChunks).
Local Abbreviation step := (handleEvent textChunks generateSpeech).
Local Abbreviation loop :=
  (dispatchLoop textChunks concurrencyLimit generateSpeech errorAtRender schedule).
Local Abbreviation await :=
  (awaitBatch textChunks generateSpeech schedule).

(** The loop ends, and keeps the number of slots and their soundness. *)
Lemma dispatchLoop_sound (fuel : nat) :
  forall i s,
    n <= fuel + i ->
    List.length (orderedBuffers s) = n ->
    slotsSound generateSpeech s ->
    exists s',
      loop fuel i s = Some s'
      /\ List.length (orderedBuffers s') = n
      /\ slotsSound generateSpeech s'.
Proof using positiveLimit.
  induction fuel as [| fuel IH]; intros i s Hfuel Hlen Hsound;
    rewrite dispatchLoop_unfold.
  - destruct (Nat.leb_spec n i) as [_ | Hlt]; [| lia].
    exists s. repeat split; assumption.
  - destruct (Nat.leb_spec n i) as [_ | Hlt]; [exists s; repeat split; assumption |].
    destruct (stopGenerationRef_current s); [exists s; repeat split; assumption |].
    cbv zeta. set (s' := awaitBatch _ _ _ _ _).
    assert (Hlen' : List.length (orderedBuffers s') = n).
    { unfold s', awaitBatch. rewrite fold_events_length. exact Hlen. }
    assert (Hsound' : slotsSound generateSpeech s').
    { unfold s', awaitBatch. apply fold_events_sound. exact Hsound. }
    destruct (breakAfterBatch errorAtRender s').
    + exists s'. repeat split; assumption.
    + apply IH; [lia | assumption | assumption].
Qed.

Lemma batchStart_elem (k : nat) :
  k * concurrencyLimit < n ->
  In (k * concurrencyLimit) (batchStarts n concurrencyLimit).
Proof using Type.
  clear positiveLimit. intros Hlt. unfold batchStarts. apply filter_In. split.
  - apply in_seq. lia.
  - apply Nat.eqb_eq, Nat.Div0.mod_mul.
Qed.

Lemma batchOf_elem (i j : nat) :
  j ∈ batchOf n concurrencyLimit i <-> i <= j < i + concurrencyLimit /\ j < n.
Proof using Type.
  clear positiveLimit. unfold batchOf. rewrite elem_of_seq. lia.
Qed.

(** Without a stop and without a stale error, every slot ends up holding the
    audio of its own chunk, whatever the order in which the chunks of a batch
    settle. *)
Lemma dispatchLoop_complete (fuel : nat) :
  errorAtRender = NoError ->
  fairSchedule n concurrencyLimit schedule = true ->
  uninterrupted n concurrencyLimit schedule = true ->
  forall k s,
    n <= fuel + k * concurrencyLimit ->
    stopGenerationRef_current s = false ->
    List.length (orderedBuffers s) = n ->
    (forall j, j < n ->
       orderedBuffers s !! j
       = Some (if (j <? k * concurrencyLimit)%nat
               then audioOf (generateSpeech j) else None)) ->
    exists s',
      loop fuel (k * concurrencyLimit) s = Some s'
      /\ stopGenerationRef_current s' = false
      /\ forall j, j < n -> orderedBuffers s' !! j = Some (audioOf (generateSpeech j)).
Proof using positiveLimit.
  intros Herr Hfair Hfree. unfold fairSchedule, uninterrupted in *.
  rewrite forallb_forall in Hfair, Hfree.
  induction fuel as [| fuel IH]; intros k s Hfuel Hstop Hlen Hslots;
    rewrite dispatchLoop_unfold.
  - destruct (Nat.leb_spec n (k * concurrencyLimit)) as [Hge | Hlt]; [| lia].
    exists s. split; [reflexivity |]. split; [exact Hstop |].
    intros j Hj. rewrite (Hslots j Hj).
    destruct (Nat.ltb_spec j (k * concurrencyLimit)); [reflexivity | lia].
  - destruct (Nat.leb_spec n (k * concurrencyLimit)) as [Hge | Hlt].
    { exists s. split; [reflexivity |]. split; [exact Hstop |].
      intros j Hj. rewrite (Hslots j Hj).
      destruct (Nat.ltb_spec j (k * concurrencyLimit)); [reflexivity | lia]. }
    rewrite Hstop. cbv zeta.
    set (i := k * concurrencyLimit) in *.
    set (s1 := startBatch i _ s).
    assert (Hin := batchStart_elem k Hlt). fold i in Hin.
    assert (Hquiet : stopFree (schedule i) = true) by (apply Hfree, Hin).
    assert (Hperm : settlesOf (schedule i) ≡ₚ batchOf n concurrencyLimit i).
    { eapply bool_decide_eq_true_1, (Hfair i Hin). }
    assert (Hstop' : stopGenerationRef_current (await i s1) = false).
    { unfold awaitBatch. rewrite fold_events_stop by exact Hstop.
      rewrite Hquiet. reflexivity. }
    replace (breakAfterBatch errorAtRender (await i s1)) with false
      by (unfold breakAfterBatch; rewrite Herr, Hstop'; reflexivity).
    replace (i + concurrencyLimit) with (S k * concurrencyLimit) by (unfold i; lia).
    apply IH.
    + unfold i in *. lia.
    + exact Hstop'.
    + unfold awaitBatch. rewrite fold_events_length. exact Hlen.
    + intros j Hj. unfold awaitBatch.
      rewrite fold_events_slots; [| exact Hstop | exact Hquiet | simpl; lia].
      simpl orderedBuffers. rewrite (Hslots j Hj).
      assert (Hmem : j ∈ settlesOf (schedule i)
                     <-> i <= j < i + concurrencyLimit /\ j < n).
      { rewrite Hperm. apply batchOf_elem. }
      fold i.
      destruct (Nat.ltb_spec j i) as [Hji | Hji];
        destruct (Nat.ltb_spec j (S k * concurrencyLimit)) as [Hjn | Hjn];
        try (unfold i in *; lia).
      * destruct (generateSpeech j); [| reflexivity].
        case_bool_decide; reflexivity.
      * destruct (generateSpeech j); [| reflexivity].
        rewrite bool_decide_true; [reflexivity |].
        apply Hmem. unfold i in *. lia.
      * destruct (generateSpeech j); [| reflexivity].
        rewrite bool_decide_false; [reflexivity |].
        rewrite Hmem. unfold i in *. lia.
Qed.

(** The chunks that were dispatched are the first ones. A chunk is
    dispatched only if no stop was requested during an earlier batch; a batch
    during which a stop was requested is the last one. *)
Lemma dispatchLoop_cancellation (fuel : nat) :
  forall k s,
    n <= fuel + k * concurrencyLimit ->
    stopGenerationRef_current s = false ->
    dispatched s = seq 0 (Nat.min (k * concurrencyLimit) n) ->
    (forall k0, k0 < k -> stopFree (schedule (k0 * concurrencyLimit)) = true) ->
    exists s' m,
      loop fuel (k * concurrencyLimit) s = Some s'
      /\ dispatched s' = seq 0 m /\ m <= n
      /\ Nat.min ((k + 1) * concurrencyLimit) n <= m
      /\ (forall j k0, j < m -> (k0 + 1) * concurrencyLimit <= j ->
            stopFree (schedule (k0 * concurrencyLimit)) = true)
      /\ (forall k0, k0 * concurrencyLimit < m ->
            stopFree (schedule (k0 * concurrencyLimit)) = false ->
            stopGenerationRef_current s' = true
            /\ m = Nat.min ((k0 + 1) * concurrencyLimit) n)
      /\ (stopGenerationRef_current s' = false -> errorAtRender = NoError -> m = n).
Proof using positiveLimit.
  induction fuel as [| fuel IH]; intros k s Hfuel Hstop Hdisp Hquiet;
    rewrite dispatchLoop_unfold.
  - destruct (Nat.leb_spec n (k * concurrencyLimit)) as [Hge | Hlt]; [| lia].
    exists s, n. rewrite Nat.min_r in Hdisp by exact Hge.
    split; [reflexivity |]. split; [exact Hdisp |]. split; [lia |].
    split; [lia |]. split; [| split].
    + intros j k0 Hj Hk0. apply Hquiet. nia.
    + intros k0 Hk0 Hbad. rewrite Hquiet in Hbad; [discriminate | nia].
    + reflexivity.
  - destruct (Nat.leb_spec n (k * concurrencyLimit)) as [Hge | Hlt].
    { exists s, n. rewrite Nat.min_r in Hdisp by exact Hge.
      split; [reflexivity |]. split; [exact Hdisp |]. split; [lia |].
      split; [lia |]. split; [| split].
      + intros j k0 Hj Hk0. apply Hquiet. nia.
      + intros k0 Hk0 Hbad. rewrite Hquiet in Hbad; [discriminate | nia].
      + reflexivity. }
    rewrite Hstop. cbv zeta.
    set (i := k * concurrencyLimit) in *.
    set (e := Nat.min (i + concurrencyLimit) n).
    set (s2 := await i (startBatch i e s)).
    assert (Hd2 : dispatched s2 = seq 0 e).
    { unfold s2, awaitBatch. rewrite fold_events_dispatched. simpl.
      rewrite Hdisp, Nat.min_l by lia.
      replace e with (i + (e - i)) at 2 by (unfold e; lia).
      symmetry. apply seq_app. }
    assert (Hs2 : stopGenerationRef_current s2 = negb (stopFree (schedule i))).
    { unfold s2, awaitBatch. apply fold_events_stop. exact Hstop. }
    assert (Hearlier : forall j k0, j < e -> (k0 + 1) * concurrencyLimit <= j ->
                         stopFree (schedule (k0 * concurrencyLimit)) = true).
    { intros j k0 Hj Hk0. apply Hquiet. unfold e, i in *. nia. }
    assert (Hlast : forall k0, k0 * concurrencyLimit < e ->
                      stopFree (schedule (k0 * concurrencyLimit)) = false ->
                      k0 = k).
    { intros k0 Hk0 Hbad.
      destruct (Nat.lt_ge_cases k0 k) as [Hlt0 | Hge0].
      - rewrite (Hquiet k0 Hlt0) in Hbad. discriminate.
      - unfold e, i in *. nia. }
    destruct (breakAfterBatch errorAtRender s2) eqn:Hbreak.
    + exists s2, e. split; [reflexivity |]. split; [exact Hd2 |].
      split; [unfold e; lia |]. split; [unfold e, i; lia |].
      split; [exact Hearlier |]. split.
      * intros k0 Hk0 Hbad. assert (k0 = k) by (apply Hlast; assumption). subst k0.
        fold i in Hbad. rewrite Hs2, Hbad. split; [reflexivity |].
        unfold e, i. f_equal. lia.
      * intros Hrun Herr. unfold breakAfterBatch in Hbreak.
        rewrite Herr, Hrun in Hbreak. discriminate.
    + assert (Hrun : stopGenerationRef_current s2 = false).
      { unfold breakAfterBatch in Hbreak.
        destruct errorAtRender; try discriminate. exact Hbreak. }
      assert (Hfree : stopFree (schedule i) = true).
      { rewrite Hs2 in Hrun. apply negb_false_iff, Hrun. }
      replace (i + concurrencyLimit) with (S k * concurrencyLimit)
        by (unfold i; lia).
      destruct (IH (S k) s2) as (s' & m & Hloop & Hd & Hm & Hmin & H3 & H4 & H5).
      * unfold i in *. lia.
      * exact Hrun.
      * rewrite Hd2. unfold e, i. f_equal. lia.
      * intros k0 Hk0. destruct (decide (k0 = k)) as [-> | Hne];
          [exact Hfree | apply Hquiet; lia].
      * exists s', m. split; [exact Hloop |]. split; [exact Hd |].
        split; [exact Hm |]. split; [lia |]. split; [exact H3 |].
        split; [exact H4 | exact H5].
Qed.

End DispatchLoopFacts.

(** ** The claims on the dispatch *)

Lemma initialSession_slots (textChunks : list JsString) (j : nat) :
  j < List.length textChunks ->
  orderedBuffers (initialSession textChunks) !! j = Some None.
Proof. intros Hj. simpl. apply lookup_replicate_2, Hj. Qed.

Lemma initialSession_sound (textChunks : list JsString)
    (generateSpeech : nat -> Settled AudioBuffer) :
  slotsSound generateSpeech (initialSession textChunks).
Proof.
  intros j b Hlook. simpl in Hlook.
  apply lookup_replicate in Hlook as [Hbad _]. discriminate.
Qed.

(** C1. For every sequence of chunks and every concurrency limit of at
    least one, the dispatch loop ends, and what a slot [j] of [orderedBuffers]
    holds is the audio that the speech call of chunk [j] delivered. When no
    stop is requested (and the callback did not capture an error), the slots
    are exactly the audio of the chunks in chunk order, whatever the order
    in which the calls of a batch settle. *)
Theorem orderedBuffers_follow_chunk_order (textChunks : list JsString)
    (concurrencyLimit : nat) (generateSpeech : nat -> Settled AudioBuffer)
    (errorAtRender : ErrorState) (schedule : nat -> list SessionEvent) :
  1 <= concurrencyLimit ->
  fairSchedule (List.length textChunks) concurrencyLimit schedule = true ->
  exists s,
    dispatchAll textChunks concurrencyLimit generateSpeech errorAtRender schedule
    = Some s
    /\ List.length (orderedBuffers s) = List.length textChunks
    /\ (forall j audioBuffer,
          orderedBuffers s !! j = Some (Some audioBuffer) ->
          generateSpeech j = Resolved audioBuffer)
    /\ (errorAtRender = NoError ->
        uninterrupted (List.length textChunks) concurrencyLimit schedule = true ->
        orderedBuffers s
        = map (fun j => audioOf (generateSpeech j))
            (seq 0 (List.length textChunks))).
Proof.
  intros Hlimit Hfair. unfold dispatchAll.
  destruct (dispatchLoop_sound textChunks concurrencyLimit generateSpeech
              errorAtRender schedule Hlimit (List.length textChunks) 0
              (initialSession textChunks))
    as (s & Hrun & Hlen & Hsound).
  { lia. } { simpl. apply length_replicate. } { apply initialSession_sound. }
  exists s. split; [exact Hrun |]. split; [exact Hlen |]. split; [exact Hsound |].
  intros Herr Hfree.
  destruct (dispatchLoop_complete textChunks concurrencyLimit generateSpeech
              errorAtRender schedule Hlimit (List.length textChunks) Herr Hfair
              Hfree 0 (initialSession textChunks))
    as (s' & Hrun' & _ & Hslots).
  { lia. } { reflexivity. } { simpl. apply length_replicate. }
  { intros j Hj. rewrite initialSession_slots by exact Hj. reflexivity. }
  simpl in Hrun'. rewrite Hrun in Hrun'. injection Hrun' as <-.
  apply list_eq. intros j.
  destruct (Nat.lt_ge_cases j (List.length textChunks)) as [Hj | Hj].
  - rewrite (Hslots j Hj). symmetry.
    change (map ?f ?l) with (f <$> l).
    rewrite list_lookup_fmap, lookup_seq_lt by exact Hj. reflexivity.
  - rewrite !lookup_ge_None_2; [reflexivity | | lia].
    rewrite length_map, length_seq. exact Hj.
Qed.

Lemma orderedBuffers_follow_chunk_order_witness :
  exists s,
    dispatchAll demoChunks 2 (fun j => Resolved (demoAudio j)) NoError demoSchedule
    = Some s
    /\ orderedBuffers s = map (fun j => Some (demoAudio j)) (seq 0 5).
Proof.
  destruct (orderedBuffers_follow_chunk_order demoChunks 2
              (fun j => Resolved (demoAudio j)) NoError demoSchedule)
    as (s & Hrun & _ & _ & Hall); [lia | reflexivity |].
  exists s. split; [exact Hrun |]. apply Hall; reflexivity.
Defined.

(** The retry loop never reads the cancellation flag: it runs the same way
    whatever the flag is, and leaves it as it is. *)
Lemma retryLoop_ignores_flag {T : Type} (apiCall : nat -> ApiOutcome T)
    (serviceName : string) (retryOptions : RetryOptions) (retriesLeft : nat) :
  forall (delay : Z) (attempt : nat) (events : list RetryEvent),
    let stopped := retryLoop apiCall serviceName retryOptions retriesLeft delay
                     attempt (worldWithFlag true events) in
    let running := retryLoop apiCall serviceName retryOptions retriesLeft delay
                     attempt (worldWithFlag false events) in
    fst stopped = fst running
    /\ trace (snd stopped) = trace (snd running)
    /\ stopGenerationRef (snd stopped) = true
    /\ stopGenerationRef (snd running) = false.
Proof.
  induction retriesLeft as [| retriesLeft IH]; intros delay attempt events;
    cbv zeta; rewrite !retryLoop_unfold;
    destruct (apiCall attempt) as [value | error]; try (repeat split; reflexivity);
    cbv zeta;
    destruct (isQuotaError _ && isDefined _); try (repeat split; reflexivity);
    destruct (_ || _ || _); try (repeat split; reflexivity).
  destruct (onRetryWait retryOptions); apply IH.
Qed.

(** C9, as the specification states it, fails: with the cancellation flag
    set, a speech call whose first request hits an overloaded server still
    waits out the backoff delay of 1000 ms and then sends the second request. *)
Lemma retry_waits_while_stopped :
  let run := callGeminiApiWithRetries (Some "key"%string) (overloadedFor 1 7%Z)
               "speech generation" speechRetryOptions (worldWithFlag true []) in
  stopGenerationRef (snd run) = true
  /\ sleepsOf (trace (snd run)) = [1000%Z]
  /\ invocationsOf (trace (snd run)) = [0; 1]
  /\ fst run = Resolved 7%Z.
Proof. repeat split. Qed.

Lemma assemble_stopped (context : AudioContext) (mix : MixSettings)
    (textChunks : list JsString) (s : Session) :
  stopGenerationRef_current s = true ->
  assemble context mix textChunks s
  = {| outcome := Ended Interrupted; combined := None |}.
Proof. intros Hstop. unfold assemble. rewrite Hstop. reflexivity. Qed.

(** *** The loop inside the component *)

Lemma flagAfter_alone (events : list ComponentEvent) :
  alone events = true -> flagAfter events = negb (stopFree (ownEvents events)).
Proof.
  unfold flagAfter.
  assert (Hgen : forall flag,
            alone events = true ->
            fold_left (fun flag event =>
                         match event with
                         | OfRun StopRequested => true
                         | OfRun (ChunkSettled _) => flag
                         | GenerationStarted | GenerationEnded => false
                         end) events flag
            = flag || negb (stopFree (ownEvents events))).
  { induction events as [| e rest IH]; intros flag Halone.
    - cbn. rewrite orb_false_r. reflexivity.
    - cbn [alone forallb] in Halone. apply andb_true_iff in Halone as [He Hrest].
      destruct e as [[j |] | |]; try discriminate; cbn [fold_left ownEvents omap].
      + rewrite (IH flag Hrest). reflexivity.
      + rewrite (IH true Hrest). cbn. rewrite orb_true_r. reflexivity. }
  intros Halone. rewrite (Hgen false Halone). reflexivity.
Qed.

Section ComponentDispatchFacts.

Variable textChunks : list JsString.
Variable concurrencyLimit : nat.
Variable generateSpeech : nat -> Settled AudioBuffer.
Variable errorAtRender : ErrorState.
Variable schedule : nat -> list ComponentEvent.
Hypothesis positiveLimit : 1 <= concurrencyLimit.

Local Abbreviation n := (List.length textChunks).
Local Abbreviation step := (handleComponentEvent textChunks generateSpeech).
Local Abbreviation loop :=
  (dispatchLoopOfComponent textChunks concurrencyLimit generateSpeech errorAtRender
     schedule).
Local Abbreviation await :=
  (awaitBatchOfComponent textChunks generateSpeech schedule).

Lemma dispatchLoopOfComponent_unfold (fuel i : nat) (s : Session) :
  loop fuel i s
  = if (n <=? i)%nat then Some s
    else if stopGenerationRef_current s then Some s
    else match fuel with
         | O => None
         | S fuel' =>
             let s' := await i (startBatch i (Nat.min (i + concurrencyLimit) n) s) in
             if breakAfterBatch errorAtRender s' then Some s'
             else loop fuel' (i + concurrencyLimit) s'
         end.
Proof. destruct fuel; reflexivity. Qed.

Lemma handleComponentEvent_dispatched (s : Session) (event : ComponentEvent) :
  dispatched (step s event) = dispatched s.
Proof.
  destruct event as [e | |]; [| reflexivity | reflexivity].
  apply handleEvent_dispatched.
Qed.

Lemma fold_component_dispatched (events : list ComponentEvent) :
  forall s, dispatched (fold_left step events s) = dispatched s.
Proof.
  induction events as [| e rest IH]; intros s; [reflexivity |].
  cbn [fold_left]. rewrite IH. apply handleComponentEvent_dispatched.
Qed.

(** The flag after an [await] is the last write to it. *)
Lemma fold_component_flag (events : list ComponentEvent) :
  forall s, stopGenerationRef_current (fold_left step events s)
            = fold_left (fun flag event =>
                           match event with
                           | OfRun StopRequested => true
                           | OfRun (ChunkSettled _) => flag
                           | GenerationStarted | GenerationEnded => false
                           end) events (stopGenerationRef_current s).
Proof.
  induction events as [| e rest IH]; intros s; [reflexivity |].
  cbn [fold_left]. rewrite IH. f_equal.
  destruct e as [[j |] | |]; try reflexivity.
  cbn [handleComponentEvent handleEvent]. unfold onFulfilled, onRejected.
  destruct (generateSpeech j), (stopGenerationRef_current s) eqn:Hflag;
    cbn [stopGenerationRef_current]; congruence.
Qed.

(** While the flag is set, the handlers of a chunk leave the session as it
    is: nothing is stored, counted or shown. *)
Lemma settle_while_stopped (s : Session) (j : nat) :
  stopGenerationRef_current s = true -> step s (OfRun (ChunkSettled j)) = s.
Proof.
  intros Hstop. cbn [handleComponentEvent handleEvent].
  unfold onFulfilled, onRejected. destruct (generateSpeech j); rewrite Hstop; reflexivity.
Qed.

(** The chunks that were dispatched are the first ones. A chunk is
    dispatched only if every earlier batch ended with the flag unset; a batch
    that ends with the flag set is the last one; and when no batch ends with
    the flag set, and no message ends the loop, every chunk is dispatched. *)
Lemma dispatchLoopOfComponent_cancellation (fuel : nat) :
  forall k s,
    n <= fuel + k * concurrencyLimit ->
    stopGenerationRef_current s = false ->
    dispatched s = seq 0 (Nat.min (k * concurrencyLimit) n) ->
    (forall k0, k0 < k -> flagAfter (schedule (k0 * concurrencyLimit)) = false) ->
    exists s' m,
      loop fuel (k * concurrencyLimit) s = Some s'
      /\ dispatched s' = seq 0 m /\ m <= n
      /\ Nat.min ((k + 1) * concurrencyLimit) n <= m
      /\ (forall j k0, j < m -> (k0 + 1) * concurrencyLimit <= j ->
            flagAfter (schedule (k0 * concurrencyLimit)) = false)
      /\ (forall k0, k0 * concurrencyLimit < m ->
            flagAfter (schedule (k0 * concurrencyLimit)) = true ->
            stopGenerationRef_current s' = true
            /\ m = Nat.min ((k0 + 1) * concurrencyLimit) n)
      /\ (errorAtRender = NoError ->
          (forall k0, k0 * concurrencyLimit < n ->
                      flagAfter (schedule (k0 * concurrencyLimit)) = false) ->
          m = n).
Proof using positiveLimit.
  induction fuel as [| fuel IH]; intros k s Hfuel Hstop Hdisp Hquiet;
    rewrite dispatchLoopOfComponent_unfold.
  - destruct (Nat.leb_spec n (k * concurrencyLimit)) as [Hge | Hlt]; [| lia].
    exists s, n. rewrite Nat.min_r in Hdisp by exact Hge.
    split; [reflexivity |]. split; [exact Hdisp |]. split; [lia |].
    split; [lia |]. split; [| split].
    + intros j k0 Hj Hk0. apply Hquiet. nia.
    + intros k0 Hk0 Hbad. rewrite Hquiet in Hbad; [discriminate | nia].
    + reflexivity.
  - destruct (Nat.leb_spec n (k * concurrencyLimit)) as [Hge | Hlt].
    { exists s, n. rewrite Nat.min_r in Hdisp by exact Hge.
      split; [reflexivity |]. split; [exact Hdisp |]. split; [lia |].
      split; [lia |]. split; [| split].
      + intros j k0 Hj Hk0. apply Hquiet. nia.
      + intros k0 Hk0 Hbad. rewrite Hquiet in Hbad; [discriminate | nia].
      + reflexivity. }
    rewrite Hstop. cbv zeta.
    set (i := k * concurrencyLimit) in *.
    set (e := Nat.min (i + concurrencyLimit) n).
    set (s2 := await i (startBatch i e s)).
    assert (Hd2 : dispatched s2 = seq 0 e).
    { unfold s2, awaitBatchOfComponent. rewrite fold_component_dispatched. simpl.
      rewrite Hdisp, Nat.min_l by lia.
      replace e with (i + (e - i)) at 2 by (unfold e; lia).
      symmetry. apply seq_app. }
    assert (Hs2 : stopGenerationRef_current s2 = flagAfter (schedule i)).
    { unfold s2, awaitBatchOfComponent. rewrite fold_component_flag.
      cbn [startBatch stopGenerationRef_current]. rewrite Hstop. reflexivity. }
    assert (Hearlier : forall j k0, j < e -> (k0 + 1) * concurrencyLimit <= j ->
                         flagAfter (schedule (k0 * concurrencyLimit)) = false).
    { intros j k0 Hj Hk0. apply Hquiet. unfold e, i in *. nia. }
    assert (Hlast : forall k0, k0 * concurrencyLimit < e ->
                      flagAfter (schedule (k0 * concurrencyLimit)) = true ->
                      k0 = k).
    { intros k0 Hk0 Hbad.
      destruct (Nat.lt_ge_cases k0 k) as [Hlt0 | Hge0].
      - rewrite (Hquiet k0 Hlt0) in Hbad. discriminate.
      - unfold e, i in *. nia. }
    destruct (breakAfterBatch errorAtRender s2) eqn:Hbreak.
    + exists s2, e. split; [reflexivity |]. split; [exact Hd2 |].
      split; [unfold e; lia |]. split; [unfold e, i; lia |].
      split; [exact Hearlier |]. split.
      * intros k0 Hk0 Hbad. assert (k0 = k) by (apply Hlast; assumption). subst k0.
        fold i in Hbad. rewrite Hs2, Hbad. split; [reflexivity |].
        unfold e, i. f_equal. lia.
      * intros Herr Hall. unfold breakAfterBatch in Hbreak.
        rewrite Herr, Hs2 in Hbreak.
        pose proof (Hall k Hlt) as Hunset. fold i in Hunset.
        rewrite Hunset in Hbreak. discriminate.
    + assert (Hrun : stopGenerationRef_current s2 = false).
      { unfold breakAfterBatch in Hbreak.
        destruct errorAtRender; try discriminate. exact Hbreak. }
      assert (Hfree : flagAfter (schedule i) = false).
      { rewrite <- Hs2. exact Hrun. }
      replace (i + concurrencyLimit) with (S k * concurrencyLimit)
        by (unfold i; lia).
      destruct (IH (S k) s2) as (s' & m & Hloop & Hd & Hm & Hmin & H3 & H4 & H5).
      * unfold i in *. lia.
      * exact Hrun.
      * rewrite Hd2. unfold e, i. f_equal. lia.
      * intros k0 Hk0. destruct (decide (k0 = k)) as [-> | Hne];
          [exact Hfree | apply Hquiet; lia].
      * exists s', m. split; [exact Hloop |]. split; [exact Hd |].
        split; [exact Hm |]. split; [lia |]. split; [exact H3 |].
        split; [exact H4 | exact H5].
Qed.

End ComponentDispatchFacts.

(** A run that is alone in the component is the run of [dispatchLoop]. *)
Lemma dispatchLoopOfComponent_alone (textChunks : list JsString)
    (concurrencyLimit : nat) (generateSpeech : nat -> Settled AudioBuffer)
    (errorAtRender : ErrorState) (schedule : nat -> list SessionEvent)
    (fuel : nat) :
  forall i s,
    dispatchLoopOfComponent textChunks concurrencyLimit generateSpeech errorAtRender
      (fun i => map OfRun (schedule i)) fuel i s
    = dispatchLoop textChunks concurrencyLimit generateSpeech errorAtRender
        schedule fuel i s.
Proof.
  assert (Hawait : forall i s,
            awaitBatchOfComponent textChunks generateSpeech
              (fun i => map OfRun (schedule i)) i s
            = awaitBatch textChunks generateSpeech schedule i s).
  { intros i s. unfold awaitBatchOfComponent, awaitBatch.
    generalize s. induction (schedule i) as [| e rest IH]; intros s0; [reflexivity |].
    cbn [map fold_left]. apply IH. }
  induction fuel as [| fuel IH]; intros i s;
    rewrite dispatchLoopOfComponent_unfold, dispatchLoop_unfold; [reflexivity |].
  cbv zeta. rewrite Hawait.
  destruct (List.length textChunks <=? i)%nat; [reflexivity |].
  destruct (stopGenerationRef_current s); [reflexivity |].
  destruct (breakAfterBatch errorAtRender _); [reflexivity | apply IH].
Qed.

(** The flag is not the run's own: a further run that starts right after the
    stop clears it, and the run that was stopped goes on to dispatch every
    chunk. *)
Example restart_resumes_the_stopped_run :
  match dispatchAllOfComponent demoChunks 2 (allResolve demoAudio) NoError
          demoRestartedSchedule with
  | Some s =>
      dispatched s = [0; 1; 2; 3; 4] /\ stopGenerationRef_current s = false
  | None => False
  end.
Proof. vm_compute. split; reflexivity. Qed.

(** C9, amended. The flag is checked before each batch and after each
    [await], and by the handlers of a chunk, which drop a result that arrives
    while the flag is set. The loop ends; the chunks it dispatched are the
    first [m]; a chunk is dispatched only when every earlier batch ended with
    the flag unset; a batch that ends with the flag set is the last one, and
    the run then ends interrupted, without combining or exporting anything.
    For a run that is alone in the component the flag is set at the end of a
    batch exactly when a stop was requested during it: a stop during the first
    batch then leaves every later batch undispatched. The flag belongs to the
    component: a further run that starts or ends during the [await] clears it,
    and when no batch ends with the flag set (and no message was showing at
    the start) every chunk is dispatched, whatever stops were requested. The
    retry loop of a speech call does not check the flag: it makes the same
    requests and waits the same delays whether the flag is set or not. *)
Theorem cancellation_checked_at_batch_boundaries
    (context : AudioContext) (mix : MixSettings) (textChunks : list JsString)
    (concurrencyLimit : nat) (generateSpeech : nat -> Settled AudioBuffer)
    (errorAtRender : ErrorState) (schedule : nat -> list ComponentEvent)
    (apiKey : option string) (apiCall : nat -> ApiOutcome AudioBuffer)
    (retryOptions : RetryOptions) (events : list RetryEvent) :
  1 <= concurrencyLimit ->
  textChunks <> [] ->
  (exists s m,
     dispatchAllOfComponent textChunks concurrencyLimit generateSpeech errorAtRender
       schedule = Some s
     /\ dispatched s = seq 0 m /\ m <= List.length textChunks
     /\ (forall j k, j < m -> (k + 1) * concurrencyLimit <= j ->
           flagAfter (schedule (k * concurrencyLimit)) = false)
     /\ (forall k, k * concurrencyLimit < m ->
           flagAfter (schedule (k * concurrencyLimit)) = true ->
           stopGenerationRef_current s = true
           /\ m = Nat.min ((k + 1) * concurrencyLimit) (List.length textChunks)
           /\ assemble context mix textChunks s
              = {| outcome := Ended Interrupted; combined := None |})
     /\ (forall k, k * concurrencyLimit < m ->
           alone (schedule (k * concurrencyLimit)) = true ->
           stopFree (ownEvents (schedule (k * concurrencyLimit))) = false ->
           m = Nat.min ((k + 1) * concurrencyLimit) (List.length textChunks)
           /\ assemble context mix textChunks s
              = {| outcome := Ended Interrupted; combined := None |})
     /\ (alone (schedule 0) = true ->
         stopFree (ownEvents (schedule 0)) = false ->
         dispatched s = seq 0 (Nat.min concurrencyLimit (List.length textChunks))
         /\ assemble context mix textChunks s
            = {| outcome := Ended Interrupted; combined := None |})
     /\ (errorAtRender = NoError ->
         (forall k, k * concurrencyLimit < List.length textChunks ->
                    flagAfter (schedule (k * concurrencyLimit)) = false) ->
         m = List.length textChunks))
  /\ (forall s j,
        stopGenerationRef_current s = true ->
        handleComponentEvent textChunks generateSpeech s (OfRun (ChunkSettled j)) = s)
  /\ (let stopped := callGeminiApiWithRetries apiKey apiCall "speech generation"
                       retryOptions (worldWithFlag true events) in
      let running := callGeminiApiWithRetries apiKey apiCall "speech generation"
                       retryOptions (worldWithFlag false events) in
      fst stopped = fst running /\ trace (snd stopped) = trace (snd running)).
Proof.
  intros Hlimit Hne. split; [| split].
  - destruct (dispatchLoopOfComponent_cancellation textChunks concurrencyLimit
                generateSpeech errorAtRender schedule Hlimit
                (List.length textChunks) 0 (initialSession textChunks))
      as (s & m & Hrun & Hd & Hm & Hmin & Hbefore & Hlast & Hall).
    { lia. } { reflexivity. } { reflexivity. } { intros k0 Hk0. lia. }
    exists s, m. split; [exact Hrun |]. split; [exact Hd |]. split; [exact Hm |].
    split; [exact Hbefore |].
    assert (Hstopped : forall k, k * concurrencyLimit < m ->
              flagAfter (schedule (k * concurrencyLimit)) = true ->
              stopGenerationRef_current s = true
              /\ m = Nat.min ((k + 1) * concurrencyLimit) (List.length textChunks)
              /\ assemble context mix textChunks s
                 = {| outcome := Ended Interrupted; combined := None |}).
    { intros k Hk Hbad. destruct (Hlast k Hk Hbad) as [Hstop Hmk].
      split; [exact Hstop |]. split; [exact Hmk |].
      apply assemble_stopped, Hstop. }
    split; [exact Hstopped |].
    assert (Halone : forall k, k * concurrencyLimit < m ->
              alone (schedule (k * concurrencyLimit)) = true ->
              stopFree (ownEvents (schedule (k * concurrencyLimit))) = false ->
              m = Nat.min ((k + 1) * concurrencyLimit) (List.length textChunks)
              /\ assemble context mix textChunks s
                 = {| outcome := Ended Interrupted; combined := None |}).
    { intros k Hk Hone Hbad. destruct (Hstopped k Hk) as (_ & Hmk & Hout).
      - rewrite (flagAfter_alone _ Hone), Hbad. reflexivity.
      - split; assumption. }
    split; [exact Halone |]. split; [| exact Hall].
    intros Hone Hbad.
    assert (Hlen : 1 <= List.length textChunks).
    { destruct textChunks; [congruence | simpl; lia]. }
    destruct (Halone 0) as (Hm0 & Hout).
    + simpl. simpl in Hmin. lia.
    + exact Hone.
    + exact Hbad.
    + split; [| exact Hout]. rewrite Hd, Hm0. f_equal. simpl. f_equal. lia.
  - intros s j Hstop. apply settle_while_stopped, Hstop.
  - cbv zeta. destruct apiKey as [[| c key] |]; simpl; try (split; reflexivity).
    destruct (retryLoop_ignores_flag apiCall "speech generation" retryOptions
                (maxRetries retryOptions) (initialDelayMs retryOptions) 0 events)
      as (H1 & H2 & _).
    split; assumption.
Qed.

(** A stop during the first of three batches, with no further run: the two
    chunks of the first batch are the only ones dispatched. *)
Lemma cancellation_checked_at_batch_boundaries_witness :
  exists s,
    dispatchAllOfComponent demoChunks 2 (fun j => Resolved (demoAudio j)) NoError
      demoStoppedAlone = Some s
    /\ dispatched s = [0; 1]
    /\ assemble demoContext
         {| backgroundMusicBuffer := None; speechVolume := 1; musicVolume := 1 |}
         demoChunks s
       = {| outcome := Ended Interrupted; combined := None |}.
Proof.
  destruct (cancellation_checked_at_batch_boundaries demoContext
              {| backgroundMusicBuffer := None; speechVolume := 1; musicVolume := 1 |}
              demoChunks 2 (fun j => Resolved (demoAudio j)) NoError
              demoStoppedAlone (Some "key"%string) (overloadedFor 1 demoSpeech)
              speechRetryOptions [])
    as [(s & m & Hrun & _ & _ & _ & _ & _ & Hfirst & _) _]; [lia | discriminate |].
  exists s. split; [exact Hrun |]. apply Hfirst; reflexivity.
Defined.

(** ** Segmentation *)

Example segment_packs_sentences :
  segment 20 (ofString "Hello world. This is a test! And more? yes. Dr. Smith went home.")
  = map ofString ["Hello world."; "This is a test!"; "And more? yes.";
                  "Dr. Smith went home."]%string.
Proof. reflexivity. Qed.

Example segment_keeps_long_sentence :
  segment 5 (ofString "  An oversized sentence.  ")
  = [ofString "An oversized sentence."].
Proof. reflexivity. Qed.

Example segment_of_blank_text :
  segment 5 (ofString "   ") = [].
Proof. reflexivity. Qed.

Lemma trimStart_nil (s : JsString) :
  trimStart s = [] <-> forallb isSpace s = true.
Proof.
  induction s as [| c tl IH]; simpl; [tauto |].
  destruct (isSpace c); simpl; [exact IH |]. split; discriminate.
Qed.

Lemma trimStart_head (s : JsString) (c : N) (tl : JsString) :
  trimStart s = c :: tl -> isSpace c = false.
Proof.
  induction s as [| d rest IH]; simpl; [discriminate |].
  destruct (isSpace d) eqn:Hd; [exact IH |]. intros H. injection H as <- _. exact Hd.
Qed.

Lemma trimStart_length (s : JsString) : List.length (trimStart s) <= List.length s.
Proof.
  induction s as [| c tl IH]; simpl; [lia |].
  destruct (isSpace c); simpl; lia.
Qed.

Lemma trim_length (s : JsString) : List.length (trim s) <= List.length s.
Proof.
  unfold trim. rewrite length_rev.
  etransitivity; [apply trimStart_length |]. rewrite length_rev.
  apply trimStart_length.
Qed.

Lemma trim_nil (s : JsString) : trim s = [] <-> forallb isSpace s = true.
Proof.
  unfold trim. split.
  - intros H. destruct (trimStart s) as [| c tl] eqn:Hs.
    + apply trimStart_nil, Hs.
    + exfalso. apply trimStart_head in Hs.
      assert (Hrev : trimStart (rev (c :: tl)) = []).
      { destruct (trimStart (rev (c :: tl))); [reflexivity |].
        simpl in H. destruct (rev l); discriminate. }
      apply trimStart_nil in Hrev. simpl in Hrev.
      rewrite forallb_app in Hrev. simpl in Hrev. rewrite Hs in Hrev.
      rewrite andb_false_r in Hrev. discriminate.
  - intros H. apply trimStart_nil in H. rewrite H. reflexivity.
Qed.

Lemma truthy_trim (s : JsString) :
  truthy (trim s) = true <-> exists c, In c s /\ isSpace c = false.
Proof.
  split.
  - intros H. destruct (forallb isSpace s) eqn:Hall.
    + apply trim_nil in Hall. rewrite Hall in H. discriminate.
    + clear H. induction s as [| c tl IH]; simpl in Hall; [discriminate |].
      destruct (isSpace c) eqn:Hc.
      * destruct (IH Hall) as (d & Hd & Hsp). exists d. split; [right |]; assumption.
      * exists c. split; [left; reflexivity | exact Hc].
  - intros (c & Hin & Hc). destruct (trim s) eqn:Ht; [| reflexivity].
    apply trim_nil in Ht. rewrite forallb_forall in Ht.
    rewrite (Ht c Hin) in Hc. discriminate.
Qed.

Lemma truthy_false (s : JsString) : truthy s = false <-> s = [].
Proof. destruct s; simpl; split; congruence. Qed.

(** What a greedy star takes satisfies the class, and what follows it is
    accepted by the rest of the pattern. *)
Lemma greedyStar_spec (p : N -> bool) (k : JsString -> option nat) (rest : JsString) :
  forall taken len,
    greedyStar p k rest = Some (taken, len) ->
    taken <= List.length rest
    /\ forallb p (firstn taken rest) = true
    /\ k (skipn taken rest) = Some len.
Proof.
  induction rest as [| c tl IH]; intros taken len H; simpl in H.
  - destruct (k []) eqn:Hk; [| discriminate]. injection H as <- <-.
    repeat split; [lia | exact Hk].
  - assert (Hstop : match k (c :: tl) with
                    | Some n => Some (0, n) | None => None end = Some (taken, len) ->
                    taken <= List.length (c :: tl)
                    /\ forallb p (firstn taken (c :: tl)) = true
                    /\ k (skipn taken (c :: tl)) = Some len).
    { intros H0. destruct (k (c :: tl)) eqn:Hk; [| discriminate].
      injection H0 as <- <-. repeat split; [simpl; lia | exact Hk]. }
    destruct (p c) eqn:Hc; [| exact (Hstop H)].
    destruct (greedyStar p k tl) as [[taken' len'] |] eqn:Hrec; [| exact (Hstop H)].
    injection H as <- <-. destruct (IH taken' len' eq_refl) as (H1 & H2 & H3).
    simpl. rewrite Hc, H2. repeat split; [lia | exact H3].
Qed.

Lemma paragraphBreak_spaces : matchesSpaces paragraphBreak.
Proof.
  intros before rest len H. unfold paragraphBreak in H.
  destruct rest as [| c tl]; [discriminate |].
  destruct (N.eqb_spec c 10) as [-> | _]; [| discriminate].
  destruct (greedyStar _ _ tl) as [[taken n] |] eqn:Hg; [| discriminate].
  injection H as <-. apply greedyStar_spec in Hg as (H1 & H2 & H3).
  destruct (skipn taken tl) as [| d rest'] eqn:Hskip; [discriminate |].
  destruct (N.eqb_spec d 10) as [-> | _]; [| discriminate].
  injection H3 as <-.
  assert (Hlen : taken < List.length tl).
  { destruct (Nat.lt_ge_cases taken (List.length tl)) as [Hlt | Hge]; [exact Hlt |].
    rewrite skipn_all2 in Hskip by exact Hge. discriminate. }
  split; [simpl; lia |].
  replace (1 + taken + 1) with (S (taken + 1)) by lia. simpl.
  rewrite <- (firstn_skipn taken tl) at 1.
  rewrite firstn_app, firstn_firstn, Nat.min_r by lia.
  rewrite forallb_app, H2, length_firstn, Nat.min_l by lia.
  replace (taken + 1 - taken) with 1 by lia. rewrite Hskip. reflexivity.
Qed.

Lemma sentenceRegex_spaces : matchesSpaces sentenceRegex.
Proof.
  intros before rest len H. unfold sentenceRegex in H.
  destruct (negb (afterDottedPair before) && negb (afterShortAbbreviation before)
            && afterSentenceEnd before); [| discriminate].
  destruct rest as [| c tl]; [discriminate |].
  destruct (isSpace c) eqn:Hc; [| discriminate].
  destruct (greedyStar _ _ tl) as [[taken n] |] eqn:Hg; [| discriminate].
  injection H as <-. apply greedyStar_spec in Hg as (H1 & H2 & H3).
  destruct (skipn taken tl) as [| d rest'] eqn:Hskip; [discriminate |].
  destruct (isSentenceStart d); [| discriminate]. injection H3 as <-.
  split; [simpl; lia |].
  rewrite Nat.add_0_r. simpl. rewrite Hc, H2. reflexivity.
Qed.

(** Every code unit of a piece is a code unit of the text. *)
Lemma splitLoop_within (m : Matcher) (rest : JsString) :
  forall before skip acc piece c,
    In piece (splitLoop m before rest skip acc) -> In c piece ->
    In c acc \/ In c rest.
Proof.
  induction rest as [| c0 tl IH]; intros before skip acc piece c Hp Hc.
  - simpl in Hp. destruct Hp as [<- | []]. left. apply in_rev, Hc.
  - simpl in Hp. destruct skip as [| skip].
    + destruct (m before (c0 :: tl)) as [[| len] |].
      * destruct acc as [| a acc'].
        -- destruct (IH _ _ _ _ _ Hp Hc) as [[<- | []] | H];
             right; [left; reflexivity | right; exact H].
        -- destruct Hp as [<- | Hp]; [left; apply in_rev, Hc |].
           destruct (IH _ _ _ _ _ Hp Hc) as [[<- | []] | H];
             right; [left; reflexivity | right; exact H].
      * destruct Hp as [<- | Hp]; [left; apply in_rev, Hc |].
        destruct (IH _ _ _ _ _ Hp Hc) as [[] | H]. right. right. exact H.
      * destruct (IH _ _ _ _ _ Hp Hc) as [[<- | H] | H].
        -- right. left. reflexivity.
        -- left. exact H.
        -- right. right. exact H.
    + destruct (IH _ _ _ _ _ Hp Hc) as [H | H]; [left | right; right]; exact H.
Qed.

(** A code unit that is not white space ends up in a piece. *)
Lemma splitLoop_covers (m : Matcher) (rest : JsString) :
  matchesSpaces m ->
  forall before skip acc c,
    skip <= List.length rest ->
    forallb isSpace (firstn skip rest) = true ->
    isSpace c = false ->
    In c acc \/ In c rest ->
    exists piece, In piece (splitLoop m before rest skip acc) /\ In c piece.
Proof.
  intros Hm. induction rest as [| c0 tl IH]; intros before skip acc c Hskip Hsp Hc Hin.
  - simpl. exists (rev acc). split; [left; reflexivity |].
    destruct Hin as [Hin | []]. apply in_rev. rewrite rev_involutive. exact Hin.
  - simpl. destruct skip as [| skip].
    + destruct (m before (c0 :: tl)) as [[| len] |] eqn:Hmatch.
      * destruct acc as [| a acc'].
        -- apply IH; [lia | reflexivity | exact Hc |].
           destruct Hin as [[] | [<- | Hin]]; [left; left; reflexivity | right; exact Hin].
        -- destruct Hin as [Hin | Hin].
           ++ exists (rev (a :: acc')). split; [left; reflexivity |].
              apply in_rev. rewrite rev_involutive. exact Hin.
           ++ destruct (IH (c0 :: before) 0 [c0] c) as (piece & Hp & Hcp);
                [lia | reflexivity | exact Hc | |].
              ** destruct Hin as [<- | Hin]; [left; left; reflexivity | right; exact Hin].
              ** exists piece. split; [right; exact Hp | exact Hcp].
      * destruct (Hm _ _ _ Hmatch) as [Hlen Hspaces]. simpl in Hlen, Hspaces.
        apply andb_true_iff in Hspaces as [Hc0 Hrest].
        destruct Hin as [Hin | Hin].
        -- exists (rev acc). split; [left; reflexivity |].
           apply in_rev. rewrite rev_involutive. exact Hin.
        -- destruct Hin as [<- | Hin]; [congruence |].
           destruct (IH (c0 :: before) len [] c) as (piece & Hp & Hcp);
             [lia | exact Hrest | exact Hc | right; exact Hin |].
           exists piece. split; [right; exact Hp | exact Hcp].
      * apply IH; [lia | reflexivity | exact Hc |].
        destruct Hin as [Hin | [<- | Hin]];
          [left; right; exact Hin | left; left; reflexivity | right; exact Hin].
    + simpl in Hskip, Hsp. apply andb_true_iff in Hsp as [Hc0 Hrest].
      apply IH; [lia | exact Hrest | exact Hc |].
      destruct Hin as [Hin | [<- | Hin]]; [left; exact Hin | congruence | right; exact Hin].
Qed.

Lemma split_within (m : Matcher) (s piece : JsString) (c : N) :
  In piece (split m s) -> In c piece -> In c s.
Proof.
  intros Hp Hc. destruct (splitLoop_within m s [] 0 [] piece c Hp Hc) as [[] | H].
  exact H.
Qed.

Lemma split_covers (m : Matcher) (s : JsString) (c : N) :
  matchesSpaces m -> In c s -> isSpace c = false ->
  exists piece, In piece (split m s) /\ In c piece.
Proof.
  intros Hm Hin Hc. apply splitLoop_covers; try assumption.
  - lia.
  - reflexivity.
  - right. exact Hin.
Qed.

(** A piece of a text that has something to say has something to say. *)
Lemma split_keeps_content (m : Matcher) (s : JsString) :
  matchesSpaces m -> truthy (trim s) = true ->
  exists piece, In piece (split m s) /\ truthy (trim piece) = true.
Proof.
  intros Hm Hs. apply truthy_trim in Hs as (c & Hin & Hc).
  destruct (split_covers m s c Hm Hin Hc) as (piece & Hp & Hcp).
  exists piece. split; [exact Hp |]. apply truthy_trim. exists c. split; assumption.
Qed.

Lemma split_of_blank (m : Matcher) (s piece : JsString) :
  trim s = [] -> In piece (split m s) -> truthy (trim piece) = false.
Proof.
  intros Hs Hp. apply trim_nil in Hs. rewrite forallb_forall in Hs.
  apply truthy_false, trim_nil, forallb_forall. intros c Hc.
  apply Hs. eapply split_within; eassumption.
Qed.

Section Packing.

Variable maxChunkChars : nat.
Variable sentences : list JsString.

Local Abbreviation good := (withinLimitOrOneSentence maxChunkChars sentences).

Lemma good_nil : good [].
Proof. left. simpl. lia. Qed.

Lemma packSentence_good (textChunks : list JsString) (currentChunk sentence : JsString) :
  In sentence sentences ->
  Forall good textChunks -> good currentChunk ->
  Forall good (fst (packSentence maxChunkChars (textChunks, currentChunk) sentence))
  /\ good (snd (packSentence maxChunkChars (textChunks, currentChunk) sentence)).
Proof.
  intros Hin Htc Hcur. unfold packSentence.
  destruct (truthy (trim sentence)); simpl; [| split; assumption].
  assert (Htrim := trim_length sentence).
  destruct (Nat.leb_spec
              (if truthy currentChunk
               then List.length currentChunk + List.length sentence + 1
               else List.length sentence) maxChunkChars) as [Hfits | Hover]; simpl.
  - split; [exact Htc |]. left.
    destruct currentChunk as [| a rest]; simpl in *.
    + lia.
    + rewrite length_app. simpl. lia.
  - split.
    + destruct (truthy currentChunk); [| exact Htc].
      apply Forall_app. split; [exact Htc |]. constructor; [exact Hcur | constructor].
    + destruct (Nat.le_gt_cases (List.length (trim sentence)) maxChunkChars)
        as [Hle | Hgt]; [left; exact Hle |].
      right. split; [exact Hgt |]. exists sentence. split; [exact Hin | reflexivity].
Qed.

Lemma fold_packSentence_good (todo : list JsString) :
  forall state,
    (forall sentence, In sentence todo -> In sentence sentences) ->
    Forall good (fst state) -> good (snd state) ->
    Forall good (fst (fold_left (packSentence maxChunkChars) todo state))
    /\ good (snd (fold_left (packSentence maxChunkChars) todo state)).
Proof.
  induction todo as [| sentence rest IH]; intros [textChunks currentChunk] Hsub Htc Hcur.
  - split; assumption.
  - change (fold_left (packSentence maxChunkChars) (sentence :: rest)
              (textChunks, currentChunk))
      with (fold_left (packSentence maxChunkChars) rest
              (packSentence maxChunkChars (textChunks, currentChunk) sentence)).
    destruct (packSentence_good textChunks currentChunk sentence) as [H1 H2];
      [apply Hsub; left; reflexivity | exact Htc | exact Hcur |].
    apply IH; [| exact H1 | exact H2].
    intros s Hs. apply Hsub. right. exact Hs.
Qed.

Lemma packParagraph_good (textChunks : list JsString) (paragraph : JsString) :
  (forall sentence, In sentence (split sentenceRegex paragraph) ->
                    In sentence sentences) ->
  Forall good textChunks ->
  Forall good (packParagraph maxChunkChars textChunks paragraph).
Proof.
  intros Hsub Htc. unfold packParagraph.
  destruct (truthy (trim paragraph)); simpl; [| exact Htc]. cbv zeta.
  destruct (fold_packSentence_good (split sentenceRegex paragraph) (textChunks, []))
    as [H1 H2]; [exact Hsub | exact Htc | apply good_nil |].
  destruct (fold_left _ _ _) as [textChunks' currentChunk']. simpl in *.
  destruct (truthy currentChunk'); [| exact H1].
  apply Forall_app. split; [exact H1 |]. constructor; [exact H2 | constructor].
Qed.

End Packing.

Lemma fold_packParagraph_good (maxChunkChars : nat) (sentences : list JsString)
    (paragraphs : list JsString) :
  forall textChunks,
    (forall paragraph sentence,
       In paragraph paragraphs -> In sentence (split sentenceRegex paragraph) ->
       In sentence sentences) ->
    Forall (withinLimitOrOneSentence maxChunkChars sentences) textChunks ->
    Forall (withinLimitOrOneSentence maxChunkChars sentences)
      (fold_left (packParagraph maxChunkChars) paragraphs textChunks).
Proof.
  induction paragraphs as [| paragraph rest IH]; intros textChunks Hsub Htc;
    [exact Htc |].
  simpl. apply IH.
  - intros p s Hp Hs. apply (Hsub p s); [right; exact Hp | exact Hs].
  - apply packParagraph_good; [| exact Htc].
    intros s Hs. apply (Hsub paragraph s); [left; reflexivity | exact Hs].
Qed.

(** The current chunk is never emptied, and a sentence with content fills it. *)
Lemma packSentence_grows (maxChunkChars : nat) (state : list JsString * JsString)
    (sentence : JsString) :
  let state' := packSentence maxChunkChars state sentence in
  List.length (fst state) <= List.length (fst state')
  /\ (truthy (snd state) = true -> truthy (snd state') = true)
  /\ (truthy (trim sentence) = true -> truthy (snd state') = true).
Proof.
  destruct state as [textChunks currentChunk]. unfold packSentence. cbv zeta.
  destruct (truthy (trim sentence)) eqn:Hs; simpl.
  - destruct (_ <=? maxChunkChars)%nat; simpl.
    + split; [lia |].
      assert (Hfull : truthy (currentChunk
                              ++ (if truthy currentChunk then [32%N] else [])
                              ++ trim sentence) = true).
      { destruct currentChunk; [| reflexivity]. simpl. exact Hs. }
      split; intros _; exact Hfull.
    + split; [| split; intros _; exact Hs].
      destruct (truthy currentChunk); [rewrite length_app; simpl |]; lia.
  - split; [lia |]. split; [tauto | discriminate].
Qed.

Lemma fold_packSentence_grows (maxChunkChars : nat) (todo : list JsString) :
  forall state,
    let state' := fold_left (packSentence maxChunkChars) todo state in
    List.length (fst state) <= List.length (fst state')
    /\ (truthy (snd state) = true -> truthy (snd state') = true)
    /\ ((exists sentence, In sentence todo /\ truthy (trim sentence) = true) ->
        truthy (snd state') = true).
Proof.
  induction todo as [| sentence rest IH]; intros state; cbv zeta.
  - simpl. split; [lia |]. split; [tauto |]. intros (s & [] & _).
  - change (fold_left (packSentence maxChunkChars) (sentence :: rest) state)
      with (fold_left (packSentence maxChunkChars) rest
              (packSentence maxChunkChars state sentence)).
    destruct (packSentence_grows maxChunkChars state sentence) as (H1 & H2 & H3).
    destruct (IH (packSentence maxChunkChars state sentence)) as (G1 & G2 & G3).
    split; [lia |]. split; [tauto |].
    intros (s & [<- | Hin] & Hs); [tauto |].
    apply G3. exists s. split; assumption.
Qed.

Lemma packParagraph_grows (maxChunkChars : nat) (textChunks : list JsString)
    (paragraph : JsString) :
  List.length textChunks
  <= List.length (packParagraph maxChunkChars textChunks paragraph)
  /\ (truthy (trim paragraph) = true ->
      List.length textChunks
      < List.length (packParagraph maxChunkChars textChunks paragraph)).
Proof.
  unfold packParagraph. destruct (truthy (trim paragraph)) eqn:Hp; simpl;
    [| split; [lia | discriminate]].
  cbv zeta.
  destruct (fold_packSentence_grows maxChunkChars (split sentenceRegex paragraph)
              (textChunks, [])) as (H1 & _ & H3).
  assert (Hfilled := H3 (split_keeps_content _ _ sentenceRegex_spaces Hp)).
  destruct (fold_left _ _ _) as [textChunks' currentChunk']. simpl in *.
  rewrite Hfilled, length_app. simpl. split; [lia |]. intros _. lia.
Qed.

Lemma fold_packParagraph_grows (maxChunkChars : nat) (paragraphs : list JsString) :
  forall textChunks,
    List.length textChunks
    <= List.length (fold_left (packParagraph maxChunkChars) paragraphs textChunks)
    /\ ((exists paragraph, In paragraph paragraphs
                           /\ truthy (trim paragraph) = true) ->
        List.length textChunks
        < List.length (fold_left (packParagraph maxChunkChars) paragraphs textChunks)).
Proof.
  induction paragraphs as [| paragraph rest IH]; intros textChunks.
  - simpl. split; [lia |]. intros (p & [] & _).
  - simpl.
    destruct (packParagraph_grows maxChunkChars textChunks paragraph) as [H1 H2].
    destruct (IH (packParagraph maxChunkChars textChunks paragraph)) as [G1 G2].
    split; [lia |].
    intros (p & [<- | Hin] & Hp).
    + specialize (H2 Hp). lia.
    + assert (G := G2 (ex_intro _ p (conj Hin Hp))). lia.
Qed.

Lemma fold_packParagraph_blank (maxChunkChars : nat) (paragraphs : list JsString) :
  (forall paragraph, In paragraph paragraphs -> truthy (trim paragraph) = false) ->
  forall textChunks,
    fold_left (packParagraph maxChunkChars) paragraphs textChunks = textChunks.
Proof.
  induction paragraphs as [| paragraph rest IH]; intros Hblank textChunks;
    [reflexivity |].
  simpl. unfold packParagraph at 2.
  rewrite (Hblank paragraph) by (left; reflexivity). simpl.
  apply IH. intros p Hp. apply Hblank. right. exact Hp.
Qed.

(** The chunks are those of the packing: the last resort of [segment], the
    whole trimmed text as one chunk, is never needed. *)
Lemma segment_is_packing (maxChunkChars : nat) (text : JsString) :
  segment maxChunkChars text
  = fold_left (packParagraph maxChunkChars) (split paragraphBreak text) [].
Proof.
  unfold segment. cbv zeta.
  destruct (truthy (trim text)) eqn:Ht.
  - destruct (fold_packParagraph_grows maxChunkChars (split paragraphBreak text) [])
      as [_ Hgrow].
    specialize (Hgrow (split_keeps_content _ _ paragraphBreak_spaces Ht)).
    simpl in Hgrow.
    destruct (Nat.eqb_spec (List.length (fold_left (packParagraph maxChunkChars)
                                           (split paragraphBreak text) [])) 0)
      as [Hzero | _]; [lia | reflexivity].
  - apply truthy_false in Ht. rewrite Ht. simpl. rewrite andb_false_r. reflexivity.
Qed.

(** A text of white space only gives no chunk. *)
Lemma segment_of_blank (maxChunkChars : nat) (text : JsString) :
  trim text = [] -> segment maxChunkChars text = [].
Proof.
  intros Hblank. rewrite segment_is_packing. apply fold_packParagraph_blank.
  intros p Hp. eapply split_of_blank; eassumption.
Qed.

(** C8. If the trimmed text is not empty, the segmentation gives at least
    one chunk. Every chunk either has at most [maxChunkChars] code units, or is
    longer and is then one whole, trimmed sentence of the text. A text that is
    empty or white space only gives no chunk. *)
Theorem segment_chunks_are_bounded (maxChunkChars : nat) (text : JsString) :
  (trim text <> [] -> segment maxChunkChars text <> [])
  /\ (forall chunk,
        In chunk (segment maxChunkChars text) ->
        List.length chunk <= maxChunkChars
        \/ (maxChunkChars < List.length chunk
            /\ exists paragraph sentence,
                 In paragraph (split paragraphBreak text)
                 /\ In sentence (split sentenceRegex paragraph)
                 /\ chunk = trim sentence))
  /\ (trim text = [] -> segment maxChunkChars text = []).
Proof.
  rewrite segment_is_packing. split; [| split].
  - intros Hne.
    assert (Ht : truthy (trim text) = true).
    { destruct (trim text); [contradiction | reflexivity]. }
    destruct (fold_packParagraph_grows maxChunkChars (split paragraphBreak text) [])
      as [_ Hgrow].
    specialize (Hgrow (split_keeps_content _ _ paragraphBreak_spaces Ht)).
    intros Hnil. rewrite Hnil in Hgrow. simpl in Hgrow. lia.
  - intros chunk Hin.
    assert (Hgood : Forall (withinLimitOrOneSentence maxChunkChars (sentencesOf text))
                      (fold_left (packParagraph maxChunkChars)
                         (split paragraphBreak text) [])).
    { apply fold_packParagraph_good; [| constructor].
      intros p s Hp Hs. unfold sentencesOf. apply in_flat_map. exists p.
      split; assumption. }
    rewrite List.Forall_forall in Hgood.
    destruct (Hgood chunk Hin) as [Hle | (Hgt & s & Hs & Heq)]; [left; exact Hle |].
    right. split; [exact Hgt |].
    unfold sentencesOf in Hs. apply in_flat_map in Hs as (p & Hp & Hsp).
    exists p, s. repeat split; assumption.
  - intros Hblank. rewrite <- segment_is_packing. apply segment_of_blank, Hblank.
Qed.

Lemma segment_chunks_are_bounded_witness :
  segment 20 demoText
  = map ofString ["First paragraph."; "It has two sentences."; "Second paragraph."]%string
  /\ segment 20 demoText <> []
  /\ Forall (fun chunk => List.length chunk <= 20
                          \/ exists sentence, chunk = trim sentence)
       (segment 20 demoText).
Proof.
  destruct (segment_chunks_are_bounded 20 demoText) as (Hsome & Hbound & _).
  split; [reflexivity |]. split.
  - apply Hsome. vm_compute. discriminate.
  - apply List.Forall_forall. intros chunk Hin.
    destruct (Hbound chunk Hin) as [Hle | (_ & p & sentence & _ & _ & Heq)].
    + left. exact Hle.
    + right. exists sentence. exact Heq.
Defined.

(** ** Assembly *)

Lemma validBuffersOf_length (slots : list (option AudioBuffer)) :
  List.length (validBuffersOf slots) <= List.length slots.
Proof.
  induction slots as [| [b |] rest IH]; simpl; [lia | |];
    unfold validBuffersOf in *; simpl; lia.
Qed.

Lemma validBuffersOf_full (slots : list (option AudioBuffer)) :
  List.length (validBuffersOf slots) = List.length slots ->
  forall j, j < List.length slots -> exists b, slots !! j = Some (Some b).
Proof.
  induction slots as [| [b |] rest IH]; intros Hfull j Hj; simpl in *.
  - lia.
  - unfold validBuffersOf in *. simpl in Hfull.
    destruct j as [| j]; [exists b; reflexivity |].
    apply IH; [lia | lia].
  - assert (Hle := validBuffersOf_length rest).
    unfold validBuffersOf in *. simpl in Hfull. lia.
Qed.

(** The combination is attempted only with one valid buffer per chunk. *)
Lemma assemble_combines_only_full (context : AudioContext) (mix : MixSettings)
    (textChunks : list JsString) (s : Session) :
  (combined (assemble context mix textChunks s) = None
   /\ (outcome (assemble context mix textChunks s) = Ended Interrupted
       \/ outcome (assemble context mix textChunks s) = Ended PartialGeneration
       \/ (outcome (assemble context mix textChunks s) = Ended (error s)
           /\ textChunks = [])))
  \/ (combined (assemble context mix textChunks s)
      = Some (combineAudioBuffers context (validBuffersOf (orderedBuffers s)))
      /\ stopGenerationRef_current s = false
      /\ List.length (validBuffersOf (orderedBuffers s)) = List.length textChunks).
Proof.
  unfold assemble. cbv zeta.
  destruct (stopGenerationRef_current s) eqn:Hstop; simpl.
  - left. split; [reflexivity | left; reflexivity].
  - destruct (Nat.ltb_spec 0 (List.length (validBuffersOf (orderedBuffers s))))
      as [Hpos | Hzero]; simpl.
    + destruct (Nat.eqb_spec (List.length (validBuffersOf (orderedBuffers s)))
                  (List.length textChunks)) as [Heq | Hne]; simpl.
      * right. repeat split. exact Heq.
      * left. split; [reflexivity | right; left; reflexivity].
    + destruct (Nat.eqb_spec (List.length (validBuffersOf (orderedBuffers s)))
                  (List.length textChunks)) as [Heq | Hne]; simpl.
      * left. split; [reflexivity |]. right. right. split; [reflexivity |].
        destruct textChunks; [reflexivity | simpl in Heq; lia].
      * left. split; [reflexivity | right; left; reflexivity].
Qed.

(** C2. The run ends (for a concurrency limit of at least one). If the
    speech call of some chunk is rejected, [combineAudioBuffers] is not called
    and the run ends without audio: with the error of a partial generation,
    or interrupted, or because the text was refused as too long. When
    [combineAudioBuffers] is called, it is on one buffer per chunk: every slot
    holds the audio that the speech call of its chunk delivered. *)
Theorem failed_chunk_prevents_assembly (context : AudioContext) (mix : MixSettings)
    (concurrencyLimit : nat) (generateSpeech : nat -> Settled AudioBuffer)
    (errorAtRender : ErrorState) (schedule : nat -> list SessionEvent)
    (text : JsString) :
  1 <= concurrencyLimit ->
  let textChunks := segment MAX_CHARS_PER_AUDIO_CHUNK text in
  exists report,
    handleGenerateAudio context mix concurrencyLimit generateSpeech errorAtRender
      schedule text = Some report
    /\ ((exists j reason,
           j < List.length textChunks /\ generateSpeech j = Rejected reason) ->
        combined report = None
        /\ (outcome report = Ended PartialGeneration
            \/ outcome report = Ended Interrupted
            \/ outcome report = Ended TextTooLong))
    /\ (forall r, combined report = Some r ->
        exists s,
          dispatchAll textChunks concurrencyLimit generateSpeech errorAtRender
            schedule = Some s
          /\ r = combineAudioBuffers context (validBuffersOf (orderedBuffers s))
          /\ List.length (validBuffersOf (orderedBuffers s)) = List.length textChunks
          /\ forall j, j < List.length textChunks ->
               exists audioBuffer,
                 orderedBuffers s !! j = Some (Some audioBuffer)
                 /\ generateSpeech j = Resolved audioBuffer).
Proof.
  intros Hlimit textChunks. unfold handleGenerateAudio. fold textChunks.
  destruct (truthy (trim text)) eqn:Htext; simpl.
  2: { eexists. split; [reflexivity |]. split; [| discriminate].
       intros (j & reason & Hj & _). exfalso.
       apply truthy_false in Htext.
       unfold textChunks in Hj.
       rewrite (segment_of_blank _ _ Htext) in Hj. simpl in Hj. lia. }
  destruct (MAX_TEXT_LENGTH <? List.length text)%nat.
  { eexists. split; [reflexivity |]. split; [| discriminate].
    intros _. split; [reflexivity | right; right; reflexivity]. }
  destruct (Nat.eqb_spec (List.length textChunks) 0) as [Hzero | Hsome].
  { eexists. split; [reflexivity |]. split; [| discriminate].
    intros (j & reason & Hj & _). lia. }
  unfold dispatchAll.
  destruct (dispatchLoop_sound textChunks concurrencyLimit generateSpeech
              errorAtRender schedule Hlimit (List.length textChunks) 0
              (initialSession textChunks))
    as (s & Hrun & Hlen & Hsound).
  { lia. } { simpl. apply length_replicate. } { apply initialSession_sound. }
  rewrite Hrun. eexists. split; [reflexivity |].
  destruct (assemble_combines_only_full context mix textChunks s)
    as [(Hnone & Hout) | (Hsome' & Hstop & Hfull)].
  - split.
    + intros _. split; [exact Hnone |].
      destruct Hout as [Hout | [Hout | [_ Hnil]]];
        [right; left; exact Hout | left; exact Hout |].
      rewrite Hnil in Hsome. simpl in Hsome. congruence.
    + intros r Hr. rewrite Hnone in Hr. discriminate.
  - assert (Hslots : forall j, j < List.length textChunks ->
              exists audioBuffer,
                orderedBuffers s !! j = Some (Some audioBuffer)
                /\ generateSpeech j = Resolved audioBuffer).
    { intros j Hj. rewrite <- Hlen in Hfull, Hj.
      destruct (validBuffersOf_full _ Hfull j Hj) as [b Hb].
      exists b. split; [exact Hb | apply Hsound, Hb]. }
    split.
    + intros (j & reason & Hj & Hrej). exfalso.
      destruct (Hslots j Hj) as (b & _ & Hres). congruence.
    + intros r Hr. exists s. split; [reflexivity |].
      rewrite Hsome' in Hr. injection Hr as <-.
      split; [reflexivity |]. split; [exact Hfull | exact Hslots].
Qed.

Lemma failed_chunk_prevents_assembly_witness :
  exists report,
    handleGenerateAudio demoContext demoMix CONCURRENCY_LIMIT
      (generateSpeechWith (Some "key"%string) demoRemote) NoError demoSchedule
      demoText = Some report
    /\ combined report = None
    /\ outcome report = Ended PartialGeneration.
Proof.
  destruct (failed_chunk_prevents_assembly demoContext demoMix CONCURRENCY_LIMIT
              (generateSpeechWith (Some "key"%string) demoRemote) NoError
              demoSchedule demoText) as (report & Hrun & Hfail & _);
    [unfold CONCURRENCY_LIMIT; lia |].
  exists report. split; [exact Hrun |].
  destruct Hfail as [Hnone Hout].
  - exists 1, (Overloaded "speech generation"). split; [vm_compute; lia | reflexivity].
  - split; [exact Hnone |].
    vm_compute in Hrun. injection Hrun as <-. reflexivity.
Defined.

(** * Further properties *)

(** ** The retry loop, whatever the remote call does *)

Lemma notifiedDelaysOf_app (e1 e2 : list RetryEvent) :
  notifiedDelaysOf (e1 ++ e2) = notifiedDelaysOf e1 ++ notifiedDelaysOf e2.
Proof. apply omap_app. Qed.

Lemma notifiedRetriesOf_app (e1 e2 : list RetryEvent) :
  notifiedRetriesOf (e1 ++ e2) = notifiedRetriesOf e1 ++ notifiedRetriesOf e2.
Proof. apply omap_app. Qed.

(** The shape of every run of the loop: consecutive invocations, one wait
    between two invocations, each wait announced first when a callback is
    supplied, with the count of retries going down to one. *)
Lemma retryLoop_shape {T : Type} (apiCall : nat -> ApiOutcome T)
    (serviceName : string) (retryOptions : RetryOptions) (retriesLeft : nat) :
  forall (delay : Z) (attempt : nat) (w : World),
  exists events,
    snd (retryLoop apiCall serviceName retryOptions retriesLeft delay attempt w)
    = record w events
    /\ invocationsOf events = seq attempt (List.length (invocationsOf events))
    /\ 1 <= List.length (invocationsOf events) <= retriesLeft + 1
    /\ List.length (sleepsOf events) + 1 = List.length (invocationsOf events)
    /\ notifiedDelaysOf events
       = (if onRetryWait retryOptions then sleepsOf events else [])
    /\ notifiedRetriesOf events
       = (if onRetryWait retryOptions
          then rev (seq (S retriesLeft - List.length (sleepsOf events))
                      (List.length (sleepsOf events)))
          else [])
    /\ sleepsOf events
       = map (delayFrom apiCall delay attempt)
           (seq 0 (List.length (sleepsOf events))).
Proof.
  induction retriesLeft as [| retriesLeft IH]; intros delay attempt w;
    rewrite retryLoop_unfold.
  - exists [Invoked attempt].
    destruct (apiCall attempt) as [value | error]; cbv zeta;
      [| destruct (isQuotaError _ && isDefined _); [| destruct (_ || _ || _)]];
      (split; [reflexivity |]); simpl;
      destruct (onRetryWait retryOptions); repeat split; lia.
  - destruct (apiCall attempt) as [value | error] eqn:Hcall; cbv zeta.
    { exists [Invoked attempt]. split; [reflexivity |]. simpl.
      destruct (onRetryWait retryOptions); repeat split; lia. }
    destruct (isQuotaError _ && isDefined _).
    { exists [Invoked attempt]. split; [reflexivity |]. simpl.
      destruct (onRetryWait retryOptions); repeat split; lia. }
    destruct (_ || _ || _).
    2: { exists [Invoked attempt]. split; [reflexivity |]. simpl.
         destruct (onRetryWait retryOptions); repeat split; lia. }
    set (d := match retryDelayMs (parseGeminiError error) with
              | Some d => d | None => delay end).
    set (w' := record _ [Slept d]).
    destruct (IH (match retryDelayMs (parseGeminiError error) with
                  | None => (delay * 2)%Z | Some _ => delay end) (S attempt) w')
      as (events & Hsnd & Hinv & Hbound & Hsl & Hnd & Hnr & Hdelays).
    assert (Hsleeps :
              d :: sleepsOf events
              = map (delayFrom apiCall delay attempt)
                  (seq 0 (S (List.length (sleepsOf events))))).
    { rewrite Hdelays at 1. cbn [seq map]. f_equal.
      - unfold d, delayFrom, serverDelayAt. rewrite Nat.add_0_r, Hcall. simpl.
        destruct (rawRetryDelayMs error); [reflexivity | unfold unhinted; simpl; lia].
      - rewrite <- seq_shift, map_map. apply map_ext. intros k.
        rewrite <- delayFrom_shift. unfold serverDelayAt at 1. rewrite Hcall.
        reflexivity. }
    exists ([Invoked attempt]
            ++ (if onRetryWait retryOptions
                then [Notified d (S retriesLeft)
                        (errorMessage (parseGeminiError error))] else [])
            ++ [Slept d] ++ events).
    split.
    { rewrite Hsnd. unfold w', record. simpl.
      destruct (onRetryWait retryOptions); simpl; rewrite <- !app_assoc; reflexivity. }
    set (k := List.length (sleepsOf events)) in *.
    destruct (onRetryWait retryOptions); simpl.
    + fold (invocationsOf events) (sleepsOf events) (notifiedDelaysOf events)
        (notifiedRetriesOf events).
      rewrite Hnd, Hnr. fold k.
      split; [f_equal; exact Hinv |]. split; [lia |]. split; [lia |].
      split; [reflexivity |].
      replace (S retriesLeft :: rev (seq (S retriesLeft - k) k))
        with (rev (seq (S retriesLeft - k) k ++ [S retriesLeft]))
        by (rewrite rev_app_distr; reflexivity).
      change (rev (seq (S (S retriesLeft - k)) k) ++ [S retriesLeft - k])
        with (rev (seq (S retriesLeft - k) (S k))).
      split; [| exact Hsleeps].
      f_equal. rewrite seq_S. f_equal. f_equal. lia.
    + fold (invocationsOf events) (sleepsOf events) (notifiedDelaysOf events)
        (notifiedRetriesOf events).
      rewrite Hnd, Hnr.
      split; [f_equal; exact Hinv |]. split; [lia |]. split; [lia |].
      split; [reflexivity |]. split; [reflexivity | exact Hsleeps].
Qed.

(** X1. Whatever the remote call does, a call through the retry helper makes
    at most [maxRetries + 1] invocations, numbered from zero, and waits
    exactly once between two invocations; without an API key it makes none.
    When a callback is supplied it is told every delay just before it is
    waited, with the retries left counting down to one. The loop never
    touches the cancellation flag. *)
Theorem retries_are_bounded {T : Type} (apiKey : option string)
    (apiCall : nat -> ApiOutcome T) (serviceName : string)
    (retryOptions : RetryOptions) (w : World) :
  let run := callGeminiApiWithRetries apiKey apiCall serviceName retryOptions w in
  exists events,
    trace (snd run) = trace w ++ events
    /\ stopGenerationRef (snd run) = stopGenerationRef w
    /\ invocationsOf events = seq 0 (List.length (invocationsOf events))
    /\ List.length (invocationsOf events) <= maxRetries retryOptions + 1
    /\ (if keyMissing apiKey
        then events = [] /\ fst run = Rejected MissingApiKey
        else List.length (invocationsOf events)
             = List.length (sleepsOf events) + 1)
    /\ notifiedDelaysOf events
       = (if onRetryWait retryOptions then sleepsOf events else [])
    /\ notifiedRetriesOf events
       = (if onRetryWait retryOptions
          then rev (seq (S (maxRetries retryOptions)
                         - List.length (sleepsOf events))
                      (List.length (sleepsOf events)))
          else []).
Proof.
  cbv zeta.
  assert (Hnone : keyMissing apiKey = true ->
            callGeminiApiWithRetries apiKey apiCall serviceName retryOptions w
            = (Rejected MissingApiKey, w)).
  { destruct apiKey as [[| c key] |]; simpl; congruence. }
  destruct (keyMissing apiKey) eqn:Hkey.
  - rewrite (Hnone eq_refl). exists []. simpl. rewrite app_nil_r.
    destruct (onRetryWait retryOptions); repeat split; lia.
  - assert (Hrun : callGeminiApiWithRetries apiKey apiCall serviceName retryOptions w
                   = retryLoop apiCall serviceName retryOptions
                       (maxRetries retryOptions) (initialDelayMs retryOptions) 0 w).
    { destruct apiKey as [[| c key] |]; simpl in *; congruence. }
    rewrite Hrun.
    destruct (retryLoop_shape apiCall serviceName retryOptions
                (maxRetries retryOptions) (initialDelayMs retryOptions) 0 w)
      as (events & Hsnd & Hinv & Hbound & Hsl & Hnd & Hnr & _).
    exists events. rewrite Hsnd. simpl.
    repeat split; try assumption; lia.
Qed.

(** ** Failures that are not retried *)

(** X2. With an API key, let the first [failures] invocations fail with
    retryable errors, [failures] being at most [maxRetries], and let the next
    one fail with an error that is not retryable. Then the call ends with that
    invocation, without a further wait: a quota error that names its delay is
    thrown again as it was caught, any other error is thrown as the failure
    that its message selects. The waits before are those of the back-off. *)
Theorem unretryable_failure_ends_the_call {T : Type} (apiKey serviceName : string)
    (apiCall : nat -> ApiOutcome T) (retryOptions : RetryOptions) (w : World)
    (failures : nat) (error : GeminiError) :
  apiKey <> EmptyString ->
  forallb (failsRetryably apiCall) (seq 0 failures) = true ->
  failures <= maxRetries retryOptions ->
  apiCall failures = Raised error ->
  retryable error = false ->
  let run := callGeminiApiWithRetries (Some apiKey) apiCall serviceName
               retryOptions w in
  let p := parseGeminiError error in
  exists events,
    trace (snd run) = trace w ++ events
    /\ fst run = Rejected (if isQuotaError p && isDefined (retryDelayMs p)
                           then Rethrown error
                           else notRetried serviceName p)
    /\ invocationsOf events = seq 0 (S failures)
    /\ sleepsOf events
       = map (backoffDelay (initialDelayMs retryOptions) apiCall) (seq 1 failures).
Proof.
  intros Hkey Hfail Hle Hlast Hnot. cbv zeta.
  rewrite callGeminiApiWithRetries_keyed by exact Hkey.
  destruct (retryLoop_rounds apiCall serviceName retryOptions failures
              (maxRetries retryOptions - failures) (initialDelayMs retryOptions)
              0 w Hfail) as (events & Hrun & Hinv & Hsl).
  replace (failures + (maxRetries retryOptions - failures))
    with (maxRetries retryOptions) in Hrun by lia.
  change (0 + failures) with failures in Hrun.
  rewrite Hrun, retryLoop_unfold, Hlast. cbv zeta.
  exists (events ++ [Invoked failures]).
  assert (Hev : invocationsOf (events ++ [Invoked failures]) = seq 0 (S failures)
                /\ sleepsOf (events ++ [Invoked failures])
                   = map (backoffDelay (initialDelayMs retryOptions) apiCall)
                       (seq 1 failures)).
  { rewrite invocationsOf_app, sleepsOf_app, Hinv, Hsl, backoffDelay_seq, seq_S.
    simpl. rewrite app_nil_r. split; reflexivity. }
  unfold retryable in Hnot. cbv zeta in Hnot.
  destruct (isQuotaError (parseGeminiError error)
            && isDefined (retryDelayMs (parseGeminiError error))) eqn:Hquota.
  - simpl. rewrite <- app_assoc. split; [reflexivity |]. split; [reflexivity |].
    exact Hev.
  - cbn [negb andb] in Hnot. rewrite Hnot. simpl. rewrite <- app_assoc.
    split; [reflexivity |]. split; [reflexivity |]. exact Hev.
Qed.

Lemma unretryable_failure_ends_the_call_witness :
  exists events,
    trace (snd (callGeminiApiWithRetries (Some "key"%string) overloadedThenQuota
                  "story generation" (retryPolicy 3 1000) freshWorld))
    = events
    /\ fst (callGeminiApiWithRetries (Some "key"%string) overloadedThenQuota
              "story generation" (retryPolicy 3 1000) freshWorld)
       = Rejected (Rethrown quotaErrorWithDelay)
    /\ invocationsOf events = [0; 1]
    /\ sleepsOf events = [1000%Z].
Proof.
  destruct (unretryable_failure_ends_the_call "key" "story generation"
              overloadedThenQuota (retryPolicy 3 1000) freshWorld 1
              quotaErrorWithDelay)
    as (events & Htrace & Hres & Hinv & Hsl);
    [discriminate | reflexivity | simpl; lia | reflexivity | reflexivity |].
  exists events. split; [exact Htrace |]. split; [exact Hres |].
  split; [exact Hinv | exact Hsl].
Defined.

(** ** The time spent waiting *)

Lemma record_inj (w : World) (e1 e2 : list RetryEvent) :
  trace w ++ e1 = trace w ++ e2 -> e1 = e2.
Proof. apply app_inv_head. Qed.

Lemma geometric_sum (d : Z) (k : nat) :
  fold_right Z.add 0%Z (map (fun i => d * 2 ^ Z.of_nat i)%Z (seq 0 k))
  = (d * (2 ^ Z.of_nat k - 1))%Z.
Proof.
  induction k as [| k IH]; [simpl; lia |].
  rewrite seq_S, map_app, fold_right_app. simpl fold_right at 2.
  assert (Hshift : forall (l : list Z) (a : Z),
            fold_right Z.add a l = (fold_right Z.add 0 l + a)%Z).
  { induction l as [| x l IHl]; intros a; simpl; [lia | rewrite IHl; lia]. }
  rewrite Hshift, IH. rewrite Nat2Z.inj_succ, Z.pow_succ_r by lia. simpl. lia.
Qed.

(** X3. Whatever the outcome of the call, when no failure among the possible
    invocations comes with a delay from the server, the waits are the initial
    delay doubled each time, there are at most [maxRetries] of them, and the
    time spent waiting is the initial delay times [2 ^ waits - 1]: at most the
    initial delay times [2 ^ maxRetries - 1]. *)
Theorem total_wait_is_geometric {T : Type} (apiKey : option string)
    (apiCall : nat -> ApiOutcome T) (serviceName : string)
    (retryOptions : RetryOptions) (w : World) (events : list RetryEvent) :
  let run := callGeminiApiWithRetries apiKey apiCall serviceName retryOptions w in
  let waits := List.length (sleepsOf events) in
  forallb (fun k => negb (isDefined (serverDelayAt apiCall k)))
    (seq 0 (S (maxRetries retryOptions))) = true ->
  trace (snd run) = trace w ++ events ->
  waits <= maxRetries retryOptions
  /\ sleepsOf events
     = map (fun i => initialDelayMs retryOptions * 2 ^ Z.of_nat i)%Z (seq 0 waits)
  /\ totalWait events
     = (initialDelayMs retryOptions * (2 ^ Z.of_nat waits - 1))%Z
  /\ ((0 <= initialDelayMs retryOptions)%Z ->
      (totalWait events
       <= initialDelayMs retryOptions
          * (2 ^ Z.of_nat (maxRetries retryOptions) - 1))%Z).
Proof.
  cbv zeta. intros Hnone Htrace.
  assert (Hshape :
            List.length (sleepsOf events) <= maxRetries retryOptions
            /\ sleepsOf events
               = map (delayFrom apiCall (initialDelayMs retryOptions) 0)
                   (seq 0 (List.length (sleepsOf events)))).
  { destruct (keyMissing apiKey) eqn:Hkey.
    - assert (Hrun : callGeminiApiWithRetries apiKey apiCall serviceName
                       retryOptions w = (Rejected MissingApiKey, w)).
      { destruct apiKey as [[| c key] |]; simpl in *; congruence. }
      rewrite Hrun in Htrace. simpl in Htrace.
      rewrite <- (app_nil_r (trace w)) in Htrace at 1.
      apply record_inj in Htrace. subst events. simpl. split; [lia | reflexivity].
    - assert (Hrun : callGeminiApiWithRetries apiKey apiCall serviceName
                       retryOptions w
                     = retryLoop apiCall serviceName retryOptions
                         (maxRetries retryOptions) (initialDelayMs retryOptions)
                         0 w).
      { destruct apiKey as [[| c key] |]; simpl in *; congruence. }
      rewrite Hrun in Htrace.
      destruct (retryLoop_shape apiCall serviceName retryOptions
                  (maxRetries retryOptions) (initialDelayMs retryOptions) 0 w)
        as (events' & Hsnd & _ & Hbound & Hsl & _ & _ & Hdelays).
      rewrite Hsnd in Htrace. simpl in Htrace. apply record_inj in Htrace.
      subst events'. split; [lia | exact Hdelays]. }
  destruct Hshape as [Hle Hdelays].
  set (waits := List.length (sleepsOf events)) in *.
  assert (Hgeo : sleepsOf events
                 = map (fun i => initialDelayMs retryOptions * 2 ^ Z.of_nat i)%Z
                     (seq 0 waits)).
  { rewrite Hdelays. apply map_ext_in. intros i Hi. apply in_seq in Hi.
    rewrite forallb_forall in Hnone.
    unfold delayFrom. simpl plus.
    assert (Hi' : serverDelayAt apiCall i = None).
    { specialize (Hnone i). rewrite in_seq in Hnone.
      destruct (serverDelayAt apiCall i); [| reflexivity].
      discriminate Hnone. lia. }
    rewrite Hi'. rewrite unhinted_all; [reflexivity |].
    intros j Hj. specialize (Hnone j). rewrite in_seq in Hnone.
    destruct (serverDelayAt apiCall j); [| reflexivity].
    discriminate Hnone. lia. }
  split; [exact Hle |]. split; [exact Hgeo |].
  assert (Htotal : totalWait events
                   = (initialDelayMs retryOptions * (2 ^ Z.of_nat waits - 1))%Z).
  { unfold totalWait. rewrite Hgeo. apply geometric_sum. }
  split; [exact Htotal |].
  intros Hpos. rewrite Htotal. apply Z.mul_le_mono_nonneg_l; [exact Hpos |].
  assert (2 ^ Z.of_nat waits <= 2 ^ Z.of_nat (maxRetries retryOptions))%Z
    by (apply Z.pow_le_mono_r; lia).
  lia.
Qed.

Lemma total_wait_is_geometric_witness :
  totalWait [Invoked 0; Notified 1000 3 "The model is overloaded. Please try again later.";
             Slept 1000; Invoked 1;
             Notified 2000 2 "The model is overloaded. Please try again later.";
             Slept 2000; Invoked 2] = 3000%Z.
Proof.
  destruct (total_wait_is_geometric (Some "key"%string) (overloadedFor 2 7%Z)
              "speech generation" speechRetryOptions freshWorld
              [Invoked 0;
               Notified 1000 3 "The model is overloaded. Please try again later.";
               Slept 1000; Invoked 1;
               Notified 2000 2 "The model is overloaded. Please try again later.";
               Slept 2000; Invoked 2])
    as (_ & _ & Htotal & _); [reflexivity | reflexivity |].
  rewrite Htotal. reflexivity.
Defined.

(** ** Internal errors of the server *)

Lemma prefix_app (n a b : string) :
  String.prefix n a = true -> String.prefix n (a ++ b) = true.
Proof.
  revert a. induction n as [| c n IH]; intros a H;
    [destruct (a ++ b)%string; reflexivity |].
  destruct a as [| c' a]; simpl in *; [discriminate |].
  destruct (Ascii.ascii_dec c c'); [apply IH, H | discriminate].
Qed.

Lemma includes_app (a b n : string) :
  includes a n = true -> includes (a ++ b) n = true.
Proof.
  induction a as [| c a IH]; intros H.
  - simpl in H. rewrite orb_false_r in H.
    destruct n; [| discriminate]. destruct b; reflexivity.
  - change (includes (String c a) n)
      with (String.prefix n (String c a) || includes a n) in H.
    change (includes (String c a ++ b) n)
      with (String.prefix n (String c a ++ b) || includes (a ++ b) n).
    apply orb_true_iff in H as [H | H].
    + rewrite (prefix_app n (String c a) b H). reflexivity.
    + rewrite (IH H). apply orb_true_r.
Qed.

Lemma failsInternally_retryable {T : Type} (apiCall : nat -> ApiOutcome T) (k : nat) :
  failsInternally apiCall k = true ->
  failsRetryably apiCall k = true
  /\ exists error,
       apiCall k = Raised error
       /\ errorMessage (parseGeminiError error) = internalErrorText
       /\ isModelOverloadedError (parseGeminiError error) = true
       /\ isQuotaError (parseGeminiError error)
          = (codeIs (rawCode error) 429
             || statusIs (rawStatus error) "RESOURCE_EXHAUSTED").
Proof.
  unfold failsInternally, failsRetryably. destruct (apiCall k) as [| error];
    [discriminate |].
  intros H. apply andb_true_iff in H as [Hmsg Hq].
  assert (Hparsed : errorMessage (parseGeminiError error) = internalErrorText).
  { unfold parseGeminiError. simpl. rewrite Hmsg. reflexivity. }
  assert (Hover : isModelOverloadedError (parseGeminiError error) = true).
  { unfold isModelOverloadedError. rewrite Hparsed.
    replace (includes internalErrorText
               "Ocorreu um erro interno nos servidores do Gemini.")
      with true by (vm_compute; reflexivity).
    apply orb_true_r. }
  assert (Hquota : isQuotaError (parseGeminiError error)
                   = (codeIs (rawCode error) 429
                      || statusIs (rawStatus error) "RESOURCE_EXHAUSTED")).
  { unfold isQuotaError. rewrite Hparsed.
    replace (includes internalErrorText "You exceeded your current quota")
      with false by (vm_compute; reflexivity).
    rewrite orb_false_r. reflexivity. }
  split.
  - unfold retryable. rewrite Hover, Hquota.
    change (retryDelayMs (parseGeminiError error)) with (rawRetryDelayMs error).
    rewrite Hq. reflexivity.
  - exists error. split; [reflexivity |]. split; [exact Hparsed |].
    split; [exact Hover | exact Hquota].
Qed.

(** X4. An error whose message contains "Internal error encountered" has its
    message replaced by the translated text, and the translated text is one
    of the marks of an overload: unless the error is a quota error that names
    its delay, it is retried. With an API key, a server that answers every
    request so is asked [maxRetries + 1] times; the call then fails with the
    overload error, or with the quota error when the code or the status of
    the last answer is the one of a quota error, and what the message said
    beside the internal error plays no part. *)
Theorem internal_error_is_retried {T : Type} (apiKey serviceName : string)
    (apiCall : nat -> ApiOutcome T) (retryOptions : RetryOptions) (w : World) :
  apiKey <> EmptyString ->
  forallb (failsInternally apiCall) (seq 0 (S (maxRetries retryOptions))) = true ->
  let run := callGeminiApiWithRetries (Some apiKey) apiCall serviceName
               retryOptions w in
  exists events last,
    trace (snd run) = trace w ++ events
    /\ apiCall (maxRetries retryOptions) = Raised last
    /\ invocationsOf events = seq 0 (S (maxRetries retryOptions))
    /\ List.length (sleepsOf events) = maxRetries retryOptions
    /\ notifiedDelaysOf events
       = (if onRetryWait retryOptions then sleepsOf events else [])
    /\ fst run
       = Rejected (if codeIs (rawCode last) 429
                      || statusIs (rawStatus last) "RESOURCE_EXHAUSTED"
                   then QuotaExhausted serviceName internalErrorText
                   else Overloaded serviceName).
Proof.
  intros Hkey Hall. cbv zeta.
  rewrite callGeminiApiWithRetries_keyed by exact Hkey.
  assert (Hretry : forallb (failsRetryably apiCall)
                     (seq 0 (maxRetries retryOptions)) = true).
  { apply forallb_forall. intros k Hk. rewrite forallb_forall in Hall.
    apply failsInternally_retryable, Hall. rewrite in_seq in *. lia. }
  destruct (retryLoop_rounds apiCall serviceName retryOptions
              (maxRetries retryOptions) 0 (initialDelayMs retryOptions) 0 w Hretry)
    as (events & Hrun & Hinv & Hsl).
  rewrite Nat.add_0_r in Hrun. simpl plus in Hrun.
  rewrite forallb_forall in Hall.
  destruct (failsInternally_retryable apiCall (maxRetries retryOptions))
    as (Hlast & last & Hcall & Hmsg & Hover & Hquota).
  { apply Hall. rewrite in_seq. lia. }
  unfold failsRetryably in Hlast. rewrite Hcall in Hlast.
  exists (events ++ [Invoked (maxRetries retryOptions)]), last.
  rewrite Hrun.
  rewrite (retryLoop_exhausted apiCall serviceName retryOptions _ _ _ last Hcall Hlast).
  destruct (retryLoop_shape apiCall serviceName retryOptions
              (maxRetries retryOptions) (initialDelayMs retryOptions) 0 w)
    as (events' & Hsnd & _ & _ & _ & Hnd & _).
  assert (Hsame : events' = events ++ [Invoked (maxRetries retryOptions)]).
  { rewrite Hrun in Hsnd.
    rewrite (retryLoop_exhausted apiCall serviceName retryOptions _ _ _ last
               Hcall Hlast) in Hsnd.
    simpl in Hsnd. apply (f_equal trace) in Hsnd. simpl in Hsnd.
    rewrite <- app_assoc in Hsnd. apply record_inj in Hsnd. symmetry. exact Hsnd. }
  subst events'.
  cbn [fst snd trace record]. rewrite <- app_assoc.
  split; [reflexivity |]. split; [exact Hcall |].
  split; [rewrite invocationsOf_app, Hinv, seq_S; reflexivity |].
  split; [rewrite sleepsOf_app, Hsl; simpl; rewrite app_nil_r, length_map, length_seq;
          reflexivity |].
  split; [exact Hnd |].
  f_equal. unfold exhausted. rewrite Hquota, Hover, Hmsg.
  destruct (codeIs (rawCode last) 429
            || statusIs (rawStatus last) "RESOURCE_EXHAUSTED"); reflexivity.
Qed.

Lemma internal_error_is_retried_witness :
  exists events,
    trace (snd (callGeminiApiWithRetries (Some "key"%string)
                  (alwaysRaises (T := Z) internalError) "story generation"
                  (retryPolicy 2 500) freshWorld))
    = events
    /\ invocationsOf events = [0; 1; 2]
    /\ fst (callGeminiApiWithRetries (Some "key"%string)
              (alwaysRaises (T := Z) internalError) "story generation"
              (retryPolicy 2 500) freshWorld)
       = Rejected (Overloaded "story generation").
Proof.
  destruct (internal_error_is_retried "key" "story generation"
              (alwaysRaises (T := Z) internalError) (retryPolicy 2 500) freshWorld)
    as (events & last & Htrace & Hlast & Hinv & _ & _ & Hres);
    [discriminate | reflexivity |].
  exists events. split; [exact Htrace |]. split; [exact Hinv |].
  injection Hlast as <-. exact Hres.
Defined.

(** ** The errors of the service calls themselves *)

Lemma emptyResponse_retryable (audio : bool) (details : string) :
  let p := parseGeminiError (thrownByCall (emptyResponseMessage audio details)) in
  retryable (thrownByCall (emptyResponseMessage audio details)) = true
  /\ (isModelOverloadedError p = false ->
      errorMessage p = emptyResponseMessage audio details
      /\ isEmptyResponseError p = true).
Proof.
  cbv zeta.
  assert (Hempty : isEmptyResponseError
                     {| errorMessage := emptyResponseMessage audio details;
                        errorCode := None; statusMessage := None;
                        retryDelayMs := None |} = true).
  { unfold isEmptyResponseError. cbn [errorMessage].
    destruct audio; unfold emptyResponseMessage, emptyAudioMessage, emptyTextMessage.
    - rewrite (includes_app
                 "Received an empty audio response from the Gemini TTS API. "
                 details "empty audio response"); [reflexivity |].
      vm_compute. reflexivity.
    - rewrite (includes_app
                 "Received an empty response from the Gemini API. "
                 details "empty response from the Gemini API");
        [apply orb_true_r |].
      vm_compute. reflexivity. }
  unfold retryable, parseGeminiError, thrownByCall.
  cbn [rawMessage rawCode rawStatus rawRetryDelayMs retryDelayMs isDefined].
  rewrite andb_false_r. cbn [negb andb].
  destruct (includes (emptyResponseMessage audio details)
              "Internal error encountered") eqn:Hint.
  - assert (Hover : isModelOverloadedError
                      {| errorMessage := internalErrorText; errorCode := None;
                         statusMessage := None; retryDelayMs := None |} = true)
      by (vm_compute; reflexivity).
    rewrite Hover. split; [reflexivity | discriminate].
  - rewrite Hempty. split; [apply orb_true_r |].
    intros _. split; reflexivity.
Qed.

(** X5. The error that [generateSpeech] raises for a response without audio,
    and the one that [generateStoryChunk] raises for a response without
    text, are retried, whatever the details taken from the response: with an
    API key, a server that answers every request so is asked
    [maxRetries + 1] times, with waits of the initial delay doubled each
    time, before the call fails. The failure is the one for an empty
    response, with the last message, unless the details themselves carry the
    mark of a quota error or of an overload. *)
Theorem empty_responses_are_retried {T : Type} (apiKey serviceName : string)
    (apiCall : nat -> ApiOutcome T) (retryOptions : RetryOptions) (w : World)
    (audio : bool) (details : nat -> string) :
  apiKey <> EmptyString ->
  (forall k, k <= maxRetries retryOptions ->
     apiCall k = Raised (thrownByCall (emptyResponseMessage audio (details k)))) ->
  let run := callGeminiApiWithRetries (Some apiKey) apiCall serviceName
               retryOptions w in
  let last := parseGeminiError
                (thrownByCall (emptyResponseMessage audio
                                 (details (maxRetries retryOptions)))) in
  exists events,
    trace (snd run) = trace w ++ events
    /\ invocationsOf events = seq 0 (S (maxRetries retryOptions))
    /\ sleepsOf events
       = map (fun i => initialDelayMs retryOptions * 2 ^ Z.of_nat i)%Z
           (seq 0 (maxRetries retryOptions))
    /\ fst run = Rejected (exhausted serviceName last)
    /\ (isQuotaError last = false -> isModelOverloadedError last = false ->
        fst run
        = Rejected (EmptyResult serviceName
                      (emptyResponseMessage audio
                         (details (maxRetries retryOptions))))).
Proof.
  intros Hkey Hcalls. cbv zeta.
  rewrite callGeminiApiWithRetries_keyed by exact Hkey.
  assert (Hretry : forallb (failsRetryably apiCall)
                     (seq 0 (maxRetries retryOptions)) = true).
  { apply forallb_forall. intros k Hk. apply in_seq in Hk.
    unfold failsRetryably. rewrite Hcalls by lia.
    apply (emptyResponse_retryable audio (details k)). }
  destruct (retryLoop_rounds apiCall serviceName retryOptions
              (maxRetries retryOptions) 0 (initialDelayMs retryOptions) 0 w Hretry)
    as (events & Hrun & Hinv & Hsl).
  rewrite Nat.add_0_r in Hrun. simpl plus in Hrun.
  exists (events ++ [Invoked (maxRetries retryOptions)]).
  rewrite Hrun.
  rewrite (retryLoop_exhausted apiCall serviceName retryOptions _ _ _ _
             (Hcalls _ (Nat.le_refl _))
             (proj1 (emptyResponse_retryable audio _))).
  cbn [fst snd trace record]. rewrite <- app_assoc.
  split; [reflexivity |].
  split; [rewrite invocationsOf_app, Hinv, seq_S; reflexivity |].
  split.
  { rewrite sleepsOf_app, Hsl. simpl sleepsOf. rewrite app_nil_r.
    apply map_ext_in. intros i Hi. apply in_seq in Hi.
    unfold delayFrom, serverDelayAt. simpl plus. rewrite Hcalls by lia.
    cbn [thrownByCall rawRetryDelayMs].
    rewrite unhinted_all; [reflexivity |].
    intros j Hj. unfold serverDelayAt. rewrite Hcalls by lia. reflexivity. }
  split; [reflexivity |].
  intros Hquota Hover.
  destruct (emptyResponse_retryable audio (details (maxRetries retryOptions)))
    as [_ Hlast].
  destruct (Hlast Hover) as [Hmsg Hempty].
  unfold exhausted. rewrite Hquota, Hover, Hempty, Hmsg. reflexivity.
Qed.

Lemma empty_responses_are_retried_witness :
  exists events,
    trace (snd (callGeminiApiWithRetries (Some "key"%string)
                  (alwaysRaises (T := AudioBuffer)
                     (thrownByCall (emptyAudioMessage defaultDetails)))
                  "speech generation" speechRetryOptions freshWorld))
    = events
    /\ invocationsOf events = [0; 1; 2; 3]
    /\ sleepsOf events = [1000; 2000; 4000]%Z
    /\ fst (callGeminiApiWithRetries (Some "key"%string)
              (alwaysRaises (T := AudioBuffer)
                 (thrownByCall (emptyAudioMessage defaultDetails)))
              "speech generation" speechRetryOptions freshWorld)
       = Rejected (EmptyResult "speech generation"
                     (emptyAudioMessage defaultDetails)).
Proof.
  destruct (empty_responses_are_retried "key" "speech generation"
              (alwaysRaises (T := AudioBuffer)
                 (thrownByCall (emptyAudioMessage defaultDetails)))
              speechRetryOptions freshWorld true (fun _ => defaultDetails))
    as (events & Htrace & Hinv & Hsl & _ & Hres);
    [discriminate | intros k _; reflexivity |].
  exists events. split; [exact Htrace |]. split; [exact Hinv |].
  split; [exact Hsl |]. apply Hres; reflexivity.
Defined.

(** X6. The errors that [generateImage] and [generateTitles] raise
    themselves (no image in the response, a count of titles outside 1..10, a
    response without titles) are not retried: with an API key the call ends
    with the first invocation, without a wait, and fails with the generic
    failure of the service that carries the message. In particular the
    message for a response without titles is not one of those that the test
    for an empty response matches. *)
Theorem own_errors_of_image_and_titles_end_the_call {T : Type}
    (apiKey serviceName : string) (apiCall : nat -> ApiOutcome T)
    (retryOptions : RetryOptions) (w : World) (message : string) :
  apiKey <> EmptyString ->
  In message [noImageMessage; titleCountMessage; noTitlesMessage] ->
  apiCall 0 = Raised (thrownByCall message) ->
  isEmptyResponseError (parseGeminiError (thrownByCall message)) = false
  /\ callGeminiApiWithRetries (Some apiKey) apiCall serviceName retryOptions w
     = (Rejected (OtherFailure serviceName message), record w [Invoked 0]).
Proof.
  intros Hkey Hin Hcall.
  rewrite callGeminiApiWithRetries_keyed by exact Hkey.
  rewrite retryLoop_unfold, Hcall. cbv zeta.
  assert (Hclass :
            isEmptyResponseError (parseGeminiError (thrownByCall message)) = false
            /\ isQuotaError (parseGeminiError (thrownByCall message)) = false
            /\ isModelOverloadedError (parseGeminiError (thrownByCall message))
               = false
            /\ notRetried serviceName (parseGeminiError (thrownByCall message))
               = OtherFailure serviceName message).
  { unfold notRetried.
    destruct Hin as [<- | [<- | [<- | []]]];
      (split; [vm_compute; reflexivity |]);
      (split; [vm_compute; reflexivity |]);
      (split; [vm_compute; reflexivity |]).
    - replace (includes (errorMessage (parseGeminiError (thrownByCall noImageMessage)))
                 "403 Forbidden") with false by (vm_compute; reflexivity).
      replace (isNotFoundKeyError (parseGeminiError (thrownByCall noImageMessage)))
        with false by (vm_compute; reflexivity).
      replace (includes (errorMessage (parseGeminiError (thrownByCall noImageMessage)))
                 "Imagen API is only accessible to billed users at this time.")
        with false by (vm_compute; reflexivity).
      rewrite andb_false_r. reflexivity.
    - replace (includes (errorMessage (parseGeminiError (thrownByCall titleCountMessage)))
                 "403 Forbidden") with false by (vm_compute; reflexivity).
      replace (isNotFoundKeyError (parseGeminiError (thrownByCall titleCountMessage)))
        with false by (vm_compute; reflexivity).
      replace (includes (errorMessage (parseGeminiError (thrownByCall titleCountMessage)))
                 "Imagen API is only accessible to billed users at this time.")
        with false by (vm_compute; reflexivity).
      rewrite andb_false_r. reflexivity.
    - replace (includes (errorMessage (parseGeminiError (thrownByCall noTitlesMessage)))
                 "403 Forbidden") with false by (vm_compute; reflexivity).
      replace (isNotFoundKeyError (parseGeminiError (thrownByCall noTitlesMessage)))
        with false by (vm_compute; reflexivity).
      replace (includes (errorMessage (parseGeminiError (thrownByCall noTitlesMessage)))
                 "Imagen API is only accessible to billed users at this time.")
        with false by (vm_compute; reflexivity).
      rewrite andb_false_r. reflexivity. }
  destruct Hclass as (Hempty & Hquota & Hover & Hnot).
  split; [exact Hempty |].
  rewrite Hquota, Hover, Hempty, Hnot. reflexivity.
Qed.

Lemma own_errors_of_image_and_titles_end_the_call_witness :
  callGeminiApiWithRetries (Some "key"%string)
    (alwaysRaises (T := Z) (thrownByCall noTitlesMessage)) "title generation"
    (retryPolicy 3 1000) freshWorld
  = (Rejected (OtherFailure "title generation" noTitlesMessage),
     record freshWorld [Invoked 0]).
Proof.
  apply (own_errors_of_image_and_titles_end_the_call "key" "title generation"
           (alwaysRaises (T := Z) (thrownByCall noTitlesMessage))
           (retryPolicy 3 1000) freshWorld noTitlesMessage);
    [discriminate | simpl; tauto | reflexivity].
Defined.

(** ** Decoding *)

Lemma byteValue_range (b : Byte.byte) : (0 <= byteValue b <= 255)%Z.
Proof.
  unfold byteValue. pose proof (Byte.to_N_bounded b). lia.
Qed.

Lemma int16Of_range (lo hi : Byte.byte) : (-32768 <= int16Of lo hi <= 32767)%Z.
Proof.
  unfold int16Of. pose proof (byteValue_range lo). pose proof (byteValue_range hi).
  cbv zeta. destruct (Z.leb_spec 32768 (byteValue lo + 256 * byteValue hi)); lia.
Qed.

Lemma int16Elements_range (data : list Byte.byte) :
  Forall (fun v => (-32768 <= v <= 32767)%Z) (int16Elements data).
Proof.
  induction data as [data IH] using (induction_ltof1 _ (@List.length _)).
  destruct data as [| lo [| hi rest]]; [constructor | constructor |].
  cbn [int16Elements]. constructor; [apply int16Of_range |].
  apply IH. unfold ltof. simpl. lia.
Qed.

Lemma int16Elements_length (data : list Byte.byte) :
  List.length (int16Elements data) = List.length data / 2.
Proof.
  induction data as [data IH] using (induction_ltof1 _ (@List.length _)).
  destruct data as [| lo [| hi rest]]; [reflexivity | reflexivity |].
  cbn [int16Elements List.length]. rewrite IH by (unfold ltof; simpl; lia).
  change (S (S (List.length rest))) with (1 * 2 + List.length rest).
  rewrite Nat.div_add_l by lia. lia.
Qed.

Lemma decodeChannel_length (dataInt16 : list Z) (numChannels channel : nat)
    (indices : list nat) :
  forall channelData,
    List.length (decodeChannel channelData dataInt16 numChannels channel indices)
    = List.length channelData.
Proof.
  induction indices as [| i rest IH]; intros channelData; [reflexivity |].
  cbn [decodeChannel]. rewrite IH. apply length_insert.
Qed.

Lemma decodeChannel_lookup (dataInt16 : list Z) (numChannels channel : nat)
    (indices : list nat) :
  forall channelData i,
    i < List.length channelData ->
    decodeChannel channelData dataInt16 numChannels channel indices !! i
    = if bool_decide (i ∈ indices)
      then Some (sampleOfInt16 (nth (i * numChannels + channel) dataInt16 0%Z))
      else channelData !! i.
Proof.
  induction indices as [| k rest IH]; intros channelData i Hi.
  - cbn [decodeChannel]. rewrite bool_decide_eq_false_2; [reflexivity |].
    apply not_elem_of_nil.
  - cbn [decodeChannel]. rewrite IH by (rewrite length_insert; exact Hi).
    destruct (decide (i ∈ rest)) as [Hin | Hout].
    + rewrite (bool_decide_eq_true_2 _ Hin).
      rewrite bool_decide_eq_true_2 by (apply elem_of_cons; right; exact Hin).
      reflexivity.
    + rewrite (bool_decide_eq_false_2 _ Hout).
      destruct (decide (i = k)) as [-> | Hne].
      * rewrite bool_decide_eq_true_2 by (apply elem_of_cons; left; reflexivity).
        rewrite list_lookup_insert_eq by exact Hi. reflexivity.
      * rewrite bool_decide_eq_false_2
          by (rewrite elem_of_cons; intros [? | ?]; [congruence | contradiction]).
        apply list_lookup_insert_ne. congruence.
Qed.

Lemma channelOf_setChannelData (b : AudioBuffer) (c c' : nat) (data : list Q) :
  c < List.length (AudioBuffer.channels b) ->
  channelOf (setChannelData b c data) c'
  = if decide (c' = c) then data else channelOf b c'.
Proof.
  intros Hc. unfold channelOf, setChannelData. cbn [AudioBuffer.channels].
  rewrite !nth_lookup. destruct (decide (c' = c)) as [-> | Hne].
  - rewrite list_lookup_insert_eq by exact Hc. reflexivity.
  - rewrite list_lookup_insert_ne by congruence. reflexivity.
Qed.

Lemma decodeChannels_spec (dataInt16 : list Z) (numChannels : nat)
    (indices : list nat) (channelsToDo : list nat) :
  forall buffer,
    NoDup channelsToDo ->
    (forall c, c ∈ channelsToDo -> c < AudioBuffer.numberOfChannels buffer) ->
    List.length (AudioBuffer.channels buffer) = AudioBuffer.numberOfChannels buffer ->
    exists out,
      decodeChannels buffer dataInt16 numChannels indices channelsToDo = Ok out
      /\ AudioBuffer.sampleRate out = AudioBuffer.sampleRate buffer
      /\ AudioBuffer.numberOfChannels out = AudioBuffer.numberOfChannels buffer
      /\ AudioBuffer.length out = AudioBuffer.length buffer
      /\ List.length (AudioBuffer.channels out) = AudioBuffer.numberOfChannels buffer
      /\ forall c,
           channelOf out c
           = if bool_decide (c ∈ channelsToDo)
             then decodeChannel (channelOf buffer c) dataInt16 numChannels c indices
             else channelOf buffer c.
Proof.
  induction channelsToDo as [| channel rest IH]; intros buffer Hnodup Hin Hlen.
  - exists buffer. cbn [decodeChannels].
    split; [reflexivity |]. split; [reflexivity |]. split; [reflexivity |].
    split; [reflexivity |]. split; [exact Hlen |].
    intros c. rewrite bool_decide_eq_false_2; [reflexivity | apply not_elem_of_nil].
  - apply NoDup_cons in Hnodup as [Hfresh Hnodup].
    assert (Hchannel : channel < AudioBuffer.numberOfChannels buffer)
      by (apply Hin, elem_of_cons; left; reflexivity).
    cbn [decodeChannels].
    rewrite (getChannelData_in_range buffer channel Hchannel). cbn [bind].
    set (written := decodeChannel (channelOf buffer channel) dataInt16 numChannels
                      channel indices).
    destruct (IH (setChannelData buffer channel written) Hnodup)
      as (out & Hrun & Hrate & Hnch & Hlength & Hchs & Hdata).
    { intros c Hc. cbn. apply Hin, elem_of_cons. right. exact Hc. }
    { cbn. rewrite length_insert. exact Hlen. }
    exists out. split; [exact Hrun |]. split; [exact Hrate |].
    split; [exact Hnch |]. split; [exact Hlength |]. split; [exact Hchs |].
    intros c. rewrite (Hdata c).
    rewrite channelOf_setChannelData by lia.
    destruct (decide (c = channel)) as [-> | Hne].
    + rewrite (bool_decide_eq_false_2 _ Hfresh).
      rewrite bool_decide_eq_true_2 by (apply elem_of_cons; left; reflexivity).
      reflexivity.
    + destruct (decide (c ∈ rest)) as [Hrest | Hrest].
      * rewrite (bool_decide_eq_true_2 _ Hrest).
        rewrite bool_decide_eq_true_2 by (apply elem_of_cons; right; exact Hrest).
        reflexivity.
      * rewrite (bool_decide_eq_false_2 _ Hrest).
        rewrite bool_decide_eq_false_2
          by (rewrite elem_of_cons; intros [? | ?]; [congruence | contradiction]).
        reflexivity.
Qed.

Lemma wfBuffer_intro (b : AudioBuffer) :
  1 <= AudioBuffer.numberOfChannels b -> 1 <= AudioBuffer.length b ->
  List.length (AudioBuffer.channels b) = AudioBuffer.numberOfChannels b ->
  (forall c, c < AudioBuffer.numberOfChannels b ->
     List.length (channelOf b c) = AudioBuffer.length b) ->
  wfBuffer b = true.
Proof.
  intros Hn Hl Hcs Hdata. unfold wfBuffer.
  rewrite !andb_true_iff, !Nat.leb_le, Nat.eqb_eq.
  split; [split; [split; [exact Hn | exact Hl] | exact Hcs] |].
  apply forallb_forall. intros data Hd. apply Nat.eqb_eq.
  apply list_elem_of_In, list_elem_of_lookup in Hd as [c Hc].
  rewrite <- (channelOf_lookup _ _ _ Hc). apply Hdata.
  apply lookup_lt_Some in Hc. lia.
Qed.

Lemma sampleOfInt16_range (v : Z) :
  (-32768 <= v <= 32767)%Z -> (-1 <= sampleOfInt16 v /\ sampleOfInt16 v < 1)%Q.
Proof.
  intros Hv. unfold sampleOfInt16, Qdiv, Qmult, Qle, Qlt. simpl. lia.
Qed.

Lemma newInt16Array_even (data : list Byte.byte) :
  Nat.even (List.length data) = true ->
  newInt16Array data = Ok (int16Elements data).
Proof.
  intros Heven. unfold newInt16Array.
  rewrite <- Nat.negb_even, Heven. reflexivity.
Qed.

Lemma decodeAudioData_spec (data : list Byte.byte)
    (ctx : AudioContext) (sampleRate : Z) (numChannels : nat) :
  Nat.even (List.length data) = true ->
  1 <= numChannels ->
  numChannels <= List.length data / 2 ->
  let n := List.length data / 2 in
  exists out,
    decodeAudioData data ctx sampleRate numChannels = Ok out
    /\ AudioBuffer.sampleRate out = sampleRate
    /\ AudioBuffer.numberOfChannels out = numChannels
    /\ AudioBuffer.length out = n / numChannels
    /\ List.length (AudioBuffer.channels out) = numChannels
    /\ forall c, c < numChannels ->
         channelOf out c
         = decodeChannel (replicate (n / numChannels) 0%Q) (int16Elements data)
             numChannels c (seq 0 ((n + numChannels - 1) / numChannels)).
Proof.
  intros Heven Hch Hfit. unfold decodeAudioData.
  rewrite (newInt16Array_even data Heven). cbn [bind]. cbv zeta.
  rewrite int16Elements_length.
  set (n := List.length data / 2) in *.
  set (frames := n / numChannels).
  assert (Hframes : 1 <= frames).
  { unfold frames. apply Nat.div_le_lower_bound; lia. }
  rewrite (createBuffer_ok _ _ _ Hch Hframes). cbn [bind].
  set (silent := AudioBuffer.Make sampleRate numChannels frames
                   (replicate numChannels (replicate frames 0%Q))).
  destruct (decodeChannels_spec (int16Elements data) numChannels
              (seq 0 ((n + numChannels - 1) / numChannels))
              (seq 0 numChannels) silent)
    as (out & Hrun & Hrate & Hnch & Hlength & Hchs & Hdata).
  { apply NoDup_seq. }
  { intros c Hc. apply elem_of_seq in Hc. cbn. lia. }
  { cbn. apply length_replicate. }
  cbn in Hrate, Hnch, Hlength, Hchs.
  exists out. split; [exact Hrun |]. split; [exact Hrate |].
  split; [exact Hnch |]. split; [exact Hlength |]. split; [exact Hchs |].
  intros c Hc. rewrite (Hdata c).
  rewrite bool_decide_eq_true_2 by (apply elem_of_seq; lia).
  f_equal. unfold channelOf. cbn. apply nth_lookup_Some.
  apply lookup_replicate_2. exact Hc.
Qed.

(** The sample that the decoding stores at index [i] of channel [c]. *)
Lemma decoded_sample (data : list Byte.byte) (numChannels c i : nat) :
  let n := List.length data / 2 in
  1 <= numChannels -> c < numChannels -> i < n / numChannels ->
  exists v,
    int16Elements data !! (i * numChannels + c) = Some v
    /\ decodeChannel (replicate (n / numChannels) 0%Q) (int16Elements data)
         numChannels c (seq 0 ((n + numChannels - 1) / numChannels)) !! i
       = Some (sampleOfInt16 v)
    /\ (-32768 <= v <= 32767)%Z.
Proof.
  cbv zeta. intros Hch Hc Hi.
  set (n := List.length data / 2) in *.
  assert (Hwhole : n / numChannels * numChannels <= n).
  { rewrite Nat.mul_comm. apply Nat.Div0.mul_div_le. }
  assert (Hiter : n / numChannels <= (n + numChannels - 1) / numChannels).
  { apply Nat.Div0.div_le_mono. lia. }
  assert (Hidx : i * numChannels + c < List.length (int16Elements data)).
  { rewrite int16Elements_length. fold n. nia. }
  destruct (lookup_lt_is_Some_2 _ _ Hidx) as [v Hv].
  exists v. split; [exact Hv |]. split.
  - rewrite decodeChannel_lookup by (rewrite length_replicate; exact Hi).
    rewrite bool_decide_eq_true_2 by (apply elem_of_seq; lia).
    rewrite (nth_lookup_Some _ _ _ _ Hv). reflexivity.
  - pose proof (int16Elements_range data) as Hall.
    rewrite List.Forall_forall in Hall. apply Hall.
    apply list_elem_of_In, list_elem_of_lookup. exists (i * numChannels + c).
    exact Hv.
Qed.

(** X7. For a sample rate and a channel count that every platform
    supports, and an even number of bytes that hold at least one frame of
    [numChannels] channels, [decodeAudioData] does not raise: it returns a
    well-formed buffer of the given sample rate and channel count, whose
    length is the number of whole frames (what is left after the last whole
    frame is dropped), and it takes the frames apart: sample [i] of channel
    [c] is the element [i * numChannels + c] of the 16-bit integers, low byte
    first, divided by 32768, and so it lies between -1 and 1, 1 excluded. *)
Theorem decodeAudioData_takes_frames_apart (data : list Byte.byte)
    (ctx : AudioContext) (sampleRate : Z) (numChannels : nat) :
  supportedFormat sampleRate numChannels = true ->
  Nat.even (List.length data) = true ->
  1 <= numChannels ->
  numChannels <= List.length data / 2 ->
  exists out,
    decodeAudioData data ctx sampleRate numChannels = Ok out
    /\ wfBuffer out = true
    /\ AudioBuffer.sampleRate out = sampleRate
    /\ AudioBuffer.numberOfChannels out = numChannels
    /\ AudioBuffer.length out = List.length data / 2 / numChannels
    /\ forall c i,
         c < numChannels -> i < AudioBuffer.length out ->
         exists v,
           int16Elements data !! (i * numChannels + c) = Some v
           /\ channelOf out c !! i = Some (sampleOfInt16 v)
           /\ (-1 <= sampleOfInt16 v)%Q /\ (sampleOfInt16 v < 1)%Q.
Proof.
  intros _ Heven Hch Hfit.
  destruct (decodeAudioData_spec data ctx sampleRate numChannels Heven Hch Hfit)
    as (out & Hrun & Hrate & Hnch & Hlength & Hchs & Hout).
  assert (Hframes : 1 <= List.length data / 2 / numChannels).
  { apply Nat.div_le_lower_bound; lia. }
  exists out. split; [exact Hrun |].
  split.
  { apply wfBuffer_intro; try lia.
    intros c Hc. rewrite Hout by lia.
    rewrite decodeChannel_length, length_replicate. lia. }
  split; [exact Hrate |]. split; [exact Hnch |]. split; [exact Hlength |].
  intros c i Hc Hi. rewrite Hlength in Hi.
  destruct (decoded_sample data numChannels c i Hch Hc Hi)
    as (v & Hv & Hsample & Hrange).
  exists v. split; [exact Hv |]. rewrite (Hout c Hc).
  split; [exact Hsample | apply sampleOfInt16_range, Hrange].
Qed.

Lemma decodeAudioData_takes_frames_apart_witness :
  exists out,
    decodeAudioData demoBytes demoContext 24000 1 = Ok out
    /\ AudioBuffer.length out = 2
    /\ channelOf out 0 !! 1 = Some (sampleOfInt16 (-32768)).
Proof.
  destruct (decodeAudioData_takes_frames_apart demoBytes demoContext 24000 1)
    as (out & Hrun & _ & _ & _ & Hlen & Hdata);
    [reflexivity | reflexivity | lia | simpl; lia |].
  exists out. split; [exact Hrun |]. split; [exact Hlen |].
  destruct (Hdata 0 1) as (v & Hv & Hsample & _); [lia | rewrite Hlen; simpl; lia |].
  injection Hv as <-. exact Hsample.
Defined.

(** X8. For a sample rate and a channel count that every platform
    supports, [decodeAudioData] raises in two cases only, and in each of them
    before any sample is written: a range error for an odd number of bytes,
    and the error of [createBuffer] when the bytes do not hold one whole
    frame (no channel, or fewer 16-bit integers than channels; in
    particular no byte at all). In every other case it returns a buffer. *)
Theorem decodeAudioData_errors (data : list Byte.byte) (ctx : AudioContext)
    (sampleRate : Z) (numChannels : nat) :
  supportedFormat sampleRate numChannels = true ->
  let run := decodeAudioData data ctx sampleRate numChannels in
  (run = Throw RangeError <-> Nat.odd (List.length data) = true)
  /\ (run = Throw NotSupportedError
      <-> Nat.even (List.length data) = true
          /\ (numChannels = 0 \/ List.length data / 2 < numChannels))
  /\ (isOk run = true
      <-> Nat.even (List.length data) = true
          /\ 1 <= numChannels <= List.length data / 2).
Proof.
  intros _. cbv zeta.
  destruct (Nat.even (List.length data)) eqn:Heven.
  - assert (Hodd : Nat.odd (List.length data) = false)
      by (rewrite <- Nat.negb_even, Heven; reflexivity).
    rewrite Hodd.
    destruct (Nat.eq_dec numChannels 0) as [-> | Hpos].
    { assert (Hrun : decodeAudioData data ctx sampleRate 0 = Throw NotSupportedError).
      { unfold decodeAudioData. rewrite (newInt16Array_even data Heven).
        reflexivity. }
      rewrite Hrun. cbn [isOk].
      split; [split; discriminate |].
      split; [split; [intros _; split; [reflexivity | left; reflexivity]
                     | reflexivity] |].
      split; [discriminate | intros [_ ?]; lia]. }
    destruct (Nat.le_gt_cases numChannels (List.length data / 2)) as [Hfit | Hshort].
    + destruct (decodeAudioData_spec data ctx sampleRate numChannels
                  Heven) as (out & Hrun & _); [lia | exact Hfit |].
      rewrite Hrun. cbn [isOk].
      split; [split; discriminate |].
      split; [split; [discriminate | intros [_ [? | ?]]; lia] |].
      split; [intros _; split; [reflexivity | lia] | reflexivity].
    + assert (Hrun : decodeAudioData data ctx sampleRate numChannels
                     = Throw NotSupportedError).
      { unfold decodeAudioData. rewrite (newInt16Array_even data Heven).
        cbn [bind]. cbv zeta. rewrite int16Elements_length.
        rewrite (Nat.div_small _ _ Hshort). unfold createBuffer.
        rewrite orb_true_r. reflexivity. }
      rewrite Hrun. cbn [isOk].
      split; [split; discriminate |].
      split; [split; [intros _; split; [reflexivity | right; exact Hshort]
                     | reflexivity] |].
      split; [discriminate | intros [_ ?]; lia].
  - assert (Hodd : Nat.odd (List.length data) = true)
      by (rewrite <- Nat.negb_even, Heven; reflexivity).
    assert (Hrun : decodeAudioData data ctx sampleRate numChannels
                   = Throw RangeError).
    { unfold decodeAudioData, newInt16Array. rewrite Hodd. reflexivity. }
    rewrite Hrun, Hodd. cbn [isOk].
    split; [split; reflexivity |].
    split; [split; [discriminate | intros [? _]; discriminate] |].
    split; [discriminate | intros [? _]; discriminate].
Qed.

(** A speech response of three bytes is refused with a range error, one of
    no byte at all by [createBuffer], and four bytes are decoded. *)
Lemma decodeAudioData_errors_witness :
  decodeAudioData [Byte.x00; Byte.x40; Byte.x00] demoContext 24000 1
  = Throw RangeError
  /\ decodeAudioData [] demoContext 24000 1 = Throw NotSupportedError
  /\ isOk (decodeAudioData demoBytes demoContext 24000 1) = true.
Proof.
  destruct (decodeAudioData_errors [Byte.x00; Byte.x40; Byte.x00] demoContext
              24000 1 eq_refl) as (Hodd & _ & _).
  destruct (decodeAudioData_errors [] demoContext 24000 1 eq_refl)
    as (_ & Hnone & _).
  destruct (decodeAudioData_errors demoBytes demoContext 24000 1 eq_refl)
    as (_ & _ & Hsome).
  split; [apply Hodd; reflexivity |].
  split; [apply Hnone; split; [reflexivity | right; simpl; lia] |].
  apply Hsome. split; [reflexivity | simpl; lia].
Defined.

(** ** From the decoded audio to the exported samples *)

Lemma sampleOfInt16_sign (v : Z) :
  ((sampleOfInt16 v < 0)%Q <-> (v < 0)%Z)
  /\ ((0 <= sampleOfInt16 v)%Q <-> (0 <= v)%Z).
Proof.
  unfold sampleOfInt16, Qdiv, Qmult, Qle, Qlt. simpl. split; split; lia.
Qed.

Lemma sampleOfInt16_scaled (v k : Z) :
  (sampleOfInt16 v * inject_Z k == (v * k) # 32768)%Q.
Proof.
  unfold sampleOfInt16, Qdiv, Qmult, Qeq, inject_Z. simpl. lia.
Qed.

Lemma floatTo16BitPCM_of_decoded (v : Z) :
  (-32768 <= v <= 32767)%Z ->
  floatTo16BitPCM_sample (sampleOfInt16 v) = wavOfDecoded v.
Proof.
  intros Hv.
  destruct (sampleOfInt16_range v Hv) as [Hlo Hhi].
  destruct (floatTo16BitPCM_sample_in_range (sampleOfInt16 v)) as [Heq _].
  { split; [exact Hlo | apply Qlt_le_weak, Hhi]. }
  rewrite Heq. unfold wavOfDecoded.
  destruct (sampleOfInt16_sign v) as [Hneg Hpos].
  destruct (Qltb (sampleOfInt16 v) 0) eqn:Hsign.
  - apply Qltb_true, Hneg in Hsign.
    destruct (Z.ltb_spec 0 v); [lia |].
    rewrite (Qceiling_comp _ (inject_Z v)); [apply Qceiling_Z |].
    change 32768%Q with (inject_Z 32768). rewrite sampleOfInt16_scaled.
    unfold Qeq, inject_Z. simpl. lia.
  - apply Qltb_false, Hpos in Hsign.
    change 32767%Q with (inject_Z 32767).
    rewrite (Qfloor_comp _ _ (sampleOfInt16_scaled v 32767)).
    unfold Qfloor. destruct (Z.ltb_spec 0 v).
    + symmetry. apply Z.div_unique with (r := (32768 - v)%Z); lia.
    + assert (v = 0%Z) by lia. subst v. reflexivity.
Qed.

Lemma exportMP3_of_decoded (v : Z) :
  (-32768 <= v <= 32767)%Z ->
  exportMP3_sample (sampleOfInt16 v) = mp3OfDecoded v.
Proof.
  intros Hv.
  destruct (sampleOfInt16_range v Hv) as [Hlo Hhi].
  destruct (exportMP3_sample_in_range (sampleOfInt16 v)) as [Heq _].
  { split; [exact Hlo | apply Qlt_le_weak, Hhi]. }
  rewrite Heq. unfold mp3OfDecoded.
  destruct (sampleOfInt16_sign v) as [Hneg Hpos].
  change 32767%Q with (inject_Z 32767).
  destruct (Qltb (sampleOfInt16 v) 0) eqn:Hsign.
  - apply Qltb_true, Hneg in Hsign.
    destruct (Z.ltb_spec 0 v); [lia |]. destruct (Z.ltb_spec v 0); [| lia].
    rewrite (Qceiling_comp _ _ (sampleOfInt16_scaled v 32767)).
    unfold Qceiling, Qfloor, Qopp. cbn [Qnum Qden].
    assert (Hdiv : (- (v * 32767) / 32768 = - v - 1)%Z).
    { symmetry. apply Z.div_unique with (r := (32768 + v)%Z); lia. }
    change (Z.pos 32768) with 32768%Z. rewrite Hdiv. lia.
  - apply Qltb_false, Hpos in Hsign.
    rewrite (Qfloor_comp _ _ (sampleOfInt16_scaled v 32767)).
    unfold Qfloor. destruct (Z.ltb_spec 0 v).
    + symmetry. apply Z.div_unique with (r := (32768 - v)%Z); lia.
    + destruct (Z.ltb_spec v 0); [lia |].
      assert (v = 0%Z) by lia. subst v. reflexivity.
Qed.

Lemma decoded_mono_channel (data : list Byte.byte) (ctx : AudioContext)
    (sampleRate : Z) (b : AudioBuffer) :
  decodeAudioData data ctx sampleRate 1 = Ok b ->
  AudioBuffer.numberOfChannels b = 1
  /\ channelOf b 0 = map sampleOfInt16 (int16Elements data).
Proof.
  intros Hrun.
  destruct (Nat.even (List.length data)) eqn:Heven.
  2: { unfold decodeAudioData, newInt16Array in Hrun.
       rewrite <- Nat.negb_even, Heven in Hrun. discriminate Hrun. }
  destruct (Nat.le_gt_cases 1 (List.length data / 2)) as [Hfit | Hshort].
  2: { unfold decodeAudioData in Hrun.
       rewrite (newInt16Array_even data Heven) in Hrun. cbn [bind] in Hrun.
       cbv zeta in Hrun. rewrite int16Elements_length in Hrun.
       replace (List.length data / 2) with 0 in Hrun by lia.
       discriminate Hrun. }
  destruct (decodeAudioData_spec data ctx sampleRate 1 Heven (Nat.le_refl 1) Hfit)
    as (out & Hrun' & _ & Hnch & Hlen & _ & Hout).
  rewrite Hrun in Hrun'. injection Hrun' as <-.
  split; [exact Hnch |].
  rewrite (Hout 0 (Nat.lt_0_1)).
  apply list_eq. intros i.
  change (map sampleOfInt16 (int16Elements data))
    with (sampleOfInt16 <$> int16Elements data).
  rewrite list_lookup_fmap.
  destruct (Nat.lt_ge_cases i (List.length data / 2 / 1)) as [Hi | Hi].
  - destruct (decoded_sample data 1 0 i (Nat.le_refl 1) Nat.lt_0_1 Hi)
      as (v & Hv & Hsample & _).
    rewrite Hsample. rewrite Nat.mul_1_r, Nat.add_0_r in Hv. rewrite Hv.
    reflexivity.
  - rewrite lookup_ge_None_2
      by (rewrite decodeChannel_length, length_replicate; exact Hi).
    rewrite Nat.div_1_r in Hi.
    rewrite (lookup_ge_None_2 (int16Elements data))
      by (rewrite int16Elements_length; lia).
    reflexivity.
Qed.

(** X9. Decoding 16-bit audio and exporting it does not give the 16-bit
    integers back. For the audio of one channel that [decodeAudioData]
    returns, the WAV export stores every integer that is not positive
    unchanged and every positive integer reduced by one; the array that the
    MP3 export posts holds zero unchanged and every other integer one step
    nearer to zero. *)
Theorem decoded_audio_is_reexported_one_step_lower (data : list Byte.byte)
    (ctx : AudioContext) (sampleRate : Z) (b : AudioBuffer) :
  decodeAudioData data ctx sampleRate 1 = Ok b ->
  exportWAV_samples b = Ok (map wavOfDecoded (int16Elements data))
  /\ exportMP3_samples b = Ok (map mp3OfDecoded (int16Elements data)).
Proof.
  intros Hrun.
  destruct (decoded_mono_channel data ctx sampleRate b Hrun) as [Hnch Hchannel].
  pose proof (int16Elements_range data) as Hrange.
  rewrite List.Forall_forall in Hrange.
  split.
  - rewrite (exportWAV_samples_mono b Hnch), Hchannel, map_map. f_equal.
    apply map_ext_in. intros v Hv. apply floatTo16BitPCM_of_decoded, Hrange, Hv.
  - rewrite (exportMP3_samples_spec b) by lia. rewrite Hchannel, map_map. f_equal.
    apply map_ext_in. intros v Hv. apply exportMP3_of_decoded, Hrange, Hv.
Qed.

Lemma decoded_audio_is_reexported_one_step_lower_witness :
  exportWAV_samples
    (AudioBuffer.Make 24000 1 2 [[sampleOfInt16 16384; sampleOfInt16 (-32768)]])
  = Ok [16383; -32768]%Z
  /\ exportMP3_samples
       (AudioBuffer.Make 24000 1 2 [[sampleOfInt16 16384; sampleOfInt16 (-32768)]])
     = Ok [16383; -32767]%Z.
Proof.
  apply (decoded_audio_is_reexported_one_step_lower demoBytes demoContext 24000).
  reflexivity.
Defined.

(** ** Accuracy and order of the exported samples *)

Lemma clampSample_mono (x y : Q) : (x <= y)%Q -> (clampSample x <= clampSample y)%Q.
Proof.
  intros Hxy. unfold clampSample, Math_max, Math_min.
  destruct (Qle_bool 1 x) eqn:H1; destruct (Qle_bool 1 y) eqn:H2;
    try (apply Qle_bool_iff in H1); try (apply Qle_bool_iff in H2);
    try (apply Qle_bool_false in H1); try (apply Qle_bool_false in H2);
    repeat match goal with
           | |- context [Qle_bool ?a ?b] =>
               let H := fresh "H" in
               destruct (Qle_bool a b) eqn:H;
               [apply Qle_bool_iff in H | apply Qle_bool_false in H]
           end; lra.
Qed.

(** X10. The WAV export is accurate to less than two steps of the 16-bit
    scale: with [s] the sample clamped to the interval from -1 to 1 and [q]
    the integer stored, [q / 32768] lies less than [1 / 16384] below [s] and
    less than [1 / 32768] above it. For a negative [s] it is not below [s];
    for the others it is not above. *)
Theorem exportWAV_is_accurate (x : Q) :
  let s := clampSample x in
  let q := inject_Z (floatTo16BitPCM_sample x) in
  (s - (1 # 16384) < q / 32768)%Q
  /\ (q / 32768 < s + (1 # 32768))%Q
  /\ ((s < 0)%Q -> (s <= q / 32768)%Q)
  /\ ((0 <= s)%Q -> (q / 32768 <= s)%Q).
Proof.
  cbv zeta. rewrite (floatTo16BitPCM_sample_clamps x).
  pose proof (clampSample_range x) as Hrange.
  set (s := clampSample x) in *.
  destruct (floatTo16BitPCM_sample_in_range s Hrange) as [Heq _].
  rewrite Heq. clear Heq.
  destruct (Qltb s 0) eqn:Hsign.
  - apply Qltb_true in Hsign.
    pose proof (Qle_ceiling (s * 32768)) as Hup.
    pose proof (Qceiling_lt (s * 32768)) as Hdown.
    unfold Z.sub in Hdown. rewrite inject_Z_plus, inject_Z_opp in Hdown.
    change (inject_Z 1) with 1%Q in Hdown.
    set (q := inject_Z (Qceiling (s * 32768))) in *.
    assert (Hq : (q / 32768 == q * (1 # 32768))%Q) by (unfold Qdiv; reflexivity).
    rewrite Hq. repeat split; intros; lra.
  - apply Qltb_false in Hsign.
    pose proof (Qfloor_le (s * 32767)) as Hdown.
    pose proof (Qlt_floor (s * 32767)) as Hup.
    rewrite inject_Z_plus in Hup. change (inject_Z 1) with 1%Q in Hup.
    set (q := inject_Z (Qfloor (s * 32767))) in *.
    assert (Hq : (q / 32768 == q * (1 # 32768))%Q) by (unfold Qdiv; reflexivity).
    rewrite Hq. repeat split; intros; lra.
Qed.

(** X11. Both exports keep the order of the samples: a sample that is not
    above another is stored as an integer that is not above the integer of
    the other, the clamping and the two scales of the WAV export included. *)
Theorem exports_keep_the_order (x y : Q) :
  (x <= y)%Q ->
  (floatTo16BitPCM_sample x <= floatTo16BitPCM_sample y)%Z
  /\ (exportMP3_sample x <= exportMP3_sample y)%Z.
Proof.
  intros Hxy.
  rewrite (floatTo16BitPCM_sample_clamps x), (floatTo16BitPCM_sample_clamps y).
  rewrite (exportMP3_sample_clamps x), (exportMP3_sample_clamps y).
  pose proof (clampSample_mono x y Hxy) as Hmono.
  pose proof (clampSample_range x) as Hx. pose proof (clampSample_range y) as Hy.
  set (a := clampSample x) in *. set (b := clampSample y) in *.
  destruct (floatTo16BitPCM_sample_in_range a Hx) as [-> _].
  destruct (floatTo16BitPCM_sample_in_range b Hy) as [-> _].
  destruct (exportMP3_sample_in_range a Hx) as [-> _].
  destruct (exportMP3_sample_in_range b Hy) as [-> _].
  assert (Hzero : Qceiling 0 = 0%Z /\ Qfloor 0 = 0%Z) by (split; reflexivity).
  destruct Hzero as [Hc0 Hf0].
  destruct (Qltb a 0) eqn:Ha; destruct (Qltb b 0) eqn:Hb;
    try (apply Qltb_true in Ha); try (apply Qltb_true in Hb);
    try (apply Qltb_false in Ha); try (apply Qltb_false in Hb).
  - split; apply Qceiling_resp_le; lra.
  - split.
    + transitivity 0%Z; [rewrite <- Hc0 | rewrite <- Hf0].
      * apply Qceiling_resp_le. lra.
      * apply Qfloor_resp_le. lra.
    + transitivity 0%Z; [rewrite <- Hc0 | rewrite <- Hf0].
      * apply Qceiling_resp_le. lra.
      * apply Qfloor_resp_le. lra.
  - lra.
  - split; apply Qfloor_resp_le; lra.
Qed.

Lemma exports_keep_the_order_witness :
  (floatTo16BitPCM_sample (-(3 # 4)) <= floatTo16BitPCM_sample (1 # 2))%Z
  /\ (exportMP3_sample (-(3 # 4)) <= exportMP3_sample (1 # 2))%Z.
Proof.
  apply (exports_keep_the_order (-(3 # 4)) (1 # 2)). unfold Qle. simpl. lia.
Defined.

(** ** Combining in stages *)

Lemma buffer_ext (b1 b2 : AudioBuffer) :
  AudioBuffer.sampleRate b1 = AudioBuffer.sampleRate b2 ->
  AudioBuffer.numberOfChannels b1 = AudioBuffer.numberOfChannels b2 ->
  AudioBuffer.length b1 = AudioBuffer.length b2 ->
  List.length (AudioBuffer.channels b1) = AudioBuffer.numberOfChannels b1 ->
  List.length (AudioBuffer.channels b2) = AudioBuffer.numberOfChannels b2 ->
  (forall c, c < AudioBuffer.numberOfChannels b1 -> channelOf b1 c = channelOf b2 c) ->
  b1 = b2.
Proof.
  destruct b1 as [r1 n1 l1 cs1], b2 as [r2 n2 l2 cs2]. unfold channelOf. cbn.
  intros -> -> -> H1 H2 Hdata. f_equal.
  apply (nth_ext _ _ [] []); [congruence |].
  intros c Hc. apply Hdata. lia.
Qed.

Lemma totalLengthOf_app (A B : list AudioBuffer) :
  totalLengthOf (A ++ B) = totalLengthOf A + totalLengthOf B.
Proof.
  unfold totalLengthOf. induction A as [| a A IH]; [reflexivity |].
  cbn. cbn in IH. rewrite IH. lia.
Qed.

Lemma sameFormatAs_inv (first b : AudioBuffer) :
  sameFormatAs first b = true ->
  AudioBuffer.sampleRate b = AudioBuffer.sampleRate first
  /\ AudioBuffer.numberOfChannels b = AudioBuffer.numberOfChannels first.
Proof.
  unfold sameFormatAs. rewrite andb_true_iff, Z.eqb_eq, Nat.eqb_eq. tauto.
Qed.

Lemma sameFormatAs_intro (first b : AudioBuffer) :
  AudioBuffer.sampleRate b = AudioBuffer.sampleRate first ->
  AudioBuffer.numberOfChannels b = AudioBuffer.numberOfChannels first ->
  sameFormatAs first b = true.
Proof.
  unfold sameFormatAs. rewrite andb_true_iff, Z.eqb_eq, Nat.eqb_eq. tauto.
Qed.

(** X12. Combining in two stages gives the same buffer as combining at
    once: for two non-empty sequences of well-formed buffers that all have
    one sample rate and channel count, the combination of the combination of
    the first sequence with the combination of the second is the combination
    of the two sequences put end to end, field by field and sample by
    sample. *)
Theorem combineAudioBuffers_in_stages (context : AudioContext)
    (A B : list AudioBuffer) :
  A <> [] -> B <> [] ->
  forallb wfBuffer (A ++ B) = true ->
  sameFormat (A ++ B) = true ->
  exists a b out,
    combineAudioBuffers context A = Ok a
    /\ combineAudioBuffers context B = Ok b
    /\ combineAudioBuffers context (A ++ B) = Ok out
    /\ combineAudioBuffers context [a; b] = Ok out.
Proof.
  intros HA HB Hwf Hfmt.
  destruct A as [| a0 A']; [contradiction |].
  destruct B as [| b0 B']; [contradiction |].
  rewrite forallb_app in Hwf. apply andb_true_iff in Hwf as [HwfA HwfB].
  assert (Hall : forallb (sameFormatAs a0) (a0 :: A') = true
                 /\ forallb (sameFormatAs a0) (b0 :: B') = true).
  { change ((a0 :: A') ++ b0 :: B') with (a0 :: (A' ++ b0 :: B')) in Hfmt.
    unfold sameFormat in Hfmt.
    change (a0 :: A' ++ b0 :: B') with ((a0 :: A') ++ b0 :: B') in Hfmt.
    rewrite forallb_app in Hfmt. apply andb_true_iff in Hfmt. exact Hfmt. }
  destruct Hall as [HfA HfB0].
  assert (Hb0 : sameFormatAs a0 b0 = true).
  { cbn [forallb] in HfB0. apply andb_true_iff in HfB0. tauto. }
  apply sameFormatAs_inv in Hb0 as [Hb0r Hb0n].
  assert (HfB : sameFormat (b0 :: B') = true).
  { unfold sameFormat. apply forallb_forall. intros x Hx.
    rewrite forallb_forall in HfB0.
    destruct (sameFormatAs_inv a0 x (HfB0 x Hx)) as [? ?].
    apply sameFormatAs_intro; congruence. }
  destruct (combineAudioBuffers_spec context a0 A' HwfA HfA)
    as (a & Hra & Har & Han & Hal & Hawf & Hadata).
  destruct (combineAudioBuffers_spec context b0 B' HwfB HfB)
    as (b & Hrb & Hbr & Hbn & Hbl & Hbwf & Hbdata).
  destruct (combineAudioBuffers_spec context a0 (A' ++ b0 :: B'))
    as (out & Hrout & Hor & Hon & Hol & Howf & Hodata).
  { change (a0 :: A' ++ b0 :: B') with ((a0 :: A') ++ b0 :: B').
    rewrite forallb_app, HwfA, HwfB. reflexivity. }
  { exact Hfmt. }
  destruct (combineAudioBuffers_spec context a [b])
    as (out' & Hrout' & Hor' & Hon' & Hol' & Howf' & Hodata').
  { cbn [forallb]. rewrite Hawf, Hbwf. reflexivity. }
  { unfold sameFormat. cbn [forallb].
    rewrite (sameFormatAs_intro a a eq_refl eq_refl).
    rewrite (sameFormatAs_intro a b) by congruence. reflexivity. }
  exists a, b, out.
  split; [exact Hra |]. split; [exact Hrb |].
  split; [exact Hrout |].
  rewrite Hrout'. f_equal.
  destruct (wfBuffer_inv out Howf) as (_ & _ & Hocs & _).
  destruct (wfBuffer_inv out' Howf') as (_ & _ & Hocs' & _).
  apply buffer_ext; try assumption; try congruence.
  - rewrite Hol', Hol.
    change (a0 :: A' ++ b0 :: B') with ((a0 :: A') ++ b0 :: B').
    rewrite totalLengthOf_app, <- Hal, <- Hbl.
    unfold totalLengthOf. cbn. lia.
  - intros c Hc. rewrite Hodata' by exact Hc. rewrite Hodata by congruence.
    change (a0 :: A' ++ b0 :: B') with ((a0 :: A') ++ b0 :: B').
    rewrite map_app, concat_app. cbn [map concat]. rewrite app_nil_r.
    rewrite Hadata by congruence. rewrite Hbdata by congruence. reflexivity.
Qed.

Lemma combineAudioBuffers_in_stages_witness :
  exists a b out,
    combineAudioBuffers demoContext [demoSpeech; demoMusic] = Ok a
    /\ combineAudioBuffers demoContext [demoMusic] = Ok b
    /\ combineAudioBuffers demoContext [demoSpeech; demoMusic; demoMusic] = Ok out
    /\ combineAudioBuffers demoContext [a; b] = Ok out.
Proof.
  apply (combineAudioBuffers_in_stages demoContext [demoSpeech; demoMusic]
           [demoMusic]); [discriminate | discriminate | reflexivity | reflexivity].
Defined.

(** X13. Combining a single well-formed buffer returns that buffer: a text
    of one chunk is exported with exactly the audio of its chunk. *)
Theorem combineAudioBuffers_of_one_is_a_copy (context : AudioContext)
    (b : AudioBuffer) :
  wfBuffer b = true -> combineAudioBuffers context [b] = Ok b.
Proof.
  intros Hwf.
  destruct (combineAudioBuffers_spec context b [])
    as (out & Hrun & Hr & Hn & Hl & Howf & Hdata).
  { cbn [forallb]. rewrite Hwf. reflexivity. }
  { unfold sameFormat. cbn [forallb].
    rewrite (sameFormatAs_intro b b eq_refl eq_refl). reflexivity. }
  rewrite Hrun. f_equal.
  destruct (wfBuffer_inv out Howf) as (_ & _ & Hocs & _).
  destruct (wfBuffer_inv b Hwf) as (_ & _ & Hbcs & _).
  apply buffer_ext; try assumption.
  - rewrite Hl. unfold totalLengthOf. cbn. lia.
  - intros c Hc. rewrite Hdata by exact Hc. cbn [map concat].
    apply app_nil_r.
Qed.

Lemma combineAudioBuffers_of_one_is_a_copy_witness :
  combineAudioBuffers demoContext [demoStereoMusic] = Ok demoStereoMusic.
Proof.
  apply (combineAudioBuffers_of_one_is_a_copy demoContext demoStereoMusic).
  reflexivity.
Defined.

(** ** Mixing without clipping *)

Lemma withinUnit_nth (b : AudioBuffer) (c i : nat) :
  withinUnit b = true -> (-1 <= nth i (channelOf b c) 0 <= 1)%Q.
Proof.
  intros Hunit. unfold withinUnit in Hunit. rewrite forallb_forall in Hunit.
  unfold channelOf.
  destruct (nth_in_or_default c (AudioBuffer.channels b) []) as [Hin | ->].
  - specialize (Hunit _ Hin). rewrite forallb_forall in Hunit.
    destruct (nth_in_or_default i (nth c (AudioBuffer.channels b) []) 0%Q)
      as [Hin' | ->].
    + specialize (Hunit _ Hin'). apply andb_true_iff in Hunit as [Hlo Hhi].
      apply Qle_bool_iff in Hlo, Hhi. split; assumption.
    + split; unfold Qle; simpl; lia.
  - destruct i; split; unfold Qle; simpl; lia.
Qed.

(** Clamping does not move a number away from a number between -1 and 1. *)
Lemma clampSample_nearer (x t : Q) :
  (-1 <= t <= 1)%Q -> (Qabs.Qabs (clampSample x - t) <= Qabs.Qabs (x - t))%Q.
Proof.
  intros Ht.
  pose proof (Qabs.Qle_Qabs (x - t)) as Hup.
  pose proof (Qabs.Qle_Qabs (- (x - t))) as Hdown.
  rewrite Qabs.Qabs_opp in Hdown.
  apply Qabs.Qabs_Qle_condition.
  destruct (Qlt_le_dec x (-1)) as [Hlo | Hlo].
  - rewrite (clampSample_low x) by lra. lra.
  - destruct (Qlt_le_dec 1 x) as [Hhi | Hhi].
    + rewrite (clampSample_high x) by lra. lra.
    + rewrite (clampSample_mid x) by lra. lra.
Qed.

(** The error of the sum of the platform when both products lie between -1
    and 1. *)
Lemma scaledSum_error (s sg m mg : Q) :
  (-1 <= s * sg <= 1)%Q -> (-1 <= m * mg <= 1)%Q ->
  (Qabs.Qabs (scaledSum s sg m mg - (s * sg + m * mg)) <= 1 # 2251799813685248)%Q.
Proof.
  intros Ha Hb. unfold scaledSum.
  set (a := (s * sg)%Q) in *. set (b := (m * mg)%Q) in *.
  assert (Hunit : forall x, (-1 <= x <= 1)%Q -> (Qabs.Qabs x <= 2 ^ 0)%Q).
  { intros x Hx. apply Qabs.Qabs_Qle_condition. change (2 ^ 0)%Q with 1%Q. lra. }
  pose proof (roundFloat_error 53 (-1022) 0 a (Hunit a Ha) ltac:(lia)) as Hea.
  pose proof (roundFloat_error 53 (-1022) 0 b (Hunit b Hb) ltac:(lia)) as Heb.
  pose proof (roundFloat_bound 53 (-1022) 0 a ltac:(lia) (Hunit a Ha) ltac:(lia)) as Hba.
  pose proof (roundFloat_bound 53 (-1022) 0 b ltac:(lia) (Hunit b Hb) ltac:(lia)) as Hbb.
  fold (roundDouble a) in Hea, Hba. fold (roundDouble b) in Heb, Hbb.
  set (a' := roundDouble a) in *. set (b' := roundDouble b) in *.
  apply Qabs.Qabs_Qle_condition in Hea, Heb, Hba, Hbb.
  assert (E53 : (2 ^ (0 - 53) == 1 # 9007199254740992)%Q) by (vm_compute; reflexivity).
  assert (E52 : (2 ^ (1 - 53) == 1 # 4503599627370496)%Q) by (vm_compute; reflexivity).
  rewrite E53 in Hea, Heb. change (2 ^ 0)%Q with 1%Q in Hba, Hbb.
  assert (Hsum : (Qabs.Qabs (a' + b') <= 2 ^ 1)%Q).
  { apply Qabs.Qabs_Qle_condition. change (2 ^ 1)%Q with 2%Q. lra. }
  pose proof (roundFloat_error 53 (-1022) 1 (a' + b') Hsum ltac:(lia)) as Hes.
  fold (roundDouble (a' + b')) in Hes.
  apply Qabs.Qabs_Qle_condition in Hes. rewrite E52 in Hes.
  apply Qabs.Qabs_Qle_condition. lra.
Qed.

(** X14. When every sample of the speech and of the music lies between -1
    and 1, the two gains are not negative and their sum is at most 1, the mix
    is not clipped and is accurate: every sample of the result is the sum of
    the speech sample (silence beyond the length of the speech) times the
    speech gain and of the looped music sample times the music gain, up to
    the rounding of the platform, which is less than [2 ^ -23] (about one
    part in eight million). *)
Theorem mixAudioBuffers_does_not_clip (context : AudioContext)
    (speech music : AudioBuffer) (speechGain musicGain : Q) :
  wfBuffer speech = true -> wfBuffer music = true ->
  AudioBuffer.numberOfChannels speech <= AudioBuffer.numberOfChannels music ->
  withinUnit speech = true -> withinUnit music = true ->
  (0 <= speechGain)%Q -> (0 <= musicGain)%Q -> (speechGain + musicGain <= 1)%Q ->
  exists out,
    mixAudioBuffers context speech music speechGain musicGain = Ok out
    /\ forall c i,
         c < AudioBuffer.numberOfChannels out -> i < AudioBuffer.length out ->
         exists sample,
           channelOf out c !! i = Some sample
           /\ (Qabs.Qabs (sample - (speechSampleAt speech c i * speechGain
                                    + musicSampleAt music c i * musicGain))
               <= 1 # 8388608)%Q.
Proof.
  intros Hws Hwm Hch Hus Hum Hsg Hmg Hsum.
  destruct (mixAudioBuffers_spec context speech music speechGain musicGain
              Hws Hwm Hch) as (out & Hrun & _ & Hnch & _ & Hdata).
  exists out. split; [exact Hrun |].
  intros c i Hc Hi. rewrite Hnch in Hc.
  destruct (Hdata c Hc) as [_ Hlookup].
  eexists. split; [apply Hlookup, Hi |].
  rewrite (mixedSampleAt_platform speech music c i speechGain musicGain Hws Hwm Hc)
    by lia.
  assert (Hs : (-1 <= speechSampleAt speech c i <= 1)%Q).
  { unfold speechSampleAt. destruct (i <? AudioBuffer.length speech)%nat.
    - apply withinUnit_nth, Hus.
    - split; unfold Qle; simpl; lia. }
  assert (Hm : (-1 <= musicSampleAt music c i <= 1)%Q).
  { unfold musicSampleAt. apply withinUnit_nth, Hum. }
  set (s := speechSampleAt speech c i) in *.
  set (m := musicSampleAt music c i) in *.
  assert (Hs1 : (s * speechGain <= 1 * speechGain)%Q)
    by (apply Qmult_le_compat_r; tauto).
  assert (Hs2 : (-1 * speechGain <= s * speechGain)%Q)
    by (apply Qmult_le_compat_r; tauto).
  assert (Hm1 : (m * musicGain <= 1 * musicGain)%Q)
    by (apply Qmult_le_compat_r; tauto).
  assert (Hm2 : (-1 * musicGain <= m * musicGain)%Q)
    by (apply Qmult_le_compat_r; tauto).
  pose proof (scaledSum_error s speechGain m musicGain) as Herr.
  set (sum := scaledSum s speechGain m musicGain) in *.
  set (p := (s * speechGain)%Q) in *. set (q := (m * musicGain)%Q) in *.
  specialize (Herr ltac:(lra) ltac:(lra)).
  pose proof (clampSample_nearer sum (p + q) ltac:(lra)) as Hnear.
  pose proof (clampSample_range sum) as Hrange.
  set (clamped := clampSample sum) in *.
  assert (Hunit : (Qabs.Qabs clamped <= 2 ^ 0)%Q).
  { apply Qabs.Qabs_Qle_condition. change (2 ^ 0)%Q with 1%Q. lra. }
  pose proof (roundFloat_error 24 (-126) 0 clamped Hunit ltac:(lia)) as Hstore.
  fold (Math_fround clamped) in Hstore.
  assert (E24 : (2 ^ (0 - 24) == 1 # 16777216)%Q) by (vm_compute; reflexivity).
  rewrite E24 in Hstore.
  apply Qabs.Qabs_Qle_condition in Hstore, Hnear.
  apply Qabs.Qabs_Qle_condition. lra.
Qed.

Lemma mixAudioBuffers_does_not_clip_witness :
  exists out,
    mixAudioBuffers demoContext demoSpeech demoMusic
      (roundDouble (7 # 10)) (roundDouble (3 # 10)) = Ok out
    /\ exists sample,
         channelOf out 0 !! 2 = Some sample
         /\ (Qabs.Qabs (sample - ((1 # 4) * roundDouble (7 # 10)
                                  + (3 # 4) * roundDouble (3 # 10)))
             <= 1 # 8388608)%Q.
Proof.
  destruct (mixAudioBuffers_does_not_clip demoContext demoSpeech demoMusic
              (roundDouble (7 # 10)) (roundDouble (3 # 10)))
    as (out & Hrun & Hdata);
    [reflexivity | reflexivity | simpl; lia | reflexivity | reflexivity
    | vm_compute; discriminate | vm_compute; discriminate
    | vm_compute; discriminate |].
  exists out. split; [exact Hrun |].
  assert (Hshape : AudioBuffer.numberOfChannels out = 1 /\ AudioBuffer.length out = 3).
  { vm_compute in Hrun. injection Hrun as <-. split; reflexivity. }
  destruct Hshape as [Hnc Hlen].
  destruct (Hdata 0 2) as (sample & Hsample & Heq); [lia | lia |].
  exists sample. split; [exact Hsample | exact Heq].
Defined.

(** ** The WAV file *)

Lemma byteValue_byteOf (z : Z) : byteValue (byteOf z) = (z mod 256)%Z.
Proof.
  unfold byteValue, byteOf.
  pose proof (Z.mod_pos_bound z 256 eq_refl) as Hrange.
  destruct (Byte.of_N (Z.to_N (z mod 256))) as [b |] eqn:Hof.
  - apply Byte.to_of_N in Hof. rewrite Hof. lia.
  - apply Byte.of_N_None_iff in Hof. lia.
Qed.

Lemma insert_middle {A : Type} (pre post : list A) (old new : A) :
  <[List.length pre := new]> (pre ++ old :: post) = pre ++ new :: post.
Proof.
  induction pre as [| x pre IH]; [reflexivity |].
  cbn. f_equal. exact IH.
Qed.

Lemma setUint16_middle (pre post : list Byte.byte) (b0 b1 : Byte.byte) (value : Z) :
  setUint16 (pre ++ b0 :: b1 :: post) (List.length pre) value
  = Ok (pre ++ int16Bytes value ++ post).
Proof.
  unfold setUint16.
  destruct (Nat.leb_spec (List.length pre + 2)
              (List.length (pre ++ b0 :: b1 :: post))) as [_ | Hbad].
  2: { rewrite length_app in Hbad. cbn in Hbad. lia. }
  rewrite insert_middle.
  replace (List.length pre + 1) with (List.length (pre ++ [byteOf value]))
    by (rewrite length_app; reflexivity).
  change (pre ++ byteOf value :: b1 :: post)
    with (pre ++ [byteOf value] ++ b1 :: post).
  rewrite app_assoc, insert_middle, <- app_assoc. reflexivity.
Qed.

Lemma length_int16_payload (samples : list Z) :
  List.length (flat_map int16Bytes samples) = List.length samples * 2.
Proof.
  induction samples as [| v l IH]; [reflexivity |]. cbn. cbn in IH. rewrite IH. lia.
Qed.

Lemma floatTo16BitPCM_view_spec (input : list Q) :
  forall (pre old post : list Byte.byte),
    List.length old = 2 * List.length input ->
    floatTo16BitPCM_view (pre ++ old ++ post) (List.length pre) input
    = Ok (pre ++ flat_map int16Bytes (floatTo16BitPCM input) ++ post).
Proof.
  induction input as [| x rest IH]; intros pre old post Hold.
  - destruct old; [reflexivity | discriminate Hold].
  - destruct old as [| b0 [| b1 old]]; [discriminate | cbn in Hold; lia |].
    cbn [floatTo16BitPCM_view]. cbv zeta. unfold setInt16.
    change ((b0 :: b1 :: old) ++ post) with (b0 :: b1 :: old ++ post).
    rewrite setUint16_middle. cbn [bind].
    replace (List.length pre + 2)
      with (List.length (pre ++ int16Bytes
                           (ToInt16 (if Qltb (Math_max (-1) (Math_min 1 x)) 0
                                     then Math_max (-1) (Math_min 1 x) * 32768
                                     else Math_max (-1) (Math_min 1 x) * 32767)%Q)))
      by (rewrite length_app; reflexivity).
    rewrite app_assoc, IH by (cbn in Hold; lia).
    rewrite <- app_assoc. reflexivity.
Qed.

Lemma writeChannels_spec (audioBuffer : AudioBuffer) (channelsToDo : list nat) :
  forall pre : list Byte.byte,
    (forall i, i ∈ channelsToDo ->
       i < AudioBuffer.numberOfChannels audioBuffer
       /\ List.length (channelOf audioBuffer i) = AudioBuffer.length audioBuffer) ->
    writeChannels
      (pre ++ replicate (AudioBuffer.length audioBuffer * List.length channelsToDo * 2)
                Byte.x00)
      (List.length pre) audioBuffer channelsToDo
    = Ok (pre ++ flat_map
                   (fun i => flat_map int16Bytes
                               (floatTo16BitPCM (channelOf audioBuffer i)))
                   channelsToDo).
Proof.
  induction channelsToDo as [| i rest IH]; intros pre Hall.
  - cbn. rewrite Nat.mul_0_r. reflexivity.
  - destruct (Hall i) as [Hi Hlen]; [apply elem_of_cons; left; reflexivity |].
    cbn [writeChannels]. rewrite (getChannelData_in_range audioBuffer i Hi).
    cbn [bind].
    replace (AudioBuffer.length audioBuffer * List.length (i :: rest) * 2)
      with (2 * AudioBuffer.length audioBuffer
            + AudioBuffer.length audioBuffer * List.length rest * 2)
      by (cbn [List.length]; lia).
    rewrite replicate_add.
    rewrite floatTo16BitPCM_view_spec by (rewrite length_replicate; lia).
    cbn [bind].
    set (written := flat_map int16Bytes (floatTo16BitPCM (channelOf audioBuffer i))).
    assert (Hwritten : List.length written
                       = List.length (channelOf audioBuffer i) * 2).
    { unfold written, floatTo16BitPCM.
      rewrite length_int16_payload, length_map. reflexivity. }
    replace (List.length pre + List.length (channelOf audioBuffer i) * 2)
      with (List.length (pre ++ written))
      by (rewrite length_app, Hwritten; reflexivity).
    rewrite app_assoc, IH.
    + rewrite <- app_assoc. reflexivity.
    + intros k Hk. apply Hall, elem_of_cons. right. exact Hk.
Qed.

Lemma exportWAV_samples_spec (audioBuffer : AudioBuffer) :
  exportWAV_samples audioBuffer
  = Ok (flat_map (fun i => floatTo16BitPCM (channelOf audioBuffer i))
          (seq 0 (AudioBuffer.numberOfChannels audioBuffer))).
Proof.
  unfold exportWAV_samples.
  assert (Hgen : forall todo,
            (forall i, i ∈ todo -> i < AudioBuffer.numberOfChannels audioBuffer) ->
            (fix go (channelsToDo : list nat) : result (list Z) :=
               match channelsToDo with
               | [] => Ok []
               | i :: rest =>
                   let! data := getChannelData audioBuffer i in
                   let! more := go rest in
                   Ok (floatTo16BitPCM data ++ more)
               end) todo
            = Ok (flat_map (fun i => floatTo16BitPCM (channelOf audioBuffer i)) todo)).
  { induction todo as [| i rest IH]; intros Hall; [reflexivity |].
    rewrite (getChannelData_in_range audioBuffer i)
      by (apply Hall, elem_of_cons; left; reflexivity).
    cbn [bind]. rewrite IH; [reflexivity |].
    intros k Hk. apply Hall, elem_of_cons. right. exact Hk. }
  apply Hgen. intros i Hi. apply elem_of_seq in Hi. lia.
Qed.

Lemma header_writes {B : Type} (payload : list Byte.byte)
    (riffSize numOfChannels sampleRate byteRate blockAlign bitDepth dataLength : Z)
    (k : DataView -> result B) :
  (let! view := writeString (replicate 44 Byte.x00 ++ payload) 0 "RIFF" in
   let! view := setUint32 view 4 riffSize in
   let! view := writeString view 8 "WAVE" in
   let! view := writeString view 12 "fmt " in
   let! view := setUint32 view 16 16 in
   let! view := setUint16 view 20 1 in
   let! view := setUint16 view 22 numOfChannels in
   let! view := setUint32 view 24 sampleRate in
   let! view := setUint32 view 28 byteRate in
   let! view := setUint16 view 32 blockAlign in
   let! view := setUint16 view 34 bitDepth in
   let! view := writeString view 36 "data" in
   let! view := setUint32 view 40 dataLength in
   k view)
  = k (wavHeader riffSize numOfChannels sampleRate byteRate blockAlign bitDepth
         dataLength ++ payload).
Proof.
  with_strategy opaque [byteOf Z.div] cbn. reflexivity.
Qed.

Lemma flat_map_flat_map {A B C : Type} (f : A -> list B) (g : B -> list C)
    (l : list A) :
  flat_map g (flat_map f l) = flat_map (fun i => flat_map g (f i)) l.
Proof.
  induction l as [| a l IH]; [reflexivity |].
  cbn [flat_map]. rewrite flat_map_app, IH. reflexivity.
Qed.

Lemma exportWAV_spec (audioBuffer : AudioBuffer) :
  wfBuffer audioBuffer = true ->
  let numOfChannels := AudioBuffer.numberOfChannels audioBuffer in
  let dataLength := AudioBuffer.length audioBuffer * numOfChannels * 2 in
  exportWAV audioBuffer
  = Ok (wavHeader (Z.of_nat (dataLength + 44) - 8) (Z.of_nat numOfChannels)
          (AudioBuffer.sampleRate audioBuffer)
          (AudioBuffer.sampleRate audioBuffer * Z.of_nat numOfChannels * 2)
          (Z.of_nat (numOfChannels * 2)) 16 (Z.of_nat dataLength)
        ++ flat_map int16Bytes
             (flat_map (fun i => floatTo16BitPCM (channelOf audioBuffer i))
                (seq 0 numOfChannels))).
Proof.
  intros Hwf. cbv zeta.
  destruct (wfBuffer_inv audioBuffer Hwf) as (_ & _ & _ & Hlens).
  unfold exportWAV. cbv zeta.
  change (16 / 8) with 2. change (Z.of_nat 2) with 2%Z. change (Z.of_nat 16) with 16%Z.
  set (numOfChannels := AudioBuffer.numberOfChannels audioBuffer) in *.
  set (dataLength := AudioBuffer.length audioBuffer * numOfChannels * 2).
  replace (replicate (dataLength + 44) Byte.x00)
    with (replicate 44 Byte.x00 ++ replicate dataLength Byte.x00)
    by (rewrite <- replicate_add; f_equal; lia).
  rewrite header_writes.
  set (header := wavHeader _ _ _ _ _ _ _).
  change 44 with (List.length header).
  unfold dataLength.
  pose proof (writeChannels_spec audioBuffer (seq 0 numOfChannels) header) as Hrun.
  rewrite length_seq in Hrun. rewrite Hrun.
  - rewrite flat_map_flat_map. reflexivity.
  - intros i Hi. apply elem_of_seq in Hi. split; [lia | apply Hlens; lia].
Qed.

Lemma le16_bytes (z : Z) :
  (byteValue (byteOf z) + 256 * byteValue (byteOf (z / 256)) = z mod 65536)%Z.
Proof. rewrite !byteValue_byteOf. Z.div_mod_to_equations. lia. Qed.

Lemma le32_bytes (z : Z) :
  (byteValue (byteOf z) + 256 * byteValue (byteOf (z / 256))
   + 65536 * byteValue (byteOf (z / 65536))
   + 16777216 * byteValue (byteOf (z / 16777216))
   = z mod 4294967296)%Z.
Proof. rewrite !byteValue_byteOf. Z.div_mod_to_equations. lia. Qed.

Lemma int16Of_bytes (v : Z) :
  (-32768 <= v <= 32767)%Z -> int16Of (byteOf v) (byteOf (v / 256)) = v.
Proof.
  intros Hv. unfold int16Of. rewrite le16_bytes. cbv zeta.
  destruct (Z.leb_spec 32768 (v mod 65536)) as [H | H];
    revert H; Z.div_mod_to_equations; lia.
Qed.

Lemma header_fields (payload : list Byte.byte)
    (riffSize numOfChannels sampleRate byteRate blockAlign bitDepth dataLength : Z) :
  let bytes := wavHeader riffSize numOfChannels sampleRate byteRate blockAlign
                 bitDepth dataLength ++ payload in
  textAt bytes 0 4 = "RIFF"%string
  /\ uint32At bytes 4 = (riffSize mod 4294967296)%Z
  /\ textAt bytes 8 4 = "WAVE"%string
  /\ textAt bytes 12 4 = "fmt "%string
  /\ uint32At bytes 16 = 16%Z
  /\ uint16At bytes 20 = 1%Z
  /\ uint16At bytes 22 = (numOfChannels mod 65536)%Z
  /\ uint32At bytes 24 = (sampleRate mod 4294967296)%Z
  /\ uint32At bytes 28 = (byteRate mod 4294967296)%Z
  /\ uint16At bytes 32 = (blockAlign mod 65536)%Z
  /\ uint16At bytes 34 = (bitDepth mod 65536)%Z
  /\ textAt bytes 36 4 = "data"%string
  /\ uint32At bytes 40 = (dataLength mod 4294967296)%Z.
Proof.
  cbv zeta. unfold uint32At, uint16At, byteAt, textAt.
  with_strategy opaque [byteOf byteValue Z.div Z.modulo Z.add Z.mul] cbn.
  rewrite !le32_bytes, !le16_bytes.
  repeat split; reflexivity.
Qed.

(** X15. For a well-formed buffer, [exportWAV] returns a file of
    [44 + 2 * channels * frames] bytes that starts with the header of a PCM
    file of 16 bits: the marks "RIFF", "WAVE", "fmt " and "data" at the
    offsets 0, 8, 12 and 36, and, low byte first, the size of the file less
    8 at offset 4, the size 16 of the format chunk, the format 1, the number
    of channels, the sample rate, the byte rate (sample rate times channels
    times 2), the block size (channels times 2), 16 bits per sample, and at
    offset 40 the size of the data, [2 * channels * frames]; each number
    reduced to the width of its field. *)
Theorem exportWAV_writes_the_header (audioBuffer : AudioBuffer) :
  wfBuffer audioBuffer = true ->
  let channels := Z.of_nat (AudioBuffer.numberOfChannels audioBuffer) in
  let dataLength := (2 * channels * Z.of_nat (AudioBuffer.length audioBuffer))%Z in
  exists bytes,
    exportWAV audioBuffer = Ok bytes
    /\ Z.of_nat (List.length bytes) = (44 + dataLength)%Z
    /\ textAt bytes 0 4 = "RIFF"%string
    /\ uint32At bytes 4 = ((36 + dataLength) mod 4294967296)%Z
    /\ textAt bytes 8 4 = "WAVE"%string
    /\ textAt bytes 12 4 = "fmt "%string
    /\ uint32At bytes 16 = 16%Z
    /\ uint16At bytes 20 = 1%Z
    /\ uint16At bytes 22 = (channels mod 65536)%Z
    /\ uint32At bytes 24 = (AudioBuffer.sampleRate audioBuffer mod 4294967296)%Z
    /\ uint32At bytes 28
       = ((AudioBuffer.sampleRate audioBuffer * channels * 2) mod 4294967296)%Z
    /\ uint16At bytes 32 = ((channels * 2) mod 65536)%Z
    /\ uint16At bytes 34 = 16%Z
    /\ textAt bytes 36 4 = "data"%string
    /\ uint32At bytes 40 = (dataLength mod 4294967296)%Z.
Proof.
  intros Hwf. cbv zeta. rewrite (exportWAV_spec audioBuffer Hwf). cbv zeta.
  eexists. split; [reflexivity |].
  destruct (wfBuffer_inv audioBuffer Hwf) as (_ & _ & _ & Hlens).
  set (n := AudioBuffer.numberOfChannels audioBuffer) in *.
  set (len := AudioBuffer.length audioBuffer) in *.
  assert (Hpayload :
            List.length
              (flat_map int16Bytes
                 (flat_map (fun i => floatTo16BitPCM (channelOf audioBuffer i))
                    (seq 0 n))) = len * n * 2).
  { rewrite length_int16_payload. f_equal.
    assert (Hgen : forall from count,
              from + count <= n ->
              List.length
                (flat_map (fun i => floatTo16BitPCM (channelOf audioBuffer i))
                   (seq from count)) = len * count).
    { intros from count. revert from.
      induction count as [| count IH]; intros from Hle; [cbn; lia |].
      cbn [seq flat_map]. rewrite length_app, IH by lia.
      unfold floatTo16BitPCM. rewrite length_map, Hlens by lia. lia. }
    apply (Hgen 0 n). lia. }
  split.
  { rewrite length_app, Hpayload. cbn [wavHeader List.length]. lia. }
  destruct (header_fields
              (flat_map int16Bytes
                 (flat_map (fun i => floatTo16BitPCM (channelOf audioBuffer i))
                    (seq 0 n)))
              (Z.of_nat (len * n * 2 + 44) - 8) (Z.of_nat n)
              (AudioBuffer.sampleRate audioBuffer)
              (AudioBuffer.sampleRate audioBuffer * Z.of_nat n * 2)
              (Z.of_nat (n * 2)) 16 (Z.of_nat (len * n * 2)))
    as (H0 & H4 & H8 & H12 & H16 & H20 & H22 & H24 & H28 & H32 & H34 & H36 & H40).
  split; [exact H0 |].
  split; [rewrite H4; f_equal; lia |].
  split; [exact H8 |]. split; [exact H12 |]. split; [exact H16 |].
  split; [exact H20 |]. split; [exact H22 |]. split; [exact H24 |].
  split; [exact H28 |].
  split; [rewrite H32; f_equal; lia |].
  split; [exact H34 |]. split; [exact H36 |].
  rewrite H40. f_equal. lia.
Qed.

Lemma exportWAV_writes_the_header_witness :
  exists bytes,
    exportWAV demoStereo = Ok bytes
    /\ List.length bytes = 52
    /\ uint32At bytes 4 = 44%Z
    /\ uint32At bytes 24 = 44100%Z
    /\ uint32At bytes 28 = 176400%Z
    /\ uint32At bytes 40 = 8%Z.
Proof.
  destruct (exportWAV_writes_the_header demoStereo)
    as (bytes & Hrun & Hlen & _ & H4 & _ & _ & _ & _ & _ & H24 & H28 & _ & _ & _
        & H40); [reflexivity |].
  exists bytes. split; [exact Hrun |].
  split; [simpl in Hlen; lia |].
  split; [exact H4 |]. split; [exact H24 |]. split; [exact H28 | exact H40].
Defined.

Lemma nth_flat_map_blocks {A : Type} (f : nat -> list A) (len : nat) (d : A)
    (count : nat) :
  forall from c i,
    (forall k, from <= k < from + count -> List.length (f k) = len) ->
    c < count -> i < len ->
    nth (c * len + i) (flat_map f (seq from count)) d = nth i (f (from + c)) d.
Proof.
  induction count as [| count IH]; intros from c i Hlens Hc Hi; [lia |].
  cbn [seq flat_map]. destruct c as [| c].
  - rewrite Nat.add_0_r. cbn [Nat.mul Nat.add].
    apply app_nth1. rewrite Hlens by lia. exact Hi.
  - rewrite app_nth2 by (rewrite Hlens by lia; cbn [Nat.mul]; lia).
    rewrite Hlens by lia.
    replace (S c * len + i - len) with (c * len + i) by (cbn [Nat.mul]; lia).
    rewrite IH by (try lia; intros k Hk; apply Hlens; lia).
    f_equal. f_equal. lia.
Qed.

Lemma nth_int16_payload (samples : list Z) :
  forall k,
    k < List.length samples ->
    nth (2 * k) (flat_map int16Bytes samples) Byte.x00 = byteOf (nth k samples 0%Z)
    /\ nth (2 * k + 1) (flat_map int16Bytes samples) Byte.x00
       = byteOf (nth k samples 0%Z / 256).
Proof.
  induction samples as [| v rest IH]; intros k Hk; [cbn in Hk; lia |].
  destruct k as [| k]; [split; reflexivity |].
  cbn [flat_map int16Bytes app].
  replace (2 * S k) with (S (S (2 * k))) by lia.
  replace (S (S (2 * k)) + 1) with (S (S (2 * k + 1))) by lia.
  cbn [nth]. apply IH. cbn in Hk. lia.
Qed.

(** X16. In the file that [exportWAV] returns for a well-formed buffer the
    samples follow the header channel after channel, not frame after frame:
    the two bytes at offset [44 + 2 * (c * frames + i)], read low byte first
    as a signed integer, are the integer that the conversion gives for sample
    [i] of channel [c]. For two channels the second sample of the first
    channel, not the first sample of the second channel, follows the first
    sample of the file. *)
Theorem exportWAV_stores_channel_after_channel (audioBuffer : AudioBuffer) :
  wfBuffer audioBuffer = true ->
  exists bytes,
    exportWAV audioBuffer = Ok bytes
    /\ forall c i,
         c < AudioBuffer.numberOfChannels audioBuffer ->
         i < AudioBuffer.length audioBuffer ->
         int16At bytes (44 + 2 * (c * AudioBuffer.length audioBuffer + i))
         = floatTo16BitPCM_sample (nth i (channelOf audioBuffer c) 0%Q).
Proof.
  intros Hwf. rewrite (exportWAV_spec audioBuffer Hwf). cbv zeta.
  eexists. split; [reflexivity |].
  destruct (wfBuffer_inv audioBuffer Hwf) as (_ & _ & _ & Hlens).
  set (n := AudioBuffer.numberOfChannels audioBuffer) in *.
  set (len := AudioBuffer.length audioBuffer) in *.
  set (header := wavHeader _ _ _ _ _ _ _).
  set (samples := flat_map (fun i => floatTo16BitPCM (channelOf audioBuffer i))
                    (seq 0 n)).
  intros c i Hc Hi.
  assert (Hblocks : forall k, 0 <= k < 0 + n ->
            List.length (floatTo16BitPCM (channelOf audioBuffer k)) = len).
  { intros k Hk. unfold floatTo16BitPCM. rewrite length_map. apply Hlens. lia. }
  assert (Hsample : nth (c * len + i) samples 0%Z
                    = floatTo16BitPCM_sample (nth i (channelOf audioBuffer c) 0%Q)).
  { unfold samples.
    rewrite (nth_flat_map_blocks _ len 0%Z n 0 c i Hblocks Hc Hi).
    cbn [Nat.add]. unfold floatTo16BitPCM.
    rewrite (nth_indep _ 0%Z (floatTo16BitPCM_sample 0))
      by (rewrite length_map, Hlens by lia; exact Hi).
    apply map_nth. }
  assert (Hcount : c * len + i < List.length samples).
  { assert (Hgen : forall from count,
              from + count <= n ->
              List.length
                (flat_map (fun i => floatTo16BitPCM (channelOf audioBuffer i))
                   (seq from count)) = len * count).
    { intros from count. revert from.
      induction count as [| count IH]; intros from Hle; [cbn; lia |].
      cbn [seq flat_map]. rewrite length_app, IH by lia.
      unfold floatTo16BitPCM. rewrite length_map, Hlens by lia. lia. }
    unfold samples. rewrite (Hgen 0 n) by lia. nia. }
  destruct (nth_int16_payload samples (c * len + i) Hcount) as [Hlo Hhi].
  unfold int16At.
  assert (Hheader : List.length header = 44) by reflexivity.
  rewrite !app_nth2 by (rewrite Hheader; lia). rewrite Hheader.
  replace (44 + 2 * (c * len + i) - 44) with (2 * (c * len + i)) by lia.
  replace (44 + 2 * (c * len + i) + 1 - 44) with (2 * (c * len + i) + 1) by lia.
  rewrite Hlo, Hhi, Hsample. apply int16Of_bytes.
  pose proof (clampSample_range (nth i (channelOf audioBuffer c) 0%Q)) as Hclamp.
  rewrite (floatTo16BitPCM_sample_clamps (nth i (channelOf audioBuffer c) 0%Q)).
  apply (floatTo16BitPCM_sample_in_range _ Hclamp).
Qed.

Lemma exportWAV_stores_channel_after_channel_witness :
  exists bytes,
    exportWAV demoStereo = Ok bytes
    /\ int16At bytes 44 = 32767%Z
    /\ int16At bytes 46 = (-32768)%Z
    /\ int16At bytes 48 = 16383%Z.
Proof.
  destruct (exportWAV_stores_channel_after_channel demoStereo)
    as (bytes & Hrun & Hdata); [reflexivity |].
  exists bytes. split; [exact Hrun |].
  split; [exact (Hdata 0 0 ltac:(simpl; lia) ltac:(simpl; lia)) |].
  split; [exact (Hdata 0 1 ltac:(simpl; lia) ltac:(simpl; lia)) |].
  exact (Hdata 1 0 ltac:(simpl; lia) ltac:(simpl; lia)).
Defined.

(** ** The MP3 export *)

Lemma hasKey_spec (keys : list nat) (id : nat) :
  hasKey keys id = true <-> id ∈ keys.
Proof.
  unfold hasKey. rewrite existsb_exists. split.
  - intros (k & Hin & Heq). apply Nat.eqb_eq in Heq. subst k.
    apply list_elem_of_In, Hin.
  - intros Hin. exists id. split; [apply list_elem_of_In, Hin | apply Nat.eqb_refl].
Qed.

Lemma hasKey_false (keys : list nat) (id : nat) :
  hasKey keys id = false <-> id ∉ keys.
Proof.
  rewrite <- hasKey_spec. destruct (hasKey keys id); split; congruence.
Qed.

Lemma elem_of_deleteKey (keys : list nat) (id k : nat) :
  k ∈ deleteKey keys id <-> k ∈ keys /\ k <> id.
Proof.
  unfold deleteKey. rewrite !list_elem_of_In, filter_In, negb_true_iff, Nat.eqb_neq.
  reflexivity.
Qed.

Lemma NoDup_deleteKey (keys : list nat) (id : nat) :
  NoDup keys -> NoDup (deleteKey keys id).
Proof.
  intros Hnd. unfold deleteKey. apply NoDup_ListNoDup.
  apply List.NoDup_filter. apply NoDup_ListNoDup, Hnd.
Qed.

Lemma settle_fields (id : nat) (outcome : Mp3Outcome) (m : Mp3Module) :
  mp3Worker (settle id outcome m) = mp3Worker m
  /\ workerMessageId (settle id outcome m) = workerMessageId m
  /\ workerPromises (settle id outcome m) = workerPromises m
  /\ workersCreated (settle id outcome m) = workersCreated m
  /\ posted (settle id outcome m) = posted m
  /\ terminated (settle id outcome m) = terminated m
  /\ settlements (settle id outcome m)
     = (if hasKey (settledKeys m) id then settlements m
        else settlements m ++ [(id, outcome)]).
Proof.
  unfold settle, settledKeys. destruct (hasKey (map fst (settlements m)) id);
    repeat split; reflexivity.
Qed.

Lemma settledKeys_settle (id : nat) (outcome : Mp3Outcome) (m : Mp3Module) :
  settledKeys (settle id outcome m)
  = if hasKey (settledKeys m) id then settledKeys m else settledKeys m ++ [id].
Proof.
  unfold settledKeys at 1. destruct (settle_fields id outcome m)
    as (_ & _ & _ & _ & _ & _ & ->).
  destruct (hasKey (settledKeys m) id); [reflexivity |].
  rewrite map_app. reflexivity.
Qed.

Lemma elem_of_settledKeys_settle (id : nat) (outcome : Mp3Outcome) (m : Mp3Module)
    (k : nat) :
  k ∈ settledKeys (settle id outcome m) <-> k ∈ settledKeys m \/ k = id.
Proof.
  rewrite settledKeys_settle. destruct (hasKey (settledKeys m) id) eqn:Hkey.
  - apply hasKey_spec in Hkey. split; [tauto | intros [? | ->]; assumption].
  - rewrite elem_of_app, list_elem_of_singleton. reflexivity.
Qed.

Lemma NoDup_settledKeys_settle (id : nat) (outcome : Mp3Outcome) (m : Mp3Module) :
  NoDup (settledKeys m) -> NoDup (settledKeys (settle id outcome m)).
Proof.
  intros Hnd. rewrite settledKeys_settle.
  destruct (hasKey (settledKeys m) id) eqn:Hkey; [exact Hnd |].
  apply hasKey_false in Hkey. apply NoDup_app. split; [exact Hnd |].
  split; [| apply NoDup_singleton].
  intros k Hk Hk'. apply list_elem_of_singleton in Hk'. subst k. contradiction.
Qed.

Lemma settlements_settle_kept (id : nat) (outcome : Mp3Outcome) (m : Mp3Module)
    (p : nat * Mp3Outcome) :
  p ∈ settlements m -> p ∈ settlements (settle id outcome m).
Proof.
  intros Hp. destruct (settle_fields id outcome m) as (_ & _ & _ & _ & _ & _ & ->).
  destruct (hasKey (settledKeys m) id); [exact Hp |].
  apply elem_of_app. left. exact Hp.
Qed.

Lemma settlements_settle_new (id : nat) (outcome : Mp3Outcome) (m : Mp3Module) :
  id ∉ settledKeys m ->
  settlements (settle id outcome m) = settlements m ++ [(id, outcome)].
Proof.
  intros Hnew. destruct (settle_fields id outcome m) as (_ & _ & _ & _ & _ & _ & ->).
  apply hasKey_false in Hnew. rewrite Hnew. reflexivity.
Qed.

(** Settling every key of a list, as [onerror] does. *)
Lemma settleAll_spec (outcome : Mp3Outcome) (keys : list nat) :
  forall m,
    let m' := fold_left (fun m id => settle id outcome m) keys m in
    mp3Worker m' = mp3Worker m
    /\ workerMessageId m' = workerMessageId m
    /\ workerPromises m' = workerPromises m
    /\ workersCreated m' = workersCreated m
    /\ posted m' = posted m
    /\ terminated m' = terminated m
    /\ (NoDup (settledKeys m) -> NoDup (settledKeys m'))
    /\ (forall k, k ∈ settledKeys m' <-> k ∈ settledKeys m \/ k ∈ keys)
    /\ (forall p, p ∈ settlements m -> p ∈ settlements m')
    /\ (forall k, k ∈ keys -> k ∉ settledKeys m -> (k, outcome) ∈ settlements m').
Proof.
  induction keys as [| a keys IH]; intros m; cbv zeta.
  - cbn [fold_left].
    split; [reflexivity |]. split; [reflexivity |]. split; [reflexivity |].
    split; [reflexivity |]. split; [reflexivity |]. split; [reflexivity |].
    split; [tauto |].
    split; [intros k; rewrite elem_of_nil; tauto |].
    split; [tauto |]. intros k Hk. apply elem_of_nil in Hk. contradiction.
  - cbn [fold_left].
    destruct (IH (settle a outcome m))
      as (H1 & H2 & H3 & H4 & H5 & H6 & H7 & H8 & H9 & H10).
    destruct (settle_fields a outcome m) as (S1 & S2 & S3 & S4 & S5 & S6 & S7).
    split; [congruence |]. split; [congruence |]. split; [congruence |].
    split; [congruence |]. split; [congruence |]. split; [congruence |].
    split; [intros Hnd; apply H7, NoDup_settledKeys_settle, Hnd |].
    split.
    { intros k. rewrite H8, elem_of_settledKeys_settle, elem_of_cons. tauto. }
    split; [intros p Hp; apply H9, settlements_settle_kept, Hp |].
    intros k Hk Hnew. apply elem_of_cons in Hk as [-> | Hk].
    + apply H9. rewrite settlements_settle_new by exact Hnew.
      apply elem_of_app. right. apply list_elem_of_singleton. reflexivity.
    + destruct (decide (k = a)) as [-> | Hne].
      * apply H9. rewrite settlements_settle_new by exact Hnew.
        apply elem_of_app. right. apply list_elem_of_singleton. reflexivity.
      * apply H10; [exact Hk |].
        rewrite elem_of_settledKeys_settle. tauto.
Qed.

Lemma exportMP3_fields (audioBuffer : AudioBuffer) (m : Mp3Module) :
  let r := exportMP3 audioBuffer m in
  fst r = workerMessageId m
  /\ workerMessageId (snd r) = S (workerMessageId m)
  /\ workerPromises (snd r) = workerPromises m ++ [workerMessageId m]
  /\ mp3Worker (snd r)
     = Some (match mp3Worker m with Some w => w | None => workersCreated m end)
  /\ workersCreated (snd r)
     = (match mp3Worker m with
        | Some _ => workersCreated m
        | None => S (workersCreated m)
        end)
  /\ terminated (snd r) = terminated m
  /\ ((exists samples,
         exportMP3_samples audioBuffer = Ok samples
         /\ posted (snd r)
            = posted m
              ++ [(match mp3Worker m with Some w => w | None => workersCreated m end,
                   EncodeRequest.Make (workerMessageId m) samples
                     (AudioBuffer.sampleRate audioBuffer)
                     (AudioBuffer.numberOfChannels audioBuffer) 5)]
         /\ settlements (snd r) = settlements m)
      \/ (exists e,
            exportMP3_samples audioBuffer = Throw e
            /\ posted (snd r) = posted m
            /\ settlements (snd r)
               = (if hasKey (settledKeys m) (workerMessageId m)
                  then settlements m
                  else settlements m ++ [(workerMessageId m, Mp3Threw e)]))).
Proof.
  cbv zeta. unfold exportMP3. cbv zeta.
  destruct (exportMP3_samples audioBuffer) as [samples | e].
  - cbn [fst snd mp3Worker workerMessageId workerPromises workersCreated posted
           settlements terminated].
    repeat (split; [reflexivity |]). left. exists samples.
    repeat split; reflexivity.
  - cbn [fst snd].
    match goal with
    | |- context [settle ?i ?o ?m0] =>
        destruct (settle_fields i o m0) as (S1 & S2 & S3 & S4 & S5 & S6 & S7)
    end.
    rewrite S1, S2, S3, S4, S6.
    cbn [mp3Worker workerMessageId workerPromises workersCreated posted
           settlements terminated].
    repeat (split; [reflexivity |]). right. exists e.
    split; [reflexivity |]. rewrite S5, S7. split; reflexivity.
Qed.

Lemma onmessage_fields (data : WorkerMessage.t) (m : Mp3Module) :
  let id := WorkerMessage.id data in
  let m' := onmessage data m in
  mp3Worker m' = mp3Worker m
  /\ workerMessageId m' = workerMessageId m
  /\ workersCreated m' = workersCreated m
  /\ posted m' = posted m
  /\ terminated m' = terminated m
  /\ (id ∉ workerPromises m -> m' = m)
  /\ (id ∈ workerPromises m ->
      workerPromises m' = deleteKey (workerPromises m) id
      /\ settlements m'
         = match outcomeOfReply data with
           | Some outcome =>
               if hasKey (settledKeys m) id then settlements m
               else settlements m ++ [(id, outcome)]
           | None => settlements m
           end).
Proof.
  cbv zeta. unfold onmessage. cbv zeta.
  destruct (hasKey (workerPromises m) (WorkerMessage.id data)) eqn:Hkey.
  - apply hasKey_spec in Hkey.
    assert (Hsettled :
              forall m0,
                (m0 = m
                 \/ exists outcome, m0 = settle (WorkerMessage.id data) outcome m) ->
                mp3Worker m0 = mp3Worker m
                /\ workerMessageId m0 = workerMessageId m
                /\ workerPromises m0 = workerPromises m
                /\ workersCreated m0 = workersCreated m
                /\ posted m0 = posted m
                /\ terminated m0 = terminated m).
    { intros m0 [-> | (outcome & ->)]; [repeat split; reflexivity |].
      destruct (settle_fields (WorkerMessage.id data) outcome m)
        as (S1 & S2 & S3 & S4 & S5 & S6 & _).
      repeat split; assumption. }
    unfold outcomeOfReply.
    destruct (WorkerMessage.mp3Data data) as [blob |].
    + destruct (Hsettled (settle (WorkerMessage.id data) (Mp3Resolved blob) m))
        as (S1 & S2 & S3 & S4 & S5 & S6); [right; eexists; reflexivity |].
      cbn [mp3Worker workerMessageId workerPromises workersCreated posted
             settlements terminated].
      split; [exact S1 |]. split; [exact S2 |]. split; [exact S4 |].
      split; [exact S5 |]. split; [exact S6 |].
      split; [intros Hno; contradiction |]. intros _.
      rewrite S3. split; [reflexivity |].
      apply (settle_fields (WorkerMessage.id data) (Mp3Resolved blob) m).
    + destruct (truthyText (WorkerMessage.error data)).
      * destruct (Hsettled
                    (settle (WorkerMessage.id data)
                       (Mp3Rejected (default EmptyString (WorkerMessage.error data)))
                       m))
          as (S1 & S2 & S3 & S4 & S5 & S6); [right; eexists; reflexivity |].
        cbn [mp3Worker workerMessageId workerPromises workersCreated posted
               settlements terminated].
        split; [exact S1 |]. split; [exact S2 |]. split; [exact S4 |].
        split; [exact S5 |]. split; [exact S6 |].
        split; [intros Hno; contradiction |]. intros _.
        rewrite S3. split; [reflexivity |].
        apply (settle_fields (WorkerMessage.id data) _ m).
      * cbn [mp3Worker workerMessageId workerPromises workersCreated posted
               settlements terminated].
        do 5 (split; [reflexivity |]).
        split; [intros Hno; contradiction |]. intros _. split; reflexivity.
  - apply hasKey_false in Hkey.
    do 5 (split; [reflexivity |]).
    split; [reflexivity | intros Hyes; contradiction].
Qed.

Lemma onerror_fields (m : Mp3Module) :
  let m' := onerror m in
  mp3Worker m' = None
  /\ workerMessageId m' = workerMessageId m
  /\ workerPromises m' = []
  /\ workersCreated m' = workersCreated m
  /\ posted m' = posted m
  /\ terminated m'
     = terminated m ++ match mp3Worker m with Some w => [w] | None => [] end
  /\ (NoDup (settledKeys m) -> NoDup (settledKeys m'))
  /\ (forall k, k ∈ settledKeys m' <-> k ∈ settledKeys m \/ k ∈ workerPromises m)
  /\ (forall p, p ∈ settlements m -> p ∈ settlements m')
  /\ (forall k, k ∈ workerPromises m -> k ∉ settledKeys m ->
        (k, Mp3Rejected workerErrorMessage) ∈ settlements m').
Proof.
  cbv zeta. unfold onerror. cbv zeta.
  destruct (settleAll_spec (Mp3Rejected workerErrorMessage) (workerPromises m) m)
    as (H1 & H2 & H3 & H4 & H5 & H6 & H7 & H8 & H9 & H10).
  cbn [mp3Worker workerMessageId workerPromises workersCreated posted
         settlements terminated].
  unfold settledKeys at 2 3.
  cbn [mp3Worker workerMessageId workerPromises workersCreated posted
         settlements terminated].
  fold (settledKeys
          (fold_left (fun m0 id => settle id (Mp3Rejected workerErrorMessage) m0)
             (workerPromises m) m)).
  rewrite H1, H6.
  split; [reflexivity |]. split; [exact H2 |]. split; [reflexivity |].
  split; [exact H4 |]. split; [exact H5 |]. split; [reflexivity |].
  split; [exact H7 |]. split; [exact H8 |]. split; [exact H9 | exact H10].
Qed.

Lemma mp3Step_invariant (m : Mp3Module) (event : Mp3Event) :
  mp3Invariant m -> mp3Invariant (mp3Step m event).
Proof.
  intros (Hp & Hs & Hposted & Hnds & Hndp & Hfresh).
  destruct event as [audioBuffer | data |]; cbn [mp3Step].
  - destruct (exportMP3_fields audioBuffer m)
      as (_ & Hid & Hproms & _ & _ & _ & Hcase).
    unfold mp3Invariant. rewrite Hid, Hproms.
    assert (Hnew : workerMessageId m ∉ workerPromises m)
      by (intros Hin; apply Hp in Hin; lia).
    assert (Hnew' : workerMessageId m ∉ settledKeys m)
      by (intros Hin; apply Hs in Hin; lia).
    destruct Hcase as [(samples & _ & Hpost & Hset) | (e & _ & Hpost & Hset)].
    + unfold settledKeys, postedKeys. rewrite Hpost, Hset, map_app.
      fold (settledKeys m). fold (postedKeys m). cbn [map snd EncodeRequest.id].
      split; [intros k Hk; apply elem_of_app in Hk as [Hk | Hk];
              [apply Hp in Hk; lia | apply list_elem_of_singleton in Hk; lia] |].
      split; [intros k Hk; apply Hs in Hk; lia |].
      split; [intros k Hk; apply elem_of_app in Hk as [Hk | Hk];
              [apply Hposted in Hk; lia | apply list_elem_of_singleton in Hk; lia] |].
      split; [exact Hnds |].
      split.
      { apply NoDup_app. split; [exact Hndp |]. split; [| apply NoDup_singleton].
        intros k Hk Hk'. apply list_elem_of_singleton in Hk'. subst k. contradiction. }
      intros k Hk Hk' Hk''. apply Hs in Hk'' as Hlt.
      apply elem_of_app in Hk as [Hk | Hk];
        [| apply list_elem_of_singleton in Hk; lia].
      apply elem_of_app in Hk' as [Hk' | Hk'];
        [| apply list_elem_of_singleton in Hk'; lia].
      exact (Hfresh k Hk Hk' Hk'').
    + apply hasKey_false in Hnew' as Hkey. rewrite Hkey in Hset.
      unfold settledKeys, postedKeys. rewrite Hpost, Hset, map_app.
      fold (settledKeys m). fold (postedKeys m). cbn [map fst].
      split; [intros k Hk; apply elem_of_app in Hk as [Hk | Hk];
              [apply Hp in Hk; lia | apply list_elem_of_singleton in Hk; lia] |].
      split; [intros k Hk; apply elem_of_app in Hk as [Hk | Hk];
              [apply Hs in Hk; lia | apply list_elem_of_singleton in Hk; lia] |].
      split; [intros k Hk; apply Hposted in Hk; lia |].
      split.
      { apply NoDup_app. split; [exact Hnds |]. split; [| apply NoDup_singleton].
        intros k Hk Hk'. apply list_elem_of_singleton in Hk'. subst k. contradiction. }
      split.
      { apply NoDup_app. split; [exact Hndp |]. split; [| apply NoDup_singleton].
        intros k Hk Hk'. apply list_elem_of_singleton in Hk'. subst k. contradiction. }
      intros k Hk Hk' Hk''. apply Hposted in Hk' as Hlt.
      apply elem_of_app in Hk as [Hk | Hk];
        [| apply list_elem_of_singleton in Hk; lia].
      apply elem_of_app in Hk'' as [Hk'' | Hk''];
        [| apply list_elem_of_singleton in Hk''; lia].
      exact (Hfresh k Hk Hk' Hk'').
  - destruct (onmessage_fields data m) as (_ & Hid & _ & Hpost & _ & Hsame & Hknown).
    destruct (decide (WorkerMessage.id data ∈ workerPromises m)) as [Hin | Hout].
    2: { rewrite (Hsame Hout). repeat split; assumption. }
    destruct (Hknown Hin) as [Hproms Hset].
    unfold mp3Invariant. rewrite Hid, Hproms.
    unfold postedKeys at 1 2. rewrite Hpost. fold (postedKeys m).
    assert (Hkeys : forall k, k ∈ settledKeys (onmessage data m) ->
                              k ∈ settledKeys m \/ k = WorkerMessage.id data).
    { intros k. unfold settledKeys at 1. rewrite Hset.
      destruct (outcomeOfReply data) as [outcome |]; [| tauto].
      destruct (hasKey (settledKeys m) (WorkerMessage.id data)); [tauto |].
      rewrite map_app, elem_of_app. cbn [map fst].
      rewrite list_elem_of_singleton. tauto. }
    split; [intros k Hk; apply elem_of_deleteKey in Hk as [Hk _]; apply Hp, Hk |].
    split; [intros k Hk; apply Hkeys in Hk as [Hk | ->];
            [apply Hs, Hk | apply Hp, Hin] |].
    split; [exact Hposted |].
    split.
    { unfold settledKeys. rewrite Hset.
      destruct (outcomeOfReply data) as [outcome |]; [| exact Hnds].
      destruct (hasKey (settledKeys m) (WorkerMessage.id data)) eqn:Hkey;
        [exact Hnds |].
      apply hasKey_false in Hkey. rewrite map_app. cbn [map fst].
      apply NoDup_app. split; [exact Hnds |]. split; [| apply NoDup_singleton].
      intros k Hk Hk'. apply list_elem_of_singleton in Hk'. subst k. contradiction. }
    split; [apply NoDup_deleteKey, Hndp |].
    intros k Hk Hk' Hk''. apply elem_of_deleteKey in Hk as [Hk Hne].
    apply Hkeys in Hk'' as [Hk'' | ->]; [| congruence].
    exact (Hfresh k Hk Hk' Hk'').
  - destruct (onerror_fields m)
      as (_ & Hid & Hproms & _ & Hpost & _ & Hnd & Hkeys & _ & _).
    unfold mp3Invariant. rewrite Hid, Hproms.
    unfold postedKeys. rewrite Hpost. fold (postedKeys m).
    split; [intros k Hk; apply elem_of_nil in Hk; contradiction |].
    split; [intros k Hk; apply Hkeys in Hk as [Hk | Hk];
            [apply Hs, Hk | apply Hp, Hk] |].
    split; [exact Hposted |].
    split; [apply Hnd, Hnds |].
    split; [apply NoDup_nil; exact I |].
    intros k Hk. apply elem_of_nil in Hk. contradiction.
Qed.

Lemma mp3Run_invariant (events : list Mp3Event) :
  forall m, mp3Invariant m -> mp3Invariant (mp3Run events m).
Proof.
  induction events as [| event rest IH]; intros m Hinv; [exact Hinv |].
  apply IH, mp3Step_invariant, Hinv.
Qed.

Lemma initialMp3Module_invariant : mp3Invariant initialMp3Module.
Proof.
  unfold mp3Invariant. cbn.
  repeat split; try (intros k Hk; apply elem_of_nil in Hk; contradiction);
    apply NoDup_nil; exact I.
Qed.

Lemma mp3Run_counts (events : list Mp3Event) :
  forall m,
    workerMessageId (mp3Run events m) = workerMessageId m + exportsAmong events.
Proof.
  induction events as [| event rest IH]; intros m; [cbn; lia |].
  cbn [mp3Run fold_left]. fold (mp3Run rest (mp3Step m event)). rewrite IH.
  unfold exportsAmong. destruct event as [audioBuffer | data |];
    cbn [List.filter List.length mp3Step].
  - destruct (exportMP3_fields audioBuffer m) as (_ & -> & _). lia.
  - destruct (onmessage_fields data m) as (_ & -> & _). reflexivity.
  - destruct (onerror_fields m) as (_ & -> & _). reflexivity.
Qed.

(** X17. Whatever calls of [exportMP3], messages of workers and worker
    errors have happened since the module was loaded, in whatever order, the
    key that [exportMP3] gives to its next promise is the number of calls made
    so far (after an error of the worker too: the counter is not reset), and
    it is fresh: no promise entered, no promise settled and no message posted
    carries it. No promise has been settled twice, and no key is entered
    twice. *)
Theorem exportMP3_keys_are_fresh (events : list Mp3Event) (audioBuffer : AudioBuffer) :
  let m := mp3Run events initialMp3Module in
  let key := fst (exportMP3 audioBuffer m) in
  key = exportsAmong events
  /\ (key ∉ workerPromises m)
  /\ (key ∉ settledKeys m)
  /\ (key ∉ postedKeys m)
  /\ NoDup (settledKeys m)
  /\ NoDup (workerPromises m).
Proof.
  cbv zeta.
  destruct (mp3Run_invariant events initialMp3Module initialMp3Module_invariant)
    as (Hp & Hs & Hposted & Hnds & Hndp & _).
  destruct (exportMP3_fields audioBuffer (mp3Run events initialMp3Module))
    as (-> & _).
  split; [rewrite mp3Run_counts; reflexivity |].
  split; [intros Hin; apply Hp in Hin; lia |].
  split; [intros Hin; apply Hs in Hin; lia |].
  split; [intros Hin; apply Hposted in Hin; lia |].
  split; assumption.
Qed.

(** X18. In every state that the module can reach, a message of a worker
    whose key is not entered changes nothing. A message whose key is entered,
    and whose request was posted, removes that key and no other, and settles
    that promise and no other: it resolves it with the data when there is
    data, rejects it with the error when there is no data and the error text
    is not empty, and settles nothing when there is neither. *)
Theorem reply_settles_its_promise (events : list Mp3Event) (data : WorkerMessage.t) :
  let m := mp3Run events initialMp3Module in
  let id := WorkerMessage.id data in
  let m' := onmessage data m in
  (hasKey (workerPromises m) id = false -> m' = m)
  /\ (hasKey (workerPromises m) id = true -> hasKey (postedKeys m) id = true ->
      settlements m'
      = settlements m ++ match outcomeOfReply data with
                         | Some outcome => [(id, outcome)]
                         | None => []
                         end
      /\ hasKey (workerPromises m') id = false
      /\ forall k, k <> id ->
           hasKey (workerPromises m') k = hasKey (workerPromises m) k).
Proof.
  cbv zeta.
  set (m := mp3Run events initialMp3Module).
  destruct (mp3Run_invariant events initialMp3Module initialMp3Module_invariant)
    as (_ & _ & _ & _ & _ & Hfresh). fold m in Hfresh.
  destruct (onmessage_fields data m) as (_ & _ & _ & _ & _ & Hsame & Hknown).
  split.
  - intros Hkey. apply Hsame, hasKey_false, Hkey.
  - intros Hkey Hposted. apply hasKey_spec in Hkey, Hposted.
    destruct (Hknown Hkey) as [Hproms Hset].
    assert (Hnew : hasKey (settledKeys m) (WorkerMessage.id data) = false)
      by (apply hasKey_false, Hfresh; assumption).
    rewrite Hnew in Hset.
    split.
    { rewrite Hset. destruct (outcomeOfReply data); [reflexivity |].
      symmetry. apply app_nil_r. }
    rewrite Hproms. split.
    { apply hasKey_false. rewrite elem_of_deleteKey. tauto. }
    intros k Hne.
    destruct (hasKey (workerPromises m) k) eqn:Hk.
    + apply hasKey_spec. apply hasKey_spec in Hk. apply elem_of_deleteKey. tauto.
    + apply hasKey_false. apply hasKey_false in Hk. rewrite elem_of_deleteKey. tauto.
Qed.

Lemma reply_settles_its_promise_witness :
  settlements (onmessage (demoBlobReply 1)
                 (mp3Run [Exports demoSpeech; Exports demoMusic] initialMp3Module))
  = [(1, Mp3Resolved [Byte.xff])]
  /\ hasKey (workerPromises
               (onmessage (demoBlobReply 1)
                  (mp3Run [Exports demoSpeech; Exports demoMusic] initialMp3Module)))
       0 = true.
Proof.
  destruct (reply_settles_its_promise [Exports demoSpeech; Exports demoMusic]
              (demoBlobReply 1)) as [_ Hknown].
  destruct (Hknown eq_refl eq_refl) as (Hset & _ & Hothers).
  split; [exact Hset |]. rewrite (Hothers 0) by discriminate. reflexivity.
Defined.

(** X19. In every state that the module can reach, an error of the worker
    leaves no key entered and no worker: every promise that was entered and
    whose request was posted is rejected with the error of the worker, what
    was settled before stays as it was, and nothing else is settled. The
    worker that failed is terminated. The next call of [exportMP3] creates a
    new worker, and its key continues the count. *)
Theorem worker_error_rejects_what_is_pending (events : list Mp3Event)
    (audioBuffer : AudioBuffer) :
  let m := mp3Run events initialMp3Module in
  let m' := onerror m in
  let next := exportMP3 audioBuffer m' in
  workerPromises m' = []
  /\ mp3Worker m' = None
  /\ terminated m'
     = terminated m ++ match mp3Worker m with Some w => [w] | None => [] end
  /\ (forall k, k ∈ workerPromises m -> k ∈ postedKeys m ->
        (k, Mp3Rejected workerErrorMessage) ∈ settlements m')
  /\ (forall p, p ∈ settlements m -> p ∈ settlements m')
  /\ (forall k, k ∈ settledKeys m' -> k ∈ settledKeys m \/ k ∈ workerPromises m)
  /\ NoDup (settledKeys m')
  /\ fst next = workerMessageId m
  /\ mp3Worker (snd next) = Some (workersCreated m)
  /\ workersCreated (snd next) = S (workersCreated m).
Proof.
  cbv zeta.
  set (m := mp3Run events initialMp3Module).
  destruct (mp3Run_invariant events initialMp3Module initialMp3Module_invariant)
    as (_ & _ & _ & Hnds & _ & Hfresh). fold m in Hnds, Hfresh.
  destruct (onerror_fields m)
    as (Hworker & Hid & Hproms & Hcreated & _ & Hterm & Hnd & Hkeys & Hkept & Hrej).
  destruct (exportMP3_fields audioBuffer (onerror m))
    as (Hkey & _ & _ & Hworker' & Hcreated' & _).
  split; [exact Hproms |]. split; [exact Hworker |]. split; [exact Hterm |].
  split; [intros k Hk Hposted; apply Hrej; [exact Hk | apply Hfresh; assumption] |].
  split; [exact Hkept |].
  split; [intros k Hk; apply Hkeys, Hk |].
  split; [apply Hnd, Hnds |].
  split; [rewrite Hkey; exact Hid |].
  rewrite Hworker', Hcreated', Hworker, Hcreated. split; reflexivity.
Qed.

Lemma dropped_key_step (m : Mp3Module) (event : Mp3Event) (id : nat) :
  id < workerMessageId m -> id ∉ workerPromises m -> id ∉ settledKeys m ->
  id < workerMessageId (mp3Step m event)
  /\ (id ∉ workerPromises (mp3Step m event))
  /\ (id ∉ settledKeys (mp3Step m event)).
Proof.
  intros Hlt Hp Hs. destruct event as [audioBuffer | data |]; cbn [mp3Step].
  - destruct (exportMP3_fields audioBuffer m)
      as (_ & Hid & Hproms & _ & _ & _ & Hcase).
    rewrite Hid, Hproms. split; [lia |].
    split; [rewrite elem_of_app, list_elem_of_singleton; intros [? | ?];
            [contradiction | lia] |].
    unfold settledKeys.
    destruct Hcase as [(samples & _ & _ & ->) | (e & _ & _ & ->)]; [exact Hs |].
    destruct (hasKey (settledKeys m) (workerMessageId m)); [exact Hs |].
    rewrite map_app, elem_of_app. cbn [map fst]. rewrite list_elem_of_singleton.
    intros [? | ?]; [contradiction | lia].
  - destruct (onmessage_fields data m) as (_ & Hid & _ & _ & _ & Hsame & Hknown).
    destruct (decide (WorkerMessage.id data ∈ workerPromises m)) as [Hin | Hout].
    2: { rewrite (Hsame Hout). tauto. }
    destruct (Hknown Hin) as [Hproms Hset].
    rewrite Hid, Hproms. split; [exact Hlt |].
    split; [rewrite elem_of_deleteKey; tauto |].
    assert (Hne : id <> WorkerMessage.id data) by (intros ->; contradiction).
    unfold settledKeys. rewrite Hset.
    destruct (outcomeOfReply data); [| exact Hs].
    destruct (hasKey (settledKeys m) (WorkerMessage.id data)); [exact Hs |].
    rewrite map_app, elem_of_app. cbn [map fst]. rewrite list_elem_of_singleton.
    tauto.
  - destruct (onerror_fields m) as (_ & Hid & Hproms & _ & _ & _ & _ & Hkeys & _).
    rewrite Hid, Hproms. split; [exact Hlt |].
    split; [apply not_elem_of_nil |].
    rewrite Hkeys. tauto.
Qed.

(** X20. A message of a worker that carries neither data nor an error text
    that is not empty removes the key of its promise without settling it;
    the promise is then never settled, whatever calls, messages and worker
    errors follow, and its key is never entered again. *)
Theorem reply_without_result_drops_the_promise (events later : list Mp3Event)
    (data : WorkerMessage.t) :
  let m := mp3Run events initialMp3Module in
  let id := WorkerMessage.id data in
  let m' := mp3Run later (onmessage data m) in
  hasKey (workerPromises m) id = true ->
  hasKey (settledKeys m) id = false ->
  outcomeOfReply data = None ->
  hasKey (settledKeys m') id = false /\ hasKey (workerPromises m') id = false.
Proof.
  cbv zeta. set (m := mp3Run events initialMp3Module).
  intros Hkey Hnew Hnone. apply hasKey_spec in Hkey. apply hasKey_false in Hnew.
  destruct (mp3Run_invariant events initialMp3Module initialMp3Module_invariant)
    as (Hp & _). fold m in Hp.
  destruct (onmessage_fields data m) as (_ & Hid & _ & _ & _ & _ & Hknown).
  destruct (Hknown Hkey) as [Hproms Hset]. rewrite Hnone in Hset.
  assert (Hstart : WorkerMessage.id data < workerMessageId (onmessage data m)
                   /\ (WorkerMessage.id data ∉ workerPromises (onmessage data m))
                   /\ (WorkerMessage.id data ∉ settledKeys (onmessage data m))).
  { rewrite Hid, Hproms. split; [apply Hp, Hkey |].
    split; [rewrite elem_of_deleteKey; tauto |].
    unfold settledKeys. rewrite Hset. exact Hnew. }
  clear Hproms Hset Hid Hknown.
  generalize dependent (onmessage data m). clear Hp Hkey Hnew m.
  induction later as [| event rest IH]; intros m0 (Hlt & Hp & Hs).
  - cbn [mp3Run fold_left]. split; apply hasKey_false; assumption.
  - cbn [mp3Run fold_left]. apply IH.
    apply dropped_key_step; assumption.
Qed.

Lemma reply_without_result_drops_the_promise_witness :
  hasKey (settledKeys
            (mp3Run [Receives (demoBlobReply 0); WorkerFails; Exports demoMusic]
               (onmessage (demoEmptyReply 0)
                  (mp3Run [Exports demoSpeech] initialMp3Module)))) 0 = false.
Proof.
  apply (reply_without_result_drops_the_promise [Exports demoSpeech]
           [Receives (demoBlobReply 0); WorkerFails; Exports demoMusic]
           (demoEmptyReply 0)); reflexivity.
Defined.

(** ** The worker *)

Lemma subarray_block (samples : list Z) (i : nat) :
  i < List.length samples ->
  subarray samples i (i + sampleBlockSize) ++ skipn (i + sampleBlockSize) samples
  = skipn i samples
  /\ List.length (subarray samples i (i + sampleBlockSize))
     = Nat.min sampleBlockSize (List.length samples - i).
Proof.
  intros Hi. unfold subarray.
  replace (Nat.min (i + sampleBlockSize) (List.length samples) - i)
    with (Nat.min sampleBlockSize (List.length samples - i)) by lia.
  split.
  - rewrite (Nat.add_comm i sampleBlockSize), <- skipn_skipn.
    destruct (Nat.le_gt_cases sampleBlockSize (List.length samples - i)) as [Hle | Hgt].
    + rewrite Nat.min_l by exact Hle. apply firstn_skipn.
    + rewrite Nat.min_r by lia.
      rewrite firstn_all2 by (rewrite length_skipn; lia).
      rewrite (skipn_all2 (skipn i samples)) by (rewrite length_skipn; lia).
      apply app_nil_r.
  - rewrite length_firstn, length_skipn. lia.
Qed.

Lemma sampleBlocks_spec (samples : list Z) (fuel : nat) :
  forall i,
    List.length samples <= i + fuel ->
    concat (sampleBlocks fuel i samples) = skipn i samples
    /\ Forall (fun block => 1 <= List.length block <= sampleBlockSize)
         (sampleBlocks fuel i samples)
    /\ List.length (sampleBlocks fuel i samples)
       = (List.length samples - i + (sampleBlockSize - 1)) / sampleBlockSize
    /\ (forall k block,
          sampleBlocks fuel i samples !! k = Some block ->
          S k < List.length (sampleBlocks fuel i samples) ->
          List.length block = sampleBlockSize).
Proof.
  induction fuel as [| fuel IH]; intros i Hfuel.
  - assert (Hdone : (i <? List.length samples)%nat = false)
      by (apply Nat.ltb_ge; lia).
    cbn [sampleBlocks]. rewrite Hdone.
    split; [rewrite skipn_all2 by lia; reflexivity |].
    split; [constructor |].
    split; [| intros k block Hk; discriminate Hk].
    replace (List.length samples - i) with 0 by lia. reflexivity.
  - cbn [sampleBlocks].
    destruct (Nat.ltb_spec i (List.length samples)) as [Hi | Hi].
    2: { split; [rewrite skipn_all2 by lia; reflexivity |].
         split; [constructor |].
         split; [| intros k block Hk; discriminate Hk].
         replace (List.length samples - i) with 0 by lia. reflexivity. }
    destruct (IH (i + sampleBlockSize)) as (Hconcat & Hsizes & Hcount & Hfull).
    { unfold sampleBlockSize. lia. }
    destruct (subarray_block samples i Hi) as [Hsplit Hlen].
    split; [cbn [concat]; rewrite Hconcat; exact Hsplit |].
    split.
    { constructor; [| exact Hsizes]. rewrite Hlen. unfold sampleBlockSize. lia. }
    split.
    { cbn [List.length]. rewrite Hcount.
      destruct (Nat.le_gt_cases (List.length samples) (i + sampleBlockSize))
        as [Hlast | Hmore].
      - replace (List.length samples - (i + sampleBlockSize)) with 0 by lia.
        rewrite (Nat.div_small (0 + (sampleBlockSize - 1)))
          by (unfold sampleBlockSize; lia).
        apply Nat.div_unique with (r := List.length samples - i - 1);
          unfold sampleBlockSize in *; lia.
      - replace (List.length samples - i + (sampleBlockSize - 1))
          with (1 * sampleBlockSize
                + (List.length samples - (i + sampleBlockSize)
                   + (sampleBlockSize - 1))) by lia.
        rewrite Nat.div_add_l by (unfold sampleBlockSize; lia). lia. }
    intros k block Hk Hnext. destruct k as [| k].
    + injection Hk as <-. rewrite Hlen.
      cbn [List.length] in Hnext. rewrite Hcount in Hnext.
      destruct (Nat.le_gt_cases (List.length samples) (i + sampleBlockSize))
        as [Hlast | Hmore]; [| lia].
      replace (List.length samples - (i + sampleBlockSize)) with 0 in Hnext by lia.
      rewrite (Nat.div_small (0 + (sampleBlockSize - 1))) in Hnext
        by (unfold sampleBlockSize; lia).
      lia.
    + cbn [lookup list_lookup] in Hk. apply (Hfull k block Hk).
      cbn [List.length] in Hnext. lia.
Qed.

Section Mp3WorkerFacts.

Variable Mp3Encoder : Type.
Variable newMp3Encoder : nat -> Z -> nat -> string + Mp3Encoder.
Variable encodeBuffer : Mp3Encoder -> list Z -> string + (Mp3Encoder * list Byte.byte).
Variable flush : Mp3Encoder -> string + list Byte.byte.

Lemma encodeLoop_blocks (samples : list Z) (fuel : nat) :
  forall i mp3encoder mp3Data,
    List.length samples <= i + fuel ->
    encodeLoop Mp3Encoder encodeBuffer fuel i samples mp3encoder mp3Data
    = Some (encodeBlocks Mp3Encoder encodeBuffer (sampleBlocks fuel i samples)
              mp3encoder mp3Data).
Proof.
  induction fuel as [| fuel IH]; intros i mp3encoder mp3Data Hfuel.
  - cbn [encodeLoop sampleBlocks].
    assert (Hdone : (i <? List.length samples)%nat = false)
      by (apply Nat.ltb_ge; lia).
    rewrite Hdone. reflexivity.
  - cbn [encodeLoop sampleBlocks].
    destruct (i <? List.length samples)%nat; [| reflexivity].
    cbv zeta. cbn [encodeBlocks].
    destruct (encodeBuffer mp3encoder (subarray samples i (i + sampleBlockSize)))
      as [message | [mp3encoder' mp3buf]]; [reflexivity |].
    apply IH. unfold sampleBlockSize. lia.
Qed.

(** X21. The worker always answers, and with the key of the request. When
    lamejs is not defined in the worker the answer is the error "MP3
    encoding failed: lamejs not available ...". Otherwise the samples are
    given to the encoder in order, in blocks of 1152 samples, the last one
    possibly shorter and none empty: as many blocks as it takes to hold the
    samples. The answer carries the output of the encoder for the blocks
    followed by what is flushed, or the error of the first call that
    throws. *)
Theorem worker_encodes_in_blocks (lamejs : bool) (request : EncodeRequest.t) :
  let samples := EncodeRequest.channelData request in
  let blocks := sampleBlocks (List.length samples) 0 samples in
  exists reply,
    workerOnmessage Mp3Encoder newMp3Encoder encodeBuffer flush lamejs request
    = Some reply
    /\ WorkerMessage.id reply = EncodeRequest.id request
    /\ (lamejs = false ->
        WorkerMessage.mp3Data reply = None
        /\ WorkerMessage.error reply
           = Some ("MP3 encoding failed: " ++ lamejsMissingMessage)%string)
    /\ concat blocks = samples
    /\ Forall (fun block => 1 <= List.length block <= 1152) blocks
    /\ List.length blocks = (List.length samples + 1151) / 1152
    /\ (forall k block, blocks !! k = Some block -> S k < List.length blocks ->
          List.length block = 1152)
    /\ (lamejs = true ->
        forall mp3encoder,
          newMp3Encoder (EncodeRequest.numChannels request)
            (EncodeRequest.sampleRate request) (EncodeRequest.quality request)
          = inr mp3encoder ->
          match encodeBlocks Mp3Encoder encodeBuffer blocks mp3encoder [] with
          | inl message =>
              WorkerMessage.mp3Data reply = None
              /\ WorkerMessage.error reply
                 = Some ("MP3 encoding failed: " ++ message)%string
          | inr (mp3encoder', mp3Data) =>
              match flush mp3encoder' with
              | inl message =>
                  WorkerMessage.mp3Data reply = None
                  /\ WorkerMessage.error reply
                     = Some ("MP3 encoding failed: " ++ message)%string
              | inr mp3buf =>
                  WorkerMessage.mp3Data reply = Some (concat mp3Data ++ mp3buf)
                  /\ WorkerMessage.error reply = None
              end
          end).
Proof.
  cbv zeta.
  set (samples := EncodeRequest.channelData request).
  destruct (sampleBlocks_spec samples (List.length samples) 0)
    as (Hconcat & Hsizes & Hcount & Hfull); [lia |].
  rewrite Nat.sub_0_r in Hcount. cbn [skipn] in Hconcat.
  assert (Hloop : forall mp3encoder,
            encodeLoop Mp3Encoder encodeBuffer (List.length samples) 0 samples
              mp3encoder []
            = Some (encodeBlocks Mp3Encoder encodeBuffer
                      (sampleBlocks (List.length samples) 0 samples) mp3encoder []))
    by (intros e; apply encodeLoop_blocks; lia).
  unfold workerOnmessage, encode. fold samples.
  destruct lamejs; cbn [negb].
  - destruct (newMp3Encoder (EncodeRequest.numChannels request)
                (EncodeRequest.sampleRate request) (EncodeRequest.quality request))
      as [message | mp3encoder] eqn:Hnew.
    + eexists. split; [reflexivity |]. split; [reflexivity |].
      split; [discriminate |]. split; [exact Hconcat |]. split; [exact Hsizes |].
      split; [exact Hcount |]. split; [exact Hfull |].
      intros _ e He. discriminate He.
    + rewrite Hloop.
      destruct (encodeBlocks Mp3Encoder encodeBuffer
                  (sampleBlocks (List.length samples) 0 samples) mp3encoder [])
        as [message | [mp3encoder' mp3Data]] eqn:Hblocks.
      * eexists. split; [reflexivity |]. split; [reflexivity |].
        split; [discriminate |]. split; [exact Hconcat |]. split; [exact Hsizes |].
        split; [exact Hcount |]. split; [exact Hfull |].
        intros _ e He. injection He as <-. rewrite Hblocks.
        split; reflexivity.
      * destruct (flush mp3encoder') as [message | mp3buf] eqn:Hflush.
        -- eexists. split; [reflexivity |]. split; [reflexivity |].
           split; [discriminate |]. split; [exact Hconcat |].
           split; [exact Hsizes |]. split; [exact Hcount |]. split; [exact Hfull |].
           intros _ e He. injection He as <-. rewrite Hblocks, Hflush.
           split; reflexivity.
        -- eexists. split; [reflexivity |]. split; [reflexivity |].
           split; [discriminate |]. split; [exact Hconcat |].
           split; [exact Hsizes |]. split; [exact Hcount |]. split; [exact Hfull |].
           intros _ e He. injection He as <-. rewrite Hblocks, Hflush.
           split; [| reflexivity]. cbn [WorkerMessage.mp3Data]. f_equal.
           destruct mp3buf as [| b mp3buf]; cbn [List.length Nat.ltb Nat.leb].
           ++ symmetry. apply app_nil_r.
           ++ rewrite concat_app. cbn [concat]. rewrite app_nil_r. reflexivity.
  - eexists. split; [reflexivity |]. split; [reflexivity |].
    split; [intros _; split; reflexivity |].
    split; [exact Hconcat |]. split; [exact Hsizes |].
    split; [exact Hcount |]. split; [exact Hfull |]. discriminate.
Qed.

Lemma workerOnmessage_settles (lamejs : bool) (request : EncodeRequest.t) :
  exists reply outcome,
    workerOnmessage Mp3Encoder newMp3Encoder encodeBuffer flush lamejs request
    = Some reply
    /\ WorkerMessage.id reply = EncodeRequest.id request
    /\ outcomeOfReply reply = Some outcome
    /\ (lamejs = false ->
        outcome = Mp3Rejected ("MP3 encoding failed: " ++ lamejsMissingMessage)).
Proof.
  unfold workerOnmessage, encode.
  destruct lamejs; cbn [negb].
  - destruct (newMp3Encoder _ _ _) as [message | mp3encoder].
    + eexists. eexists. split; [reflexivity |]. split; [reflexivity |].
      split; [reflexivity | discriminate].
    + rewrite (encodeLoop_blocks _ _ 0) by lia.
      destruct (encodeBlocks _ _ _ _ _) as [message | [mp3encoder' mp3Data]].
      * eexists. eexists. split; [reflexivity |]. split; [reflexivity |].
        split; [reflexivity | discriminate].
      * destruct (flush mp3encoder') as [message | mp3buf].
        -- eexists. eexists. split; [reflexivity |]. split; [reflexivity |].
           split; [reflexivity | discriminate].
        -- eexists. eexists. split; [reflexivity |]. split; [reflexivity |].
           split; [reflexivity | discriminate].
  - eexists. eexists. split; [reflexivity |]. split; [reflexivity |].
    split; [reflexivity |]. intros _. reflexivity.
Qed.

(** X22. A call of [exportMP3] for a buffer with a channel, in any state
    that the module can reach, followed by the answer of the worker to the
    message posted, settles the promise of the call, and only it: it is
    resolved with the data of the answer, or rejected with its error, and its
    key is no longer entered. When lamejs is not defined in the worker, the
    promise is rejected with "MP3 encoding failed: lamejs not available
    ...". *)
Theorem exportMP3_is_settled_by_the_worker (events : list Mp3Event)
    (audioBuffer : AudioBuffer) (lamejs : bool) :
  let m := mp3Run events initialMp3Module in
  let call := exportMP3 audioBuffer m in
  1 <= AudioBuffer.numberOfChannels audioBuffer ->
  exists worker request reply outcome,
    posted (snd call) = posted m ++ [(worker, request)]
    /\ EncodeRequest.id request = fst call
    /\ EncodeRequest.channelData request
       = map exportMP3_sample (channelOf audioBuffer 0)
    /\ workerOnmessage Mp3Encoder newMp3Encoder encodeBuffer flush lamejs request
       = Some reply
    /\ settlements (onmessage reply (snd call))
       = settlements m ++ [(fst call, outcome)]
    /\ hasKey (workerPromises (onmessage reply (snd call))) (fst call) = false
    /\ (lamejs = false ->
        outcome = Mp3Rejected ("MP3 encoding failed: " ++ lamejsMissingMessage)).
Proof.
  cbv zeta. intros Hchannel.
  set (m := mp3Run events initialMp3Module).
  destruct (mp3Run_invariant events initialMp3Module initialMp3Module_invariant)
    as (Hp & Hs & _). fold m in Hp, Hs.
  destruct (exportMP3_fields audioBuffer m)
    as (Hkey & _ & Hproms & _ & _ & _ & Hcase).
  rewrite (exportMP3_samples_spec audioBuffer Hchannel) in Hcase.
  destruct Hcase as [(samples & Hsamples & Hposted & Hset) | (e & He & _)];
    [| discriminate He].
  injection Hsamples as <-.
  set (request := EncodeRequest.Make (workerMessageId m)
                    (map exportMP3_sample (channelOf audioBuffer 0))
                    (AudioBuffer.sampleRate audioBuffer)
                    (AudioBuffer.numberOfChannels audioBuffer) 5) in *.
  destruct (workerOnmessage_settles lamejs request)
    as (reply & outcome & Hworker & Hid & Houtcome & Hmissing).
  change (EncodeRequest.id request) with (workerMessageId m) in Hid.
  exists (match mp3Worker m with Some w => w | None => workersCreated m end),
    request, reply, outcome.
  split; [exact Hposted |]. split; [rewrite Hkey; reflexivity |].
  split; [reflexivity |]. split; [exact Hworker |].
  destruct (onmessage_fields reply (snd (exportMP3 audioBuffer m)))
    as (_ & _ & _ & _ & _ & _ & Hknown).
  rewrite Hid, Hproms in Hknown.
  destruct Hknown as [Hproms' Hset'].
  { apply elem_of_app. right. apply list_elem_of_singleton. reflexivity. }
  rewrite Houtcome in Hset'.
  assert (Hnew : hasKey (settledKeys (snd (exportMP3 audioBuffer m)))
                   (workerMessageId m) = false).
  { apply hasKey_false. unfold settledKeys. rewrite Hset.
    intros Hin. apply Hs in Hin. lia. }
  rewrite Hnew, Hset in Hset'. rewrite Hkey.
  split; [exact Hset' |].
  split; [| exact Hmissing].
  rewrite Hproms'. apply hasKey_false. rewrite elem_of_deleteKey. tauto.
Qed.

End Mp3WorkerFacts.

Lemma exportMP3_is_settled_by_the_worker_witness :
  exists reply,
    workerOnmessage unit (fun _ _ _ => inr tt) demoEncodeBuffer (fun _ => inr [])
      false
      (EncodeRequest.Make 0 (map exportMP3_sample (channelOf demoSpeech 0)) 24000 1 5)
    = Some reply
    /\ settlements (onmessage reply (snd (exportMP3 demoSpeech initialMp3Module)))
       = [(0, Mp3Rejected ("MP3 encoding failed: " ++ lamejsMissingMessage))].
Proof.
  destruct (exportMP3_is_settled_by_the_worker unit (fun _ _ _ => inr tt)
              demoEncodeBuffer (fun _ => inr []) [] demoSpeech false)
    as (worker & request & reply & outcome & Hposted & Hid & Hdata & Hreply & Hset
        & _ & Hmissing); [simpl; lia |].
  exists reply.
  assert (Hrequest : request
                     = EncodeRequest.Make 0
                         (map exportMP3_sample (channelOf demoSpeech 0)) 24000 1 5).
  { cbn in Hposted. injection Hposted as _ <-. reflexivity. }
  rewrite Hrequest in Hreply. split; [exact Hreply |].
  cbn [mp3Run fold_left] in Hset.
  rewrite Hset, (Hmissing eq_refl). reflexivity.
Defined.

(** ** The run of the component *)

Lemma segment_nonempty (maxChunkChars : nat) (text : JsString) :
  truthy (trim text) = true -> segment maxChunkChars text <> [].
Proof.
  intros Ht. rewrite segment_is_packing.
  destruct (fold_packParagraph_grows maxChunkChars (split paragraphBreak text) [])
    as [_ Hgrow].
  specialize (Hgrow (split_keeps_content _ _ paragraphBreak_spaces Ht)).
  intros Hnil. rewrite Hnil in Hgrow. simpl in Hgrow. lia.
Qed.

Lemma finish_outcome (context : AudioContext) (mix : MixSettings)
    (combinedSpeechBuffer : AudioBuffer) :
  (exists out wav, finish context mix combinedSpeechBuffer = Exported out wav)
  \/ (exists e, finish context mix combinedSpeechBuffer = Ended (Unexpected e)).
Proof.
  unfold finish.
  destruct (let! finalOutputBuffer :=
              match backgroundMusicBuffer mix with
              | Some music =>
                  mixAudioBuffers context combinedSpeechBuffer music
                    (speechVolume mix) (musicVolume mix)
              | None => Ok combinedSpeechBuffer
              end in
            let! wav := exportWAV_samples finalOutputBuffer in
            Ok (finalOutputBuffer, wav)) as [[out wav] | e].
  - left. exists out, wav. reflexivity.
  - right. exists e. reflexivity.
Qed.

(** X23. Two branches of [handleGenerateAudio] are never taken. The
    segmentation never needs its last resort (no chunk, yet a text that is not
    blank), and a run never ends with the message that no valid text was
    found: for every text and every behaviour of the speech calls and of the
    user, the run ends (for a concurrency limit of at least one) as an export,
    or with one of the other messages. *)
Theorem no_valid_text_is_never_reported (context : AudioContext) (mix : MixSettings)
    (concurrencyLimit : nat) (generateSpeech : nat -> Settled AudioBuffer)
    (errorAtRender : ErrorState) (schedule : nat -> list SessionEvent)
    (text : JsString) :
  1 <= concurrencyLimit ->
  let textChunks :=
    fold_left (packParagraph MAX_CHARS_PER_AUDIO_CHUNK) (split paragraphBreak text)
      [] in
  ((List.length textChunks =? 0)%nat && (0 <? List.length (trim text))%nat = false)
  /\ exists report,
       handleGenerateAudio context mix concurrencyLimit generateSpeech errorAtRender
         schedule text = Some report
       /\ outcome report <> Ended NoValidText
       /\ (outcome report = Ended EmptyText <-> trim text = [])
       /\ (outcome report = Ended TextTooLong
           <-> trim text <> [] /\ MAX_TEXT_LENGTH < List.length text).
Proof.
  intros Hlimit. cbv zeta. split.
  { destruct (truthy (trim text)) eqn:Ht.
    - pose proof (segment_nonempty MAX_CHARS_PER_AUDIO_CHUNK text Ht) as Hne.
      rewrite segment_is_packing in Hne.
      destruct (fold_left _ _ _); [contradiction | reflexivity].
    - apply truthy_false in Ht. rewrite Ht. apply andb_false_r. }
  unfold handleGenerateAudio.
  destruct (truthy (trim text)) eqn:Ht; cbn [negb].
  2: { apply truthy_false in Ht. eexists. split; [reflexivity |]. cbn [outcome].
       split; [discriminate |]. split; [tauto |].
       split; [discriminate | intros [Hne _]; contradiction]. }
  assert (Hne : trim text <> []) by (intros Hnil; rewrite Hnil in Ht; discriminate).
  destruct (Nat.ltb_spec MAX_TEXT_LENGTH (List.length text)) as [Hlong | Hshort].
  { eexists. split; [reflexivity |]. cbn [outcome].
    split; [discriminate |]. split; [split; [discriminate | contradiction] |].
    split; [intros _; split; assumption | reflexivity]. }
  set (textChunks := segment MAX_CHARS_PER_AUDIO_CHUNK text).
  pose proof (segment_nonempty MAX_CHARS_PER_AUDIO_CHUNK text Ht) as Hsome.
  fold textChunks in Hsome.
  destruct (Nat.eqb_spec (List.length textChunks) 0) as [Hzero | _].
  { destruct textChunks; [contradiction | discriminate Hzero]. }
  unfold dispatchAll.
  destruct (dispatchLoop_sound textChunks concurrencyLimit generateSpeech
              errorAtRender schedule Hlimit (List.length textChunks) 0
              (initialSession textChunks))
    as (s & Hrun & _ & _).
  { lia. } { simpl. apply length_replicate. } { apply initialSession_sound. }
  rewrite Hrun. eexists. split; [reflexivity |].
  assert (Hout : forall shown,
            (shown = NoValidText \/ shown = EmptyText \/ shown = TextTooLong) ->
            outcome (assemble context mix textChunks s) <> Ended shown).
  { intros shown Hshown.
    destruct (assemble_combines_only_full context mix textChunks s)
      as [(_ & [-> | [-> | [_ Hnil]]]) | (Hcombined & _ & _)].
    - destruct Hshown as [-> | [-> | ->]]; discriminate.
    - destruct Hshown as [-> | [-> | ->]]; discriminate.
    - contradiction.
    - unfold assemble in *.
      destruct (negb (stopGenerationRef_current s)
                && (0 <? List.length (validBuffersOf (orderedBuffers s)))%nat
                && (List.length (validBuffersOf (orderedBuffers s))
                    =? List.length textChunks)%nat).
      + cbn [outcome].
        destruct (combineAudioBuffers context (validBuffersOf (orderedBuffers s)))
          as [combinedSpeechBuffer | e].
        * destruct (finish_outcome context mix combinedSpeechBuffer)
            as [(out & wav & ->) | (e & ->)];
            destruct Hshown as [-> | [-> | ->]]; discriminate.
        * destruct Hshown as [-> | [-> | ->]]; discriminate.
      + destruct (stopGenerationRef_current s); [discriminate Hcombined |].
        destruct (negb _); discriminate Hcombined. }
  split; [apply Hout; tauto |].
  split; [split; [intros H; exfalso; revert H; apply Hout; tauto | contradiction] |].
  split; [intros H; exfalso; revert H; apply Hout; tauto | intros [_ ?]; lia].
Qed.

Lemma no_valid_text_is_never_reported_witness :
  exists report,
    handleGenerateAudio demoContext demoMix 2 (generateSpeechWith (Some "key"%string)
                                               demoRemote) NoError demoSchedule
      demoText = Some report
    /\ outcome report <> Ended NoValidText.
Proof.
  destruct (no_valid_text_is_never_reported demoContext demoMix 2
              (generateSpeechWith (Some "key"%string) demoRemote) NoError
              demoSchedule demoText) as [_ (report & Hrun & Hnot & _)]; [lia |].
  exists report. split; [exact Hrun | exact Hnot].
Defined.

Lemma fold_events_untouched (textChunks : list JsString)
    (generateSpeech : nat -> Settled AudioBuffer) (events : list SessionEvent) :
  forall s j,
    j ∉ settlesOf events ->
    orderedBuffers (fold_left (handleEvent textChunks generateSpeech) events s) !! j
    = orderedBuffers s !! j.
Proof.
  induction events as [| e rest IH]; intros s j Hj; [reflexivity |].
  change (fold_left (handleEvent textChunks generateSpeech) (e :: rest) s)
    with (fold_left (handleEvent textChunks generateSpeech) rest
            (handleEvent textChunks generateSpeech s e)).
  destruct e as [k |].
  - cbn [settlesOf omap] in Hj. fold (settlesOf rest) in Hj.
    apply not_elem_of_cons in Hj as [Hne Hj].
    rewrite IH by exact Hj.
    unfold handleEvent, onFulfilled, onRejected.
    destruct (generateSpeech k); destruct (stopGenerationRef_current s);
      try reflexivity.
    cbn [orderedBuffers]. apply list_lookup_insert_ne. congruence.
  - cbn [settlesOf omap] in Hj. fold (settlesOf rest) in Hj.
    rewrite IH by exact Hj. reflexivity.
Qed.




Lemma validBuffersOf_all (audio : nat -> AudioBuffer) (indices : list nat) :
  validBuffersOf (map (fun j => Some (audio j)) indices) = map audio indices.
Proof.
  unfold validBuffersOf. induction indices as [| j rest IH]; [reflexivity |].
  cbn. f_equal. exact IH.
Qed.

(** X25. When every speech call succeeds, no stop is requested and no
    error message is showing at the start, a run for a text that is not
    blank and not too long, without background music, ends as an export: for
    well-formed audio of one sample rate and channel count, and chunks of a
    batch settling in any order, the buffer exported is the combination of
    the audio of the chunks in the order of the text (its length the sum of
    their lengths, every channel their channels end to end), and the samples
    of the file are the conversion of that buffer. *)
Theorem successful_run_exports_the_chunks_in_order (context : AudioContext)
    (mix : MixSettings) (concurrencyLimit : nat) (audio : nat -> AudioBuffer)
    (schedule : nat -> list SessionEvent) (text : JsString) :
  let textChunks := segment MAX_CHARS_PER_AUDIO_CHUNK text in
  let buffers := map audio (seq 0 (List.length textChunks)) in
  1 <= concurrencyLimit ->
  truthy (trim text) = true ->
  List.length text <= MAX_TEXT_LENGTH ->
  backgroundMusicBuffer mix = None ->
  fairSchedule (List.length textChunks) concurrencyLimit schedule = true ->
  uninterrupted (List.length textChunks) concurrencyLimit schedule = true ->
  forallb wfBuffer buffers = true ->
  sameFormat buffers = true ->
  exists out wav,
    handleGenerateAudio context mix concurrencyLimit (allResolve audio) NoError
      schedule text
    = Some {| outcome := Exported out wav; combined := Some (Ok out) |}
    /\ combineAudioBuffers context buffers = Ok out
    /\ AudioBuffer.length out = totalLengthOf buffers
    /\ (forall c, c < AudioBuffer.numberOfChannels out ->
          channelOf out c = concat (map (fun b => channelOf b c) buffers))
    /\ wav = flat_map (fun c => floatTo16BitPCM (channelOf out c))
               (seq 0 (AudioBuffer.numberOfChannels out)).
Proof.
  cbv zeta. intros Hlimit Ht Hshort Hmusic Hfair Hfree Hwf Hfmt.
  set (textChunks := segment MAX_CHARS_PER_AUDIO_CHUNK text) in *.
  set (n := List.length textChunks) in *.
  pose proof (segment_nonempty MAX_CHARS_PER_AUDIO_CHUNK text Ht) as Hsome.
  fold textChunks in Hsome.
  assert (Hn : 1 <= n).
  { unfold n. destruct textChunks; [contradiction | simpl; lia]. }
  unfold handleGenerateAudio. rewrite Ht. cbn [negb].
  destruct (Nat.ltb_spec MAX_TEXT_LENGTH (List.length text)) as [Hlong | _]; [lia |].
  fold textChunks. fold n.
  destruct (Nat.eqb_spec n 0) as [Hzero | _]; [lia |].
  unfold dispatchAll. fold n.
  destruct (dispatchLoop_sound textChunks concurrencyLimit (allResolve audio)
              NoError schedule Hlimit n 0 (initialSession textChunks))
    as (s & Hrun & Hlen & _).
  { lia. } { simpl. apply length_replicate. } { apply initialSession_sound. }
  destruct (dispatchLoop_complete textChunks concurrencyLimit (allResolve audio)
              NoError schedule Hlimit n eq_refl Hfair Hfree 0
              (initialSession textChunks))
    as (s' & Hrun' & Hstop & Hslots).
  { lia. } { reflexivity. } { simpl. apply length_replicate. }
  { intros j Hj. rewrite initialSession_slots by exact Hj. reflexivity. }
  simpl in Hrun'. rewrite Hrun in Hrun'. injection Hrun' as <-.
  rewrite Hrun.
  assert (Hbuffers : orderedBuffers s = map (fun j => Some (audio j)) (seq 0 n)).
  { apply list_eq. intros j.
    destruct (Nat.lt_ge_cases j n) as [Hj | Hj].
    - rewrite (Hslots j Hj). cbn [allResolve audioOf].
      change (map (fun j0 => Some (audio j0)) (seq 0 n))
        with ((fun j0 => Some (audio j0)) <$> seq 0 n).
      rewrite list_lookup_fmap, lookup_seq_lt by exact Hj. reflexivity.
    - rewrite lookup_ge_None_2 by (fold n in Hlen; lia).
      rewrite lookup_ge_None_2 by (rewrite length_map, length_seq; exact Hj).
      reflexivity. }
  unfold assemble. rewrite Hstop, Hbuffers, validBuffersOf_all.
  rewrite length_map, length_seq. fold n.
  destruct (Nat.ltb_spec 0 n) as [_ | Hbad]; [| lia].
  rewrite Nat.eqb_refl. cbn [negb andb].
  destruct (map audio (seq 0 n)) as [| first rest] eqn:Hlist.
  { apply (f_equal (@List.length _)) in Hlist.
    rewrite length_map, length_seq in Hlist. simpl in Hlist. lia. }
  destruct (combineAudioBuffers_spec context first rest Hwf Hfmt)
    as (out & Hcombine & _ & _ & Hlength & _ & Hdata).
  rewrite Hcombine. unfold finish. rewrite Hmusic. cbn [bind].
  rewrite exportWAV_samples_spec. cbn [bind].
  eexists. eexists. split; [reflexivity |].
  split; [reflexivity |]. split; [exact Hlength |].
  split; [exact Hdata | reflexivity].
Qed.

Lemma successful_run_exports_the_chunks_in_order_witness :
  exists out wav,
    handleGenerateAudio demoContext demoMix 2 (allResolve demoAudio) NoError
      (fun i => match i with 0 => [ChunkSettled 1; ChunkSettled 0] | _ => [] end)
      demoText
    = Some {| outcome := Exported out wav; combined := Some (Ok out) |}
    /\ AudioBuffer.length out = 3
    /\ wav = [16383; 16383; 16383]%Z.
Proof.
  destruct (successful_run_exports_the_chunks_in_order demoContext demoMix 2
              demoAudio
              (fun i => match i with 0 => [ChunkSettled 1; ChunkSettled 0] | _ => [] end)
              demoText)
    as (out & wav & Hrun & Hcombine & Hlen & _ & Hwav);
    [lia | reflexivity | apply Nat.leb_le; vm_compute; reflexivity | reflexivity
    | vm_compute; reflexivity | vm_compute; reflexivity | vm_compute; reflexivity
    | vm_compute; reflexivity |].
  exists out, wav. split; [exact Hrun |].
  assert (Hout : out = AudioBuffer.Make 24000 1 3
                         [[1 # 2; 1 # 2; 1 # 2]%Q]).
  { assert (Hcombine' :
              combineAudioBuffers demoContext
                (map demoAudio
                   (seq 0 (List.length (segment MAX_CHARS_PER_AUDIO_CHUNK demoText))))
              = Ok (AudioBuffer.Make 24000 1 3 [[1 # 2; 1 # 2; 1 # 2]%Q]))
      by (vm_compute; reflexivity).
    rewrite Hcombine in Hcombine'. injection Hcombine' as ->. reflexivity. }
  split; [rewrite Hout; reflexivity |].
  rewrite Hwav, Hout. vm_compute. reflexivity.
Defined.

(** ** What the segmentation keeps of the text *)

Lemma nonSpace_app (a b : JsString) : nonSpace (a ++ b) = nonSpace a ++ nonSpace b.
Proof. apply List.filter_app. Qed.

Lemma nonSpace_spaces (s : JsString) :
  forallb isSpace s = true -> nonSpace s = [].
Proof.
  induction s as [| c tl IH]; [reflexivity |].
  cbn [forallb]. intros H. apply andb_true_iff in H as [Hc Htl].
  unfold nonSpace. cbn [List.filter]. rewrite Hc. cbn [negb]. apply IH, Htl.
Qed.

Lemma nonSpace_trimStart (s : JsString) : nonSpace (trimStart s) = nonSpace s.
Proof.
  induction s as [| c tl IH]; [reflexivity |].
  cbn [trimStart]. destruct (isSpace c) eqn:Hc; [| reflexivity].
  rewrite IH. unfold nonSpace. cbn [List.filter]. rewrite Hc. reflexivity.
Qed.

Lemma nonSpace_rev (s : JsString) : nonSpace (rev s) = rev (nonSpace s).
Proof.
  induction s as [| c tl IH]; [reflexivity |].
  cbn [rev]. rewrite nonSpace_app, IH. unfold nonSpace at 2 3. cbn [List.filter].
  destruct (negb (isSpace c)); [reflexivity |]. cbn [rev]. apply app_nil_r.
Qed.

Lemma nonSpace_trim (s : JsString) : nonSpace (trim s) = nonSpace s.
Proof.
  unfold trim.
  rewrite nonSpace_rev, nonSpace_trimStart, nonSpace_rev, nonSpace_trimStart.
  apply rev_involutive.
Qed.

Lemma nonSpace_blank (s : JsString) : truthy (trim s) = false -> nonSpace s = [].
Proof.
  intros H. apply truthy_false, trim_nil in H. apply nonSpace_spaces, H.
Qed.

Lemma nonSpace_content (s : JsString) : truthy (trim s) = true -> nonSpace s <> [].
Proof.
  intros H. apply truthy_trim in H as (c & Hin & Hc).
  intros Hnil. assert (Hc' : In c (nonSpace s)).
  { unfold nonSpace. apply filter_In. split; [exact Hin |]. rewrite Hc. reflexivity. }
  rewrite Hnil in Hc'. exact Hc'.
Qed.

Lemma splitLoop_nonSpace (m : Matcher) (rest : JsString) :
  matchesSpaces m ->
  forall before skip piece,
    skip <= List.length rest ->
    forallb isSpace (firstn skip rest) = true ->
    nonSpace (concat (splitLoop m before rest skip piece))
    = nonSpace (rev piece ++ rest).
Proof.
  intros Hm. induction rest as [| c tl IH]; intros before skip piece Hskip Hspaces.
  - cbn [splitLoop concat]. reflexivity.
  - cbn [splitLoop]. destruct skip as [| skip].
    + destruct (m before (c :: tl)) as [[| len] |] eqn:Hmatch.
      * destruct piece as [| p piece].
        -- rewrite IH by (cbn; first [lia | reflexivity]). reflexivity.
        -- cbn [concat]. rewrite nonSpace_app.
           rewrite IH by (cbn; first [lia | reflexivity]).
           rewrite (nonSpace_app (rev (p :: piece))). reflexivity.
      * destruct (Hm _ _ _ Hmatch) as [Hlen Hsp].
        cbn [firstn forallb] in Hsp. apply andb_true_iff in Hsp as [Hc Hsp].
        cbn [List.length] in Hlen.
        cbn [concat]. rewrite nonSpace_app, IH by (first [lia | exact Hsp]).
        cbn [rev app]. rewrite nonSpace_app. f_equal.
        unfold nonSpace at 2. cbn [List.filter]. rewrite Hc. reflexivity.
      * rewrite IH by (cbn; first [lia | reflexivity]).
        cbn [rev]. rewrite <- app_assoc. reflexivity.
    + cbn [firstn forallb] in Hspaces. apply andb_true_iff in Hspaces as [Hc Hsp].
      cbn [List.length] in Hskip.
      rewrite IH by (first [lia | exact Hsp]).
      rewrite !nonSpace_app. f_equal.
      unfold nonSpace at 2. cbn [List.filter]. rewrite Hc. reflexivity.
Qed.

Lemma split_nonSpace (m : Matcher) (s : JsString) :
  matchesSpaces m -> nonSpace (concat (split m s)) = nonSpace s.
Proof.
  intros Hm. unfold split.
  rewrite (splitLoop_nonSpace m s Hm [] 0 []); [reflexivity | lia | reflexivity].
Qed.

Lemma packSentence_nonSpace (maxChunkChars : nat)
    (textChunks : list JsString) (currentChunk sentence : JsString) :
  let state' := packSentence maxChunkChars (textChunks, currentChunk) sentence in
  nonSpace (concat (fst state') ++ snd state')
  = nonSpace (concat textChunks ++ currentChunk) ++ nonSpace sentence.
Proof.
  cbv zeta. unfold packSentence.
  destruct (truthy (trim sentence)) eqn:Hs; cbn [negb].
  2: { cbn [fst snd]. rewrite (nonSpace_blank sentence Hs). symmetry. apply app_nil_r. }
  destruct (_ <=? maxChunkChars)%nat; cbn [fst snd].
  - rewrite !nonSpace_app, nonSpace_trim.
    replace (nonSpace (if truthy currentChunk then [32%N] else [])) with (@nil N)
      by (destruct (truthy currentChunk); reflexivity).
    cbn [app]. apply app_assoc.
  - destruct (truthy currentChunk) eqn:Hc.
    + rewrite concat_app. cbn [concat]. rewrite app_nil_r.
      rewrite !nonSpace_app, nonSpace_trim. reflexivity.
    + apply truthy_false in Hc. subst currentChunk.
      rewrite !nonSpace_app, nonSpace_trim. rewrite app_nil_r. reflexivity.
Qed.

Lemma fold_packSentence_nonSpace (maxChunkChars : nat) (sentences : list JsString) :
  forall state,
    let state' := fold_left (packSentence maxChunkChars) sentences state in
    nonSpace (concat (fst state') ++ snd state')
    = nonSpace (concat (fst state) ++ snd state) ++ nonSpace (concat sentences).
Proof.
  induction sentences as [| sentence rest IH]; intros state; cbv zeta.
  - cbn [fold_left concat]. symmetry. apply app_nil_r.
  - change (fold_left (packSentence maxChunkChars) (sentence :: rest) state)
      with (fold_left (packSentence maxChunkChars) rest
              (packSentence maxChunkChars state sentence)).
    rewrite IH. destruct state as [textChunks currentChunk].
    rewrite packSentence_nonSpace. cbn [concat fst snd].
    rewrite (nonSpace_app sentence), app_assoc. reflexivity.
Qed.

Lemma packParagraph_nonSpace (maxChunkChars : nat) (textChunks : list JsString)
    (paragraph : JsString) :
  nonSpace (concat (packParagraph maxChunkChars textChunks paragraph))
  = nonSpace (concat textChunks) ++ nonSpace paragraph.
Proof.
  unfold packParagraph.
  destruct (truthy (trim paragraph)) eqn:Hp; cbn [negb].
  2: { rewrite (nonSpace_blank paragraph Hp). symmetry. apply app_nil_r. }
  pose proof (fold_packSentence_nonSpace maxChunkChars
                (split sentenceRegex paragraph) (textChunks, [])) as Hfold.
  cbv zeta in Hfold. cbn [fst snd] in Hfold.
  rewrite (split_nonSpace _ _ sentenceRegex_spaces), app_nil_r in Hfold.
  destruct (fold_left (packSentence maxChunkChars) (split sentenceRegex paragraph)
              (textChunks, [])) as [chunks current].
  cbn [fst snd] in Hfold. rewrite <- Hfold.
  destruct (truthy current) eqn:Hc.
  - rewrite concat_app. cbn [concat]. rewrite app_nil_r. reflexivity.
  - apply truthy_false in Hc. subst current. rewrite app_nil_r. reflexivity.
Qed.

Lemma fold_packParagraph_nonSpace (maxChunkChars : nat) (paragraphs : list JsString) :
  forall textChunks,
    nonSpace (concat (fold_left (packParagraph maxChunkChars) paragraphs textChunks))
    = nonSpace (concat textChunks) ++ nonSpace (concat paragraphs).
Proof.
  induction paragraphs as [| paragraph rest IH]; intros textChunks.
  - cbn [fold_left concat]. symmetry. apply app_nil_r.
  - change (fold_left (packParagraph maxChunkChars) (paragraph :: rest) textChunks)
      with (fold_left (packParagraph maxChunkChars) rest
              (packParagraph maxChunkChars textChunks paragraph)).
    rewrite IH, packParagraph_nonSpace. cbn [concat].
    rewrite (nonSpace_app paragraph), app_assoc. reflexivity.
Qed.

(** The chunks and the chunk in the making all have content. *)
Lemma packSentence_content (maxChunkChars : nat)
    (textChunks : list JsString) (currentChunk sentence : JsString) :
  Forall (fun chunk => nonSpace chunk <> []) textChunks ->
  (currentChunk = [] \/ nonSpace currentChunk <> []) ->
  let state' := packSentence maxChunkChars (textChunks, currentChunk) sentence in
  Forall (fun chunk => nonSpace chunk <> []) (fst state')
  /\ (snd state' = [] \/ nonSpace (snd state') <> []).
Proof.
  intros Hchunks Hcurrent. cbv zeta. unfold packSentence.
  destruct (truthy (trim sentence)) eqn:Hs; cbn [negb].
  2: { split; assumption. }
  pose proof (nonSpace_content sentence Hs) as Hcontent.
  destruct (_ <=? maxChunkChars)%nat; cbn [fst snd].
  - split; [exact Hchunks |]. right.
    rewrite !nonSpace_app, nonSpace_trim.
    intros Hnil. apply app_eq_nil in Hnil as [_ Hnil].
    apply app_eq_nil in Hnil as [_ Hnil]. contradiction.
  - split; [| right; rewrite nonSpace_trim; exact Hcontent].
    destruct (truthy currentChunk) eqn:Hc; [| exact Hchunks].
    apply Forall_app. split; [exact Hchunks |]. constructor; [| constructor].
    destruct Hcurrent as [-> | Hne]; [discriminate Hc | exact Hne].
Qed.

Lemma fold_packSentence_content (maxChunkChars : nat) (sentences : list JsString) :
  forall state,
    Forall (fun chunk => nonSpace chunk <> []) (fst state) ->
    (snd state = [] \/ nonSpace (snd state) <> []) ->
    let state' := fold_left (packSentence maxChunkChars) sentences state in
    Forall (fun chunk => nonSpace chunk <> []) (fst state')
    /\ (snd state' = [] \/ nonSpace (snd state') <> []).
Proof.
  induction sentences as [| sentence rest IH]; intros state Hchunks Hcurrent;
    cbv zeta.
  - split; assumption.
  - change (fold_left (packSentence maxChunkChars) (sentence :: rest) state)
      with (fold_left (packSentence maxChunkChars) rest
              (packSentence maxChunkChars state sentence)).
    destruct state as [textChunks currentChunk].
    destruct (packSentence_content maxChunkChars textChunks currentChunk sentence
                Hchunks Hcurrent) as [H1 H2].
    apply IH; assumption.
Qed.

Lemma packParagraph_content (maxChunkChars : nat) (textChunks : list JsString)
    (paragraph : JsString) :
  Forall (fun chunk => nonSpace chunk <> []) textChunks ->
  Forall (fun chunk => nonSpace chunk <> [])
    (packParagraph maxChunkChars textChunks paragraph).
Proof.
  intros Hchunks. unfold packParagraph.
  destruct (truthy (trim paragraph)); cbn [negb]; [| exact Hchunks].
  destruct (fold_packSentence_content maxChunkChars (split sentenceRegex paragraph)
              (textChunks, []) Hchunks (or_introl eq_refl)) as [H1 H2].
  destruct (fold_left (packSentence maxChunkChars) (split sentenceRegex paragraph)
              (textChunks, [])) as [chunks current].
  cbn [fst snd] in H1, H2.
  destruct (truthy current) eqn:Hc; [| exact H1].
  apply Forall_app. split; [exact H1 |]. constructor; [| constructor].
  destruct H2 as [-> | Hne]; [discriminate Hc | exact Hne].
Qed.

Lemma fold_packParagraph_content (maxChunkChars : nat) (paragraphs : list JsString) :
  forall textChunks,
    Forall (fun chunk => nonSpace chunk <> []) textChunks ->
    Forall (fun chunk => nonSpace chunk <> [])
      (fold_left (packParagraph maxChunkChars) paragraphs textChunks).
Proof.
  induction paragraphs as [| paragraph rest IH]; intros textChunks Hchunks;
    [exact Hchunks |].
  change (fold_left (packParagraph maxChunkChars) (paragraph :: rest) textChunks)
    with (fold_left (packParagraph maxChunkChars) rest
            (packParagraph maxChunkChars textChunks paragraph)).
  apply IH, packParagraph_content, Hchunks.
Qed.

(** X26. The segmentation loses nothing of the text and changes no order:
    for every text and every limit, the code units of the chunks taken
    together that are not white space are those of the text, in the same
    order; only white space is dropped or replaced. Every chunk has content:
    no chunk is empty or made of white space only. *)
Theorem segment_keeps_the_text (maxChunkChars : nat) (text : JsString) :
  nonSpace (concat (segment maxChunkChars text)) = nonSpace text
  /\ Forall (fun chunk => nonSpace chunk <> [] /\ truthy (trim chunk) = true)
       (segment maxChunkChars text).
Proof.
  rewrite segment_is_packing. split.
  - rewrite fold_packParagraph_nonSpace. cbn [concat nonSpace List.filter app].
    apply split_nonSpace, paragraphBreak_spaces.
  - pose proof (fold_packParagraph_content maxChunkChars (split paragraphBreak text)
                  [] (List.Forall_nil _)) as Hall.
    rewrite List.Forall_forall in Hall. apply List.Forall_forall.
    intros chunk Hin. specialize (Hall chunk Hin). split; [exact Hall |].
    destruct (truthy (trim chunk)) eqn:Ht; [reflexivity |].
    apply nonSpace_blank in Ht. contradiction.
Qed.

(** ** The length of the chunks *)

Lemma totalChars_app (a b : list JsString) :
  totalChars (a ++ b) = totalChars a + totalChars b.
Proof.
  unfold totalChars. induction a as [| x a IH]; [reflexivity |].
  cbn. cbn in IH. rewrite IH. lia.
Qed.

Lemma sentenceRegex_something : matchesSomething sentenceRegex.
Proof.
  intros before rest len. unfold sentenceRegex.
  destruct (_ && _ && _); [| discriminate].
  destruct rest as [| c tl]; [discriminate |].
  destruct (isSpace c); [| discriminate].
  destruct (greedyStar _ _ tl) as [[taken n] |]; [| discriminate].
  intros H. injection H as <-. lia.
Qed.

Lemma paragraphBreak_something : matchesSomething paragraphBreak.
Proof.
  intros before rest len. unfold paragraphBreak.
  destruct rest as [| c tl]; [discriminate |].
  destruct (c =? 10)%N; [| discriminate].
  destruct (greedyStar _ _ tl) as [[taken n] |]; [| discriminate].
  intros H. injection H as <-. lia.
Qed.

Lemma splitLoop_total (m : Matcher) (rest : JsString) :
  matchesSpaces m -> matchesSomething m ->
  forall before skip piece,
    skip <= List.length rest ->
    totalChars (splitLoop m before rest skip piece)
    + List.length (splitLoop m before rest skip piece) + skip
    <= List.length piece + List.length rest + 1.
Proof.
  intros Hin Hpos. induction rest as [| c tl IH]; intros before skip piece Hskip.
  - cbn [splitLoop]. unfold totalChars. cbn. rewrite length_rev. cbn in Hskip. lia.
  - cbn [splitLoop]. cbn [List.length] in *. destruct skip as [| skip].
    + destruct (m before (c :: tl)) as [[| len] |] eqn:Hmatch.
      * apply Hpos in Hmatch. lia.
      * destruct (Hin _ _ _ Hmatch) as [Hlen _]. cbn [List.length] in Hlen.
        specialize (IH (c :: before) len [] ltac:(lia)).
        change (totalChars (rev piece :: splitLoop m (c :: before) tl len []))
          with (List.length (rev piece)
                + totalChars (splitLoop m (c :: before) tl len [])).
        rewrite length_rev. cbn [List.length] in *. lia.
      * specialize (IH (c :: before) 0 (c :: piece) ltac:(lia)).
        cbn [List.length] in IH. lia.
    + specialize (IH (c :: before) skip piece ltac:(lia)). lia.
Qed.

Lemma split_total (m : Matcher) (s : JsString) :
  matchesSpaces m -> matchesSomething m ->
  totalChars (split m s) + List.length (split m s) <= List.length s + 1.
Proof.
  intros Hin Hpos. unfold split.
  pose proof (splitLoop_total m s Hin Hpos [] 0 [] ltac:(lia)) as H.
  cbn [List.length] in H. lia.
Qed.

Lemma splitLoop_nonempty (m : Matcher) (rest : JsString) :
  forall before skip piece,
    1 <= List.length (splitLoop m before rest skip piece).
Proof.
  induction rest as [| c tl IH]; intros before skip piece; [cbn; lia |].
  cbn [splitLoop]. destruct skip; [| apply IH].
  destruct (m before (c :: tl)) as [[| len] |].
  - destruct piece; [apply IH | cbn [List.length]; lia].
  - cbn [List.length]. lia.
  - apply IH.
Qed.

Lemma split_nonempty (m : Matcher) (s : JsString) : 1 <= List.length (split m s).
Proof. apply splitLoop_nonempty. Qed.

Lemma packSentence_weight (maxChunkChars : nat)
    (textChunks : list JsString) (currentChunk sentence : JsString) :
  packWeight (packSentence maxChunkChars (textChunks, currentChunk) sentence)
  <= packWeight (textChunks, currentChunk) + List.length sentence + 1.
Proof.
  unfold packWeight, packSentence.
  destruct (truthy (trim sentence)) eqn:Hs; cbn [negb]; [| cbn [fst snd]; lia].
  pose proof (trim_length sentence) as Htrim.
  assert (Htruthy : forall a : JsString, truthy (a ++ trim sentence) = true).
  { intros a. destruct (trim sentence); [discriminate Hs |]. destruct a; reflexivity. }
  destruct (_ <=? maxChunkChars)%nat; cbn [fst snd].
  - rewrite app_assoc, Htruthy, !length_app.
    destruct (truthy currentChunk); cbn [List.length]; lia.
  - rewrite Hs.
    destruct (truthy currentChunk) eqn:Hc.
    + rewrite totalChars_app. unfold totalChars at 2. cbn. lia.
    + apply truthy_false in Hc. subst currentChunk. cbn [List.length]. lia.
Qed.

Lemma fold_packSentence_weight (maxChunkChars : nat) (sentences : list JsString) :
  forall state : list JsString * JsString,
    packWeight (fold_left (packSentence maxChunkChars) sentences state)
    <= packWeight state + totalChars sentences + List.length sentences.
Proof.
  induction sentences as [| sentence rest IH]; intros state.
  - cbn [fold_left]. unfold totalChars. cbn. lia.
  - change (fold_left (packSentence maxChunkChars) (sentence :: rest) state)
      with (fold_left (packSentence maxChunkChars) rest
              (packSentence maxChunkChars state sentence)).
    specialize (IH (packSentence maxChunkChars state sentence)).
    destruct state as [textChunks currentChunk].
    pose proof (packSentence_weight maxChunkChars textChunks currentChunk sentence)
      as Hstep.
    change (totalChars (sentence :: rest))
      with (List.length sentence + totalChars rest).
    cbn [List.length]. lia.
Qed.

Lemma packParagraph_total (maxChunkChars : nat) (textChunks : list JsString)
    (paragraph : JsString) :
  totalChars (packParagraph maxChunkChars textChunks paragraph)
  <= totalChars textChunks + List.length paragraph.
Proof.
  unfold packParagraph.
  destruct (truthy (trim paragraph)) eqn:Hp; cbn [negb]; [| lia].
  pose proof (fold_packSentence_weight maxChunkChars (split sentenceRegex paragraph)
                (textChunks, [])) as Hfold.
  unfold packWeight in Hfold. cbn [fst snd truthy List.length] in Hfold.
  pose proof (split_total sentenceRegex paragraph sentenceRegex_spaces
                sentenceRegex_something) as Hsplit.
  destruct (fold_packSentence_grows maxChunkChars (split sentenceRegex paragraph)
              (textChunks, [])) as (_ & _ & Hcontent).
  specialize (Hcontent (split_keeps_content _ _ sentenceRegex_spaces Hp)).
  destruct (fold_left (packSentence maxChunkChars) (split sentenceRegex paragraph)
              (textChunks, [])) as [chunks current].
  cbn [fst snd] in *. rewrite Hcontent in *.
  rewrite totalChars_app. unfold totalChars at 2. cbn. lia.
Qed.

Lemma fold_packParagraph_total (maxChunkChars : nat) (paragraphs : list JsString) :
  forall textChunks,
    totalChars (fold_left (packParagraph maxChunkChars) paragraphs textChunks)
    <= totalChars textChunks + totalChars paragraphs.
Proof.
  induction paragraphs as [| paragraph rest IH]; intros textChunks.
  - cbn [fold_left]. unfold totalChars. cbn. lia.
  - change (fold_left (packParagraph maxChunkChars) (paragraph :: rest) textChunks)
      with (fold_left (packParagraph maxChunkChars) rest
              (packParagraph maxChunkChars textChunks paragraph)).
    specialize (IH (packParagraph maxChunkChars textChunks paragraph)).
    pose proof (packParagraph_total maxChunkChars textChunks paragraph).
    change (totalChars (paragraph :: rest))
      with (List.length paragraph + totalChars rest). lia.
Qed.

Lemma segment_total (maxChunkChars : nat) (text : JsString) :
  totalChars (segment maxChunkChars text) <= List.length text.
Proof.
  rewrite segment_is_packing.
  pose proof (fold_packParagraph_total maxChunkChars (split paragraphBreak text) [])
    as Hfold.
  pose proof (split_total paragraphBreak text paragraphBreak_spaces
                paragraphBreak_something) as Hsplit.
  pose proof (split_nonempty paragraphBreak text) as Hsome.
  unfold totalChars at 2 in Hfold. cbn [map sum_list] in Hfold. lia.
Qed.

(** X27. The chunks are together never longer than the text: the sum of
    their lengths is at most the length of the text, for every text and
    every limit (a separator is never shorter than the space that replaces
    it). A text that the component accepts is so sent to the speech service in
    chunks of at most [MAX_TEXT_LENGTH] code units in all. *)
Theorem chunks_are_no_longer_than_the_text (maxChunkChars : nat) (text : JsString) :
  totalChars (segment maxChunkChars text) <= List.length text
  /\ ((MAX_TEXT_LENGTH <? List.length text)%nat = false ->
      totalChars (segment maxChunkChars text) <= MAX_TEXT_LENGTH).
Proof.
  pose proof (segment_total maxChunkChars text) as Htotal.
  split; [exact Htotal |].
  intros Hshort. apply Nat.ltb_ge in Hshort.
  exact (Nat.le_trans _ _ _ Htotal Hshort).
Qed.

Lemma chunks_are_no_longer_than_the_text_witness :
  totalChars (segment 20 demoText) <= List.length demoText.
Proof.
  apply (chunks_are_no_longer_than_the_text 20 demoText).
Defined.

(** ** The count of the characters processed *)

Lemma countedChars_le (textChunks : list JsString) :
  forall slots, countedChars textChunks slots <= totalChars textChunks.
Proof.
  unfold countedChars, totalChars.
  induction textChunks as [| chunk rest IH]; intros slots; [cbn; lia |].
  destruct slots as [| slot slots]; [cbn; lia |].
  specialize (IH slots). destruct slot; cbn in *; lia.
Qed.

Lemma countedChars_initial (textChunks : list JsString) (count : nat) :
  countedChars textChunks (replicate count None) = 0.
Proof.
  unfold countedChars. revert count.
  induction textChunks as [| chunk rest IH]; intros count; [reflexivity |].
  destruct count as [| count]; [reflexivity |].
  specialize (IH count). cbn in *. exact IH.
Qed.

Lemma countedChars_insert (textChunks : list JsString) :
  forall slots j audioBuffer,
    slots !! j = Some None ->
    j < List.length textChunks ->
    countedChars textChunks (<[j := Some audioBuffer]> slots)
    = countedChars textChunks slots + List.length (nth j textChunks []).
Proof.
  unfold countedChars.
  induction textChunks as [| chunk rest IH]; intros slots j audioBuffer Hslot Hj;
    [cbn in Hj; lia |].
  destruct slots as [| slot slots]; [discriminate Hslot |].
  destruct j as [| j].
  - injection Hslot as ->. cbn. lia.
  - cbn in Hslot. cbn [List.length] in Hj.
    specialize (IH slots j audioBuffer Hslot ltac:(lia)).
    change (<[S j := Some audioBuffer]> (slot :: slots))
      with (slot :: <[j := Some audioBuffer]> slots).
    cbn [zip_with nth].
    change (sum_list_with id) with (@sum_list) in *.
    destruct slot; cbn [sum_list sum_list_with id] in *; lia.
Qed.

Section ProcessedChars.

Variable textChunks : list JsString.
Variable concurrencyLimit : nat.
Variable generateSpeech : nat -> Settled AudioBuffer.
Variable errorAtRender : ErrorState.
Variable schedule : nat -> list SessionEvent.
Hypothesis positiveLimit : 1 <= concurrencyLimit.
Hypothesis fair :
  fairSchedule (List.length textChunks) concurrencyLimit schedule = true.

Local Abbreviation n := (List.length textChunks).
Local Abbreviation step := (handleEvent textChunks generateSpeech).
Local Abbreviation loop :=
  (dispatchLoop textChunks concurrencyLimit generateSpeech errorAtRender schedule).

Lemma fold_events_counted (events : list SessionEvent) :
  forall s,
    NoDup (settlesOf events) ->
    (forall j, j ∈ settlesOf events ->
       j < n /\ orderedBuffers s !! j = Some None) ->
    processedChars s = countedChars textChunks (orderedBuffers s) ->
    processedChars (fold_left step events s)
    = countedChars textChunks (orderedBuffers (fold_left step events s)).
Proof using Type.
  clear positiveLimit fair.
  induction events as [| e rest IH]; intros s Hnd Hempty Hcount; [exact Hcount |].
  change (fold_left step (e :: rest) s) with (fold_left step rest (step s e)).
  destruct e as [k |].
  - cbn [settlesOf omap] in Hnd, Hempty. fold (settlesOf rest) in Hnd, Hempty.
    apply NoDup_cons in Hnd as [Hfresh Hnd].
    destruct (Hempty k) as [Hk Hslot]; [apply elem_of_cons; left; reflexivity |].
    apply IH; [exact Hnd | |].
    + intros j Hj. destruct (Hempty j) as [Hjn Hjs];
        [apply elem_of_cons; right; exact Hj |].
      split; [exact Hjn |].
      assert (Hne : k <> j) by (intros ->; contradiction).
      unfold handleEvent, onFulfilled, onRejected.
      destruct (generateSpeech k); destruct (stopGenerationRef_current s);
        try exact Hjs.
      cbn [orderedBuffers]. rewrite list_lookup_insert_ne by exact Hne. exact Hjs.
    + unfold handleEvent, onFulfilled, onRejected.
      destruct (generateSpeech k) as [audioBuffer | reason];
        destruct (stopGenerationRef_current s); try exact Hcount.
      cbn [orderedBuffers processedChars].
      rewrite (countedChars_insert textChunks _ k audioBuffer Hslot Hk). lia.
  - cbn [settlesOf omap] in Hnd, Hempty. fold (settlesOf rest) in Hnd, Hempty.
    apply IH; [exact Hnd | | exact Hcount].
    intros j Hj. apply Hempty, Hj.
Qed.

Lemma dispatchLoop_counted (fuel : nat) :
  forall k s,
    n <= fuel + k * concurrencyLimit ->
    processedChars s = countedChars textChunks (orderedBuffers s) ->
    (forall j, k * concurrencyLimit <= j -> j < n ->
       orderedBuffers s !! j = Some None) ->
    exists s',
      loop fuel (k * concurrencyLimit) s = Some s'
      /\ processedChars s' = countedChars textChunks (orderedBuffers s').
Proof using positiveLimit fair.
  pose proof fair as Hfair. unfold fairSchedule in Hfair.
  rewrite forallb_forall in Hfair.
  induction fuel as [| fuel IH]; intros k s Hfuel Hcount Hempty;
    rewrite dispatchLoop_unfold.
  - destruct (Nat.leb_spec n (k * concurrencyLimit)) as [_ | Hlt]; [| lia].
    exists s. split; [reflexivity | exact Hcount].
  - destruct (Nat.leb_spec n (k * concurrencyLimit)) as [_ | Hlt];
      [exists s; split; [reflexivity | exact Hcount] |].
    destruct (stopGenerationRef_current s);
      [exists s; split; [reflexivity | exact Hcount] |].
    cbv zeta.
    set (i := k * concurrencyLimit) in *.
    set (s1 := startBatch i _ s).
    set (s2 := awaitBatch textChunks generateSpeech schedule i s1).
    assert (Hin := batchStart_elem textChunks concurrencyLimit k Hlt). fold i in Hin.
    assert (Hperm : settlesOf (schedule i) ≡ₚ batchOf n concurrencyLimit i).
    { eapply bool_decide_eq_true_1, (Hfair i Hin). }
    assert (Hmem : forall j, j ∈ settlesOf (schedule i)
                             <-> i <= j < i + concurrencyLimit /\ j < n).
    { intros j. rewrite Hperm. apply batchOf_elem. }
    assert (Hcount2 : processedChars s2 = countedChars textChunks (orderedBuffers s2)).
    { unfold s2, awaitBatch. apply fold_events_counted.
      - rewrite Hperm. unfold batchOf. apply NoDup_seq.
      - intros j Hj. apply Hmem in Hj. split; [lia |].
        cbn [s1 startBatch orderedBuffers]. apply Hempty; lia.
      - exact Hcount. }
    destruct (breakAfterBatch errorAtRender s2);
      [exists s2; split; [reflexivity | exact Hcount2] |].
    replace (i + concurrencyLimit) with (S k * concurrencyLimit) by (unfold i; lia).
    apply IH.
    + unfold i in *. lia.
    + exact Hcount2.
    + intros j Hj Hjn. unfold s2, awaitBatch.
      rewrite fold_events_untouched.
      * cbn [s1 startBatch orderedBuffers]. apply Hempty; unfold i in *; lia.
      * rewrite Hmem. unfold i in *. lia.
Qed.

(** X28. When the speech call of every chunk of a batch settles once
    while the batch is awaited, and whatever else happens (failures, a stop,
    an error message showing at the start), the count of the characters
    processed at the end of the dispatch is the sum of the lengths of the
    chunks whose slot holds audio: a chunk is counted if and only if its audio
    is stored. So the count never exceeds the sum of the lengths of the
    chunks. *)
Theorem processedChars_counts_the_stored_chunks :
  exists s,
    dispatchAll textChunks concurrencyLimit generateSpeech errorAtRender schedule
    = Some s
    /\ processedChars s = countedChars textChunks (orderedBuffers s)
    /\ processedChars s <= totalChars textChunks.
Proof using positiveLimit fair.
  unfold dispatchAll.
  destruct (dispatchLoop_counted n 0 (initialSession textChunks))
    as (s & Hrun & Hcount).
  { lia. }
  { cbn [initialSession processedChars orderedBuffers].
    rewrite countedChars_initial. reflexivity. }
  { intros j _ Hj. apply initialSession_slots, Hj. }
  exists s. split; [exact Hrun |]. split; [exact Hcount |].
  rewrite Hcount. apply countedChars_le.
Qed.

End ProcessedChars.

Lemma processedChars_counts_the_stored_chunks_witness :
  exists s,
    dispatchAll demoChunks 2 (generateSpeechWith (Some "key"%string) demoRemote)
      NoError demoSchedule = Some s
    /\ processedChars s = 4 + 6 + 5 + 5.
Proof.
  destruct (processedChars_counts_the_stored_chunks demoChunks 2
              (generateSpeechWith (Some "key"%string) demoRemote) NoError
              demoSchedule) as (s & Hrun & Hcount & _);
    [lia | vm_compute; reflexivity |].
  exists s. split; [exact Hrun |].
  vm_compute in Hrun. injection Hrun as <-. reflexivity.
Defined.

(** ** Showing a duration *)

Lemma Qfloor_unique (x : Q) (z : Z) :
  (inject_Z z <= x)%Q -> (x < inject_Z (z + 1))%Q -> Qfloor x = z.
Proof.
  intros Hlo Hhi.
  pose proof (Qfloor_le x) as Hfl. pose proof (Qlt_floor x) as Hlt.
  assert (Hupper : (Qfloor x < z + 1)%Z).
  { rewrite Zlt_Qlt. eapply Qle_lt_trans; [exact Hfl | exact Hhi]. }
  assert (Hlower : (z < Qfloor x + 1)%Z).
  { rewrite Zlt_Qlt. eapply Qle_lt_trans; [exact Hlo | exact Hlt]. }
  lia.
Qed.

(** Dividing by a positive integer and rounding down only needs the integral
    part of the dividend. *)
Lemma Qfloor_div_pos (x : Q) (k : positive) :
  Qfloor (x / inject_Z (Zpos k)) = (Qfloor x / Zpos k)%Z.
Proof.
  destruct x as [p q]. unfold Qdiv, Qmult, Qinv, inject_Z, Qfloor.
  cbn [Qnum Qden]. rewrite Z.mul_1_r, Pos2Z.inj_mul, Z.div_div by lia.
  reflexivity.
Qed.

Lemma Qfloor_remainder (a : Q) (k : positive) :
  (0 <= a)%Q ->
  Qfloor (remainder a (inject_Z (Zpos k))) = (Qfloor a mod Zpos k)%Z.
Proof.
  intros Hpos. unfold remainder.
  assert (Hquot : truncate (a / inject_Z (Zpos k)) = (Qfloor a / Zpos k)%Z).
  { unfold truncate.
    rewrite (proj2 (Qltb_false (a / inject_Z (Zpos k)) 0)).
    - apply Qfloor_div_pos.
    - apply Qle_shift_div_l; [reflexivity | lra]. }
  rewrite Hquot.
  pose proof (Qfloor_le a) as Hfl. pose proof (Qlt_floor a) as Hlt.
  set (n := Qfloor a) in *. set (h := (n / Zpos k)%Z).
  rewrite (Z.mod_eq n (Zpos k)) by lia. fold h.
  apply Qfloor_unique.
  - unfold Z.sub. rewrite inject_Z_plus, inject_Z_opp, inject_Z_mult. lra.
  - replace (n - Zpos k * h + 1)%Z with (n + 1 + - (Zpos k * h))%Z by lia.
    rewrite (inject_Z_plus (n + 1)), inject_Z_opp, inject_Z_mult. lra.
Qed.

Lemma remainder_nonnegative (a : Q) (k : positive) :
  (0 <= a)%Q -> (0 <= remainder a (inject_Z (Zpos k)))%Q.
Proof.
  intros Hpos. unfold remainder.
  assert (Hquot : truncate (a / inject_Z (Zpos k)) = Qfloor (a / inject_Z (Zpos k))).
  { unfold truncate.
    rewrite (proj2 (Qltb_false (a / inject_Z (Zpos k)) 0)); [reflexivity |].
    apply Qle_shift_div_l; [reflexivity | lra]. }
  rewrite Hquot.
  pose proof (Qfloor_le (a / inject_Z (Zpos k))) as Hfl.
  assert (Hk : (0 < inject_Z (Zpos k))%Q) by reflexivity.
  assert (Hmul : (inject_Z (Zpos k) * inject_Z (Qfloor (a / inject_Z (Zpos k)))
                  <= inject_Z (Zpos k) * (a / inject_Z (Zpos k)))%Q).
  { apply Qmult_le_l; assumption. }
  rewrite Qmult_div_r in Hmul by (intros H; discriminate H).
  lra.
Qed.

Lemma roundFloat_nonneg (prec emin : Z) (x : Q) :
  (0 <= x)%Q -> (0 <= roundFloat prec emin x)%Q.
Proof.
  intros Hpos. destruct (Qeq_dec x 0) as [Hz | Hnz].
  - rewrite (roundFloat_zero prec emin x Hz). apply Qle_refl.
  - destruct (roundFloat_near prec emin x Hnz) as (n & Hr & _ & Hn).
    pose proof (quantumOf_pos prec emin x) as Hq.
    assert (Hn0 : (0 <= n)%Z).
    { rewrite Hn. apply roundTiesToEven_ge.
      apply Qle_shift_div_l; [exact Hq |]. change (inject_Z 0) with 0%Q. lra. }
    rewrite Hr. rewrite Zle_Qle in Hn0. change (inject_Z 0) with 0%Q in Hn0. nra.
Qed.

(** A double below [2 ^ 53] is a multiple of its spacing, which is at most 1. *)
Lemma double_granular (x : Q) :
  (0 <= x)%Q -> (roundDouble x == x)%Q -> (x < 2 ^ 53)%Q -> exists g, granular x g.
Proof.
  intros Hpos Hrep Hsmall. destruct (Qeq_dec x 0) as [Hz | Hnz].
  - exists 0%Z. split; [lia |]. split.
    + exists 0%Z. rewrite Hz. reflexivity.
    + intros Hlt. lra.
  - assert (Hx : (0 < x)%Q).
    { destruct (Qlt_le_dec 0 x) as [H | H]; [exact H |]. exfalso. apply Hnz. lra. }
    destruct (roundFloat_near 53 (-1022) x Hnz) as (n & Hr & _ & _).
    fold (roundDouble x) in Hr. rewrite Hrep in Hr. unfold quantumOf in Hr.
    assert (Habs : binaryExponent (Qabs.Qabs x) = binaryExponent x).
    { apply binaryExponent_comp; [apply Qabs_pos_nonzero, Hnz |].
      apply Qabs.Qabs_pos. lra. }
    rewrite Habs in Hr.
    pose proof (binaryExponent_le x 52 Hx Hsmall) as Hbe.
    exists (Z.max (binaryExponent x) (-1022) - 53 + 1)%Z.
    split; [lia |]. split; [exists n; exact Hr | intros _; lia].
Qed.

(** Rounding the quotient of a double below [2 ^ 53] by a positive integer
    does not reach the next integer: the integral part of the quotient
    computed by the platform is that of the exact quotient. *)
Lemma floor_rounded_quotient (x : Q) (k : positive) (g : Z) :
  (0 <= x)%Q -> (x < 2 ^ 53)%Q -> granular x g ->
  Qfloor (roundDouble (x / inject_Z (Zpos k))) = Qfloor (x / inject_Z (Zpos k)).
Proof.
  intros Hpos Hsmall (Hg & (n & Hn) & Hgran).
  set (K := inject_Z (Zpos k)).
  assert (HK : (1 <= K)%Q).
  { unfold K. change 1%Q with (inject_Z 1). rewrite <- Zle_Qle. lia. }
  set (y := (x / K)%Q).
  assert (Hxy : (x == y * K)%Q) by (unfold y; field; lra).
  assert (Hy0 : (0 <= y)%Q).
  { unfold y. apply Qle_shift_div_l; lra. }
  pose proof (Qfloor_le y) as HNlo. pose proof (Qlt_floor y) as HNhi.
  set (N := Qfloor y) in *.
  rewrite inject_Z_plus in HNhi. change (inject_Z 1) with 1%Q in HNhi.
  assert (HN0 : (0 <= N)%Z).
  { unfold N. change 0%Z with (Qfloor 0). apply Qfloor_resp_le, Hy0. }
  apply Qfloor_unique; [| rewrite inject_Z_plus; change (inject_Z 1) with 1%Q].
  - (* the rounded quotient is not below the integer *)
    destruct (Qlt_le_dec y (1 # 2)) as [Htiny | Hbig].
    + assert (HNz : N = 0%Z).
      { assert (N < 1)%Z; [| lia]. rewrite Zlt_Qlt. change (inject_Z 1) with 1%Q. lra. }
      rewrite HNz. change (inject_Z 0) with 0%Q.
      apply roundFloat_nonneg, Hy0.
    + assert (Hynz : ~ (y == 0)%Q) by lra.
      destruct (roundFloat_near 53 (-1022) y Hynz) as (r & Hr & _ & Hrdef).
      fold (roundDouble y) in Hr. unfold quantumOf in *.
      assert (Habs : binaryExponent (Qabs.Qabs y) = binaryExponent y).
      { apply binaryExponent_comp; [apply Qabs_pos_nonzero, Hynz |].
        apply Qabs.Qabs_pos. lra. }
      rewrite Habs in *.
      assert (He1 : (-1 <= binaryExponent y)%Z).
      { apply binaryExponent_ge. change (2 ^ (-1))%Q with (1 # 2)%Q. exact Hbig. }
      assert (He2 : (binaryExponent y <= 52)%Z).
      { apply binaryExponent_le; [lra |]. change (52 + 1)%Z with 53%Z.
        assert (y <= x)%Q by nra. lra. }
      set (e := binaryExponent y) in *.
      replace (Z.max e (-1022) - 53 + 1)%Z with (e - 52)%Z in * by lia.
      set (q := (2 ^ (e - 52)%Z)%Q) in *.
      pose proof (pow2_pos (e - 52)) as Hq. fold q in Hq.
      assert (HP : (inject_Z (2 ^ (52 - e)) * q == 1)%Q).
      { rewrite <- pow2_integer by lia. unfold q. rewrite <- pow2_add.
        replace (52 - e + (e - 52))%Z with 0%Z by lia. reflexivity. }
      set (P := inject_Z (2 ^ (52 - e))) in *.
      assert (HPpos : (0 < P)%Q) by nra.
      assert (Hlow : (N * 2 ^ (52 - e) <= r)%Z).
      { rewrite Hrdef. apply roundTiesToEven_ge. rewrite inject_Z_mult. fold P.
        apply Qle_shift_div_l; [exact Hq |].
        assert (Hmul : (inject_Z N * P * q == inject_Z N)%Q).
        { rewrite <- Qmult_assoc, HP. ring. }
        rewrite Hmul. exact HNlo. }
      rewrite Hr. rewrite Zle_Qle, inject_Z_mult in Hlow. fold P in Hlow.
      assert (Hmul : (inject_Z N * P * q == inject_Z N)%Q).
      { rewrite <- Qmult_assoc, HP. ring. }
      nra.
  - (* the rounded quotient is below the next integer *)
    destruct (Qlt_le_dec y (1 # 2)) as [Htiny | Hbig].
    + assert (Hb : (Qabs.Qabs (roundDouble y) <= 2 ^ (-1))%Q).
      { apply roundFloat_bound; [lia | | lia].
        apply Qabs.Qabs_Qle_condition. change (2 ^ (-1))%Q with (1 # 2)%Q. lra. }
      apply Qabs.Qabs_Qle_condition in Hb. change (2 ^ (-1))%Q with (1 # 2)%Q in Hb.
      rewrite Zle_Qle in HN0. change (inject_Z 0) with 0%Q in HN0. lra.
    + assert (Hynz : ~ (y == 0)%Q) by lra.
      assert (Hx : (0 < x)%Q) by nra.
      specialize (Hgran Hx).
      destruct (roundFloat_near 53 (-1022) y Hynz) as (r & Hr & _ & Hrdef).
      fold (roundDouble y) in Hr. unfold quantumOf in *.
      assert (Habs : binaryExponent (Qabs.Qabs y) = binaryExponent y).
      { apply binaryExponent_comp; [apply Qabs_pos_nonzero, Hynz |].
        apply Qabs.Qabs_pos. lra. }
      rewrite Habs in *.
      assert (He1 : (-1 <= binaryExponent y)%Z).
      { apply binaryExponent_ge. change (2 ^ (-1))%Q with (1 # 2)%Q. exact Hbig. }
      assert (He2 : (binaryExponent y <= 52)%Z).
      { apply binaryExponent_le; [lra |]. change (52 + 1)%Z with 53%Z.
        assert (y <= x)%Q by nra. lra. }
      (* the exponent of the quotient *)
      pose proof (Z.log2_spec (Zpos k) ltac:(lia)) as [Hj1 Hj2].
      pose proof (Z.log2_nonneg (Zpos k)) as Hj0.
      set (j := Z.log2 (Zpos k)) in *.
      assert (HKlo : (2 ^ j <= K)%Q).
      { rewrite pow2_integer by lia. unfold K. rewrite <- Zle_Qle. exact Hj1. }
      assert (HKhi : (K < 2 ^ (j + 1))%Q).
      { rewrite pow2_integer by lia. unfold K. rewrite <- Zlt_Qlt.
        replace (j + 1)%Z with (Z.succ j) by lia. exact Hj2. }
      destruct (binaryExponent_spec x Hx) as [_ Hxhi].
      assert (He3 : (binaryExponent y <= binaryExponent x - j)%Z).
      { apply binaryExponent_le; [lra |].
        replace (binaryExponent x - j + 1)%Z with (binaryExponent x + 1 - j)%Z by lia.
        rewrite pow2_sub. pose proof (pow2_pos j) as Hpj.
        apply Qlt_shift_div_l; [exact Hpj |]. nra. }
      set (e := binaryExponent y) in *.
      replace (Z.max e (-1022) - 53 + 1)%Z with (e - 52)%Z in * by lia.
      set (q := (2 ^ (e - 52)%Z)%Q) in *.
      pose proof (pow2_pos (e - 52)) as Hq. fold q in Hq.
      assert (HP : (inject_Z (2 ^ (52 - e)) * q == 1)%Q).
      { rewrite <- pow2_integer by lia. unfold q. rewrite <- pow2_add.
        replace (52 - e + (e - 52))%Z with 0%Z by lia. reflexivity. }
      set (P := inject_Z (2 ^ (52 - e))) in *.
      assert (HPpos : (0 < P)%Q) by nra.
      (* the gap between the double and the next multiple of the divisor *)
      pose proof (pow2_pos g) as Hpg.
      assert (HG : (inject_Z (2 ^ (- g)) * 2 ^ g == 1)%Q).
      { rewrite <- pow2_integer by lia. rewrite <- pow2_add.
        replace (- g + g)%Z with 0%Z by lia. reflexivity. }
      assert (Hgap : (x + 2 ^ g <= K * (inject_Z N + 1))%Q).
      { assert (Hlt : (n < Zpos k * (N + 1) * 2 ^ (- g))%Z).
        { rewrite Zlt_Qlt, !inject_Z_mult, inject_Z_plus. fold K.
          change (inject_Z 1) with 1%Q.
          set (G := inject_Z (2 ^ (- g))) in *.
          assert (HGpos : (0 < G)%Q) by nra.
          assert (Hxn : (inject_Z n == x * G)%Q).
          { rewrite Hn, <- Qmult_assoc, (Qmult_comm (2 ^ g)), HG. ring. }
          rewrite Hxn.
          assert (Hxlt : (x < K * (inject_Z N + 1))%Q) by nra.
          apply Qmult_lt_compat_r; assumption. }
        assert (Hle : (n + 1 <= Zpos k * (N + 1) * 2 ^ (- g))%Z) by lia.
        rewrite Zle_Qle, inject_Z_plus, !inject_Z_mult, inject_Z_plus in Hle.
        fold K in Hle. change (inject_Z 1) with 1%Q in Hle.
        set (G := inject_Z (2 ^ (- g))) in *.
        assert (HGpos : (0 < G)%Q) by nra.
        assert (Hstep : ((inject_Z n + 1) * 2 ^ g <= K * (inject_Z N + 1) * G * 2 ^ g)%Q)
          by nra.
        rewrite <- (Qmult_assoc _ G), HG in Hstep. rewrite Hn. lra. }
      (* the spacing around the quotient is less than twice that gap *)
      assert (Hspacing : (K * q < 2 * 2 ^ g)%Q).
      { assert (Hq1 : (q <= 2 ^ (binaryExponent x - j - 52))%Q).
        { unfold q. apply pow2_le. lia. }
        assert (Hq2 : (2 ^ (j + 1) * 2 ^ (binaryExponent x - j - 52)
                       <= 2 * 2 ^ g)%Q).
        { rewrite <- pow2_add, <- pow2_succ. apply pow2_le. lia. }
        pose proof (pow2_pos (binaryExponent x - j - 52)) as Hp1.
        nra. }
      assert (Hhigh : (r < (N + 1) * 2 ^ (52 - e))%Z).
      { rewrite Hrdef. apply roundTiesToEven_lt.
        rewrite inject_Z_mult, inject_Z_plus. fold P. change (inject_Z 1) with 1%Q.
        apply Qlt_shift_div_r; [exact Hq |].
        assert (Hmul : (((inject_Z N + 1) * P - (1 # 2)) * q
                        == inject_Z N + 1 - (1 # 2) * q)%Q).
        { transitivity ((inject_Z N + 1) * (P * q) - (1 # 2) * q)%Q; [ring |].
          rewrite HP. ring. }
        rewrite Hmul. nra. }
      assert (Hle : (r + 1 <= (N + 1) * 2 ^ (52 - e))%Z) by lia.
      rewrite Zle_Qle, inject_Z_plus, inject_Z_mult, inject_Z_plus in Hle.
      fold P in Hle. change (inject_Z 1) with 1%Q in Hle.
      rewrite Hr.
      assert (Hstep : ((inject_Z r + 1) * q <= (inject_Z N + 1) * (P * q))%Q) by nra.
      rewrite HP in Hstep. lra.
Qed.

(** The magnitude of a double below [2 ^ 53] is a multiple of its spacing. *)
Lemma double_granular_abs (x : Q) :
  (roundDouble x == x)%Q -> (Qabs.Qabs x < 2 ^ 53)%Q ->
  exists g, granular (Qabs.Qabs x) g.
Proof.
  intros Hrep Hsmall. destruct (Qeq_dec x 0) as [Hz | Hnz].
  - exists 0%Z. split; [lia |]. split.
    + exists 0%Z. rewrite Hz. reflexivity.
    + intros Hlt. rewrite Hz in Hlt. discriminate Hlt.
  - pose proof (Qabs_pos_nonzero x Hnz) as Hx.
    destruct (roundFloat_near 53 (-1022) x Hnz) as (n & Hr & _ & _).
    fold (roundDouble x) in Hr. rewrite Hrep in Hr. unfold quantumOf in Hr.
    pose proof (binaryExponent_le _ 52 Hx Hsmall) as Hbe.
    set (e := binaryExponent (Qabs.Qabs x)) in *.
    exists (Z.max e (-1022) - 53 + 1)%Z.
    split; [lia |]. split.
    + exists (Z.abs n). rewrite Hr at 1.
      rewrite Qabs.Qabs_Qmult, Qabs_inject_Z.
      rewrite (Qabs.Qabs_pos (2 ^ _)) by (apply Qlt_le_weak, pow2_pos).
      reflexivity.
    + intros _. lia.
Qed.

(** The remainder of a double by a positive integer is as granular as the
    double. *)
Lemma remainder_granular (a : Q) (k : positive) (g : Z) :
  (0 <= a)%Q -> granular a g -> granular (remainder a (inject_Z (Zpos k))) g.
Proof.
  intros Hpos (Hg & (n & Hn) & Hgran).
  pose proof (remainder_nonnegative a k Hpos) as Hr0.
  split; [exact Hg |]. split.
  - unfold remainder.
    set (t := truncate (a / inject_Z (Zpos k))).
    exists (n - Zpos k * t * 2 ^ (- g))%Z.
    assert (HG : (inject_Z (2 ^ (- g)) * 2 ^ g == 1)%Q).
    { rewrite <- pow2_integer by lia. rewrite <- pow2_add.
      replace (- g + g)%Z with 0%Z by lia. reflexivity. }
    unfold Z.sub. rewrite inject_Z_plus, inject_Z_opp, !inject_Z_mult.
    set (G := inject_Z (2 ^ (- g))) in *. rewrite Hn.
    transitivity (inject_Z n * 2 ^ g
                  - inject_Z (Zpos k) * inject_Z t * (G * 2 ^ g))%Q; [| ring].
    rewrite HG. ring.
  - intros Hr.
    assert (Hle : (remainder a (inject_Z (Zpos k)) <= a)%Q).
    { unfold remainder in *.
      set (t := truncate (a / inject_Z (Zpos k))) in *.
      assert (Ht : (0 <= t)%Z).
      { unfold t, truncate.
        rewrite (proj2 (Qltb_false (a / inject_Z (Zpos k)) 0)).
        - change 0%Z with (Qfloor 0). apply Qfloor_resp_le.
          apply Qle_shift_div_l; [reflexivity | lra].
        - apply Qle_shift_div_l; [reflexivity | lra]. }
      rewrite Zle_Qle in Ht. change (inject_Z 0) with 0%Q in Ht.
      assert (0 < inject_Z (Zpos k))%Q by reflexivity. nra. }
    assert (Ha : (0 < a)%Q) by lra.
    specialize (Hgran Ha).
    destruct (binaryExponent_spec _ Hr) as [Hlo _].
    destruct (binaryExponent_spec _ Ha) as [_ Hhi].
    assert (binaryExponent (remainder a (inject_Z (Zpos k)))
            < binaryExponent a + 1)%Z by (apply pow2_lt_inv; lra).
    lia.
Qed.

(** A number below one hundred is shown by [padStart] as its two digits. *)
Lemma padStart_two_digits (v : Z) :
  (0 <= v < 60)%Z ->
  padStart (toString v) 2 "0"%char
  = String (digitChar (v / 10)) (String (digitChar (v mod 10)) EmptyString).
Proof.
  intros Hv. rewrite <- (Z2Nat.id v) by lia.
  assert (Hk : (Z.to_nat v < 60)%nat) by lia.
  generalize dependent (Z.to_nat v). clear Hv. intros k Hk.
  do 60 (destruct k as [| k]; [vm_compute; reflexivity |]).
  lia.
Qed.

Example formatTime_over_an_hour : formatTime (7451 # 2) = "1:02:05"%string.
Proof. vm_compute. reflexivity. Qed.

Example formatTime_negative : formatTime (- (131 # 2)) = "-01:05"%string.
Proof. vm_compute. reflexivity. Qed.

(** Beyond [2 ^ 53] the quotient by 3600 is rounded to another integer: the
    hours of [1e19] seconds are 2777777777777778, not 2777777777777777. *)
Example formatTime_beyond_the_integers :
  formatTime 10000000000000000000 = "2777777777777778:46:40"%string
  /\ (10000000000000000000 / 3600 = 2777777777777777)%Z.
Proof. split; vm_compute; reflexivity. Qed.

(** X29. For a double of magnitude below [2 ^ 53], [formatTime] shows the
    whole seconds of the absolute value of its argument, split into hours,
    minutes and seconds. With [n = floor |seconds|], [h = n / 3600],
    [m = (n mod 3600) / 60] and [s = n mod 60] (so that
    [h * 3600 + m * 60 + s = n], with [m] and [s] below 60), the result is a
    minus sign when [seconds < 0], then the decimal digits of [h] and a colon
    when [h > 0] and nothing otherwise, then the two digits of [m], a colon
    and the two digits of [s]: the rounding of the two quotients never reaches
    the next integer. The fraction of a second is dropped also for negative
    arguments (rounding is toward zero, not down), and the minutes and seconds
    always take two characters. *)
Theorem formatTime_shows_whole_seconds (seconds : Q) :
  (roundDouble seconds == seconds)%Q ->
  (Qabs.Qabs seconds < 2 ^ 53)%Q ->
  let n := Qfloor (Qabs.Qabs seconds) in
  let h := (n / 3600)%Z in
  let m := (n mod 3600 / 60)%Z in
  let s := (n mod 60)%Z in
  let twoDigits := fun v =>
    String (digitChar (v / 10)) (String (digitChar (v mod 10)) EmptyString) in
  formatTime seconds
  = ((if Qltb seconds 0 then "-" else "")
     ++ (if (0 <? h)%Z then toString h ++ ":" else "")
     ++ twoDigits m ++ ":" ++ twoDigits s)%string
  /\ (h * 3600 + m * 60 + s = n)%Z
  /\ (0 <= h)%Z /\ (0 <= m < 60)%Z /\ (0 <= s < 60)%Z
  /\ n = (if Qltb seconds 0 then - Qceiling seconds else Qfloor seconds)%Z.
Proof.
  intros Hdouble Hsmall n h m s twoDigits.
  pose proof (Qabs.Qabs_nonneg seconds) as Habs.
  destruct (double_granular_abs seconds Hdouble Hsmall) as (g & Hgran).
  assert (Hn : (0 <= n)%Z).
  { unfold n. change 0%Z with (Qfloor 0). apply Qfloor_resp_le. exact Habs. }
  assert (Hh : Qfloor (roundDouble (Qabs.Qabs seconds / 3600)) = h).
  { transitivity (Qfloor (Qabs.Qabs seconds / 3600)).
    - exact (floor_rounded_quotient (Qabs.Qabs seconds) 3600 g Habs Hsmall Hgran).
    - exact (Qfloor_div_pos (Qabs.Qabs seconds) 3600). }
  pose proof (Qfloor_remainder (Qabs.Qabs seconds) 3600 Habs) as Hrem.
  pose proof (remainder_nonnegative (Qabs.Qabs seconds) 3600 Habs) as Hrem0.
  assert (Hremsmall : (remainder (Qabs.Qabs seconds) 3600 < 2 ^ 53)%Q).
  { pose proof (Qlt_floor (remainder (Qabs.Qabs seconds) 3600)) as Hlt.
    change (inject_Z 3600) with 3600%Q in Hrem. rewrite Hrem in Hlt.
    pose proof (Z.mod_pos_bound (Qfloor (Qabs.Qabs seconds)) 3600 ltac:(lia)) as Hb.
    assert (Hle : (Qfloor (Qabs.Qabs seconds) mod 3600 + 1 <= 3600)%Z) by lia.
    rewrite Zle_Qle in Hle. change (2 ^ 53)%Q with 9007199254740992%Q.
    change (inject_Z 3600) with 3600%Q in Hle. lra. }
  assert (Hm : Qfloor (roundDouble (remainder (Qabs.Qabs seconds) 3600 / 60)) = m).
  { transitivity (Qfloor (remainder (Qabs.Qabs seconds) 3600 / 60)).
    { exact (floor_rounded_quotient (remainder (Qabs.Qabs seconds) 3600) 60 g
               Hrem0 Hremsmall
               (remainder_granular (Qabs.Qabs seconds) 3600 g Habs Hgran)). }
    transitivity (Qfloor (remainder (Qabs.Qabs seconds) 3600) / 60)%Z.
    - exact (Qfloor_div_pos (remainder (Qabs.Qabs seconds) 3600) 60).
    - exact (f_equal (fun z => (z / 60)%Z) Hrem). }
  assert (Hs : Qfloor (remainder (Qabs.Qabs seconds) 60) = s).
  { exact (Qfloor_remainder (Qabs.Qabs seconds) 60 Habs). }
  assert (Hmr : (0 <= m < 60)%Z).
  { unfold m. pose proof (Z.mod_pos_bound n 3600 ltac:(lia)).
    split; [apply Z.div_pos; lia | apply Z.div_lt_upper_bound; lia]. }
  assert (Hsr : (0 <= s < 60)%Z) by (unfold s; apply Z.mod_pos_bound; lia).
  split; [| split; [| split; [| split; [| split]]]].
  - unfold formatTime. cbv zeta. rewrite Hh, Hm, Hs.
    cbn [map]. rewrite (padStart_two_digits m Hmr), (padStart_two_digits s Hsr).
    fold (twoDigits m). fold (twoDigits s).
    destruct (0 <? h)%Z; [| reflexivity].
    cbn [String.concat]. f_equal.
    induction (toString h) as [| c rest IH]; [reflexivity |].
    change (String c (rest ++ ":" ++ twoDigits m ++ ":" ++ twoDigits s)
            = String c ((rest ++ ":") ++ twoDigits m ++ ":" ++ twoDigits s))%string.
    rewrite IH. reflexivity.
  - unfold h, m, s. clear. Z.div_mod_to_equations. lia.
  - unfold h. apply Z.div_pos; lia.
  - exact Hmr.
  - exact Hsr.
  - unfold n. destruct (Qltb seconds 0) eqn:Hneg.
    + apply Qltb_true in Hneg.
      rewrite (Qabs.Qabs_neg seconds) by lra.
      unfold Qceiling. rewrite Z.opp_involutive. reflexivity.
    + apply Qltb_false in Hneg.
      rewrite (Qabs.Qabs_pos seconds) by exact Hneg. reflexivity.
Qed.

(** A duration of 20.3 seconds at 24000 Hz, the double nearest to 487200 /
    24000, and a negative one. *)
Lemma formatTime_shows_whole_seconds_witness :
  formatTime (roundDouble (203 # 10)) = "00:20"%string
  /\ formatTime (- (7451 # 2)) = "-1:02:05"%string.
Proof.
  destruct (formatTime_shows_whole_seconds (roundDouble (203 # 10)))
    as [Hshort _]; [vm_compute; reflexivity | vm_compute; reflexivity |].
  destruct (formatTime_shows_whole_seconds (- (7451 # 2)))
    as [Hlong _]; [vm_compute; reflexivity | vm_compute; reflexivity |].
  split; [rewrite Hshort | rewrite Hlong]; vm_compute; reflexivity.
Defined.

(** ** A run with background music *)

(** A run in which every speech call succeeds reaches the steps after the
    combination, with the combination of the audio of the chunks. *)
Lemma successful_run_reaches_finish (context : AudioContext)
    (mix : MixSettings) (concurrencyLimit : nat) (audio : nat -> AudioBuffer)
    (schedule : nat -> list SessionEvent) (text : JsString) :
  let textChunks := segment MAX_CHARS_PER_AUDIO_CHUNK text in
  let buffers := map audio (seq 0 (List.length textChunks)) in
  1 <= concurrencyLimit ->
  truthy (trim text) = true ->
  List.length text <= MAX_TEXT_LENGTH ->
  fairSchedule (List.length textChunks) concurrencyLimit schedule = true ->
  uninterrupted (List.length textChunks) concurrencyLimit schedule = true ->
  forallb wfBuffer buffers = true ->
  sameFormat buffers = true ->
  exists speech,
    handleGenerateAudio context mix concurrencyLimit (allResolve audio) NoError
      schedule text
    = Some {| outcome := finish context mix speech; combined := Some (Ok speech) |}
    /\ combineAudioBuffers context buffers = Ok speech
    /\ AudioBuffer.numberOfChannels speech = AudioBuffer.numberOfChannels (audio 0)
    /\ AudioBuffer.length speech = totalLengthOf buffers
    /\ wfBuffer speech = true
    /\ (forall c, c < AudioBuffer.numberOfChannels speech ->
          channelOf speech c = concat (map (fun b => channelOf b c) buffers)).
Proof.
  cbv zeta. intros Hlimit Ht Hshort Hfair Hfree Hwf Hfmt.
  set (textChunks := segment MAX_CHARS_PER_AUDIO_CHUNK text) in *.
  set (n := List.length textChunks) in *.
  pose proof (segment_nonempty MAX_CHARS_PER_AUDIO_CHUNK text Ht) as Hsome.
  fold textChunks in Hsome.
  assert (Hn : 1 <= n).
  { unfold n. destruct textChunks; [contradiction | simpl; lia]. }
  unfold handleGenerateAudio. rewrite Ht. cbn [negb].
  destruct (Nat.ltb_spec MAX_TEXT_LENGTH (List.length text)) as [Hlong | _]; [lia |].
  fold textChunks. fold n.
  destruct (Nat.eqb_spec n 0) as [Hzero | _]; [lia |].
  unfold dispatchAll. fold n.
  destruct (dispatchLoop_sound textChunks concurrencyLimit (allResolve audio)
              NoError schedule Hlimit n 0 (initialSession textChunks))
    as (s & Hrun & Hlen & _).
  { lia. } { simpl. apply length_replicate. } { apply initialSession_sound. }
  destruct (dispatchLoop_complete textChunks concurrencyLimit (allResolve audio)
              NoError schedule Hlimit n eq_refl Hfair Hfree 0
              (initialSession textChunks))
    as (s' & Hrun' & Hstop & Hslots).
  { lia. } { reflexivity. } { simpl. apply length_replicate. }
  { intros j Hj. rewrite initialSession_slots by exact Hj. reflexivity. }
  simpl in Hrun'. rewrite Hrun in Hrun'. injection Hrun' as <-.
  rewrite Hrun.
  assert (Hbuffers : orderedBuffers s = map (fun j => Some (audio j)) (seq 0 n)).
  { apply list_eq. intros j.
    destruct (Nat.lt_ge_cases j n) as [Hj | Hj].
    - rewrite (Hslots j Hj). cbn [allResolve audioOf].
      change (map (fun j0 => Some (audio j0)) (seq 0 n))
        with ((fun j0 => Some (audio j0)) <$> seq 0 n).
      rewrite list_lookup_fmap, lookup_seq_lt by exact Hj. reflexivity.
    - rewrite lookup_ge_None_2 by (fold n in Hlen; lia).
      rewrite lookup_ge_None_2 by (rewrite length_map, length_seq; exact Hj).
      reflexivity. }
  unfold assemble. rewrite Hstop, Hbuffers, validBuffersOf_all.
  rewrite length_map, length_seq. fold n.
  destruct (Nat.ltb_spec 0 n) as [_ | Hbad]; [| lia].
  rewrite Nat.eqb_refl. cbn [negb andb].
  destruct n as [| n']; [lia |].
  change (seq 0 (S n')) with (0 :: seq 1 n') in *.
  cbn [map] in *.
  destruct (combineAudioBuffers_spec context (audio 0) (map audio (seq 1 n')) Hwf Hfmt)
    as (speech & Hcombine & _ & Hchannels & Hlength & Hwfs & Hdata).
  rewrite Hcombine. exists speech.
  split; [reflexivity |]. split; [reflexivity |]. split; [exact Hchannels |].
  split; [exact Hlength |]. split; [exact Hwfs | exact Hdata].
Qed.

Lemma finiteSamples_concat (buffers : list AudioBuffer) (c i : nat) :
  forallb finiteSamples buffers = true ->
  (Qabs.Qabs (nth i (concat (map (fun b => channelOf b c) buffers)) 0) <= 2 ^ 128)%Q.
Proof.
  intros Hfin. rewrite forallb_forall in Hfin.
  destruct (nth_in_or_default i (concat (map (fun b => channelOf b c) buffers)) 0%Q)
    as [Hin | ->].
  - apply in_concat in Hin as (samples & Hsamples & Hin).
    apply in_map_iff in Hsamples as (b & <- & Hb).
    destruct (In_nth _ _ 0%Q Hin) as (j & _ & <-).
    apply finiteSamples_nth, Hfin, Hb.
  - apply Qlt_le_weak. exact (pow2_pos 128).
Qed.

(** X30. A run with a background track. When every speech call succeeds
    (same conditions as for a run without music) and the track has at least
    as many channels as the speech, the run ends as an export of the mix: the
    file lasts as long as the longer of the combined speech and the track, so
    a track longer than the speech is not cut at the end of the speech; every
    sample is the clamped sum of the speech scaled by the speech volume, while
    the speech lasts, and of the track scaled by the music volume, the track
    starting over whenever it ends. The sum is that of the platform (products
    and sum rounded to doubles, which for finite samples and volumes up to
    [2 ^ 512] stay far below the largest double), and the clamped sum is
    stored as a number of a [Float32Array]. When the track has fewer channels
    than the speech, the combination succeeds but the mix raises an
    [IndexSizeError]: the run ends with that error and nothing is exported. *)
Theorem run_with_background_music (context : AudioContext)
    (mix : MixSettings) (music : AudioBuffer) (concurrencyLimit : nat)
    (audio : nat -> AudioBuffer) (schedule : nat -> list SessionEvent)
    (text : JsString) :
  let textChunks := segment MAX_CHARS_PER_AUDIO_CHUNK text in
  let buffers := map audio (seq 0 (List.length textChunks)) in
  let speechChannel := fun c => concat (map (fun b => channelOf b c) buffers) in
  let run := handleGenerateAudio context mix concurrencyLimit (allResolve audio)
               NoError schedule text in
  1 <= concurrencyLimit ->
  truthy (trim text) = true ->
  List.length text <= MAX_TEXT_LENGTH ->
  backgroundMusicBuffer mix = Some music ->
  wfBuffer music = true ->
  fairSchedule (List.length textChunks) concurrencyLimit schedule = true ->
  uninterrupted (List.length textChunks) concurrencyLimit schedule = true ->
  forallb wfBuffer buffers = true ->
  sameFormat buffers = true ->
  forallb finiteSamples buffers = true -> finiteSamples music = true ->
  finiteGain (speechVolume mix) = true -> finiteGain (musicVolume mix) = true ->
  (AudioBuffer.numberOfChannels (audio 0) <= AudioBuffer.numberOfChannels music ->
   exists speech out wav,
     run = Some {| outcome := Exported out wav; combined := Some (Ok speech) |}
     /\ AudioBuffer.numberOfChannels out = AudioBuffer.numberOfChannels (audio 0)
     /\ AudioBuffer.length out
        = Nat.max (totalLengthOf buffers) (AudioBuffer.length music)
     /\ (forall c,
           c < AudioBuffer.numberOfChannels out ->
           List.length (channelOf out c) = AudioBuffer.length out
           /\ forall i,
                i < AudioBuffer.length out ->
                let speechSample :=
                  if (i <? totalLengthOf buffers)%nat
                  then nth i (speechChannel c) 0%Q else 0%Q in
                let musicSample :=
                  nth (i mod AudioBuffer.length music) (channelOf music c) 0%Q in
                let sum := scaledSum speechSample (speechVolume mix)
                             musicSample (musicVolume mix) in
                channelOf out c !! i = Some (Math_fround (clampSample sum))
                /\ (Qabs.Qabs sum <= 2 ^ 641)%Q)
     /\ wav = flat_map (fun c => floatTo16BitPCM (channelOf out c))
                (seq 0 (AudioBuffer.numberOfChannels out)))
  /\ (AudioBuffer.numberOfChannels music < AudioBuffer.numberOfChannels (audio 0) ->
      exists speech,
        run = Some {| outcome := Ended (Unexpected IndexSizeError);
                      combined := Some (Ok speech) |}).
Proof.
  cbv zeta.
  intros Hlimit Ht Hshort Hmusic Hwfm Hfair Hfree Hwf Hfmt Hfs Hfm Hgs Hgm.
  destruct (successful_run_reaches_finish context mix concurrencyLimit audio
              schedule text Hlimit Ht Hshort Hfair Hfree Hwf Hfmt)
    as (speech & Hrun & _ & Hchannels & Hlength & Hwfs & Hdata).
  rewrite Hrun. unfold finish. rewrite Hmusic. split.
  - intros Hle.
    destruct (mixAudioBuffers_spec context speech music (speechVolume mix)
                (musicVolume mix) Hwfs Hwfm) as (out & Hmix & _ & Hnc & Hlen & Hin).
    { rewrite Hchannels. exact Hle. }
    rewrite Hmix. cbn [bind]. rewrite exportWAV_samples_spec. cbn [bind].
    exists speech, out. eexists. split; [reflexivity |].
    split; [rewrite Hnc; exact Hchannels |].
    split; [rewrite Hlen, Hlength; reflexivity |].
    split; [| reflexivity].
    intros c Hc. rewrite Hnc in Hc.
    destruct (Hin c Hc) as [Hclen Hsamples].
    split; [exact Hclen |]. intros i Hi.
    split.
    + rewrite (Hsamples i Hi).
      rewrite (mixedSampleAt_platform speech music c i (speechVolume mix)
                 (musicVolume mix) Hwfs Hwfm Hc) by lia.
      unfold speechSampleAt, musicSampleAt.
      rewrite Hlength, (Hdata c Hc). reflexivity.
    + apply scaledSum_finite.
      * destruct (i <? _)%nat; [apply finiteSamples_concat, Hfs |].
        apply Qlt_le_weak. exact (pow2_pos 128).
      * apply Qle_bool_iff, Hgs.
      * apply finiteSamples_nth, Hfm.
      * apply Qle_bool_iff, Hgm.
  - intros Hlt.
    rewrite (mixAudioBuffers_missing_channel context speech music
               (speechVolume mix) (musicVolume mix) Hwfs) by (rewrite Hchannels; exact Hlt).
    cbn [bind]. exists speech. reflexivity.
Qed.

(** Three frames of speech at 0.5 over a track of two frames, 0.75 and
    -0.5, with the volumes 0.8 and 0.3: the samples stored are the numbers of
    a [Float32Array] nearest to 0.625, 0.25 and 0.625, and the file holds
    them as 20479, 8191 and 20479. *)
Lemma run_with_background_music_witness :
  exists speech out wav,
    handleGenerateAudio demoContext demoMusicMix 2 (allResolve demoAudio) NoError
      (fun i => match i with 0 => [ChunkSettled 1; ChunkSettled 0] | _ => [] end)
      demoText
    = Some {| outcome := Exported out wav; combined := Some (Ok speech) |}
    /\ AudioBuffer.length out = 3
    /\ channelOf out 0 !! 2 = Some (5 # 8)%Q
    /\ wav = [20479; 8191; 20479]%Z.
Proof.
  destruct (run_with_background_music demoContext demoMusicMix demoMusic 2
              demoAudio
              (fun i => match i with 0 => [ChunkSettled 1; ChunkSettled 0] | _ => [] end)
              demoText)
    as [Hmixed _];
    [lia | reflexivity | apply Nat.leb_le; vm_compute; reflexivity | reflexivity
    | reflexivity | vm_compute; reflexivity | vm_compute; reflexivity
    | vm_compute; reflexivity | vm_compute; reflexivity
    | vm_compute; reflexivity | vm_compute; reflexivity
    | vm_compute; reflexivity | vm_compute; reflexivity |].
  destruct Hmixed as (speech & out & wav & Hrun & Hnc & Hlen & Hsamples & Hwav);
    [vm_compute; lia |].
  exists speech, out, wav. split; [exact Hrun |].
  assert (Hthree : AudioBuffer.length out = 3).
  { rewrite Hlen. vm_compute. reflexivity. }
  split; [exact Hthree |].
  assert (Hone : AudioBuffer.numberOfChannels out = 1).
  { rewrite Hnc. reflexivity. }
  destruct (Hsamples 0) as [Hclen Hstored]; [rewrite Hone; lia |].
  assert (Hat : forall i, i < 3 -> channelOf out 0 !! i
                                   = Some (nth i [5 # 8; 1 # 4; 5 # 8]%Q 0%Q)).
  { intros i Hi. destruct (Hstored i) as [Hsample _]; [rewrite Hthree; exact Hi |].
    rewrite Hsample.
    destruct i as [| [| [| i]]]; [vm_compute; reflexivity .. | lia]. }
  split; [exact (Hat 2 ltac:(lia)) |].
  assert (Hchannel : channelOf out 0 = [5 # 8; 1 # 4; 5 # 8]%Q).
  { apply list_eq. intros i.
    destruct (Nat.lt_ge_cases i 3) as [Hi | Hi].
    - rewrite (Hat i Hi). destruct i as [| [| [| i]]]; [reflexivity .. | lia].
    - rewrite !lookup_ge_None_2; [reflexivity | simpl; lia |].
      rewrite Hclen, Hthree. exact Hi. }
  rewrite Hwav, Hone. cbn [seq flat_map]. rewrite Hchannel. vm_compute. reflexivity.
Defined.
